(** * Transpose optimizer: a shallow embedding and its verified properties

    The development follows the layout of the optimizer's source: helper
    utilities on permutations and axes first, then the graph interface the
    optimizer is written against, the core helpers that edit the graph, the
    cost heuristics, the per-operator handlers, the dispatch tables and the
    driver.  Theorems come after the definitions.

    Conventions.
    - [int64_t] values are [Z]; [size_t] values are [nat] when they are
      lengths or loop counters.
    - [std::vector<T>] is [list T].  Indexing a vector outside its bounds,
      dereferencing an empty [std::optional] and using a reference to a
      removed node are undefined behaviour in the source; the embedding
      makes each of them an explicit failure ([None]).
    - [gsl::narrow_cast<size_t>(x)] of a negative [x] is at least [2^63],
      past the end of every vector, so an index is kept as a [Z] and a
      negative index is out of bounds. *)

From stdpp Require Import base option list sorting strings pretty gmap fin_maps.
From Stdlib Require Import ZArith Lia.

Local Open Scope Z_scope.

(** ** Vectors *)

(** [v[i]] for reading. *)
Definition vec_get {A} (v : list A) (i : Z) : option A :=
  if decide (0 ≤ i) then v !! Z.to_nat i else None.

(** [v[i] = x]. *)
Definition vec_set {A} (v : list A) (i : Z) (x : A) : option (list A) :=
  if decide (0 ≤ i < Z.of_nat (length v)) then Some (<[Z.to_nat i := x]> v) else None.

(** A loop over the elements of a vector whose body may fail. *)
Fixpoint vec_fold {A B} (body : B → A → option B) (acc : B) (v : list A) : option B :=
  match v with
  | [] => Some acc
  | x :: rest => acc' ← body acc x; vec_fold body acc' rest
  end.

(** The indices [lo, lo+1, ..., lo+n-1] of a counting loop. *)
Definition index_range (lo : nat) (n : nat) : list Z := Z.of_nat <$> seq lo n.

(** ** Helper utilities on permutations and axes *)

Fixpoint IsValidPerm_loop (rank_int : Z) (used_dims : list bool) (perm : list Z) : bool :=
  match perm with
  | [] => true
  | x :: rest =>
      if bool_decide (x < 0) || bool_decide (x >= rank_int)
         || default false (used_dims !! Z.to_nat x)
      then false
      else IsValidPerm_loop rank_int (<[Z.to_nat x := true]> used_dims) rest
  end.

(** Returns whether perm contains each value from 0 to perm.size() - 1
    exactly once. *)
Definition IsValidPerm (perm : list Z) : bool :=
  IsValidPerm_loop (Z.of_nat (length perm)) (replicate (length perm) false) perm.

(** The loop of [NormalizeAndValidateAxes] from position [i] on: the part of
    the vector still to visit is the argument, the result is the verdict and
    that part as the loop leaves it. *)
Fixpoint NormalizeAndValidateAxes_loop (rank_int : Z) (used_dims : list bool)
    (axes : list Z) : bool * list Z :=
  match axes with
  | [] => (true, [])
  | a :: rest =>
      if decide (a < 0) then
        let a' := a + rank_int in
        if bool_decide (a' < 0) || bool_decide (a' >= rank_int)
           || default false (used_dims !! Z.to_nat a')
        then (false, a' :: rest)
        else
          let '(ok, rest') :=
            NormalizeAndValidateAxes_loop rank_int (<[Z.to_nat a' := true]> used_dims) rest in
          (ok, a' :: rest')
      else
        let '(ok, rest') := NormalizeAndValidateAxes_loop rank_int used_dims rest in
        (ok, a :: rest')
  end.

(** [NormalizeAndValidateAxes(axes, rank)]: the returned pair is the boolean
    result and the contents of [axes] (taken by reference) afterwards. *)
Definition NormalizeAndValidateAxes (axes : list Z) (rank : nat) : bool * list Z :=
  NormalizeAndValidateAxes_loop (Z.of_nat rank) (replicate rank false) axes.

(** [NormalizeAndValidateAxis(axis, rank)]: result and [axis] afterwards. *)
Definition NormalizeAndValidateAxis (axis : Z) (rank : nat) : bool * Z :=
  let rank_int := Z.of_nat rank in
  let axis' := if decide (axis < 0) then axis + rank_int else axis in
  (bool_decide (axis' >= 0) && bool_decide (axis' < rank_int), axis').

(** Computes inverse permutation. *)
Definition InvertPerm (perm : list Z) : option (list Z) :=
  let rank := length perm in
  vec_fold (λ perm_inv '(i, j), vec_set perm_inv j i)
           (replicate rank 0) (zip (index_range 0 rank) perm).

(** Computes composition of perm1 and perm2. *)
Definition ComposePerm (perm1 perm2 : list Z) : option (list Z) :=
  vec_fold (λ perm p, x ← vec_get perm1 p; Some (perm ++ [x])) [] perm2.

(** Returns true if perm[i] = i everywhere. *)
Definition IsIdentityPerm (perm : list Z) : bool :=
  forallb (λ '(i, p), bool_decide (p = i)) (zip (index_range 0 (length perm)) perm).

(** Computes permutation from channel last to channel first ordering of
    given rank. *)
Definition ChannelLastToFirstPerm (rank : nat) : option (list Z) :=
  let p := replicate rank 0 in
  p ← vec_set p 0 0;
  p ← vec_set p 1 (Z.of_nat rank - 1);
  vec_fold (λ p i, vec_set p i (i - 1)) p (index_range 2 (rank - 2)).

(** Marks [flags[a] = true] for every [a] of [axes]. *)
Definition mark_axes (flags : list bool) (axes : list Z) : option (list bool) :=
  vec_fold (λ fl a, vec_set fl a true) flags axes.

(** Adds 1 dimensions to indices of shape corresponding to axes.  The state
    of the second loop is the vector being filled and the counter [j]. *)
Definition UnsqueezeShape (shape axes : list Z) : option (list Z) :=
  let new_rank := (length shape + length axes)%nat in
  new_shape ← vec_fold (λ ns a, vec_set ns a 1) (replicate new_rank 0) axes;
  r ← vec_fold (λ '(ns, j) i,
         d ← vec_get ns i;
         if decide (d ≠ 1) then
           s ← vec_get shape j; ns' ← vec_set ns i s; Some (ns', j + 1)
         else Some (ns, j))
       (new_shape, 0) (index_range 0 new_rank);
  Some r.1.

(** Computes new perm for unsqueezed version of a tensor. *)
Definition UnsqueezePerm (axes perm : list Z) : option (list Z) :=
  let old_rank := length perm in
  let new_rank := (old_rank + length axes)%nat in
  is_added_axis ← mark_axes (replicate new_rank false) axes;
  axes_map ← vec_fold (λ am i,
         added ← vec_get is_added_axis i;
         Some (if added : bool then am else am ++ [i]))
       [] (index_range 0 new_rank);
  r ← vec_fold (λ '(new_perm, j) i,
         added ← vec_get is_added_axis i;
         if added : bool then Some (new_perm ++ [i], j)
         else
           perm_axis ← vec_get perm j;
           x ← vec_get axes_map perm_axis;
           Some (new_perm ++ [x], j + 1))
       ([], 0) (index_range 0 new_rank);
  Some r.1.

(** Computes new perm for squeezed version of a tensor. *)
Definition SqueezePerm (axes perm : list Z) : option (list Z) :=
  let rank := length perm in
  is_removed_axis ← mark_axes (replicate rank false) axes;
  r ← vec_fold (λ '(axes_map, j) i,
         removed ← vec_get is_removed_axis i;
         if removed : bool then Some (axes_map, j)
         else am ← vec_set axes_map i j; Some (am, j + 1))
       (replicate rank 0, 0) (index_range 0 rank);
  let axes_map := r.1 in
  vec_fold (λ new_perm p,
         removed ← vec_get is_removed_axis p;
         if removed : bool then Some new_perm
         else x ← vec_get axes_map p; Some (new_perm ++ [x]))
       [] perm.

(** Computes a new axes attribute for an input that has been permuted using
    perm.  Ex: perm = [2, 0, 1], axes = [0, 1], new_axes = [2, 0]. *)
Definition AxesForTransposedInput (axes perm : list Z) : option (list Z) :=
  vec_fold (λ new_axes a, x ← vec_get perm a; Some (new_axes ++ [x])) [] axes.

(** Computes a new axes attribute for an input that has been permuted using
    perm and sorts the result.
    Ex: perm = [2, 0, 1], axes = [0, 1], new_axes = [0, 2]. *)
Definition SortedAxesForTransposedInput (axes perm : list Z) : option (list Z) :=
  let rank := length perm in
  should_include_axis ← vec_fold (λ fl a,
         new_axis ← vec_get perm a; vec_set fl new_axis true)
       (replicate rank false) axes;
  Some (filter (λ a, default false (should_include_axis !! Z.to_nat a) = true)
               (index_range 0 rank)).

(** Reorder pads according to perm.  Pads length is twice perm length (all
    starts then all ends). *)
Definition PermutePads (pads perm : list Z) : option (list Z) :=
  let rank := Z.of_nat (length perm) in
  starts ← vec_fold (λ np i, x ← vec_get pads i; Some (np ++ [x])) [] perm;
  vec_fold (λ np i, x ← vec_get pads (i + rank); Some (np ++ [x])) starts perm.


(** ** The graph interface

    Modelled from the spec: the graph capability ([api.h]: [GraphRef],
    [NodeRef], [TensorRef], [ValueInfoRef]) is declared outside the
    optimizer's source file.  The definitions of this section follow the
    spec's data model and its list of graph operations: nodes with an op
    type, a domain, attributes, inputs and outputs; named initializers;
    per-value [ValueInfo]; consumer sets with a [comprehensive] flag. *)

Inductive DataType :=
  | DT_UINT8 | DT_INT8 | DT_INT32 | DT_INT64 | DT_FLOAT | DT_UNDEFINED.

Global Instance DataType_eq_dec : EqDecision DataType.
Proof. solve_decision. Defined.

(** A constant tensor: element type, shape and elements in row-major order. *)
Record Tensor := mkTensor {
  t_dtype : DataType;
  t_shape : list Z;
  t_data : list Z
}.

(** Dtype and optional shape of a value; a symbolic dimension is [-1]. *)
Record ValueInfo := mkValueInfo {
  vi_dtype : DataType;
  vi_shape : option (list Z)
}.

Inductive AttrValue :=
  | AttrInt (v : Z)
  | AttrInts (v : list Z)
  | AttrOther (payload : string).

Record Node := mkNode {
  n_op_type : string;
  n_domain : string;
  n_attrs : gmap string AttrValue;
  n_inputs : list string;
  n_outputs : list string
}.

(** A [NodeRef] names a node of the graph; it dangles once the node is
    removed. *)
Definition NodeRef := nat.

Record Graph := mkGraph {
  g_opsets : gmap string Z;
  (** the live nodes, in topological order *)
  g_nodes : list (NodeRef * Node);
  g_initializers : gmap string Tensor;
  g_value_info : gmap string ValueInfo;
  (** values visible from outside (graph outputs): their consumer sets are
      not comprehensive *)
  g_outputs : list string;
  (** counters for fresh node references and fresh value names *)
  g_next_node : nat;
  g_next_value : nat
}.

(** *** Computations that edit the graph

    A computation reads and updates the graph and may fail; failure stands
    for the undefined behaviour of the source. *)
Definition Edit (A : Type) : Type := Graph → option (A * Graph).

Definition ret {A} (a : A) : Edit A := λ g, Some (a, g).

Definition bind {A B} (m : Edit A) (k : A → Edit B) : Edit B :=
  λ g, match m g with Some (a, g') => k a g' | None => None end.

(** The result of a pure helper that may fail. *)
Definition lift {A} (o : option A) : Edit A :=
  λ g, match o with Some a => Some (a, g) | None => None end.

Definition query {A} (f : Graph → A) : Edit A := λ g, Some (f g, g).

Definition update (f : Graph → Graph) : Edit unit := λ g, Some (tt, f g).

Global Instance Edit_ret : MRet Edit := @ret.
Global Instance Edit_bind : MBind Edit := λ A B k m, bind m k.

(** A loop over a vector whose body edits the graph. *)
Fixpoint for_each {A} (v : list A) (body : A → Edit unit) : Edit unit :=
  match v with
  | [] => ret tt
  | x :: rest => body x ;; for_each rest body
  end.

Definition when (b : bool) (m : Edit unit) : Edit unit := if b then m else ret tt.

(** *** Record updates *)

Definition set_nodes (ns : list (NodeRef * Node)) (g : Graph) : Graph :=
  mkGraph (g_opsets g) ns (g_initializers g) (g_value_info g) (g_outputs g)
          (g_next_node g) (g_next_value g).

Definition set_initializers (ts : gmap string Tensor) (g : Graph) : Graph :=
  mkGraph (g_opsets g) (g_nodes g) ts (g_value_info g) (g_outputs g)
          (g_next_node g) (g_next_value g).

Definition set_value_info (vs : gmap string ValueInfo) (g : Graph) : Graph :=
  mkGraph (g_opsets g) (g_nodes g) (g_initializers g) vs (g_outputs g)
          (g_next_node g) (g_next_value g).

Definition set_next_node (k : nat) (g : Graph) : Graph :=
  mkGraph (g_opsets g) (g_nodes g) (g_initializers g) (g_value_info g) (g_outputs g)
          k (g_next_value g).

Definition set_next_value (k : nat) (g : Graph) : Graph :=
  mkGraph (g_opsets g) (g_nodes g) (g_initializers g) (g_value_info g) (g_outputs g)
          (g_next_node g) k.

Definition set_attrs (a : gmap string AttrValue) (d : Node) : Node :=
  mkNode (n_op_type d) (n_domain d) a (n_inputs d) (n_outputs d).

Definition set_inputs (l : list string) (d : Node) : Node :=
  mkNode (n_op_type d) (n_domain d) (n_attrs d) l (n_outputs d).

Definition set_outputs (l : list string) (d : Node) : Node :=
  mkNode (n_op_type d) (n_domain d) (n_attrs d) (n_inputs d) l.

(** *** Node table *)

Fixpoint nodes_lookup (ns : list (NodeRef * Node)) (n : NodeRef) : option Node :=
  match ns with
  | [] => None
  | (m, d) :: rest => if decide (m = n) then Some d else nodes_lookup rest n
  end.

Fixpoint nodes_alter (f : Node → Node) (n : NodeRef) (ns : list (NodeRef * Node))
    : list (NodeRef * Node) :=
  match ns with
  | [] => []
  | (m, d) :: rest =>
      if decide (m = n) then (m, f d) :: rest else (m, d) :: nodes_alter f n rest
  end.

Definition nodes_remove (n : NodeRef) (ns : list (NodeRef * Node)) : list (NodeRef * Node) :=
  filter (λ p, p.1 ≠ n) ns.

(** Access through a [NodeRef]; fails when the node was removed. *)
Definition get_node (n : NodeRef) : Edit Node :=
  λ g, d ← nodes_lookup (g_nodes g) n; Some (d, g).

Definition alter_node (n : NodeRef) (f : Node → Node) : Edit unit :=
  get_node n;; update (λ g, set_nodes (nodes_alter f n (g_nodes g)) g).

(** *** [NodeRef] methods *)

Definition OpType (n : NodeRef) : Edit string := d ← get_node n; mret (n_op_type d).
Definition Domain (n : NodeRef) : Edit string := d ← get_node n; mret (n_domain d).
Definition Inputs (n : NodeRef) : Edit (list string) := d ← get_node n; mret (n_inputs d).
Definition Outputs (n : NodeRef) : Edit (list string) := d ← get_node n; mret (n_outputs d).

(** The standard operator domain is named [""] or ["ai.onnx"]. *)
Definition is_onnx_domain (domain : string) : bool :=
  bool_decide (domain = "") || bool_decide (domain = "ai.onnx").

(** [IsOp(op_type)] with the default (standard) domain. *)
Definition node_is_op (d : Node) (op_type : string) : bool :=
  bool_decide (n_op_type d = op_type) && is_onnx_domain (n_domain d).

Definition IsOp (n : NodeRef) (op_type : string) : Edit bool :=
  d ← get_node n; mret (node_is_op d op_type).

Definition attr_int (d : Node) (name : string) : option Z :=
  match n_attrs d !! name with Some (AttrInt v) => Some v | _ => None end.

Definition attr_ints (d : Node) (name : string) : option (list Z) :=
  match n_attrs d !! name with Some (AttrInts v) => Some v | _ => None end.

Definition GetAttributeInt (n : NodeRef) (name : string) : Edit (option Z) :=
  d ← get_node n; mret (attr_int d name).

Definition GetAttributeInts (n : NodeRef) (name : string) : Edit (option (list Z)) :=
  d ← get_node n; mret (attr_ints d name).

Definition GetAttributeIntDefault (n : NodeRef) (name : string) (default_value : Z) : Edit Z :=
  o ← GetAttributeInt n name; mret (default default_value o).

Definition SetAttributeInt (n : NodeRef) (name : string) (v : Z) : Edit unit :=
  alter_node n (λ d, set_attrs (<[name := AttrInt v]> (n_attrs d)) d).

Definition SetAttributeInts (n : NodeRef) (name : string) (v : list Z) : Edit unit :=
  alter_node n (λ d, set_attrs (<[name := AttrInts v]> (n_attrs d)) d).

Definition ClearAttribute (n : NodeRef) (name : string) : Edit unit :=
  alter_node n (λ d, set_attrs (delete name (n_attrs d)) d).

Definition CopyAttributes (n other : NodeRef) : Edit unit :=
  o ← get_node other;
  alter_node n (λ d, set_attrs (n_attrs o ∪ n_attrs d) d).

(** [SetInput(i, name)] grows the input list with absent inputs when [i] is
    past its end (the Slice handler sets input 3 of a 3-input node). *)
Definition put_input (l : list string) (i : nat) (name : string) : list string :=
  <[i := name]> (l ++ replicate (S i - length l) "").

Definition SetInput (n : NodeRef) (i : nat) (name : string) : Edit unit :=
  alter_node n (λ d, set_inputs (put_input (n_inputs d) i name) d).

(** *** [GraphRef] queries *)

Definition Opset (domain : string) : Edit (option Z) :=
  query (λ g, g_opsets g !! domain).

Definition Nodes : Edit (list NodeRef) := query (λ g, (g_nodes g).*1).

Definition GetConstant (name : string) : Edit (option Tensor) :=
  query (λ g, g_initializers g !! name).

Definition value_info_of (g : Graph) (name : string) : ValueInfo :=
  default (mkValueInfo DT_UNDEFINED None) (g_value_info g !! name).

(** [GetValueInfo(name)->Shape()] and [->DType()]. *)
Definition ValueShape (name : string) : Edit (option (list Z)) :=
  query (λ g, vi_shape (value_info_of g name)).

Definition ValueDType (name : string) : Edit DataType :=
  query (λ g, vi_dtype (value_info_of g name)).

Record ValueConsumers := mkValueConsumers {
  vc_nodes : list NodeRef;
  comprehensive : bool
}.

Definition consumes (name : string) (d : Node) : bool :=
  negb (bool_decide (name = "")) && bool_decide (name ∈ n_inputs d).

Definition produces (name : string) (d : Node) : bool :=
  negb (bool_decide (name = "")) && bool_decide (name ∈ n_outputs d).

Definition GetValueConsumers (name : string) : Edit ValueConsumers :=
  query (λ g, {| vc_nodes := (filter (λ p, consumes name p.2 = true) (g_nodes g)).*1;
                 comprehensive := bool_decide (name ∉ g_outputs g) |}).

Definition HasValueConsumers (name : string) : Edit bool :=
  c ← GetValueConsumers name;
  mret (negb (comprehensive c && bool_decide (vc_nodes c = []))).

Definition GetNodeProducingOutput (name : string) : Edit (option NodeRef) :=
  query (λ g, fst <$> head (filter (λ p, produces name p.2 = true) (g_nodes g))).

(** *** [GraphRef] and [ValueInfoRef] mutators *)

Definition fresh_value_name (k : nat) : string := "_transpose_opt_" +:+ pretty k.

(** [AddNode(op_type, inputs, num_outputs, domain)]: a fresh node with fresh
    output names, placed after the existing nodes. *)
Definition AddNode (op_type : string) (inputs : list string) (num_outputs : nat)
    (domain : string) : Edit NodeRef :=
  λ g,
    let n := g_next_node g in
    let outs := fresh_value_name <$> seq (g_next_value g) num_outputs in
    Some (n, set_next_value (g_next_value g + num_outputs)%nat
               (set_next_node (S n)
                  (set_nodes (g_nodes g ++ [(n, mkNode op_type domain ∅ inputs outs)]) g))).

Definition RemoveNode (n : NodeRef) : Edit unit :=
  get_node n;; update (λ g, set_nodes (nodes_remove n (g_nodes g)) g).

(** [MoveOutput(src, i, dst, j)]: the name of [src.outputs[i]] moves to
    [dst.outputs[j]]; [src.outputs[i]] becomes a fresh value. *)
Definition MoveOutput (src : NodeRef) (i : nat) (dst : NodeRef) (j : nat) : Edit unit :=
  s ← get_node src;
  name ← lift (n_outputs s !! i);
  d ← get_node dst;
  lift (n_outputs d !! j);;
  k ← query g_next_value;
  update (set_next_value (S k));;
  alter_node dst (λ d, set_outputs (<[j := name]> (n_outputs d)) d);;
  alter_node src (λ s, set_outputs (<[i := fresh_value_name k]> (n_outputs s)) s).

Definition CopyValueInfo (src dst : string) : Edit unit :=
  update (λ g, set_value_info (<[dst := value_info_of g src]> (g_value_info g)) g).

(** [ValueInfoRef::SetShape]: [None] clears the shape. *)
Definition SetShape (name : string) (shape : option (list Z)) : Edit unit :=
  update (λ g, set_value_info
                 (<[name := mkValueInfo (vi_dtype (value_info_of g name)) shape]>
                    (g_value_info g)) g).

(** The shape whose [i]th dimension is dimension [perm[i]] of [shape]; a
    dimension that [perm] does not determine is symbolic. *)
Definition permute_shape (shape perm : list Z) : list Z :=
  (λ p, default (-1) (vec_get shape p)) <$> perm.

(** [ValueInfoRef::PermuteDims]: no effect on an unknown shape. *)
Definition PermuteDims (name : string) (perm : list Z) : Edit unit :=
  shape ← ValueShape name;
  match shape with
  | None => mret tt
  | Some sh => SetShape name (Some (permute_shape sh perm))
  end.

(** Inserts a 1 at every position listed in [axes] (positions of the result),
    keeping the other dimensions in order; [fuel] bounds the result's rank. *)
Fixpoint unsqueeze_dims (fuel : nat) (i : Z) (shape axes : list Z) : list Z :=
  match fuel with
  | O => []
  | S fuel' =>
      if bool_decide (i ∈ axes) then 1 :: unsqueeze_dims fuel' (i + 1) shape axes
      else match shape with
           | [] => []
           | d :: rest => d :: unsqueeze_dims fuel' (i + 1) rest axes
           end
  end.

(** [ValueInfoRef::UnsqueezeDims]: no effect on an unknown shape. *)
Definition UnsqueezeDims (name : string) (axes : list Z) : Edit unit :=
  shape ← ValueShape name;
  match shape with
  | None => mret tt
  | Some sh =>
      SetShape name (Some (unsqueeze_dims (length sh + length axes) 0 sh axes))
  end.

(** Row-major strides of a shape. *)
Definition strides (shape : list Z) : list Z :=
  (foldr (λ d '(s, l), (s * d, s :: l)) (1, []) shape).2.

(** All index tuples of a shape, in row-major order. *)
Fixpoint multi_indices (shape : list Z) : list (list Z) :=
  match shape with
  | [] => [[]]
  | d :: rest =>
      i ← index_range 0 (Z.to_nat d);
      (λ tl, i :: tl) <$> multi_indices rest
  end.

(** The elements of the transposed tensor: element [idx] of the result is the
    element of the source whose index along dimension [perm[k]] is [idx[k]]. *)
Definition transpose_data (shape perm data : list Z) : list Z :=
  let st := strides shape in
  (λ idx : list Z,
     let offset :=
       foldr Z.add 0 ((λ '(i, p), i * default 0 (vec_get st p)) <$> zip idx perm) in
     default 0 (vec_get data offset))
  <$> multi_indices (permute_shape shape perm).

Definition transpose_tensor (perm : list Z) (t : Tensor) : Tensor :=
  mkTensor (t_dtype t) (permute_shape (t_shape t) perm)
           (transpose_data (t_shape t) perm (t_data t)).

(** [TransposeInitializer(name, perm)]: the constant's data and shape, and
    the shape in its [ValueInfo], are permuted. *)
Definition TransposeInitializer (name : string) (perm : list Z) : Edit unit :=
  update (λ g, set_initializers (alter (transpose_tensor perm) name (g_initializers g)) g);;
  PermuteDims name perm.

(** [ReshapeInitializer(name, shape)]. *)
Definition ReshapeInitializer (name : string) (shape : list Z) : Edit unit :=
  update (λ g, set_initializers
                 (alter (λ t, mkTensor (t_dtype t) shape (t_data t)) name (g_initializers g)) g);;
  shape0 ← ValueShape name;
  match shape0 with
  | None => mret tt
  | Some _ => SetShape name (Some shape)
  end.

Definition RemoveInitializer (name : string) : Edit unit :=
  update (λ g, set_initializers (delete name (g_initializers g)) g).

Definition add_initializer (dtype : DataType) (shape data : list Z) : Edit string :=
  k ← query g_next_value;
  let name := fresh_value_name k in
  update (λ g, set_next_value (S k)
                 (set_value_info (<[name := mkValueInfo dtype (Some shape)]> (g_value_info g))
                    (set_initializers (<[name := mkTensor dtype shape data]> (g_initializers g)) g)));;
  mret name.

Definition AddInitializerInt64 (shape data : list Z) : Edit string :=
  add_initializer DT_INT64 shape data.

Definition AddInitializerInt32 (shape data : list Z) : Edit string :=
  add_initializer DT_INT32 shape data.

(** ** The optimizer *)

(** The graph of the context is the state of [Edit]. *)
Record OptimizerCtx := mkOptimizerCtx {
  opset : Z;
  allow_extended_ops : bool;
  skip_cost_check : bool
}.

(** Information passed to op handlers. *)
Record HandlerArgs := mkHandlerArgs {
  ctx : OptimizerCtx;
  transpose : NodeRef;
  node : NodeRef;
  perm : list Z;
  perm_inv : list Z;
  transposible_inputs : list nat
}.

Record HandlerInfo := mkHandlerInfo {
  transposible_inputs_fn : OptimizerCtx → NodeRef → Edit (list nat);
  handler_fn : HandlerArgs → Edit bool;
  (** Does the handler have to transpose outputs? Used for cost estimation. *)
  transposes_outputs : bool
}.

(** *** Helper utilities that edit nodes *)

(** Replaces all node inputs referencing old_value with references to
    new_value. *)
Definition ReplaceValueReferences (nodes : list NodeRef) (old_value new_value : string)
    : Edit unit :=
  for_each nodes (λ n,
    inputs ← Inputs n;
    for_each (imap (λ i inp, (i, inp)) inputs) (λ '(i, inp),
      when (bool_decide (inp = old_value)) (SetInput n i new_value))).

(** Create a node with a single attribute of type vector<int64_t>. *)
Definition MakeNode1Attr (op_type input attr_name : string) (attr_val : list Z)
    : Edit NodeRef :=
  n ← AddNode op_type [input] 1 "";
  SetAttributeInts n attr_name attr_val;;
  mret n.

(** Creates a Transpose node.  Does not update output ValueInfo. *)
Definition MakeTranspose (input : string) (perm : list Z) : Edit NodeRef :=
  MakeNode1Attr "Transpose" input "perm" perm.

(** Creates a Squeeze/Unsqueeze node.  Does not update output ValueInfo. *)
Definition MakeSqueezeOrUnsqueeze (opset : Z) (op_type input : string) (axes : list Z)
    : Edit NodeRef :=
  if decide (opset < 13) then MakeNode1Attr op_type input "axes" axes
  else
    axes_initializer ← AddInitializerInt64 [Z.of_nat (length axes)] axes;
    AddNode op_type [input; axes_initializer] 1 "".

Definition GetPermAttrIfValid (n : NodeRef) : Edit (option (list Z)) :=
  perm ← GetAttributeInts n "perm";
  match perm with
  | Some p => if IsValidPerm p then mret (Some p) else mret None
  | None => mret None
  end.

(** Read int64 data from attribute or input, depending on whether model
    opset < provided opset. *)
Definition ReadFromAttrOrInput (c : OptimizerCtx) (n : NodeRef) (attr_name : string)
    (inp_index : nat) (opset_bound : Z) : Edit (option (list Z)) :=
  if decide (opset c < opset_bound) then GetAttributeInts n attr_name
  else
    inputs ← Inputs n;
    match inputs !! inp_index with
    | None => mret None
    | Some inp =>
        if decide (inp = "") then mret None
        else
          constant ← GetConstant inp;
          match constant with
          | None => mret None
          | Some t => mret (Some (t_data t))
          end
    end.

(** *** Core helpers *)

(** The loop of Case 3 of [TransposeInput]: the first consumer that is a
    Transpose with the wanted perm. *)
Fixpoint find_transpose_consumer (perm : list Z) (cs : list NodeRef)
    : Edit (option NodeRef) :=
  match cs with
  | [] => mret None
  | consumer :: rest =>
      is_tr ← IsOp consumer "Transpose";
      cperm ← (if is_tr : bool then GetPermAttrIfValid consumer
               else mret None : Edit (option (list Z)));
      if is_tr && bool_decide (cperm = Some perm) then mret (Some consumer)
      else find_transpose_consumer perm rest
  end.

(** Replaces ith input to node with transposed value.  Might create a new
    Transpose node, find an existing one, or transpose an initializer. *)
Definition TransposeInput (c : OptimizerCtx) (n : NodeRef) (i : nat)
    (perm perm_inv : list Z) : Edit unit :=
  inputs ← Inputs n;
  input ← lift (inputs !! i);
  (* Remove this node as a consumer *)
  SetInput n i "";;
  constant ← GetConstant input;
  consumers ← GetValueConsumers input;
  (* Case 1: input is a constant with a known list of consumer nodes *)
  if bool_decide (constant ≠ None) && comprehensive consumers then
    when (bool_decide (0 < length (vc_nodes consumers))%nat) (
      transpose_inv ← MakeTranspose input perm_inv;
      outs ← Outputs transpose_inv;
      transpose_out ← lift (outs !! 0%nat);
      CopyValueInfo input transpose_out;;
      ReplaceValueReferences (vc_nodes consumers) input transpose_out);;
    TransposeInitializer input perm;;
    SetInput n i input
  else
    (* Case 2: input is a Transpose node *)
    inp_node ← GetNodeProducingOutput input;
    transpose_perm ← (match inp_node with
                      | Some m =>
                          is_transpose ← IsOp m "Transpose";
                          if is_transpose : bool then GetPermAttrIfValid m else mret None
                      | None => mret None
                      end : Edit (option (list Z)));
    match inp_node, transpose_perm with
    | Some m, Some perm2 =>
        if decide (perm2 = perm_inv) then
          (* They cancel: use pre_transpose_value, remove Transpose if possible *)
          m_inputs ← Inputs m;
          pre_transpose_value ← lift (m_inputs !! 0%nat);
          when (comprehensive consumers && bool_decide (length (vc_nodes consumers) = 0%nat))
               (RemoveNode m);;
          SetInput n i pre_transpose_value
        else
          (* Otherwise, compose the perm and Transpose pre_transpose_value *)
          perm_combined ← lift (ComposePerm perm2 perm);
          m_inputs ← Inputs m;
          pre_transpose_value ← lift (m_inputs !! 0%nat);
          tr ← MakeTranspose pre_transpose_value perm_combined;
          outs ← Outputs tr;
          transpose_out ← lift (outs !! 0%nat);
          CopyValueInfo input transpose_out;;
          PermuteDims transpose_out perm;;
          when (comprehensive consumers && bool_decide (length (vc_nodes consumers) = 0%nat))
               (RemoveNode m);;
          SetInput n i transpose_out
    | _, _ =>
        (* Case 3: A Transpose op might already exist *)
        existing ← find_transpose_consumer perm (vc_nodes consumers);
        match existing with
        | Some consumer =>
            outs ← Outputs consumer;
            out ← lift (outs !! 0%nat);
            SetInput n i out
        | None =>
            (* Case 4: Add a new Transpose op *)
            tr ← MakeTranspose input perm;
            outs ← Outputs tr;
            transpose_out ← lift (outs !! 0%nat);
            CopyValueInfo input transpose_out;;
            PermuteDims transpose_out perm;;
            SetInput n i transpose_out
        end
    end.

(** Transposes specified inputs according to perm. *)
Definition TransposeInputs (c : OptimizerCtx) (n : NodeRef) (perm : list Z)
    (input_indices : list nat) : Edit unit :=
  perm_inv ← lift (InvertPerm perm);
  for_each input_indices (λ j, TransposeInput c n j perm perm_inv).

Definition TransposeFirstInput (c : OptimizerCtx) (n : NodeRef) (perm : list Z) : Edit unit :=
  TransposeInputs c n perm [0%nat].

(** Inserts a Transpose op on the ith output of a node.  Returns the new,
    transposed output. *)
Definition TransposeOutput (c : OptimizerCtx) (n : NodeRef) (i : nat)
    (perm perm_inv : list Z) : Edit string :=
  (* X -> Node -> Y,   Transpose *)
  tr ← MakeTranspose "" perm;
  (* X -> Node -> *Y',   Transpose -> Y *)
  MoveOutput n i tr 0;;
  outs ← Outputs n;
  new_output ← lift (outs !! i);
  (* X -> Node -> *Y',   Y' -> Transpose -> Y *)
  SetInput tr 0 new_output;;
  tr_outs ← Outputs tr;
  old_output ← lift (tr_outs !! 0%nat);
  CopyValueInfo old_output new_output;;
  PermuteDims new_output perm_inv;;
  mret old_output.

(** Inserts a Transpose op on all node outputs and updates the shapes of the
    node outputs.  Skips if perm is identity.  The loop bound
    [node.Outputs().size()] is the same at every iteration: [TransposeOutput]
    renames an output and adds none. *)
Definition TransposeOutputs (c : OptimizerCtx) (n : NodeRef) (perm : list Z) : Edit unit :=
  if IsIdentityPerm perm then mret tt
  else
    perm_inv ← lift (InvertPerm perm);
    outs ← Outputs n;
    for_each (seq 0 (length outs)) (λ j, TransposeOutput c n j perm perm_inv;; mret tt).

(** Pushes transpose through unsqueeze and returns final output.  Helps
    UnsqueezeInput to push transposes.  axes is the axes of the Unsqueeze
    node.  (Declared ahead of [UnsqueezeInput] in the source.) *)
Definition HelpHandleUnsqueeze (args : HandlerArgs) (axes : list Z) : Edit string :=
  TransposeFirstInput (ctx args) (node args) (perm_inv args);;
  new_perm ← lift (UnsqueezePerm axes (perm args));
  new_perm_inv ← lift (InvertPerm new_perm);
  TransposeOutput (ctx args) (node args) 0 new_perm new_perm_inv.

(** Replaces ith input to node with unsqueezed value.  Might create a new
    Unsqueeze node, find an existing one, or reshape an initializer. *)
Definition UnsqueezeInput (c : OptimizerCtx) (n : NodeRef) (i : nat) (axes : list Z)
    : Edit unit :=
  inputs ← Inputs n;
  input ← lift (inputs !! i);
  (* Remove this node as a consumer *)
  SetInput n i "";;
  constant ← GetConstant input;
  consumers ← GetValueConsumers input;
  match constant, comprehensive consumers with
  | Some t, true =>
      (* Case 1: input is a constant with a known list of consumer nodes *)
      when (bool_decide (0 < length (vc_nodes consumers))%nat) (
        squeeze ← MakeSqueezeOrUnsqueeze (opset c) "Squeeze" input axes;
        outs ← Outputs squeeze;
        sq_out ← lift (outs !! 0%nat);
        CopyValueInfo input sq_out;;
        ReplaceValueReferences (vc_nodes consumers) input sq_out);;
      new_shape ← lift (UnsqueezeShape (t_shape t) axes);
      ReshapeInitializer input new_shape;;
      SetInput n i input
  | _, _ =>
      inp_node ← GetNodeProducingOutput input;
      (* Case 2: input is a Squeeze node with matching axes *)
      cancelled ← (match inp_node with
                   | Some m =>
                       is_squeeze ← IsOp m "Squeeze";
                       if is_squeeze : bool then
                         inp_node_inputs ← Inputs m;
                         squeeze_axes ← ReadFromAttrOrInput c m "axes" 1 13;
                         if bool_decide (squeeze_axes = Some axes) then
                           (* Remove the Squeeze node if possible *)
                           when (comprehensive consumers
                                 && bool_decide (length (vc_nodes consumers) = 0%nat)) (
                             RemoveNode m;;
                             if decide (opset c >= 13) then
                               axes_inp ← lift (inp_node_inputs !! 1%nat);
                               has ← HasValueConsumers axes_inp;
                               when (negb has) (RemoveInitializer axes_inp)
                             else mret tt);;
                           pre ← lift (inp_node_inputs !! 0%nat);
                           SetInput n i pre;;
                           mret true
                         else mret false
                       else mret false
                   | None => mret false
                   end : Edit bool);
      if cancelled : bool then mret tt
      else
        (* Case 3: Add an Unsqueeze node. *)
        squeeze ← MakeSqueezeOrUnsqueeze (opset c) "Unsqueeze" input axes;
        outs ← Outputs squeeze;
        sq_out ← lift (outs !! 0%nat);
        CopyValueInfo input sq_out;;
        UnsqueezeDims sq_out axes;;
        (* If the input to the new Unsqueeze is a Transpose, optimize it here. *)
        transpose_perm ← (match inp_node with
                          | Some m =>
                              is_transpose ← IsOp m "Transpose";
                              if is_transpose : bool then GetPermAttrIfValid m else mret None
                          | None => mret None
                          end : Edit (option (list Z)));
        match inp_node, transpose_perm with
        | Some m, Some perm =>
            perm_inv ← lift (InvertPerm perm);
            let args := mkHandlerArgs c m squeeze perm perm_inv [0%nat] in
            new_input ← HelpHandleUnsqueeze args axes;
            (* Use output from optimization (likely from pushed transpose) *)
            SetInput n i new_input
        | _, _ => SetInput n i sq_out
        end
  end.

(** The first loop of [NormalizeInputRanks]: the ranks of the listed inputs,
    or [None] when the function returns false. *)
Fixpoint input_ranks (inputs : list string) (target_rank : nat) (input_indices : list nat)
    : Edit (option (list nat)) :=
  match input_indices with
  | [] => mret (Some [])
  | i :: rest =>
      inp ← lift (inputs !! i);
      shape ← ValueShape inp;
      match shape with
      | None => mret None
      | Some sh =>
          if decide (target_rank < length sh)%nat then mret None
          else
            ranks ← input_ranks inputs target_rank rest;
            mret ((λ rs, length sh :: rs) <$> ranks)
      end
  end.

(** Unsqueezes inputs of node to have uniform rank.  Returns false if input
    ranks are unknown or exceed the target rank. *)
Definition NormalizeInputRanks (c : OptimizerCtx) (n : NodeRef) (target_rank : nat)
    (input_indices : list nat) : Edit bool :=
  inputs ← Inputs n;
  (* Get and validate input ranks *)
  ranks ← input_ranks inputs target_rank input_indices;
  match ranks with
  | None => mret false
  | Some ranks =>
      (* Normalize ranks *)
      for_each (zip ranks input_indices) (λ '(rank, index),
        let rank_diff := (target_rank - rank)%nat in
        when (bool_decide (0 < rank_diff)%nat)
             (UnsqueezeInput c n index (index_range 0 rank_diff)));;
      mret true
  end.

(** *** Optimization heuristics (first part) *)

(** Given a value, returns the rank of the value excluding dimensions of
    value 1.  Returns 5 if the rank is unknown. *)
Definition EstimateValueRank (input : string) : Edit Z :=
  shape ← ValueShape input;
  match shape with
  | None => mret 5
  | Some sh => mret (Z.of_nat (length (filter (λ d, d ≠ 1) sh)))
  end.

(** *** Handlers *)

(** Common helper for making handlers. *)
Definition HandleSimpleNodeBase (args : HandlerArgs) (broadcast_inputs : bool) : Edit bool :=
  let rank := length (perm args) in
  normalized ← (if broadcast_inputs
                then NormalizeInputRanks (ctx args) (node args) rank (transposible_inputs args)
                else mret true);
  if negb normalized then mret false
  else
    TransposeInputs (ctx args) (node args) (perm_inv args) (transposible_inputs args);;
    TransposeOutputs (ctx args) (node args) (perm args);;
    mret true.

(** Transposes all inputs and all outputs. *)
Definition HandleSimpleNode (args : HandlerArgs) : Edit bool :=
  HandleSimpleNodeBase args false.

Definition AllInputs (c : OptimizerCtx) (n : NodeRef) : Edit (list nat) :=
  inputs ← Inputs n;
  mret (seq 0 (length inputs)).

Definition simple_node_handler : HandlerInfo :=
  mkHandlerInfo AllInputs HandleSimpleNode true.

(** Node with all inputs broadcastable. *)
Definition HandleSimpleNodeBroadcast (args : HandlerArgs) : Edit bool :=
  HandleSimpleNodeBase args true.

(** The body of the loop of [NonScalarInputs]; [info->Shape()->size()]
    dereferences the optional shape. *)
Fixpoint NonScalarInputs_loop (i : nat) (inputs : list string) : Edit (list nat) :=
  match inputs with
  | [] => mret []
  | inp :: rest =>
      shape ← ValueShape inp;
      sh ← lift shape;
      indices ← NonScalarInputs_loop (S i) rest;
      mret (if decide (length sh ≠ 0%nat) then i :: indices else indices)
  end.

Definition NonScalarInputs (c : OptimizerCtx) (n : NodeRef) : Edit (list nat) :=
  inputs ← Inputs n;
  NonScalarInputs_loop 0 inputs.

Definition broadcast_node_handler : HandlerInfo :=
  mkHandlerInfo NonScalarInputs HandleSimpleNodeBroadcast true.

Definition FirstInput (c : OptimizerCtx) (n : NodeRef) : Edit (list nat) :=
  mret [0%nat].

(** Transposes 1st input and all outputs.  (The local [input_indices] of the
    source is unused: the inputs transposed are [args.transposible_inputs].) *)
Definition HandleSimpleNode1Inp (args : HandlerArgs) : Edit bool :=
  HandleSimpleNodeBase args false.

Definition node_1_inp_handler : HandlerInfo :=
  mkHandlerInfo FirstInput HandleSimpleNode1Inp true.

(** Transposes all inputs and all outputs.  Updates axis attribute.
    [default_axis = None] stands for [has_default = false]. *)
Definition HandleSimpleNodeWithAxis (args : HandlerArgs) (default_axis : option Z)
    : Edit bool :=
  let rank := length (perm args) in
  axis ← GetAttributeInt (node args) "axis";
  match (match axis with Some a => Some a | None => default_axis end) with
  | None => mret false
  | Some axis =>
      let '(ok, axis) := NormalizeAndValidateAxis axis rank in
      if negb ok then mret false
      else
        pushed ← HandleSimpleNodeBase args false;
        if negb pushed then mret false
        else
          new_axis ← lift (vec_get (perm args) axis);
          SetAttributeInt (node args) "axis" new_axis;;
          mret true
  end.

Definition HandleSplit (args : HandlerArgs) : Edit bool :=
  HandleSimpleNodeWithAxis args (Some 0).

Definition split_handler : HandlerInfo := mkHandlerInfo FirstInput HandleSplit true.

Definition HandleConcat (args : HandlerArgs) : Edit bool :=
  HandleSimpleNodeWithAxis args None.

Definition concat_handler : HandlerInfo := mkHandlerInfo AllInputs HandleConcat true.

(** The test of the loop of [HandleSoftHardMax]: no index [i] has
    [to_lhs != from_lhs]. *)
Definition keeps_split_point (perm : list Z) (axis : Z) : bool :=
  forallb (λ '(i, p), bool_decide (bool_decide (i < axis) = bool_decide (p < axis)))
          (zip (index_range 0 (length perm)) perm).

(** Handles Softmax, Hardmax, and LogSoftmax. *)
Definition HandleSoftHardMax (args : HandlerArgs) : Edit bool :=
  if decide (opset (ctx args) >= 13) then HandleSimpleNodeWithAxis args (Some (-1))
  else
    (* In opset < 13, the input is coerced into 2D then expanded back after.
       The 'axis' attribute is the division point of the coercion. *)
    let rank := length (perm args) in
    axis ← GetAttributeIntDefault (node args) "axis" 1;
    let '(ok, axis) := NormalizeAndValidateAxis axis rank in
    if negb ok then mret false
    else
      (* We can optimize only if the transpose does not move axes across the
         boundary. *)
      if negb (keeps_split_point (perm args) axis) then mret false
      else
        (* No need to update axis. *)
        HandleSimpleNode1Inp args.

Definition soft_hard_max_handler : HandlerInfo :=
  mkHandlerInfo FirstInput HandleSoftHardMax true.

Definition clamp (x lo hi : Z) : Z := if decide (x < lo) then lo else if decide (hi < x) then hi else x.

Definition HandleShape (args : HandlerArgs) : Edit bool :=
  (* Shape(Transpose(x, perm)) => Gather(Shape(x), perm) *)
  TransposeInputs (ctx args) (node args) (perm_inv args) (transposible_inputs args);;
  let rank := length (perm args) in
  let rank_int := Z.of_nat rank in
  new_perm ← (if decide (opset (ctx args) >= 15) then
                (* Assign new_perm = perm[starts:stops] *)
                start ← GetAttributeIntDefault (node args) "start" 0;
                end_ ← GetAttributeIntDefault (node args) "end" rank_int;
                let start := if decide (start < 0) then start + rank_int else start in
                let end_ := if decide (end_ < 0) then end_ + rank_int else end_ in
                let start_idx := Z.to_nat (clamp start 0 rank_int) in
                let end_idx := Z.to_nat (clamp end_ 0 rank_int) in
                ClearAttribute (node args) "start";;
                ClearAttribute (node args) "end";;
                mret (take (end_idx - start_idx) (drop start_idx (perm args)))
              else mret (perm args));
  (* Make new_perm initializer *)
  perm_const ← AddInitializerInt64 [Z.of_nat (length new_perm)] new_perm;
  (* X -> Shape -> Y,   Gather *)
  gather ← AddNode "Gather" [""; perm_const] 1 "";
  SetAttributeInt gather "axis" 0;;
  (* X -> Shape -> Y',   Gather -> Y *)
  MoveOutput (node args) 0 gather 0;;
  outs ← Outputs (node args);
  new_output ← lift (outs !! 0%nat);
  (* X -> Shape -> Y',   Y' -> Gather -> Y *)
  SetInput gather 0 new_output;;
  (* Fix shapes *)
  gather_outs ← Outputs gather;
  gather_out ← lift (gather_outs !! 0%nat);
  CopyValueInfo gather_out new_output;;
  when (bool_decide (length new_perm ≠ rank)) (SetShape new_output (Some [rank_int]));;
  mret true.

Definition shape_handler : HandlerInfo := mkHandlerInfo FirstInput HandleShape false.

Definition HandlePad (args : HandlerArgs) : Edit bool :=
  let rank := length (perm args) in
  let opset := opset (ctx args) in
  missing_pads ← (if decide (opset < 11) then
                    pads ← GetAttributeInts (node args) "pads";
                    match pads with
                    | None => mret true
                    | Some pads =>
                        new_pads ← lift (PermutePads pads (perm_inv args));
                        SetAttributeInts (node args) "pads" new_pads;;
                        mret false
                    end
                  else mret false);
  if missing_pads : bool then mret false
  else
    TransposeFirstInput (ctx args) (node args) (perm_inv args);;
    TransposeOutputs (ctx args) (node args) (perm args);;
    if decide (opset < 11) then mret true
    else
      inputs ← Inputs (node args);
      pads_input ← lift (inputs !! 1%nat);
      let pads_shape := [Z.of_nat (rank * 2)] in
      pads_const ← GetConstant pads_input;
      match pads_const with
      | Some t =>
          (* Case 1: pads is a constant *)
          new_pads ← lift (PermutePads (t_data t) (perm_inv args));
          new_pads_const ← AddInitializerInt64 pads_shape new_pads;
          SetInput (node args) 1 new_pads_const;;
          has ← HasValueConsumers pads_input;
          when (negb has) (RemoveInitializer pads_input);;
          mret true
      | None =>
          (* Case 2: pads is computed.  Use Gather to reorder pads. *)
          let gather_indices :=
            perm_inv args ++ ((λ p, p + Z.of_nat rank) <$> perm_inv args) in
          gather_indices_const ← AddInitializerInt64 pads_shape gather_indices;
          gather ← AddNode "Gather" [pads_input; gather_indices_const] 1 "";
          gather_outs ← Outputs gather;
          gather_output ← lift (gather_outs !! 0%nat);
          CopyValueInfo pads_input gather_output;;
          SetAttributeInt gather "axis" 0;;
          SetInput (node args) 1 gather_output;;
          mret true
      end.

Definition pad_handler : HandlerInfo := mkHandlerInfo FirstInput HandlePad true.

Definition HandleReduceOp (args : HandlerArgs) : Edit bool :=
  keepdims ← GetAttributeIntDefault (node args) "keepdims" 1;
  axes ← GetAttributeInts (node args) "axes";
  (* Permutation for output transpose depends on which axes are removed;
     [None] stands for the early [return false]. *)
  out_perm ← (match axes with
              | None =>
                  (* Default case is reduce over all dims *)
                  if decide (keepdims = 0) then mret (Some []) (* Output rank is 0. *)
                  else mret (Some (perm args))
              | Some axes =>
                  let '(ok, axes) := NormalizeAndValidateAxes axes (length (perm args)) in
                  if negb ok then mret None
                  else
                    new_axes ← lift (SortedAxesForTransposedInput axes (perm args));
                    SetAttributeInts (node args) "axes" new_axes;;
                    if decide (keepdims = 0) then
                      squeezed ← lift (SqueezePerm new_axes (perm args));
                      mret (Some squeezed)
                    else mret (Some (perm args))
              end : Edit (option (list Z)));
  match out_perm with
  | None => mret false
  | Some out_perm =>
      TransposeFirstInput (ctx args) (node args) (perm_inv args);;
      TransposeOutputs (ctx args) (node args) out_perm;;
      mret true
  end.

Definition reduce_op_handler : HandlerInfo := mkHandlerInfo FirstInput HandleReduceOp true.

(** [TensorRef::DataInt64] and [TensorRef::DataInt32]. *)
Definition DataInt64 (t : Tensor) : list Z := t_data t.
Definition DataInt32 (t : Tensor) : list Z := t_data t.

Definition HandleReduceSum (args : HandlerArgs) : Edit bool :=
  if decide (opset (ctx args) < 13) then HandleReduceOp args
  else
    keepdims_attr ← GetAttributeIntDefault (node args) "keepdims" 1;
    let keepdims := bool_decide (keepdims_attr ≠ 0) in
    inputs ← Inputs (node args);
    axes_const ← (match inputs !! 1%nat with
                  | None => mret None
                  | Some inp => if decide (inp = "") then mret None else GetConstant inp
                  end : Edit (option Tensor));
    let empty_axes :=
      match inputs !! 1%nat with
      | None => true
      | Some inp =>
          bool_decide (inp = "")
          || match axes_const with
             | Some t => bool_decide (length (DataInt64 t) = 0%nat)
             | None => false
             end
      end in
    (* Case 1: Empty axes (either a no-op or reduce all axes) *)
    if empty_axes then
      noop_attr ← GetAttributeIntDefault (node args) "noop_with_empty_axes" 0;
      let noop_with_empty_axes := bool_decide (noop_attr ≠ 0) in
      TransposeFirstInput (ctx args) (node args) (perm_inv args);;
      (* Original rank is maintained *)
      when (noop_with_empty_axes || keepdims)
           (TransposeOutputs (ctx args) (node args) (perm args));;
      mret true
    else
      match axes_const with
      | None =>
          (* Case 2: Non-const axes (can't optimize) *)
          mret false
      | Some t =>
          (* Case 3: Const axes *)
          let '(ok, axes) := NormalizeAndValidateAxes (DataInt64 t) (length (perm args)) in
          if negb ok then mret false
          else
            new_axes ← lift (SortedAxesForTransposedInput axes (perm args));
            new_axes_const ← AddInitializerInt64 [Z.of_nat (length new_axes)] new_axes;
            axes_inp ← lift (inputs !! 1%nat);
            SetInput (node args) 1 new_axes_const;;
            has ← HasValueConsumers axes_inp;
            when (negb has) (RemoveInitializer axes_inp);;
            TransposeFirstInput (ctx args) (node args) (perm_inv args);;
            (if keepdims then TransposeOutputs (ctx args) (node args) (perm args)
             else
               new_perm ← lift (SqueezePerm new_axes (perm args));
               TransposeOutputs (ctx args) (node args) new_perm);;
            mret true
      end.

Definition reduce_sum_handler : HandlerInfo := mkHandlerInfo FirstInput HandleReduceSum true.

Definition HandleSqueeze (args : HandlerArgs) : Edit bool :=
  axes ← ReadFromAttrOrInput (ctx args) (node args) "axes" 1 13;
  (* If Squeeze axes are unset, output rank is unknown and must be skipped.
     Invalid axes are skipped too. *)
  match axes with
  | None => mret false
  | Some axes =>
      let '(ok, axes) := NormalizeAndValidateAxes axes (length (perm args)) in
      if negb ok then mret false
      else
        new_axes ← lift (SortedAxesForTransposedInput axes (perm args));
        (* Update axes *)
        (if decide (opset (ctx args) < 13) then
           SetAttributeInts (node args) "axes" new_axes
         else
           inputs ← Inputs (node args);
           axes_inp ← lift (inputs !! 1%nat);
           new_axes_const ← AddInitializerInt64 [Z.of_nat (length new_axes)] new_axes;
           SetInput (node args) 1 new_axes_const;;
           has ← HasValueConsumers axes_inp;
           when (negb has) (RemoveInitializer axes_inp));;
        (* Transpose inputs/outputs *)
        TransposeFirstInput (ctx args) (node args) (perm_inv args);;
        new_perm ← lift (SqueezePerm new_axes (perm args));
        TransposeOutputs (ctx args) (node args) new_perm;;
        mret true
  end.

Definition squeeze_handler : HandlerInfo := mkHandlerInfo FirstInput HandleSqueeze true.

Definition HandleUnsqueeze (args : HandlerArgs) : Edit bool :=
  axes ← ReadFromAttrOrInput (ctx args) (node args) "axes" 1 13;
  match axes with
  | None => mret false
  | Some axes =>
      let '(ok, axes) :=
        NormalizeAndValidateAxes axes (length (perm args) + length axes) in
      if negb ok then mret false
      else
        (* We will leave the axes unchanged and use them to determine how to
           transpose the output. *)
        HelpHandleUnsqueeze args axes;;
        mret true
  end.

Definition unsqueeze_handler : HandlerInfo := mkHandlerInfo FirstInput HandleUnsqueeze true.

Definition HandleQuantizeDequantizeLinear (args : HandlerArgs) : Edit bool :=
  let rank := length (perm args) in
  invalid_axis ← ((if decide (opset (ctx args) >= 13) then
                    (* Update axis in Opset >= 13 if scale/zero_point are non-scalar *)
                    inputs ← Inputs (node args);
                    scale ← lift (inputs !! 1%nat);
                    inp_shape ← ValueShape scale;
                    let scalar_params :=
                      match inp_shape with
                      | Some sh => bool_decide (length sh = 0%nat)
                      | None => false
                      end in
                    if scalar_params then mret false
                    else
                      axis ← GetAttributeIntDefault (node args) "axis" 1;
                      let '(ok, axis) := NormalizeAndValidateAxis axis rank in
                      if negb ok then mret true
                      else
                        new_axis ← lift (vec_get (perm args) axis);
                        SetAttributeInt (node args) "axis" new_axis;;
                        mret false
                  else mret false) : Edit bool);
  if invalid_axis : bool then mret false
  else
    TransposeFirstInput (ctx args) (node args) (perm_inv args);;
    TransposeOutputs (ctx args) (node args) (perm args);;
    mret true.

Definition quantize_dequantize_linear_handler : HandlerInfo :=
  mkHandlerInfo FirstInput HandleQuantizeDequantizeLinear true.

Definition HandleArgMinMax (args : HandlerArgs) : Edit bool :=
  let rank := length (perm args) in
  keepdims ← GetAttributeIntDefault (node args) "keepdims" 1;
  axis ← GetAttributeIntDefault (node args) "axis" 0;
  let '(ok, axis) := NormalizeAndValidateAxis axis rank in
  if negb ok then mret false
  else
    new_axis ← lift (vec_get (perm args) axis);
    let new_axes := [new_axis] in
    SetAttributeInt (node args) "axis" new_axis;;
    TransposeInputs (ctx args) (node args) (perm_inv args) (transposible_inputs args);;
    (if decide (keepdims ≠ 0) then TransposeOutputs (ctx args) (node args) (perm args)
     else
       squeezed ← lift (SqueezePerm new_axes (perm args));
       TransposeOutputs (ctx args) (node args) squeezed);;
    mret true.

Definition arg_min_max_handler : HandlerInfo := mkHandlerInfo FirstInput HandleArgMinMax true.

(** [(int32_t)v]. *)
Definition to_int32 (v : Z) : Z := (v + 2 ^ 31) `mod` 2 ^ 32 - 2 ^ 31.

(** Creates an int32 or int64 initializer and returns the name (Slice
    supports int64 or int32 axes). *)
Definition AddIntInitializerMatchingDtype (values : list Z) (dtype : DataType)
    : Edit string :=
  let shape := [Z.of_nat (length values)] in
  if decide (dtype = DT_INT32) then AddInitializerInt32 shape (to_int32 <$> values)
  else AddInitializerInt64 shape values.

(** Gets int data from an int32 or int64 tensor. *)
Definition TensorIntData (t : Tensor) (dtype : DataType) : list Z :=
  if decide (dtype = DT_INT32) then DataInt32 t else DataInt64 t.

Definition HandleSlice (args : HandlerArgs) : Edit bool :=
  let rank := length (perm args) in
  if decide (opset (ctx args) < 10) then
    axes ← GetAttributeInts (node args) "axes";
    axes ← (match axes with
            | Some axes => mret axes
            | None =>
                (* When axes are not provided, [0, 1, ... len(starts)] is used *)
                starts ← GetAttributeInts (node args) "starts";
                starts ← lift starts;
                mret (index_range 0 (length starts))
            end : Edit (list Z));
    let '(ok, axes) := NormalizeAndValidateAxes axes rank in
    if negb ok then mret false
    else
      new_axes ← lift (AxesForTransposedInput axes (perm args));
      SetAttributeInts (node args) "axes" new_axes;;
      TransposeFirstInput (ctx args) (node args) (perm_inv args);;
      TransposeOutputs (ctx args) (node args) (perm args);;
      mret true
  else
    inputs ← Inputs (node args);
    (* Inputs are: data, starts, ends, [axes, steps].  NOTE: axes can be
       int64 or int32.  [updated] is false on the early [return false]. *)
    let axes_inp := match inputs !! 3%nat with
                    | Some axes_inp => if decide (axes_inp = "") then None else Some axes_inp
                    | None => None
                    end in
    updated ← (
               match axes_inp with
               | None =>
                   (* Case 1: Axes is missing.  Compute using length of starts. *)
                   starts_name ← lift (inputs !! 1%nat);
                   starts_shape ← ValueShape starts_name;
                   int_dtype ← ValueDType starts_name;
                   match starts_shape with
                   | Some [d] =>
                       if decide (d < 0) then mret false
                       else
                         let ndims := Z.to_nat d in
                         new_axes ← lift (vec_fold (λ acc i, x ← vec_get (perm args) i;
                                                             Some (acc ++ [x]))
                                                   [] (index_range 0 ndims));
                         new_axes_const ← AddIntInitializerMatchingDtype new_axes int_dtype;
                         SetInput (node args) 3 new_axes_const;;
                         mret true
                   | _ => mret false
                   end
               | Some axes_inp =>
                   (* Case 2: Axes input provided.  Update if constant. *)
                   axes_const ← GetConstant axes_inp;
                   match axes_const with
                   | None => mret false
                   | Some t =>
                       let int_dtype := t_dtype t in
                       let '(ok, axes) := NormalizeAndValidateAxes (TensorIntData t int_dtype) rank in
                       if negb ok then mret false
                       else
                         (* Update axes but leave the order unchanged *)
                         new_axes ← lift (AxesForTransposedInput axes (perm args));
                         new_axes_const ← AddIntInitializerMatchingDtype new_axes int_dtype;
                         SetInput (node args) 3 new_axes_const;;
                         has ← HasValueConsumers axes_inp;
                         when (negb has) (RemoveInitializer axes_inp);;
                         mret true
                   end
               end : Edit bool);
    if negb updated then mret false
    else
      TransposeFirstInput (ctx args) (node args) (perm_inv args);;
      TransposeOutputs (ctx args) (node args) (perm args);;
      mret true.

Definition slice_handler : HandlerInfo := mkHandlerInfo FirstInput HandleSlice true.

Definition HandleTile (args : HandlerArgs) : Edit bool :=
  let rank := length (perm args) in
  let perm_shape := [Z.of_nat rank] in
  inputs ← Inputs (node args);
  repeats_inp ← lift (inputs !! 1%nat);
  repeats_const ← GetConstant repeats_inp;
  match repeats_const with
  | Some t =>
      (* Case 1: Repeats is constant.  Shuffle order. *)
      let repeats := DataInt64 t in
      new_repeats ← lift (vec_fold (λ acc p, x ← vec_get repeats p; Some (acc ++ [x]))
                                   [] (perm_inv args));
      new_repeats_const ← AddInitializerInt64 perm_shape new_repeats;
      SetInput (node args) 1 new_repeats_const;;
      has ← HasValueConsumers repeats_inp;
      when (negb has) (RemoveInitializer repeats_inp)
  | None =>
      (* Case 2: Repeats is computed.  Insert Gather node. *)
      perm_inv_const ← AddInitializerInt64 perm_shape (perm_inv args);
      gather_node ← AddNode "Gather" [repeats_inp; perm_inv_const] 1 "";
      gather_outs ← Outputs gather_node;
      gather_output ← lift (gather_outs !! 0%nat);
      CopyValueInfo repeats_inp gather_output;;
      SetInput (node args) 1 gather_output
  end;;
  TransposeFirstInput (ctx args) (node args) (perm_inv args);;
  TransposeOutputs (ctx args) (node args) (perm args);;
  mret true.

Definition tile_handler : HandlerInfo := mkHandlerInfo FirstInput HandleTile true.

(** The index of the first element equal to [x], or the length when there is
    none. *)
Fixpoint index_of (x : string) (l : list string) : nat :=
  match l with
  | [] => 0%nat
  | y :: rest => if decide (y = x) then 0%nat else S (index_of x rest)
  end.

(** In this handler a transpose leads to another transpose: [transpose] is
    the 1st and [node] is the 2nd. *)
Definition HandleTranspose (args : HandlerArgs) : Edit bool :=
  node_perm ← GetPermAttrIfValid (node args);
  match node_perm with
  | None => mret false
  | Some node_perm =>
      (* Input to 1st transpose *)
      transpose_inputs ← Inputs (transpose args);
      transpose_input ← lift (transpose_inputs !! 0%nat);
      (* Output of 2nd transpose *)
      node_outputs ← Outputs (node args);
      node_output ← lift (node_outputs !! 0%nat);
      (if decide (perm_inv args = node_perm) then
         (* Case 1: Permutations cancel. *)
         consumers ← GetValueConsumers node_output;
         (if comprehensive consumers then
            (* If possible, replace references to output of 2nd transpose
               with input to 1st *)
            ReplaceValueReferences (vc_nodes consumers) node_output transpose_input
          else
            (* Otherwise the output name of the 2nd transpose must be
               maintained.  Attempt to move the output directly to the 1st
               transpose's parent. *)
            transpose_inp_consumers ← GetValueConsumers transpose_input;
            transpose_inp_node ← GetNodeProducingOutput transpose_input;
            match transpose_inp_node, comprehensive transpose_inp_consumers with
            | Some parent, true =>
                (* Will move output to parent.  First replace parent
                   references with name of 2nd transpose output. *)
                SetInput (node args) 0 "";;
                ReplaceValueReferences (vc_nodes transpose_inp_consumers)
                                       transpose_input node_output;;
                transpose_inp_outputs ← Outputs parent;
                (* Find index of output from parent node *)
                let i := index_of transpose_input transpose_inp_outputs in
                (* Move 2nd transpose output over top of it. *)
                MoveOutput (node args) 0 parent i
            | _, _ =>
                (* Worst-case scenario: use an Identity op instead. *)
                identity ← AddNode "Identity" [""] 1 "";
                MoveOutput (node args) 0 identity 0;;
                SetInput identity 0 transpose_input
            end);;
         (* In any case, the 2nd transpose can be removed. *)
         RemoveNode (node args)
       else
         (* Case 2: Permutations don't cancel.  Compose permutations. *)
         new_perm ← lift (ComposePerm (perm args) node_perm);
         SetAttributeInts (node args) "perm" new_perm;;
         SetInput (node args) 0 transpose_input);;
      (* 2nd transpose no longer references 1st.  Remove 1st if possible. *)
      transpose_outputs ← Outputs (transpose args);
      transpose_output ← lift (transpose_outputs !! 0%nat);
      has ← HasValueConsumers transpose_output;
      when (negb has) (RemoveNode (transpose args));;
      mret true
  end.

Definition transpose_handler : HandlerInfo := mkHandlerInfo FirstInput HandleTranspose false.

Definition HandleQLinearConcat (args : HandlerArgs) : Edit bool :=
  HandleSimpleNodeWithAxis args None.

Definition QLinearConcatInputs (c : OptimizerCtx) (n : NodeRef) : Edit (list nat) :=
  inputs ← Inputs n;
  let num_inputs := length inputs in
  mret (filter (λ i, (i < num_inputs)%nat) ((λ k, 2 + 3 * k)%nat <$> seq 0 num_inputs)).

Definition q_linear_concat_handler : HandlerInfo :=
  mkHandlerInfo QLinearConcatInputs HandleQLinearConcat true.

Definition HandleQLinearBinaryOp (args : HandlerArgs) : Edit bool :=
  HandleSimpleNodeBase args true.

(** Inputs are: [A, A_scale, A_zero_point, B, B_scale, B_zero_point, C_scale,
    C_zero_point], we want [A, B]. *)
Definition QLinearBinaryOpInputs (c : OptimizerCtx) (n : NodeRef) : Edit (list nat) :=
  mret [0%nat; 3%nat].

Definition q_linear_binary_op_handler : HandlerInfo :=
  mkHandlerInfo QLinearBinaryOpInputs HandleQLinearBinaryOp true.

(** The value an [int64_t] holds after an arithmetic result [v]: the
    representative of [v] modulo [2^64] in [[-2^63, 2^63)]. *)
Definition wrap_int64 (v : Z) : Z := (v + 2 ^ 63) `mod` 2 ^ 64 - 2 ^ 63.

(** Swap between channel first/last variants.  Only works for applicable
    values of perm.  [1 - channels_last] is computed in [int64_t]. *)
Definition HandleQLinearPoolOp (args : HandlerArgs) : Edit bool :=
  channels_last ← GetAttributeIntDefault (node args) "channels_last" 1;
  let rank := length (perm args) in
  if decide (rank < 2)%nat then mret false
  else
    p ← lift (ChannelLastToFirstPerm rank);
    if (bool_decide (channels_last = 0) && bool_decide (perm args = p))
       || (bool_decide (channels_last ≠ 0) && bool_decide (perm_inv args = p))
    then
      SetAttributeInt (node args) "channels_last" (wrap_int64 (1 - channels_last));;
      TransposeFirstInput (ctx args) (node args) (perm_inv args);;
      TransposeOutputs (ctx args) (node args) (perm args);;
      mret true
    else mret false.

Definition q_linear_pool_op_handler : HandlerInfo :=
  mkHandlerInfo FirstInput HandleQLinearPoolOp true.

(** Replace with NhwcMaxPool if possible.  Only int8 and uint8 dtypes are
    supported by NhwcMaxPool. *)
Definition HandleMaxPool (args : HandlerArgs) : Edit bool :=
  outputs ← Outputs (node args);
  if bool_decide (length outputs = 2%nat) && bool_decide (outputs !! 1%nat ≠ Some "") then
    (* Can't optimize if optional "indices" output is provided *)
    mret false
  else
    out0 ← lift (outputs !! 0%nat);
    dtype ← ValueDType out0;
    if bool_decide (dtype ≠ DT_UINT8) && bool_decide (dtype ≠ DT_INT8) then mret false
    else
      let rank := length (perm args) in
      p ← lift (ChannelLastToFirstPerm rank);
      if bool_decide (perm args ≠ p) then mret false
      else
        inputs ← Inputs (node args);
        new_node ← AddNode "NhwcMaxPool" inputs 1 "com.microsoft";
        CopyAttributes new_node (node args);;
        (* Only relevant for indices output.  Prohibited for NhwcMaxPool. *)
        ClearAttribute new_node "storage_order";;
        MoveOutput (node args) 0 new_node 0;;
        RemoveNode (node args);;
        TransposeFirstInput (ctx args) new_node (perm_inv args);;
        TransposeOutputs (ctx args) new_node (perm args);;
        mret true.

Definition max_pool_op_handler : HandlerInfo := mkHandlerInfo FirstInput HandleMaxPool true.

(** *** Dispatch tables *)

Definition handler_map_entries : list (string * HandlerInfo) :=
  [ ("Cast", simple_node_handler); ("Exp", simple_node_handler);
    ("Identity", simple_node_handler); ("LeakyRelu", simple_node_handler);
    ("Log", simple_node_handler); ("Reciprocal", simple_node_handler);
    ("Relu", simple_node_handler); ("Sigmoid", simple_node_handler);
    ("Sqrt", simple_node_handler); ("Tanh", simple_node_handler);
    ("Abs", simple_node_handler); ("Not", simple_node_handler);
    ("Ceil", simple_node_handler); ("Floor", simple_node_handler);
    ("Neg", simple_node_handler); ("Erf", simple_node_handler);
    ("HardSigmoid", simple_node_handler); ("Round", simple_node_handler);
    ("IsInf", simple_node_handler); ("IsNaN", simple_node_handler);
    ("Selu", simple_node_handler); ("Shrink", simple_node_handler);
    ("Sign", simple_node_handler); ("Softplus", simple_node_handler);
    ("Softsign", simple_node_handler); ("ThresholdedRelu", simple_node_handler);
    ("Celu", simple_node_handler); ("HardSwish", simple_node_handler);

    ("Sin", simple_node_handler); ("Cos", simple_node_handler);
    ("Tan", simple_node_handler); ("Sinh", simple_node_handler);
    ("Cosh", simple_node_handler); ("Tanh", simple_node_handler);
    ("Asin", simple_node_handler); ("Acos", simple_node_handler);
    ("Atan", simple_node_handler); ("Asinh", simple_node_handler);
    ("Acosh", simple_node_handler); ("Atanh", simple_node_handler);

    ("Add", broadcast_node_handler); ("Max", broadcast_node_handler);
    ("Min", broadcast_node_handler); ("Mul", broadcast_node_handler);
    ("Sub", broadcast_node_handler); ("Div", broadcast_node_handler);
    ("And", broadcast_node_handler); ("Or", broadcast_node_handler);
    ("Xor", broadcast_node_handler); ("Mod", broadcast_node_handler);
    ("PRelu", broadcast_node_handler); ("BitShift", broadcast_node_handler);
    ("Equal", broadcast_node_handler); ("Greater", broadcast_node_handler);
    ("Less", broadcast_node_handler); ("GreaterOrEqual", broadcast_node_handler);
    ("LessOrEqual", broadcast_node_handler); ("Mean", broadcast_node_handler);
    ("Sum", broadcast_node_handler); ("Pow", broadcast_node_handler);
    ("Where", broadcast_node_handler);

    ("Clip", node_1_inp_handler); ("CastLike", node_1_inp_handler);

    ("Transpose", transpose_handler);
    ("Concat", concat_handler);
    ("Split", split_handler);
    ("Shape", shape_handler);
    ("Pad", pad_handler);
    ("ReduceSum", reduce_sum_handler);

    ("ReduceLogSum", reduce_op_handler); ("ReduceLogSumExp", reduce_op_handler);
    ("ReduceMax", reduce_op_handler); ("ReduceMean", reduce_op_handler);
    ("ReduceMin", reduce_op_handler); ("ReduceProd", reduce_op_handler);
    ("ReduceSumSquare", reduce_op_handler); ("ReduceL1", reduce_op_handler);
    ("ReduceL2", reduce_op_handler);

    ("ArgMin", arg_min_max_handler); ("ArgMax", arg_min_max_handler);

    ("Squeeze", squeeze_handler);
    ("Unsqueeze", unsqueeze_handler);
    ("Slice", slice_handler);
    ("Tile", tile_handler);

    ("Softmax", soft_hard_max_handler); ("Hardmax", soft_hard_max_handler);
    ("LogSoftmax", soft_hard_max_handler);

    ("QuantizeLinear", quantize_dequantize_linear_handler);
    ("DequantizeLinear", quantize_dequantize_linear_handler) ].

Definition extended_handler_map_entries : list (string * HandlerInfo) :=
  [ ("com.microsoft.QLinearReduceMean", reduce_op_handler);
    ("com.microsoft.QLinearSigmoid", node_1_inp_handler);
    ("com.microsoft.QLinearLeakyRelu", node_1_inp_handler);
    ("com.microsoft.QLinearConcat", q_linear_concat_handler);
    ("com.microsoft.QLinearAdd", q_linear_binary_op_handler);
    ("com.microsoft.QLinearMul", q_linear_binary_op_handler);
    ("com.microsoft.QLinearAveragePool", q_linear_pool_op_handler);
    ("com.microsoft.QLinearGlobalAveragePool", q_linear_pool_op_handler);
    ("MaxPool", max_pool_op_handler) ].

Definition handler_map : gmap string HandlerInfo := list_to_map handler_map_entries.

Definition extended_handler_map : gmap string HandlerInfo :=
  list_to_map extended_handler_map_entries.

(** The lookup key of a node: its op type in the standard domain, prefixed in
    the vendor domain, none elsewhere. *)
Definition handler_key (d : Node) : option string :=
  if bool_decide (n_domain d = "") || bool_decide (n_domain d = "ai.onnx")
  then Some (n_op_type d)
  else if bool_decide (n_domain d = "com.microsoft")
       then Some ("com.microsoft." +:+ n_op_type d)
       else None.

Definition node_handler (d : Node) (allow_extended_ops : bool) : option HandlerInfo :=
  key ← handler_key d;
  match handler_map !! key with
  | Some info => Some info
  | None => if allow_extended_ops then extended_handler_map !! key else None
  end.

Definition GetHandler (n : NodeRef) (allow_extended_ops : bool) : Edit (option HandlerInfo) :=
  d ← get_node n;
  mret (node_handler d allow_extended_ops).

(** *** Optimization heuristics (second part)

    These follow the dispatch tables because [CanLikelyRemoveTranspose] looks
    handlers up; the source declares [GetHandler] ahead of them. *)

(** The loop of [CanLikelyRemoveTranspose] over the consumers. *)
Fixpoint all_have_handlers (cs : list NodeRef) : Edit bool :=
  match cs with
  | [] => mret true
  | n :: rest =>
      info ← GetHandler n true;
      match info with
      | None => mret false
      | Some _ => all_have_handlers rest
      end
  end.

(** Returns true if the provided transpose node is only consumed by nodes we
    can likely push it through. *)
Definition CanLikelyRemoveTranspose (transpose : NodeRef) : Edit bool :=
  outs ← Outputs transpose;
  out ← lift (outs !! 0%nat);
  consumers ← GetValueConsumers out;
  if negb (comprehensive consumers) then mret false
  else all_have_handlers (vc_nodes consumers).

(** Estimates the cost of transposing an input.  Currently uses rank
    heuristic.  Negative if transpose is removed. *)
Definition EstimateTransposeValueCost (input : string) (perm_inv : list Z) : Edit Z :=
  (* Case 1: Transposing constants probably costs nothing. *)
  constant ← GetConstant input;
  match constant with
  | Some _ => mret 0
  | None =>
      (* Case 2: Transposing a transpose either cancels it or composes the
         permutations. *)
      n ← GetNodeProducingOutput input;
      transpose_perm ← (match n with
                        | Some m =>
                            is_transpose ← IsOp m "Transpose";
                            if is_transpose : bool then GetPermAttrIfValid m else mret None
                        | None => mret None
                        end : Edit (option (list Z)));
      match n, transpose_perm with
      | Some m, Some perm2 =>
          if decide (perm2 = perm_inv) then
            removable ← CanLikelyRemoveTranspose m;
            if removable : bool then
              rank ← EstimateValueRank input;
              mret (- rank)
            else mret 0
          else mret 0
      | _, _ =>
          (* Case 3: We will likely need to add a transpose. *)
          EstimateValueRank input
      end
  end.

(** The loop of [EstimateTransposeInputsCost]. *)
Fixpoint sum_input_costs (inputs : list string) (perm_inv : list Z) (cost : Z)
    (input_indices : list nat) : Edit Z :=
  match input_indices with
  | [] => mret cost
  | j :: rest =>
      inp ← lift (inputs !! j);
      c ← EstimateTransposeValueCost inp perm_inv;
      sum_input_costs inputs perm_inv (cost + c) rest
  end.

(** Estimates total cost of transposing a node's inputs.  Negative if
    transposing is beneficial. *)
Definition EstimateTransposeInputsCost (n : NodeRef) (perm_inv : list Z)
    (input_indices : list nat) : Edit Z :=
  inputs ← Inputs n;
  sum_input_costs inputs perm_inv 0 input_indices.

(** *** Driver *)

(** The loop of [ProcessTranspose] over the outputs: the largest estimated
    rank and whether some output leads to a transpose. *)
Fixpoint outputs_cost (outputs_leading_to_transpose : gset string) (out_cost : Z)
    (has_output_leading_to_transpose : bool) (outputs : list string) : Edit (Z * bool) :=
  match outputs with
  | [] => mret (out_cost, has_output_leading_to_transpose)
  | out :: rest =>
      rank ← EstimateValueRank out;
      outputs_cost outputs_leading_to_transpose (Z.max out_cost rank)
        (has_output_leading_to_transpose
         || bool_decide (out ∈ outputs_leading_to_transpose)) rest
  end.

(** [ProcessTranspose] once the handler lookup has found [info]. *)
Definition ProcessTranspose_found (info : HandlerInfo) (c : OptimizerCtx)
    (transpose n : NodeRef) (perm : list Z) (transpose_input_index : nat)
    (outputs_leading_to_transpose : gset string) : Edit bool :=
  input_indices ← transposible_inputs_fn info c n;
  if bool_decide (transpose_input_index ∉ input_indices) then
    (* Transpose is not on an eligible input *)
    mret false
  else
    is_transpose ← IsOp n "Transpose";
    is_max_pool ← IsOp n "MaxPool";
    (* Transpose and MaxPool should be optimized any time there is a
       transpose as input and a handler is available. *)
    rejected ← ((if negb (skip_cost_check c) && negb is_transpose && negb is_max_pool then
                   (* We require the input cost and the total cost to
                      strictly decrease. *)
                   cost ← EstimateTransposeInputsCost n perm input_indices;
                   cost ← ((if bool_decide (cost < 0) && transposes_outputs info then
                              (* If the output will be transposed and won't
                                 ultimately cancel, factor in that cost. *)
                              outputs ← Outputs n;
                              '(out_cost, has_output_leading_to_transpose) ←
                                outputs_cost outputs_leading_to_transpose 0 false outputs;
                              if has_output_leading_to_transpose : bool then mret cost
                              else mret (cost + out_cost)
                            else mret cost) : Edit Z);
                   mret (bool_decide (cost >= 0))
                 else mret false) : Edit bool);
    if rejected : bool then mret false
    else
      perm_inv ← lift (InvertPerm perm);
      let args := mkHandlerArgs c transpose n perm perm_inv input_indices in
      handler_fn info args.

(** Finds a handler for the node and estimates the cost of pushing a
    transpose.  Does so if deemed beneficial. *)
Definition ProcessTranspose (c : OptimizerCtx) (transpose n : NodeRef) (perm : list Z)
    (transpose_input_index : nat) (outputs_leading_to_transpose : gset string)
    : Edit bool :=
  info ← GetHandler n (allow_extended_ops c);
  match info with
  | None => mret false
  | Some info =>
      ProcessTranspose_found info c transpose n perm transpose_input_index
                             outputs_leading_to_transpose
  end.

(** The first loop of [OptimizeImpl], one node: which values have paths
    through supported ops to transpose nodes. *)
Fixpoint mark_outputs (c : OptimizerCtx) (n : NodeRef) (leading : gset string)
    (outputs : list string) : Edit (gset string) :=
  match outputs with
  | [] => mret leading
  | out :: rest =>
      leading ← ((if bool_decide (out ∈ leading) then
                    info ← GetHandler n (allow_extended_ops c);
                    (* Determine if node is supported and produces transposed
                       outputs when pushed. *)
                    match info with
                    | Some info =>
                        if transposes_outputs info then
                          input_indices ← transposible_inputs_fn info c n;
                          inputs ← Inputs n;
                          lift (vec_fold (λ s j, inp ← inputs !! (j : nat); Some ({[inp]} ∪ s))
                                         leading input_indices)
                        else mret leading
                    | None => mret leading
                    end
                  else mret leading) : Edit (gset string));
      mark_outputs c n leading rest
  end.

Fixpoint reverse_pass (c : OptimizerCtx) (leading : gset string) (nodes : list NodeRef)
    : Edit (gset string) :=
  match nodes with
  | [] => mret leading
  | n :: rest =>
      is_transpose ← IsOp n "Transpose";
      leading ← ((if is_transpose : bool then
                    inputs ← Inputs n;
                    inp ← lift (inputs !! 0%nat);
                    mret ({[inp]} ∪ leading)
                  else
                    outputs ← Outputs n;
                    mark_outputs c n leading outputs) : Edit (gset string));
      reverse_pass c leading rest
  end.

(** The inner loop of the second pass of [OptimizeImpl] over the inputs of a
    node, from index [j]; returns whether a push happened (the [break]). *)
Fixpoint scan_inputs (c : OptimizerCtx) (n : NodeRef) (leading : gset string)
    (j : nat) (inputs : list string) : Edit bool :=
  match inputs with
  | [] => mret false
  | inp :: rest =>
      if decide (inp = "") then scan_inputs c n leading (S j) rest
      else
        transpose ← GetNodeProducingOutput inp;
        transpose_perm ← (match transpose with
                          | Some t =>
                              is_transpose ← IsOp t "Transpose";
                              if is_transpose : bool then GetPermAttrIfValid t else mret None
                          | None => mret None
                          end : Edit (option (list Z)));
        match transpose, transpose_perm with
        | Some t, Some perm =>
            lift (InvertPerm perm);;
            pushed ← ProcessTranspose c t n perm j leading;
            if pushed : bool then
              (* Subsequent inputs may have changed and node may have been
                 removed. *)
              mret true
            else scan_inputs c n leading (S j) rest
        | _, _ => scan_inputs c n leading (S j) rest
        end
  end.

Fixpoint forward_pass (c : OptimizerCtx) (leading : gset string) (changed : bool)
    (nodes : list NodeRef) : Edit bool :=
  match nodes with
  | [] => mret changed
  | n :: rest =>
      inputs ← Inputs n;
      pushed ← scan_inputs c n leading 0 inputs;
      forward_pass c leading (changed || pushed) rest
  end.

(** Performs optimization.  General algorithm: iterate over nodes in
    topological order.  If a node has a transpose as input, push it through
    if the transpose cost does not increase and is likely to decrease. *)
Definition OptimizeImpl (c : OptimizerCtx) : Edit bool :=
  nodes ← Nodes;
  (* First iterate over sorted nodes in reverse order to find which outputs
     have paths through supported ops to transpose nodes. *)
  outputs_leading_to_transpose ← reverse_pass c ∅ (reverse nodes);
  (* Optimize graph. *)
  forward_pass c outputs_leading_to_transpose false nodes.

Section SupportedOpsets.
(** The opset bounds are constants declared outside the optimizer's source
    file. *)
Variables kMinSupportedOpset kMaxSupportedOpset : Z.

(** Returns nullopt if graph opset is unsupported. *)
Definition MakeOptimizerContext (allow_extended_ops : bool) : Edit (option OptimizerCtx) :=
  opset ← Opset "";
  opset ← (match opset with
           | None => Opset "ai.onnx"
           | Some v => mret (Some v)
           end : Edit (option Z));
  match opset with
  | None => mret None
  | Some v =>
      if bool_decide (v > kMaxSupportedOpset) || bool_decide (v < kMinSupportedOpset)
      then mret None
      else
        allow ← ((if allow_extended_ops then
                    ms_opset ← Opset "com.microsoft";
                    mret (bool_decide (ms_opset = Some 1))
                  else mret false) : Edit bool);
        mret (Some (mkOptimizerCtx v allow false))
  end.

Definition Optimize (allow_extended_ops : bool) : Edit bool :=
  c ← MakeOptimizerContext allow_extended_ops;
  match c with
  | None => mret false
  | Some c => OptimizeImpl c
  end.
End SupportedOpsets.

(** *** Layout change *)



Section LayoutChange.
Variables kMinSupportedOpset kMaxSupportedOpset : Z.





End LayoutChange.

(** ** Vocabulary of the properties *)

(** A computation that only reads the graph. *)
Definition read_only {A} (m : Edit A) : Prop :=
  ∀ g a g', m g = Some (a, g') → g' = g.

(** A handler of one of the two tables. *)
Definition in_dispatch_tables (info : HandlerInfo) : Prop :=
  ∃ key, handler_map !! key = Some info ∨ extended_handler_map !! key = Some info.

(** The distinct [HandlerInfo] constants the tables refer to. *)
Definition all_handlers : list HandlerInfo :=
  [ simple_node_handler; broadcast_node_handler; node_1_inp_handler; transpose_handler;
    concat_handler; split_handler; shape_handler; pad_handler; reduce_sum_handler;
    reduce_op_handler; arg_min_max_handler; squeeze_handler; unsqueeze_handler;
    slice_handler; tile_handler; soft_hard_max_handler;
    quantize_dequantize_linear_handler; q_linear_concat_handler;
    q_linear_binary_op_handler; q_linear_pool_op_handler; max_pool_op_handler ].

(** The opset of the primary domain: queried under [""] first, then under
    ["ai.onnx"]. *)
Definition primary_opset (g : Graph) : option Z :=
  match g_opsets g !! "" with
  | Some v => Some v
  | None => g_opsets g !! "ai.onnx"
  end.

Definition unsupported_opset (kMinSupportedOpset kMaxSupportedOpset : Z) (g : Graph) : Prop :=
  match primary_opset g with
  | None => True
  | Some v => v < kMinSupportedOpset ∨ v > kMaxSupportedOpset
  end.

(** No node of the graph is a Transpose. *)
Definition no_transpose_node (g : Graph) : Prop :=
  ∀ n d, (n, d) ∈ g_nodes g → node_is_op d "Transpose" = false.

(** [m] leaves the graph as it found it whenever its result is one that
    [fails] marks. *)
Definition clean_when {A} (fails : A → bool) (m : Edit A) : Prop :=
  ∀ g a g', m g = Some (a, g') → fails a = true → g' = g.

(** [m] never produces a result that [fails] marks. *)
Definition never {A} (fails : A → bool) (m : Edit A) : Prop :=
  ∀ g a g', m g = Some (a, g') → fails a = false.

(** [handler] returns false only with the graph it was given. *)
Definition unchanged_on_false (handler : HandlerArgs → Edit bool) : Prop :=
  ∀ args, clean_when negb (handler args).

(** The downstream Transpose after fusion: its [perm] attribute is [r] and
    its first input is [tin]; nothing else of the node changes. *)
Definition fused_node (dn : Node) (r : list Z) (tin : string) : Node :=
  set_inputs (put_input (n_inputs dn) 0 tin)
             (set_attrs (<["perm" := AttrInts r]> (n_attrs dn)) dn).

(** Node [n] is in the graph with the op type, domain and attributes of
    [d0], and was created before the next fresh node reference. *)
Definition node_kept (n : NodeRef) (d0 : Node) (g : Graph) : Prop :=
  (n < g_next_node g)%nat
  ∧ ∃ d, nodes_lookup (g_nodes g) n = Some d
         ∧ n_op_type d = n_op_type d0 ∧ n_domain d = n_domain d0
         ∧ n_attrs d = n_attrs d0.

Definition keeps (n : NodeRef) (d0 : Node) {A} (m : Edit A) : Prop :=
  ∀ g a g', node_kept n d0 g → m g = Some (a, g') → node_kept n d0 g'.

(** The push of a handler that transposes the first input by [perm_inv] and
    the outputs by [out_perm]. *)
Definition push_first_input (args : HandlerArgs) (out_perm : list Z) : Edit bool :=
  TransposeFirstInput (ctx args) (node args) (perm_inv args);;
  TransposeOutputs (ctx args) (node args) out_perm;;
  mret true.

(** What the reduce handler does once the axes are normalized to [axes']. *)
Definition reduce_axes_push (args : HandlerArgs) (keepdims : Z) (axes' : list Z)
    : Edit bool :=
  new_axes ← lift (SortedAxesForTransposedInput axes' (perm args));
  SetAttributeInts (node args) "axes" new_axes;;
  out_perm ← (if decide (keepdims = 0) then lift (SqueezePerm new_axes (perm args))
              else mret (perm args));
  push_first_input args out_perm.

(** The permutation moves no dimension across the split point [a]. *)
Definition keeps_split (perm : list Z) (a : Z) : Prop :=
  ∀ (i : nat) (p : Z), perm !! i = Some p → (Z.of_nat i < a ↔ p < a).

(** Every node of the graph was created before the next fresh reference. *)
Definition fresh_counter (g : Graph) : Prop :=
  Forall (λ p, (p.1 < g_next_node g)%nat) (g_nodes g).

(** Node [m] is in the graph and has [k] outputs. *)
Definition has_outputs (m : NodeRef) (k : nat) (g : Graph) : Prop :=
  ∃ d, nodes_lookup (g_nodes g) m = Some d ∧ length (n_outputs d) = k.

(** Run from a graph satisfying [P], [m] has a result, and the result and the
    graph it leaves satisfy [Q]. *)
Definition succeeds {A} (P : Graph → Prop) (m : Edit A) (Q : A → Graph → Prop) : Prop :=
  ∀ g, P g → ∃ a g', m g = Some (a, g') ∧ Q a g'.

(** The situation in which the driver calls a handler on input 0: [node] is a
    node of the graph other than [transpose], its first input [tout] is
    produced by [transpose] and is no initializer, [transpose] is a Transpose
    with the valid perm [perm] and the input [tin], and [perm_inv] is the
    inverse of [perm]. *)
Definition push_context (args : HandlerArgs) (g : Graph) (dn dt : Node)
    (tin tout : string) : Prop :=
  node args ≠ transpose args
  ∧ nodes_lookup (g_nodes g) (node args) = Some dn
  ∧ nodes_lookup (g_nodes g) (transpose args) = Some dt
  ∧ n_inputs dn !! 0%nat = Some tout
  ∧ GetNodeProducingOutput tout g = Some (Some (transpose args), g)
  ∧ g_initializers g !! tout = None
  ∧ node_is_op dt "Transpose" = true
  ∧ attr_ints dt "perm" = Some (perm args)
  ∧ IsValidPerm (perm args) = true
  ∧ n_inputs dt !! 0%nat = Some tin
  ∧ InvertPerm (perm args) = Some (perm_inv args)
  ∧ InvertPerm (perm_inv args) = Some (perm args)
  ∧ fresh_counter g.

(** The graph [g'] after a push through [node args] from the graph [g] in
    which the node was [dn] and the upstream Transpose [dt] with the input
    [tin]: the node has the attributes [attrs'], reads [tin] as its first
    input and is otherwise as it was, up to the names of its outputs; unless
    [out_perm] is the identity, every former output [y] of the node is now
    the output of a [Transpose(out_perm)] that reads the node's renamed
    output; the upstream Transpose is gone or as it was; the other nodes of
    [g], the initializers and the graph outputs are as they were. *)
Definition pushed_through (args : HandlerArgs) (g g' : Graph) (dn dt : Node) (tin : string)
    (attrs' : gmap string AttrValue) (out_perm : list Z) : Prop :=
  ∃ outs',
    nodes_lookup (g_nodes g') (node args)
    = Some (mkNode (n_op_type dn) (n_domain dn) attrs' (<[0%nat := tin]> (n_inputs dn)) outs')
    ∧ length outs' = length (n_outputs dn)
    ∧ (if IsIdentityPerm out_perm then outs' = n_outputs dn
       else ∀ j y, n_outputs dn !! j = Some y →
              ∃ t y', outs' !! j = Some y' ∧ (g_next_node g ≤ t)%nat
                      ∧ nodes_lookup (g_nodes g') t
                        = Some (mkNode "Transpose" "" {["perm" := AttrInts out_perm]}
                                       [y'] [y]))
    ∧ (nodes_lookup (g_nodes g') (transpose args) = None
       ∨ nodes_lookup (g_nodes g') (transpose args) = Some dt)
    ∧ (∀ m, m ≠ node args → m ≠ transpose args → (m < g_next_node g)%nat →
            nodes_lookup (g_nodes g') m = nodes_lookup (g_nodes g) m)
    ∧ g_initializers g' = g_initializers g ∧ g_outputs g' = g_outputs g.

(** The node [d] with every input named [old] replaced by [new]. *)
Definition redirect_inputs (old new : string) (d : Node) : Node :=
  set_inputs ((λ inp, if decide (inp = old) then new else inp) <$> n_inputs d) d.

(** No node of the table [ns] reads the value [name]. *)
Definition unread (name : string) (ns : list (NodeRef * Node)) : Prop :=
  ∀ m d, (m, d) ∈ ns → consumes name d = false.

(** The name is used nowhere in the graph. *)
Definition value_unused (name : string) (g : Graph) : Prop :=
  (∀ m d, (m, d) ∈ g_nodes g → (name ∉ n_inputs d) ∧ (name ∉ n_outputs d))
  ∧ (name ∉ g_outputs g)
  ∧ (g_initializers g !! name = None)
  ∧ (g_value_info g !! name = None).

(** Every name that the graph has still to hand out is unused. *)
Definition fresh_value_counter (g : Graph) : Prop :=
  ∀ k, (g_next_value g ≤ k)%nat → value_unused (fresh_value_name k) g.

(** ** Graphs and handler arguments of the examples *)

(** An [Add] whose second input has a [ValueInfo] without a shape, fed by a
    Transpose. *)
Definition graph_unknown_shape : Graph :=
  mkGraph {["" := 13]}
    [ (0%nat, mkNode "Transpose" "" {["perm" := AttrInts [1; 0]]} ["a"] ["t"]);
      (1%nat, mkNode "Add" "" ∅ ["t"; "b"] ["y"]) ]
    ∅
    {[ "a" := mkValueInfo DT_FLOAT (Some [2; 3]);
       "t" := mkValueInfo DT_FLOAT (Some [3; 2]);
       "b" := mkValueInfo DT_FLOAT None ]}
    ["y"] 2 0.

(** A graph at opset 3, below a minimum of 7. *)
Definition graph_old_opset : Graph :=
  mkGraph {["ai.onnx" := 3]}
    [ (0%nat, mkNode "Transpose" "" {["perm" := AttrInts [1; 0]]} ["a"] ["t"]);
      (1%nat, mkNode "Transpose" "" {["perm" := AttrInts [1; 0]]} ["t"] ["y"]) ]
    ∅ ∅ ["y"] 2 0.

(** Relu followed by a broadcasting Add, at a supported opset. *)
Definition graph_relu_add : Graph :=
  mkGraph {["" := 13]}
    [ (0%nat, mkNode "Relu" "" ∅ ["x"] ["r"]);
      (1%nat, mkNode "Add" "" ∅ ["r"; "b"] ["y"]) ]
    ∅
    {[ "x" := mkValueInfo DT_FLOAT (Some [2; 3]);
       "r" := mkValueInfo DT_FLOAT (Some [2; 3]);
       "b" := mkValueInfo DT_FLOAT (Some [3]);
       "y" := mkValueInfo DT_FLOAT (Some [2; 3]) ]}
    ["y"] 2 0.

(** A Concat without an [axis] attribute behind a Transpose. *)
Definition graph_concat_no_axis : Graph :=
  mkGraph {["" := 13]}
    [ (0%nat, mkNode "Transpose" "" {["perm" := AttrInts [1; 0]]} ["a"] ["t"]);
      (1%nat, mkNode "Concat" "" ∅ ["t"; "b"] ["y"]) ]
    ∅
    {[ "a" := mkValueInfo DT_FLOAT (Some [2; 3]);
       "t" := mkValueInfo DT_FLOAT (Some [3; 2]);
       "b" := mkValueInfo DT_FLOAT (Some [3; 2]) ]}
    ["y"] 2 0.

Definition args_concat_no_axis : HandlerArgs :=
  mkHandlerArgs (mkOptimizerCtx 13 false false) 0%nat 1%nat [1; 0] [1; 0] [0%nat; 1%nat].

(** A broadcasting Add with one transposed input and one plain input of the
    same rank: the input cost is [-2 + 2 = 0]. *)
Definition graph_transpose_add : Graph :=
  mkGraph {["" := 13]}
    [ (0%nat, mkNode "Transpose" "" {["perm" := AttrInts [1; 0]]} ["a"] ["t"]);
      (1%nat, mkNode "Add" "" ∅ ["t"; "b"] ["y"]) ]
    ∅
    {[ "a" := mkValueInfo DT_FLOAT (Some [2; 3]);
       "t" := mkValueInfo DT_FLOAT (Some [3; 2]);
       "b" := mkValueInfo DT_FLOAT (Some [3; 2]);
       "y" := mkValueInfo DT_FLOAT (Some [3; 2]) ]}
    ["y"] 2 0.

(** Two Transposes in a row that do not cancel. *)
Definition graph_two_transposes : Graph :=
  mkGraph {["" := 13]}
    [ (0%nat, mkNode "Transpose" "" {["perm" := AttrInts [1; 0; 2]]} ["x"] ["t"]);
      (1%nat, mkNode "Transpose" "" {["perm" := AttrInts [2; 1; 0]]} ["t"] ["y"]) ]
    ∅
    {[ "x" := mkValueInfo DT_FLOAT (Some [2; 3; 4]);
       "t" := mkValueInfo DT_FLOAT (Some [3; 2; 4]);
       "y" := mkValueInfo DT_FLOAT (Some [4; 2; 3]) ]}
    ["y"] 2 0.

Definition ctx_13 : OptimizerCtx := mkOptimizerCtx 13 false false.

(** The scenario [x → Transpose([1,0,2]) → Transpose([2,1,0]) → y]. *)
Definition args_two_transposes : HandlerArgs :=
  mkHandlerArgs ctx_13 0%nat 1%nat [1; 0; 2] [1; 0; 2] [0%nat].

(** The scenario [x → Transpose([0,3,1,2]) → ReduceMean(axes=[2], keepdims=0) → y]. *)
Definition graph_reduce_mean : Graph :=
  mkGraph {["" := 13]}
    [ (0%nat, mkNode "Transpose" "" {["perm" := AttrInts [0; 3; 1; 2]]} ["x"] ["t"]);
      (1%nat, mkNode "ReduceMean" "" {["axes" := AttrInts [2]; "keepdims" := AttrInt 0]}
                     ["t"] ["y"]) ]
    ∅
    {[ "x" := mkValueInfo DT_FLOAT (Some [2; 3; 4; 5]);
       "t" := mkValueInfo DT_FLOAT (Some [2; 5; 3; 4]);
       "y" := mkValueInfo DT_FLOAT (Some [2; 5; 4]) ]}
    ["y"] 2 0.

Definition args_reduce_mean : HandlerArgs :=
  mkHandlerArgs ctx_13 0%nat 1%nat [0; 3; 1; 2] [0; 2; 3; 1] [0%nat].

(** [x → Transpose(perm) → Softmax(axis=1) → y] at opset 11. *)
Definition graph_softmax (perm : list Z) : Graph :=
  mkGraph {["" := 11]}
    [ (0%nat, mkNode "Transpose" "" {["perm" := AttrInts perm]} ["x"] ["t"]);
      (1%nat, mkNode "Softmax" "" {["axis" := AttrInt 1]} ["t"] ["y"]) ]
    ∅
    {[ "x" := mkValueInfo DT_FLOAT (Some [2; 3; 4]);
       "t" := mkValueInfo DT_FLOAT (Some [2; 4; 3]);
       "y" := mkValueInfo DT_FLOAT (Some [2; 4; 3]) ]}
    ["y"] 2 0.

Definition ctx_11 : OptimizerCtx := mkOptimizerCtx 11 false false.

Definition args_softmax (perm perm_inv : list Z) : HandlerArgs :=
  mkHandlerArgs ctx_11 0%nat 1%nat perm perm_inv [0%nat].

(** [x → Transpose([0,2,1]) → op(attrs) → y] at the opset [v], and the
    arguments a handler gets for it. *)
Definition graph_single_op (v : Z) (op : string) (attrs : gmap string AttrValue) : Graph :=
  mkGraph {["" := v]}
    [ (0%nat, mkNode "Transpose" "" {["perm" := AttrInts [0; 2; 1]]} ["x"] ["t"]);
      (1%nat, mkNode op "" attrs ["t"] ["y"]) ]
    ∅
    {[ "x" := mkValueInfo DT_FLOAT (Some [2; 3; 4]);
       "t" := mkValueInfo DT_FLOAT (Some [2; 4; 3]);
       "y" := mkValueInfo DT_FLOAT (Some [2; 4; 3]) ]}
    ["y"] 2 0.

Definition args_single_op (v : Z) : HandlerArgs :=
  mkHandlerArgs (mkOptimizerCtx v false false) 0%nat 1%nat [0; 2; 1] [0; 2; 1] [0%nat].

(** A Transpose followed by a Transpose with the inverse perm, whose output
    feeds a [Relu]. *)
Definition graph_cancelling_transposes : Graph :=
  mkGraph {["" := 13]}
    [ (0%nat, mkNode "Transpose" "" {["perm" := AttrInts [1; 2; 0]]} ["x"] ["t"]);
      (1%nat, mkNode "Transpose" "" {["perm" := AttrInts [2; 0; 1]]} ["t"] ["u"]);
      (2%nat, mkNode "Relu" "" ∅ ["u"] ["y"]) ]
    ∅
    {[ "x" := mkValueInfo DT_FLOAT (Some [2; 3; 4]);
       "t" := mkValueInfo DT_FLOAT (Some [3; 4; 2]);
       "u" := mkValueInfo DT_FLOAT (Some [2; 3; 4]);
       "y" := mkValueInfo DT_FLOAT (Some [2; 3; 4]) ]}
    ["y"] 3 0.

Definition args_cancelling_transposes : HandlerArgs :=
  mkHandlerArgs ctx_13 0%nat 1%nat [1; 2; 0] [2; 0; 1] [0%nat].

(** A [QuantizeLinear] with a scale per channel behind a Transpose. *)
Definition graph_quantize_per_axis : Graph :=
  mkGraph {["" := 13]}
    [ (0%nat, mkNode "Transpose" "" {["perm" := AttrInts [0; 2; 1]]} ["x"] ["t"]);
      (1%nat, mkNode "QuantizeLinear" "" ∅ ["t"; "s"; "z"] ["y"]) ]
    ∅
    {[ "x" := mkValueInfo DT_FLOAT (Some [2; 3; 4]);
       "t" := mkValueInfo DT_FLOAT (Some [2; 4; 3]);
       "s" := mkValueInfo DT_FLOAT (Some [4]);
       "z" := mkValueInfo DT_UINT8 (Some [4]);
       "y" := mkValueInfo DT_UINT8 (Some [2; 4; 3]) ]}
    ["y"] 2 0.

(** Two Transposes in a row that do not cancel, where the output of the first
    is also read by a [Relu]. *)
Definition graph_shared_upstream : Graph :=
  mkGraph {["" := 13]}
    [ (0%nat, mkNode "Transpose" "" {["perm" := AttrInts [1; 0; 2]]} ["x"] ["t"]);
      (1%nat, mkNode "Transpose" "" {["perm" := AttrInts [2; 1; 0]]} ["t"] ["y"]);
      (2%nat, mkNode "Relu" "" ∅ ["t"] ["z"]) ]
    ∅
    {[ "x" := mkValueInfo DT_FLOAT (Some [2; 3; 4]);
       "t" := mkValueInfo DT_FLOAT (Some [3; 2; 4]);
       "y" := mkValueInfo DT_FLOAT (Some [4; 2; 3]);
       "z" := mkValueInfo DT_FLOAT (Some [3; 2; 4]) ]}
    ["y"; "z"] 3 0.

(** A Transpose of rank 2 followed by a Transpose whose perm has rank 3, and
    the arguments the Transpose handler gets for them. *)
Definition graph_longer_downstream : Graph :=
  mkGraph {["" := 13]}
    [ (0%nat, mkNode "Transpose" "" {["perm" := AttrInts [1; 0]]} ["x"] ["t"]);
      (1%nat, mkNode "Transpose" "" {["perm" := AttrInts [2; 1; 0]]} ["t"] ["y"]) ]
    ∅
    {[ "x" := mkValueInfo DT_FLOAT (Some [2; 3]);
       "t" := mkValueInfo DT_FLOAT (Some [3; 2]) ]}
    ["y"] 2 0.

Definition args_longer_downstream : HandlerArgs :=
  mkHandlerArgs ctx_13 0%nat 1%nat [1; 0] [1; 0] [0%nat].

(** The scenario [x → Transpose([0,3,1,2]) → ReduceMean(axes=[7], keepdims=0) → y]:
    the axis 7 is beyond the rank 4. *)
Definition graph_reduce_axis_7 : Graph :=
  mkGraph {["" := 13]}
    [ (0%nat, mkNode "Transpose" "" {["perm" := AttrInts [0; 3; 1; 2]]} ["x"] ["t"]);
      (1%nat, mkNode "ReduceMean" "" {["axes" := AttrInts [7]; "keepdims" := AttrInt 0]}
                     ["t"] ["y"]) ]
    ∅
    {[ "x" := mkValueInfo DT_FLOAT (Some [2; 3; 4; 5]);
       "t" := mkValueInfo DT_FLOAT (Some [2; 5; 3; 4]);
       "y" := mkValueInfo DT_FLOAT (Some [2; 5; 3]) ]}
    ["y"] 2 0.

(** * Properties *)


(** ** The examples of the source comments *)

Example ChannelLastToFirstPerm_4 : ChannelLastToFirstPerm 4 = Some [0; 3; 1; 2].
Proof. reflexivity. Qed.

Example SortedAxes_ex : SortedAxesForTransposedInput [0; 1] [2; 0; 1] = Some [0; 2].
Proof. reflexivity. Qed.

Example Axes_ex : AxesForTransposedInput [0; 1] [2; 0; 1] = Some [2; 0].
Proof. reflexivity. Qed.

Example UnsqueezePerm_ex : UnsqueezePerm [0; 3] [2; 0; 1] = Some [0; 4; 1; 3; 2].
Proof. reflexivity. Qed.

Example SqueezePerm_ex : SqueezePerm [1] [0; 3; 1; 2] = Some [0; 2; 1].
Proof. reflexivity. Qed.

Example InvertPerm_ex : InvertPerm [2; 0; 1] = Some [1; 2; 0].
Proof. reflexivity. Qed.

Example ComposePerm_ex : ComposePerm [1; 0; 2] [2; 1; 0] = Some [2; 0; 1].
Proof. reflexivity. Qed.

(** ** Reasoning about [Edit] computations *)

Lemma bind_run {A B} (m : Edit A) (k : A → Edit B) (g : Graph) :
  (m ≫= k) g = match m g with Some (a, g') => k a g' | None => None end.
Proof. reflexivity. Qed.

Lemma bind_Some {A B} (m : Edit A) (k : A → Edit B) (g : Graph) (r : B * Graph) :
  (m ≫= k) g = Some r ↔ ∃ a g1, m g = Some (a, g1) ∧ k a g1 = Some r.
Proof.
  rewrite bind_run. split.
  - destruct (m g) as [[a g1]|]; [eauto | discriminate].
  - intros (a & g1 & -> & Hk). exact Hk.
Qed.

Lemma ret_run {A} (a : A) (g : Graph) : (mret a : Edit A) g = Some (a, g).
Proof. reflexivity. Qed.

Lemma ret_bind {A B} (a : A) (k : A → Edit B) : (mret a ≫= k) = k a.
Proof. reflexivity. Qed.

Lemma lift_run {A} (a : A) (g : Graph) : lift (Some a) g = Some (a, g).
Proof. reflexivity. Qed.

Lemma lift_Some {A} (o : option A) (g : Graph) (a : A) (g' : Graph) :
  lift o g = Some (a, g') ↔ o = Some a ∧ g' = g.
Proof.
  unfold lift. destruct o; split; intros H; try discriminate.
  - by injection H as -> ->.
  - destruct H as [[= ->] ->]. done.
  - by destruct H.
Qed.

(** Unfolds the operations of [Edit]. *)
Ltac edit_unfold :=
  unfold mbind, Edit_bind, bind, mret, Edit_ret, ret, lift, query, update in *.

Lemma read_only_ret {A} (a : A) : read_only (mret a : Edit A).
Proof. intros g a' g' [= _ ->]. done. Qed.

Lemma read_only_lift {A} (o : option A) : read_only (lift o).
Proof. intros g a g' H. by apply lift_Some in H as [_ ->]. Qed.

Lemma read_only_query {A} (f : Graph → A) : read_only (query f).
Proof. intros g a g' [= _ ->]. done. Qed.

Lemma read_only_bind {A B} (m : Edit A) (k : A → Edit B) :
  read_only m → (∀ a, read_only (k a)) → read_only (m ≫= k).
Proof.
  intros Hm Hk g b g' H. apply bind_Some in H as (a & g1 & H1 & H2).
  apply Hm in H1 as ->. by apply Hk in H2.
Qed.

Lemma read_only_get_node (n : NodeRef) : read_only (get_node n).
Proof.
  intros g a g' H. unfold get_node in H.
  destruct (nodes_lookup (g_nodes g) n); simpl in H; [by injection H as _ <- | done].
Qed.

Create HintDb read_only.
#[export] Hint Resolve read_only_ret read_only_lift read_only_query read_only_get_node
  : read_only.

(** Proves [read_only] goals by following the structure of the computation. *)
Ltac read_only_step :=
  match goal with
  | |- read_only (mbind _ _) => apply read_only_bind; [| intros ?]
  | |- read_only (_ ≫= _) => apply read_only_bind; [| intros ?]
  | |- read_only (mret _) => apply read_only_ret
  | |- read_only (lift _) => apply read_only_lift
  | |- read_only (query _) => apply read_only_query
  | |- read_only (get_node _) => apply read_only_get_node
  | |- read_only (if ?b then _ else _) => destruct b
  | |- read_only (match ?x with _ => _ end) => destruct x
  | |- read_only (let '(_, _) := ?x in _) => destruct x
  | |- read_only _ => solve [auto with read_only]
  end.

Ltac read_only_solve := repeat read_only_step.

(** *** The queries of the interface and the heuristics only read *)

Lemma read_only_OpType n : read_only (OpType n).
Proof. unfold OpType. read_only_solve. Qed.
Lemma read_only_Domain n : read_only (Domain n).
Proof. unfold Domain. read_only_solve. Qed.
Lemma read_only_Inputs n : read_only (Inputs n).
Proof. unfold Inputs. read_only_solve. Qed.
Lemma read_only_Outputs n : read_only (Outputs n).
Proof. unfold Outputs. read_only_solve. Qed.
Lemma read_only_IsOp n op : read_only (IsOp n op).
Proof. unfold IsOp. read_only_solve. Qed.
Lemma read_only_GetAttributeInt n name : read_only (GetAttributeInt n name).
Proof. unfold GetAttributeInt. read_only_solve. Qed.
Lemma read_only_GetAttributeInts n name : read_only (GetAttributeInts n name).
Proof. unfold GetAttributeInts. read_only_solve. Qed.
#[export] Hint Resolve read_only_OpType read_only_Domain read_only_Inputs read_only_Outputs
  read_only_IsOp read_only_GetAttributeInt read_only_GetAttributeInts : read_only.

Lemma read_only_GetAttributeIntDefault n name v : read_only (GetAttributeIntDefault n name v).
Proof. unfold GetAttributeIntDefault. read_only_solve. Qed.
Lemma read_only_Opset domain : read_only (Opset domain).
Proof. unfold Opset. read_only_solve. Qed.
Lemma read_only_Nodes : read_only Nodes.
Proof. unfold Nodes. read_only_solve. Qed.
Lemma read_only_GetConstant name : read_only (GetConstant name).
Proof. unfold GetConstant. read_only_solve. Qed.
Lemma read_only_ValueShape name : read_only (ValueShape name).
Proof. unfold ValueShape. read_only_solve. Qed.
Lemma read_only_ValueDType name : read_only (ValueDType name).
Proof. unfold ValueDType. read_only_solve. Qed.
Lemma read_only_GetValueConsumers name : read_only (GetValueConsumers name).
Proof. unfold GetValueConsumers. read_only_solve. Qed.
Lemma read_only_GetNodeProducingOutput name : read_only (GetNodeProducingOutput name).
Proof. unfold GetNodeProducingOutput. read_only_solve. Qed.
#[export] Hint Resolve read_only_GetAttributeIntDefault read_only_Opset read_only_Nodes
  read_only_GetConstant read_only_ValueShape read_only_ValueDType
  read_only_GetValueConsumers read_only_GetNodeProducingOutput : read_only.

Lemma read_only_HasValueConsumers name : read_only (HasValueConsumers name).
Proof. unfold HasValueConsumers. read_only_solve. Qed.
Lemma read_only_GetPermAttrIfValid n : read_only (GetPermAttrIfValid n).
Proof. unfold GetPermAttrIfValid. read_only_solve. Qed.
Lemma read_only_ReadFromAttrOrInput c n name i o : read_only (ReadFromAttrOrInput c n name i o).
Proof. unfold ReadFromAttrOrInput. read_only_solve. Qed.
Lemma read_only_EstimateValueRank input : read_only (EstimateValueRank input).
Proof. unfold EstimateValueRank. read_only_solve. Qed.
Lemma read_only_GetHandler n allow : read_only (GetHandler n allow).
Proof. unfold GetHandler. read_only_solve. Qed.
#[export] Hint Resolve read_only_HasValueConsumers read_only_GetPermAttrIfValid
  read_only_ReadFromAttrOrInput read_only_EstimateValueRank read_only_GetHandler : read_only.

Lemma read_only_all_have_handlers cs : read_only (all_have_handlers cs).
Proof. induction cs; simpl; read_only_solve. Qed.
#[export] Hint Resolve read_only_all_have_handlers : read_only.

Lemma read_only_CanLikelyRemoveTranspose n : read_only (CanLikelyRemoveTranspose n).
Proof. unfold CanLikelyRemoveTranspose. read_only_solve. Qed.
#[export] Hint Resolve read_only_CanLikelyRemoveTranspose : read_only.

Lemma read_only_EstimateTransposeValueCost input perm_inv :
  read_only (EstimateTransposeValueCost input perm_inv).
Proof. unfold EstimateTransposeValueCost. read_only_solve. Qed.
#[export] Hint Resolve read_only_EstimateTransposeValueCost : read_only.

Lemma read_only_sum_input_costs inputs perm_inv cost js :
  read_only (sum_input_costs inputs perm_inv cost js).
Proof. revert cost. induction js; intros; simpl; read_only_solve. Qed.
#[export] Hint Resolve read_only_sum_input_costs : read_only.

Lemma read_only_EstimateTransposeInputsCost n perm_inv js :
  read_only (EstimateTransposeInputsCost n perm_inv js).
Proof. unfold EstimateTransposeInputsCost. read_only_solve. Qed.

Lemma read_only_outputs_cost leading out_cost has outputs :
  read_only (outputs_cost leading out_cost has outputs).
Proof. revert out_cost has. induction outputs; intros; simpl; read_only_solve. Qed.
#[export] Hint Resolve read_only_EstimateTransposeInputsCost read_only_outputs_cost : read_only.

Lemma read_only_input_ranks inputs target js : read_only (input_ranks inputs target js).
Proof. induction js; simpl; read_only_solve. Qed.
#[export] Hint Resolve read_only_input_ranks : read_only.

Lemma read_only_AllInputs c n : read_only (AllInputs c n).
Proof. unfold AllInputs. read_only_solve. Qed.
Lemma read_only_NonScalarInputs_loop i inputs : read_only (NonScalarInputs_loop i inputs).
Proof. revert i. induction inputs; intros; simpl; read_only_solve. Qed.
#[export] Hint Resolve read_only_NonScalarInputs_loop : read_only.
Lemma read_only_NonScalarInputs c n : read_only (NonScalarInputs c n).
Proof. unfold NonScalarInputs. read_only_solve. Qed.
Lemma read_only_FirstInput c n : read_only (FirstInput c n).
Proof. unfold FirstInput. read_only_solve. Qed.
Lemma read_only_QLinearConcatInputs c n : read_only (QLinearConcatInputs c n).
Proof. unfold QLinearConcatInputs. read_only_solve. Qed.
Lemma read_only_QLinearBinaryOpInputs c n : read_only (QLinearBinaryOpInputs c n).
Proof. unfold QLinearBinaryOpInputs. read_only_solve. Qed.
#[export] Hint Resolve read_only_AllInputs read_only_NonScalarInputs read_only_FirstInput
  read_only_QLinearConcatInputs read_only_QLinearBinaryOpInputs : read_only.

(** ** The handlers of the dispatch tables *)

Ltac elem_of_explicit_list :=
  repeat first [ apply list_elem_of_here | apply list_elem_of_further ].

Lemma handler_map_entries_all :
  Forall (λ p, p.2 ∈ all_handlers) (handler_map_entries ++ extended_handler_map_entries).
Proof.
  unfold handler_map_entries, extended_handler_map_entries, all_handlers.
  repeat (apply Forall_cons; split; [simpl; elem_of_explicit_list |]).
  apply Forall_nil_2.
Qed.

Lemma table_lookup_elem (l : list (string * HandlerInfo)) (key : string) (info : HandlerInfo) :
  (list_to_map l : gmap string HandlerInfo) !! key = Some info → (key, info) ∈ l.
Proof. apply elem_of_list_to_map_2. Qed.

Lemma in_dispatch_tables_all (info : HandlerInfo) :
  in_dispatch_tables info → info ∈ all_handlers.
Proof.
  intros [key H].
  assert ((key, info) ∈ handler_map_entries ++ extended_handler_map_entries) as Hin.
  { apply elem_of_app. destruct H as [H|H]; [left|right].
    - exact (table_lookup_elem handler_map_entries key info H).
    - exact (table_lookup_elem extended_handler_map_entries key info H). }
  pose proof handler_map_entries_all as Hall.
  rewrite Forall_forall in Hall. exact (Hall _ Hin).
Qed.

Lemma node_handler_in_tables (d : Node) (allow : bool) (info : HandlerInfo) :
  node_handler d allow = Some info → in_dispatch_tables info.
Proof.
  unfold node_handler. destruct (handler_key d) as [key|]; [|discriminate].
  change (Some key ≫= _) with
    (match handler_map !! key with
     | Some info => Some info
     | None => if allow then extended_handler_map !! key else None
     end).
  destruct (handler_map !! key) as [info'|] eqn:E.
  - intros H. exists key. left. rewrite E. exact H.
  - destruct allow; [|discriminate]. intros H. exists key. right. exact H.
Qed.

(** A property of every element of [all_handlers] holds of every handler of
    the tables. *)
Lemma all_handlers_ind (P : HandlerInfo → Prop) :
  Forall P all_handlers → ∀ info, in_dispatch_tables info → P info.
Proof.
  intros HP info Hin. rewrite Forall_forall in HP.
  apply HP. by apply in_dispatch_tables_all.
Qed.

Lemma transposible_inputs_fn_read_only (info : HandlerInfo) :
  in_dispatch_tables info → ∀ c n, read_only (transposible_inputs_fn info c n).
Proof.
  revert info.
  apply (all_handlers_ind (λ info, ∀ c n, read_only (transposible_inputs_fn info c n))).
  unfold all_handlers.
  repeat (apply Forall_cons; split; [intros c n; simpl; auto with read_only |]).
  apply Forall_nil_2.
Qed.

(** ** Axes normalization *)

Lemma NormalizeAndValidateAxes_loop_nonneg (rank_int : Z) (used_dims : list bool)
    (axes : list Z) :
  Forall (λ a, 0 ≤ a) axes →
  NormalizeAndValidateAxes_loop rank_int used_dims axes = (true, axes).
Proof.
  induction 1 as [|a rest Ha _ IH]; simpl; [done|].
  destruct (decide (a < 0)); [lia|]. by rewrite IH.
Qed.

Lemma NormalizeAndValidateAxes_loop_negatives (rank_int : Z) (used_dims : list bool)
    (axes : list Z) :
  (NormalizeAndValidateAxes_loop rank_int used_dims axes).1 =
  (NormalizeAndValidateAxes_loop rank_int used_dims (filter (λ a, a < 0) axes)).1.
Proof.
  revert used_dims. induction axes as [|a rest IH]; intros used_dims; [done|].
  rewrite filter_cons. simpl. destruct (decide (a < 0)) as [Hneg|Hpos].
  - simpl. destruct (decide (a < 0)); [|lia].
    destruct (bool_decide (a + rank_int < 0) || bool_decide (a + rank_int >= rank_int)
              || default false (used_dims !! Z.to_nat (a + rank_int))); [done|].
    specialize (IH (<[Z.to_nat (a + rank_int) := true]> used_dims)).
    destruct (NormalizeAndValidateAxes_loop _ _ rest),
             (NormalizeAndValidateAxes_loop _ _ (filter _ rest)). exact IH.
  - specialize (IH used_dims).
    destruct (NormalizeAndValidateAxes_loop _ _ rest). exact IH.
Qed.

(** C10.  When every entry of [axes] is non-negative, [NormalizeAndValidateAxes]
    returns true and leaves the vector as it was, whatever the rank, even with
    duplicated entries or entries at or above the rank; in general its verdict
    is the verdict on the entries that were negative on entry, the only ones
    the range and uniqueness checks look at. *)
Theorem NormalizeAndValidateAxes_checks_negative_entries_only (axes : list Z) (rank : nat) :
  (Forall (λ a, 0 ≤ a) axes → NormalizeAndValidateAxes axes rank = (true, axes)) ∧
  (NormalizeAndValidateAxes axes rank).1 =
    (NormalizeAndValidateAxes (filter (λ a, a < 0) axes) rank).1.
Proof.
  split.
  - apply NormalizeAndValidateAxes_loop_nonneg.
  - apply NormalizeAndValidateAxes_loop_negatives.
Qed.

(** Duplicated and out-of-range non-negative axes pass for rank 3. *)
Lemma NormalizeAndValidateAxes_checks_negative_entries_only_witness :
  Forall (λ a, 0 ≤ a) [1; 1; 7] ∧ NormalizeAndValidateAxes [1; 1; 7] 3 = (true, [1; 1; 7]).
Proof.
  assert (Forall (λ a, 0 ≤ a) [1; 1; 7]) as H by (repeat constructor; lia).
  split; [exact H|].
  exact (proj1 (NormalizeAndValidateAxes_checks_negative_entries_only [1; 1; 7] 3) H).
Defined.

(** A negative entry is checked: a duplicate of it is rejected. *)
Example NormalizeAndValidateAxes_negative_duplicate :
  (NormalizeAndValidateAxes [-1; -1] 3).1 = false.
Proof. reflexivity. Qed.

(** ** Channel-last to channel-first permutation *)

Lemma vec_set_in_range {A} (v : list A) (i : nat) (x : A) :
  (i < length v)%nat → vec_set v (Z.of_nat i) x = Some (<[i := x]> v).
Proof.
  intros Hi. unfold vec_set. rewrite decide_True by lia. by rewrite Nat2Z.id.
Qed.

Lemma vec_get_in_range {A} (v : list A) (i : Z) : 0 ≤ i → vec_get v i = v !! Z.to_nat i.
Proof. intros Hi. unfold vec_get. by rewrite decide_True. Qed.

Lemma vec_get_nat {A} (v : list A) (i : nat) : vec_get v (Z.of_nat i) = v !! i.
Proof. unfold vec_get. rewrite decide_True by lia. by rewrite Nat2Z.id. Qed.

Lemma vec_fold_cons {A B} (body : B → A → option B) (acc : B) (x : A) (v : list A) :
  vec_fold body acc (x :: v) = body acc x ≫= λ acc', vec_fold body acc' v.
Proof. reflexivity. Qed.

Lemma index_range_S (lo n : nat) :
  index_range lo (S n) = Z.of_nat lo :: index_range (S lo) n.
Proof. reflexivity. Qed.

Lemma ChannelLastToFirstPerm_loop (pre : list Z) (k : nat) :
  (1 ≤ length pre)%nat →
  vec_fold (λ p i, vec_set p i (i - 1)) (pre ++ replicate k 0) (index_range (length pre) k)
  = Some (pre ++ index_range (length pre - 1) k).
Proof.
  revert pre. induction k as [|k IH]; intros pre Hpre.
  - simpl. by rewrite !app_nil_r.
  - rewrite index_range_S, vec_fold_cons.
    rewrite vec_set_in_range by (rewrite length_app; simpl; lia).
    change (Some ?x ≫= ?f) with (f x). cbv beta.
    replace (<[length pre := Z.of_nat (length pre) - 1]> (pre ++ replicate (S k) 0))
      with ((pre ++ [Z.of_nat (length pre) - 1]) ++ replicate k 0).
    2:{ rewrite <- (Nat.add_0_r (length pre)) at 2.
        rewrite insert_app_r. simpl. by rewrite <- app_assoc. }
    specialize (IH (pre ++ [Z.of_nat (length pre) - 1])).
    rewrite length_app in IH. simpl in IH.
    replace (length pre + 1)%nat with (S (length pre)) in IH by lia.
    rewrite IH by lia.
    f_equal. rewrite <- app_assoc. f_equal.
    replace (S (length pre) - 1)%nat with (length pre) by lia.
    destruct (length pre) as [|m]; [lia|].
    replace (S m - 1)%nat with m by lia.
    rewrite index_range_S. simpl. f_equal. lia.
Qed.

(** For a rank of at least 2 the result is [0, r-1, 1, 2, ..., r-2]. *)
Lemma ChannelLastToFirstPerm_rank_ge_2 (k : nat) :
  ChannelLastToFirstPerm (S (S k)) = Some (0 :: Z.of_nat (S k) :: index_range 1 k).
Proof.
  unfold ChannelLastToFirstPerm.
  change (replicate (S (S k)) 0) with (0 :: 0 :: replicate k 0).
  rewrite (vec_set_in_range _ 0) by (simpl; lia).
  change (Some ?x ≫= ?f) with (f x). cbv beta.
  rewrite (vec_set_in_range _ 1) by (simpl; lia).
  change (Some ?x ≫= ?f) with (f x). cbv beta.
  replace (S (S k) - 2)%nat with k by lia.
  replace (Z.of_nat (S (S k)) - 1) with (Z.of_nat (S k)) by lia.
  exact (ChannelLastToFirstPerm_loop [0; Z.of_nat (S k)] k ltac:(simpl; lia)).
Qed.

(** C4.  At rank 1 the function writes [p[1]] in a vector of one element:
    it has no defined result, where the documentation ("Rank must be >= 1")
    and the claim promise [[0]]. *)
Theorem ChannelLastToFirstPerm_rank_1_out_of_bounds : ChannelLastToFirstPerm 1 = None.
Proof. reflexivity. Qed.

(** ** Non-scalar inputs of a broadcasting node *)

(** Any input with an unknown shape makes [NonScalarInputs] undefined. *)
Lemma NonScalarInputs_loop_unknown_shape (g : Graph) (i : nat) (inputs : list string)
    (inp : string) :
  inp ∈ inputs → vi_shape (value_info_of g inp) = None →
  NonScalarInputs_loop i inputs g = None.
Proof.
  intros Hin Hshape. revert i.
  induction inputs as [|x rest IH]; intros i; [by apply elem_of_nil in Hin|].
  cbn [NonScalarInputs_loop]. rewrite !bind_run.
  change (ValueShape x g) with (Some (vi_shape (value_info_of g x), g)). cbv beta iota.
  apply elem_of_cons in Hin as [<-|Hin].
  - by rewrite Hshape.
  - destruct (vi_shape (value_info_of g x)); [|done].
    rewrite bind_run. cbn [lift]. rewrite bind_run. by rewrite (IH Hin).
Qed.

Lemma NonScalarInputs_unknown_shape (c : OptimizerCtx) (g : Graph) (n : NodeRef) (d : Node)
    (inp : string) :
  nodes_lookup (g_nodes g) n = Some d → inp ∈ n_inputs d →
  vi_shape (value_info_of g inp) = None →
  NonScalarInputs c n g = None.
Proof.
  intros Hn Hin Hshape. unfold NonScalarInputs, Inputs, get_node.
  rewrite !bind_run, Hn. simpl.
  by apply (NonScalarInputs_loop_unknown_shape g 0 (n_inputs d) inp).
Qed.

(** C9.  On a node with an input of unknown shape the computation of the
    non-scalar input indices dereferences an empty optional: it has no
    defined result, and neither has the optimizer run that reaches it. *)
Theorem NonScalarInputs_unknown_shape_undefined :
  NonScalarInputs (mkOptimizerCtx 13 false false) 1%nat graph_unknown_shape = None
  ∧ Optimize 7 15 false graph_unknown_shape = None.
Proof. split; vm_compute; reflexivity. Qed.

(** ** Unsupported opsets *)

(** C8.  When the primary-domain opset is absent, below the minimum or above
    the maximum supported opset, [Optimize] returns false and the graph is
    the one it was given. *)
Theorem Optimize_unsupported_opset (kMinSupportedOpset kMaxSupportedOpset : Z)
    (allow_extended_ops : bool) (g : Graph) :
  unsupported_opset kMinSupportedOpset kMaxSupportedOpset g →
  Optimize kMinSupportedOpset kMaxSupportedOpset allow_extended_ops g = Some (false, g).
Proof.
  unfold unsupported_opset, primary_opset, Optimize, MakeOptimizerContext, Opset.
  intros H. edit_unfold.
  destruct (g_opsets g !! "") as [v|] eqn:E1.
  - destruct (bool_decide (v > kMaxSupportedOpset) || bool_decide (v < kMinSupportedOpset)) eqn:E.
    + reflexivity.
    + apply orb_false_elim in E as [Ea Eb].
      apply bool_decide_eq_false in Ea, Eb. lia.
  - destruct (g_opsets g !! "ai.onnx") as [v|] eqn:E2; [|reflexivity].
    destruct (bool_decide (v > kMaxSupportedOpset) || bool_decide (v < kMinSupportedOpset)) eqn:E.
    + reflexivity.
    + apply orb_false_elim in E as [Ea Eb].
      apply bool_decide_eq_false in Ea, Eb. lia.
Qed.

Lemma Optimize_unsupported_opset_witness :
  unsupported_opset 7 15 graph_old_opset
  ∧ Optimize 7 15 true graph_old_opset = Some (false, graph_old_opset).
Proof.
  assert (unsupported_opset 7 15 graph_old_opset) as H by (vm_compute; left; reflexivity).
  split; [exact H|]. exact (Optimize_unsupported_opset 7 15 true graph_old_opset H).
Defined.

(** ** Graphs without a Transpose node *)

Lemma nodes_lookup_elem (ns : list (NodeRef * Node)) (n : NodeRef) (d : Node) :
  nodes_lookup ns n = Some d → (n, d) ∈ ns.
Proof.
  induction ns as [|[m d'] rest IH]; simpl; [done|].
  destruct (decide (m = n)) as [->|].
  - intros [= ->]. apply list_elem_of_here.
  - intros H. apply list_elem_of_further. by apply IH.
Qed.

Lemma nodes_lookup_ids (ns : list (NodeRef * Node)) (n : NodeRef) :
  n ∈ ns.*1 → is_Some (nodes_lookup ns n).
Proof.
  induction ns as [|[m d'] rest IH]; simpl.
  - intros H. by apply elem_of_nil in H.
  - intros H. destruct (decide (m = n)); [by eexists|].
    apply elem_of_cons in H as [H|H]; [congruence|by apply IH].
Qed.

Lemma get_node_run (g : Graph) (n : NodeRef) (d : Node) :
  nodes_lookup (g_nodes g) n = Some d → get_node n g = Some (d, g).
Proof. intros H. unfold get_node. by rewrite H. Qed.

Lemma IsOp_run (g : Graph) (n : NodeRef) (d : Node) (op : string) :
  nodes_lookup (g_nodes g) n = Some d → IsOp n op g = Some (node_is_op d op, g).
Proof. intros H. unfold IsOp. rewrite bind_run, (get_node_run g n d H). done. Qed.

Lemma Inputs_run (g : Graph) (n : NodeRef) (d : Node) :
  nodes_lookup (g_nodes g) n = Some d → Inputs n g = Some (n_inputs d, g).
Proof. intros H. unfold Inputs. rewrite bind_run, (get_node_run g n d H). done. Qed.

Lemma Outputs_run (g : Graph) (n : NodeRef) (d : Node) :
  nodes_lookup (g_nodes g) n = Some d → Outputs n g = Some (n_outputs d, g).
Proof. intros H. unfold Outputs. rewrite bind_run, (get_node_run g n d H). done. Qed.

Lemma mark_outputs_empty (c : OptimizerCtx) (n : NodeRef) (outputs : list string) (g : Graph) :
  mark_outputs c n ∅ outputs g = Some (∅, g).
Proof.
  induction outputs as [|out rest IH]; [done|].
  cbn [mark_outputs]. rewrite bind_run.
  rewrite bool_decide_eq_false_2 by apply not_elem_of_empty.
  exact IH.
Qed.

Lemma reverse_pass_no_transpose (c : OptimizerCtx) (g : Graph) (nodes : list NodeRef) :
  no_transpose_node g → nodes ⊆ (g_nodes g).*1 →
  reverse_pass c ∅ nodes g = Some (∅, g).
Proof.
  intros Hno. induction nodes as [|n rest IH]; intros Hsub; [done|].
  destruct (nodes_lookup_ids (g_nodes g) n) as [d Hd].
  { apply Hsub. apply list_elem_of_here. }
  cbn [reverse_pass]. rewrite bind_run, (IsOp_run g n d _ Hd).
  rewrite (Hno n d (nodes_lookup_elem _ _ _ Hd)).
  rewrite !bind_run, (Outputs_run g n d Hd), mark_outputs_empty.
  apply IH. intros x Hx. apply Hsub. by apply list_elem_of_further.
Qed.

Lemma GetNodeProducingOutput_elem (g : Graph) (name : string) (t : NodeRef) :
  GetNodeProducingOutput name g = Some (Some t, g) → t ∈ (g_nodes g).*1.
Proof.
  unfold GetNodeProducingOutput, query. intros [= H].
  destruct (filter _ (g_nodes g)) as [|[t' d] l] eqn:E; [done|].
  simpl in H. injection H as ->.
  assert ((t, d) ∈ filter (λ p, produces name p.2 = true) (g_nodes g)) as Hin.
  { rewrite E. apply list_elem_of_here. }
  apply list_elem_of_filter in Hin as [_ Hin].
  apply list_elem_of_fmap. by exists (t, d).
Qed.

Lemma scan_inputs_no_transpose (c : OptimizerCtx) (n : NodeRef) (leading : gset string)
    (g : Graph) (inputs : list string) (j : nat) :
  no_transpose_node g → scan_inputs c n leading j inputs g = Some (false, g).
Proof.
  intros Hno. revert j. induction inputs as [|inp rest IH]; intros j; [done|].
  cbn [scan_inputs]. destruct (decide (inp = "")); [apply IH|].
  rewrite bind_run.
  destruct (GetNodeProducingOutput inp g) as [[o g']|] eqn:E; [|done].
  assert (g' = g) as -> by (by apply read_only_GetNodeProducingOutput in E).
  destruct o as [t|].
  - destruct (nodes_lookup_ids (g_nodes g) t) as [d Hd].
    { by apply (GetNodeProducingOutput_elem g inp). }
    rewrite !bind_run, (IsOp_run g t d _ Hd).
    rewrite (Hno t d (nodes_lookup_elem _ _ _ Hd)).
    apply IH.
  - rewrite bind_run. apply IH.
Qed.

Lemma forward_pass_no_transpose (c : OptimizerCtx) (leading : gset string) (g : Graph)
    (nodes : list NodeRef) :
  no_transpose_node g → nodes ⊆ (g_nodes g).*1 →
  forward_pass c leading false nodes g = Some (false, g).
Proof.
  intros Hno. induction nodes as [|n rest IH]; intros Hsub; [done|].
  destruct (nodes_lookup_ids (g_nodes g) n) as [d Hd].
  { apply Hsub. apply list_elem_of_here. }
  cbn [forward_pass]. rewrite bind_run, (Inputs_run g n d Hd).
  rewrite bind_run, scan_inputs_no_transpose by done.
  apply IH. intros x Hx. apply Hsub. by apply list_elem_of_further.
Qed.

Lemma OptimizeImpl_no_transpose (c : OptimizerCtx) (g : Graph) :
  no_transpose_node g → OptimizeImpl c g = Some (false, g).
Proof.
  intros Hno. unfold OptimizeImpl, Nodes. rewrite bind_run. cbn [query].
  rewrite bind_run, reverse_pass_no_transpose; [|done|].
  - by apply forward_pass_no_transpose.
  - intros x Hx. by rewrite elem_of_reverse in Hx.
Qed.

Lemma MakeOptimizerContext_read_only (kMinSupportedOpset kMaxSupportedOpset : Z)
    (allow_extended_ops : bool) :
  read_only (MakeOptimizerContext kMinSupportedOpset kMaxSupportedOpset allow_extended_ops).
Proof. unfold MakeOptimizerContext. read_only_solve. Qed.

Lemma MakeOptimizerContext_total (kMinSupportedOpset kMaxSupportedOpset : Z)
    (allow_extended_ops : bool) (g : Graph) :
  ∃ c, MakeOptimizerContext kMinSupportedOpset kMaxSupportedOpset allow_extended_ops g
       = Some (c, g).
Proof.
  unfold MakeOptimizerContext, Opset. edit_unfold.
  destruct (g_opsets g !! "") as [v|].
  - destruct (_ || _); [by eexists|]. destruct allow_extended_ops; by eexists.
  - destruct (g_opsets g !! "ai.onnx") as [v|]; [|by eexists].
    destruct (_ || _); [by eexists|]. destruct allow_extended_ops; by eexists.
Qed.

(** C7.  On a graph with no Transpose node, [Optimize] returns false and the
    graph is the one it was given: the reverse pass marks nothing and the
    forward pass finds no transpose to push. *)
Theorem Optimize_no_transpose_node (kMinSupportedOpset kMaxSupportedOpset : Z)
    (allow_extended_ops : bool) (g : Graph) :
  no_transpose_node g →
  Optimize kMinSupportedOpset kMaxSupportedOpset allow_extended_ops g = Some (false, g).
Proof.
  intros Hno. unfold Optimize. rewrite bind_run.
  destruct (MakeOptimizerContext_total kMinSupportedOpset kMaxSupportedOpset
              allow_extended_ops g) as [c ->].
  destruct c as [c|]; [|done]. by apply OptimizeImpl_no_transpose.
Qed.

Lemma Optimize_no_transpose_node_witness :
  no_transpose_node graph_relu_add
  ∧ Optimize 7 15 true graph_relu_add = Some (false, graph_relu_add).
Proof.
  assert (no_transpose_node graph_relu_add) as H.
  { intros n d Hin. unfold graph_relu_add in Hin. cbn [g_nodes] in Hin.
    apply elem_of_cons in Hin as [[= _ ->]|Hin]; [reflexivity|].
    apply elem_of_cons in Hin as [[= _ ->]|Hin]; [reflexivity|].
    by apply elem_of_nil in Hin. }
  split; [exact H|]. exact (Optimize_no_transpose_node 7 15 true graph_relu_add H).
Defined.

(** ** Handlers that report "unchanged" made no edit *)

Lemma never_ret {A} (fails : A → bool) (a : A) : fails a = false → never fails (mret a).
Proof. intros H g a' g' [= <- _]. exact H. Qed.

Lemma never_bind {A B} (fails : B → bool) (m : Edit A) (k : A → Edit B) :
  (∀ x, never fails (k x)) → never fails (m ≫= k).
Proof.
  intros Hk g b g' H. apply bind_Some in H as (a & g1 & _ & H). by apply Hk in H.
Qed.

Lemma never_clean {A} (fails : A → bool) (m : Edit A) : never fails m → clean_when fails m.
Proof. intros Hm g a g' H Hf. apply Hm in H. congruence. Qed.

Lemma clean_ret {A} (fails : A → bool) (a : A) : clean_when fails (mret a).
Proof. intros g a' g' [= _ <-] _. done. Qed.

Lemma clean_read_only {A} (fails : A → bool) (m : Edit A) : read_only m → clean_when fails m.
Proof. intros Hm g a g' H _. by apply Hm in H. Qed.

Lemma clean_bind_read_only {A B} (fails : B → bool) (m : Edit A) (k : A → Edit B) :
  read_only m → (∀ x, clean_when fails (k x)) → clean_when fails (m ≫= k).
Proof.
  intros Hm Hk g b g' H Hf. apply bind_Some in H as (a & g1 & H1 & H2).
  apply Hm in H1 as ->. by apply (Hk a g b g').
Qed.

(** The step that validates and then edits: when its result [x] has
    [flag x] nothing was edited, and otherwise the rest cannot fail. *)
Lemma clean_bind_flag {A B} (flag : A → bool) (fails : B → bool) (m : Edit A)
    (k : A → Edit B) :
  clean_when flag m →
  (∀ x, flag x = true → clean_when fails (k x)) →
  (∀ x, flag x = false → never fails (k x)) →
  clean_when fails (m ≫= k).
Proof.
  intros Hm Hk1 Hk2 g b g' H Hf. apply bind_Some in H as (a & g1 & H1 & H2).
  destruct (flag a) eqn:E.
  - apply (Hm g a g1 H1) in E as Hg. subst g1. by apply (Hk1 a E g b g').
  - apply (Hk2 a E) in H2. congruence.
Qed.

Ltac never_step :=
  match goal with
  | |- never _ (mbind _ _) => apply never_bind; intros ?
  | |- never _ (_ ≫= _) => apply never_bind; intros ?
  | |- never _ (mret _) => apply never_ret; reflexivity
  | |- never _ (if ?b then _ else _) => destruct b
  | |- never _ (match ?x with _ => _ end) => destruct x
  | |- never _ (let '(_, _) := ?x in _) => destruct x
  end.

Ltac never_solve := repeat never_step.

Ltac clean_step :=
  match goal with
  | |- clean_when _ _ => solve [apply never_clean; never_solve]
  | |- clean_when _ _ => solve [apply clean_read_only; read_only_solve]
  | |- clean_when _ (mret _) => apply clean_ret
  | |- clean_when _ (mbind _ _) =>
      apply clean_bind_read_only; [solve [read_only_solve] | intros ?]
  | |- clean_when _ (_ ≫= _) =>
      apply clean_bind_read_only; [solve [read_only_solve] | intros ?]
  | |- clean_when _ (if ?b then _ else _) => destruct b
  | |- clean_when _ (match ?x with _ => _ end) => destruct x
  | |- clean_when _ (let '(_, _) := ?x in _) => destruct x
  end.

Ltac clean_solve := repeat clean_step.

Lemma NormalizeInputRanks_clean c n target js :
  clean_when negb (NormalizeInputRanks c n target js).
Proof. unfold NormalizeInputRanks. clean_solve. Qed.

Lemma HandleSimpleNodeBase_clean args broadcast_inputs :
  clean_when negb (HandleSimpleNodeBase args broadcast_inputs).
Proof.
  unfold HandleSimpleNodeBase.
  apply (clean_bind_flag negb).
  - destruct broadcast_inputs; [apply NormalizeInputRanks_clean | clean_solve].
  - intros x ->%negb_true_iff. cbn [negb]. clean_solve.
  - intros x ->%negb_false_iff. cbn [negb]. never_solve.
Qed.

Lemma HandleSimpleNodeBase_never_false args :
  never negb (HandleSimpleNodeBase args false).
Proof. unfold HandleSimpleNodeBase. rewrite ret_bind. cbn [negb]. never_solve. Qed.

Lemma HandleSimpleNodeWithAxis_clean args default_axis :
  clean_when negb (HandleSimpleNodeWithAxis args default_axis).
Proof.
  unfold HandleSimpleNodeWithAxis.
  apply clean_bind_read_only; [read_only_solve|]. intros axis.
  destruct (match axis with Some a => Some a | None => default_axis end); [|clean_solve].
  destruct (NormalizeAndValidateAxis _ _) as [ok axis'].
  destruct (negb ok); [clean_solve|].
  apply (clean_bind_flag negb).
  - apply never_clean, HandleSimpleNodeBase_never_false.
  - intros x ->%negb_true_iff. cbn [negb]. clean_solve.
  - intros x ->%negb_false_iff. cbn [negb]. never_solve.
Qed.

Lemma HandleSimpleNode_unchanged : unchanged_on_false HandleSimpleNode.
Proof. intros args. apply HandleSimpleNodeBase_clean. Qed.

Lemma HandleSimpleNodeBroadcast_unchanged : unchanged_on_false HandleSimpleNodeBroadcast.
Proof. intros args. apply HandleSimpleNodeBase_clean. Qed.

Lemma HandleSimpleNode1Inp_unchanged : unchanged_on_false HandleSimpleNode1Inp.
Proof. intros args. apply HandleSimpleNodeBase_clean. Qed.

Lemma HandleSplit_unchanged : unchanged_on_false HandleSplit.
Proof. intros args. apply HandleSimpleNodeWithAxis_clean. Qed.

Lemma HandleConcat_unchanged : unchanged_on_false HandleConcat.
Proof. intros args. apply HandleSimpleNodeWithAxis_clean. Qed.

Lemma HandleQLinearConcat_unchanged : unchanged_on_false HandleQLinearConcat.
Proof. intros args. apply HandleSimpleNodeWithAxis_clean. Qed.

Lemma HandleQLinearBinaryOp_unchanged : unchanged_on_false HandleQLinearBinaryOp.
Proof. intros args. apply HandleSimpleNodeBase_clean. Qed.

Lemma HandleSoftHardMax_unchanged : unchanged_on_false HandleSoftHardMax.
Proof.
  intros args. unfold HandleSoftHardMax.
  destruct (decide _); [apply HandleSimpleNodeWithAxis_clean|].
  apply clean_bind_read_only; [read_only_solve|]. intros axis.
  destruct (NormalizeAndValidateAxis _ _) as [ok axis'].
  destruct (negb ok); [clean_solve|].
  destruct (negb _); [clean_solve|].
  apply HandleSimpleNodeBase_clean.
Qed.

Lemma HandleShape_unchanged : unchanged_on_false HandleShape.
Proof. intros args. unfold HandleShape. apply never_clean. never_solve. Qed.

Lemma HandlePad_unchanged : unchanged_on_false HandlePad.
Proof.
  intros args. unfold HandlePad.
  apply (clean_bind_flag id).
  - clean_solve.
  - intros x Hx. unfold id in Hx. subst x. clean_solve.
  - intros x Hx. unfold id in Hx. subst x. never_solve.
Qed.

Lemma HandleReduceOp_unchanged : unchanged_on_false HandleReduceOp.
Proof.
  intros args. unfold HandleReduceOp.
  apply clean_bind_read_only; [read_only_solve|]. intros keepdims.
  apply clean_bind_read_only; [read_only_solve|]. intros axes.
  apply (clean_bind_flag (λ o : option (list Z), bool_decide (o = None))).
  - clean_solve.
  - intros x Hx. apply bool_decide_eq_true in Hx. subst x. clean_solve.
  - intros x Hx. apply bool_decide_eq_false in Hx. destruct x; [never_solve|done].
Qed.

Lemma HandleReduceSum_unchanged : unchanged_on_false HandleReduceSum.
Proof.
  intros args. unfold HandleReduceSum.
  destruct (decide _); [apply HandleReduceOp_unchanged|].
  clean_solve.
Qed.

Lemma HandleSqueeze_unchanged : unchanged_on_false HandleSqueeze.
Proof. intros args. unfold HandleSqueeze. clean_solve. Qed.

Lemma HandleUnsqueeze_unchanged : unchanged_on_false HandleUnsqueeze.
Proof. intros args. unfold HandleUnsqueeze. clean_solve. Qed.

Lemma HandleQuantizeDequantizeLinear_unchanged :
  unchanged_on_false HandleQuantizeDequantizeLinear.
Proof.
  intros args. unfold HandleQuantizeDequantizeLinear.
  apply (clean_bind_flag id).
  - clean_solve.
  - intros x Hx. unfold id in Hx. subst x. clean_solve.
  - intros x Hx. unfold id in Hx. subst x. never_solve.
Qed.

Lemma HandleArgMinMax_unchanged : unchanged_on_false HandleArgMinMax.
Proof. intros args. unfold HandleArgMinMax. clean_solve. Qed.

Lemma HandleSlice_unchanged : unchanged_on_false HandleSlice.
Proof.
  intros args. unfold HandleSlice.
  destruct (decide _).
  - apply clean_bind_read_only; [read_only_solve|]. intros axes.
    apply clean_bind_read_only; [read_only_solve|]. intros axes'.
    clean_solve.
  - apply clean_bind_read_only; [read_only_solve|]. intros inputs.
    apply (clean_bind_flag negb).
    + clean_solve.
    + intros x ->%negb_true_iff. cbn [negb]. clean_solve.
    + intros x ->%negb_false_iff. cbn [negb]. never_solve.
Qed.

Lemma HandleTile_unchanged : unchanged_on_false HandleTile.
Proof. intros args. unfold HandleTile. apply never_clean. never_solve. Qed.

Lemma HandleTranspose_unchanged : unchanged_on_false HandleTranspose.
Proof. intros args. unfold HandleTranspose. clean_solve. Qed.

Lemma HandleQLinearPoolOp_unchanged : unchanged_on_false HandleQLinearPoolOp.
Proof. intros args. unfold HandleQLinearPoolOp. clean_solve. Qed.

Lemma HandleMaxPool_unchanged : unchanged_on_false HandleMaxPool.
Proof. intros args. unfold HandleMaxPool. clean_solve. Qed.

(** C2.  Every handler of the two dispatch tables, on every graph and every
    [HandlerArgs], returns false (unchanged) only with the graph exactly as it
    was before the call: nodes, inputs, attributes, initializers and
    [ValueInfo]s are all the given ones. *)
Theorem handlers_unchanged_on_false (info : HandlerInfo) (args : HandlerArgs)
    (g g' : Graph) :
  in_dispatch_tables info →
  handler_fn info args g = Some (false, g') →
  g' = g.
Proof.
  intros Hin Hrun.
  assert (unchanged_on_false (handler_fn info)) as H.
  { clear Hrun. revert info Hin.
    apply (all_handlers_ind (λ info, unchanged_on_false (handler_fn info))).
    unfold all_handlers.
    repeat (apply Forall_cons; split;
            [cbn [handler_fn simple_node_handler broadcast_node_handler node_1_inp_handler
                  transpose_handler concat_handler split_handler shape_handler pad_handler
                  reduce_sum_handler reduce_op_handler arg_min_max_handler squeeze_handler
                  unsqueeze_handler slice_handler tile_handler soft_hard_max_handler
                  quantize_dequantize_linear_handler q_linear_concat_handler
                  q_linear_binary_op_handler q_linear_pool_op_handler max_pool_op_handler];
             auto using HandleSimpleNode_unchanged, HandleSimpleNodeBroadcast_unchanged,
               HandleSimpleNode1Inp_unchanged, HandleSplit_unchanged, HandleConcat_unchanged,
               HandleQLinearConcat_unchanged, HandleQLinearBinaryOp_unchanged,
               HandleSoftHardMax_unchanged, HandleShape_unchanged, HandlePad_unchanged,
               HandleReduceOp_unchanged, HandleReduceSum_unchanged, HandleSqueeze_unchanged,
               HandleUnsqueeze_unchanged, HandleQuantizeDequantizeLinear_unchanged,
               HandleArgMinMax_unchanged, HandleSlice_unchanged, HandleTile_unchanged,
               HandleTranspose_unchanged, HandleQLinearPoolOp_unchanged,
               HandleMaxPool_unchanged |]).
    apply Forall_nil_2. }
  by apply (H args g false g').
Qed.

Lemma handler_map_Concat : handler_map !! "Concat" = Some concat_handler.
Proof. reflexivity. Qed.

Lemma handlers_unchanged_on_false_witness :
  in_dispatch_tables concat_handler
  ∧ handler_fn concat_handler args_concat_no_axis graph_concat_no_axis
    = Some (false, graph_concat_no_axis).
Proof.
  assert (in_dispatch_tables concat_handler) as Hin.
  { exists "Concat". left. exact handler_map_Concat. }
  assert (∃ g', handler_fn concat_handler args_concat_no_axis graph_concat_no_axis
                = Some (false, g')) as [g' Hrun].
  { eexists. reflexivity. }
  split; [exact Hin|].
  rewrite Hrun. f_equal. f_equal.
  exact (handlers_unchanged_on_false concat_handler args_concat_no_axis
           graph_concat_no_axis g' Hin Hrun).
Defined.

(** ** The cost gate of [ProcessTranspose] *)

Lemma node_is_op_other (d : Node) (op : string) :
  n_op_type d ≠ op → node_is_op d op = false.
Proof. intros H. unfold node_is_op. by rewrite bool_decide_eq_false_2. Qed.

(** A node named Transpose or MaxPool that has a handler is in the standard
    domain: the vendor-domain keys of these names are in neither table. *)
Lemma exempt_node_is_op (d : Node) (allow : bool) (info : HandlerInfo) (op : string) :
  node_handler d allow = Some info →
  op = "Transpose" ∨ op = "MaxPool" →
  n_op_type d = op → node_is_op d op = true.
Proof.
  intros Hh Hop Hd. unfold node_is_op, is_onnx_domain.
  rewrite bool_decide_eq_true_2 by done. cbn [andb].
  unfold node_handler, handler_key in Hh.
  destruct (bool_decide (n_domain d = "") || bool_decide (n_domain d = "ai.onnx")); [done|].
  destruct (bool_decide (n_domain d = "com.microsoft")); [|done].
  rewrite Hd in Hh.
  destruct Hop as [-> | ->]; vm_compute in Hh; destruct allow; discriminate.
Qed.

(** Once the input cost is not negative, [ProcessTranspose] answers false on
    the graph it was given, whatever the handler of [info] is: the handler is
    not called. *)
Lemma ProcessTranspose_found_rejects (info : HandlerInfo) (c : OptimizerCtx)
    (transpose n : NodeRef) (perm : list Z) (j : nat) (leading : gset string)
    (g : Graph) (d : Node) (input_indices : list nat) (cost : Z) :
  nodes_lookup (g_nodes g) n = Some d →
  skip_cost_check c = false →
  node_is_op d "Transpose" = false → node_is_op d "MaxPool" = false →
  transposible_inputs_fn info c n g = Some (input_indices, g) →
  EstimateTransposeInputsCost n perm input_indices g = Some (cost, g) →
  0 ≤ cost →
  ProcessTranspose_found info c transpose n perm j leading g = Some (false, g).
Proof.
  intros Hd Hskip Htr Hmp Hidx Hcost Hge. unfold ProcessTranspose_found.
  rewrite bind_run, Hidx.
  destruct (bool_decide (j ∉ input_indices)); [done|].
  rewrite bind_run, (IsOp_run g n d _ Hd), bind_run, (IsOp_run g n d _ Hd).
  rewrite Hskip, Htr, Hmp. cbn [negb andb].
  rewrite !bind_run, Hcost.
  rewrite (bool_decide_eq_false_2 (cost < 0)) by lia. cbn [andb].
  rewrite bind_run, ret_run. cbv beta iota.
  rewrite ret_run. by rewrite bool_decide_eq_true_2 by lia.
Qed.

(** For an exempt node the cost is not looked at. *)
Lemma ProcessTranspose_found_exempt (info : HandlerInfo) (c : OptimizerCtx)
    (transpose n : NodeRef) (perm : list Z) (j : nat) (leading : gset string)
    (g : Graph) (d : Node) (input_indices : list nat) :
  nodes_lookup (g_nodes g) n = Some d →
  node_is_op d "Transpose" = true ∨ node_is_op d "MaxPool" = true →
  transposible_inputs_fn info c n g = Some (input_indices, g) →
  j ∈ input_indices →
  ProcessTranspose_found info c transpose n perm j leading g
  = (perm_inv ← lift (InvertPerm perm);
     handler_fn info (mkHandlerArgs c transpose n perm perm_inv input_indices)) g.
Proof.
  intros Hd Hop Hidx Hj. unfold ProcessTranspose_found.
  rewrite bind_run, Hidx.
  rewrite bool_decide_eq_false_2 by (intros Hn; by apply Hn).
  rewrite bind_run, (IsOp_run g n d _ Hd), bind_run, (IsOp_run g n d _ Hd).
  assert (negb (skip_cost_check c) && negb (node_is_op d "Transpose")
          && negb (node_is_op d "MaxPool") = false) as ->.
  { destruct Hop as [-> | ->]; cbn [negb]; [by rewrite andb_false_r|by rewrite andb_false_r]. }
  by rewrite bind_run, ret_run.
Qed.

(** C3.  For a node that has a handler: when the node's op type is neither
    Transpose nor MaxPool and the cost check is not skipped, a non-negative
    [EstimateTransposeInputsCost] over the handler's transposible inputs makes
    [ProcessTranspose] return false with the graph untouched, so the handler
    runs only on a strictly negative input cost; when the op type is Transpose
    or MaxPool and the transpose is on an eligible input, [ProcessTranspose]
    is the handler's call, with no cost involved. *)
Theorem ProcessTranspose_cost_gate (c : OptimizerCtx) (transpose n : NodeRef)
    (perm : list Z) (j : nat) (leading : gset string) (g : Graph) (d : Node)
    (info : HandlerInfo) (input_indices : list nat) :
  nodes_lookup (g_nodes g) n = Some d →
  node_handler d (allow_extended_ops c) = Some info →
  transposible_inputs_fn info c n g = Some (input_indices, g) →
  (skip_cost_check c = false →
   n_op_type d ≠ "Transpose" → n_op_type d ≠ "MaxPool" →
   ∀ cost, EstimateTransposeInputsCost n perm input_indices g = Some (cost, g) →
           0 ≤ cost →
           ProcessTranspose c transpose n perm j leading g = Some (false, g))
  ∧ (n_op_type d = "Transpose" ∨ n_op_type d = "MaxPool" →
     j ∈ input_indices →
     ProcessTranspose c transpose n perm j leading g
     = (perm_inv ← lift (InvertPerm perm);
        handler_fn info (mkHandlerArgs c transpose n perm perm_inv input_indices)) g).
Proof.
  intros Hd Hh Hidx.
  assert (ProcessTranspose c transpose n perm j leading g
          = ProcessTranspose_found info c transpose n perm j leading g) as ->.
  { unfold ProcessTranspose, GetHandler.
    rewrite !bind_run, (get_node_run g n d Hd). cbv beta iota.
    rewrite ret_run. by rewrite Hh. }
  split.
  - intros Hskip Htr Hmp cost Hcost Hge.
    apply (ProcessTranspose_found_rejects info c transpose n perm j leading g d
             input_indices cost); auto using node_is_op_other.
  - intros Hop Hj.
    apply (ProcessTranspose_found_exempt info c transpose n perm j leading g d);
      [done| |done|done].
    destruct Hop as [Hop|Hop]; [left|right];
      apply (exempt_node_is_op d (allow_extended_ops c) info); auto.
Qed.

Lemma ProcessTranspose_cost_gate_witness :
  ProcessTranspose ctx_13 0%nat 1%nat [1; 0] 0 ∅ graph_transpose_add
    = Some (false, graph_transpose_add)
  ∧ ProcessTranspose ctx_13 0%nat 1%nat [1; 0; 2] 0 ∅ graph_two_transposes
    = (perm_inv ← lift (InvertPerm [1; 0; 2]);
       handler_fn transpose_handler
         (mkHandlerArgs ctx_13 0%nat 1%nat [1; 0; 2] perm_inv [0%nat])) graph_two_transposes.
Proof.
  split.
  - refine (proj1 (ProcessTranspose_cost_gate ctx_13 0%nat 1%nat [1; 0] 0%nat ∅
                     graph_transpose_add (mkNode "Add" "" ∅ ["t"; "b"] ["y"])
                     broadcast_node_handler [0%nat; 1%nat] _ _ _) _ _ _ 0 _ _).
    + reflexivity.
    + reflexivity.
    + reflexivity.
    + reflexivity.
    + discriminate.
    + discriminate.
    + vm_compute. reflexivity.
    + lia.
  - refine (proj2 (ProcessTranspose_cost_gate ctx_13 0%nat 1%nat [1; 0; 2] 0%nat ∅
                     graph_two_transposes
                     (mkNode "Transpose" "" {["perm" := AttrInts [2; 1; 0]]} ["t"] ["y"])
                     transpose_handler [0%nat] _ _ _) _ _).
    + reflexivity.
    + reflexivity.
    + reflexivity.
    + left. reflexivity.
    + apply list_elem_of_here.
Defined.

(** ** Node table lemmas *)

Lemma nodes_lookup_alter_eq (f : Node → Node) (n : NodeRef) (ns : list (NodeRef * Node))
    (d : Node) :
  nodes_lookup ns n = Some d → nodes_lookup (nodes_alter f n ns) n = Some (f d).
Proof.
  induction ns as [|[m d'] rest IH]; simpl; [done|].
  destruct (decide (m = n)) as [->|Hne]; simpl.
  - intros [= ->]. destruct (decide (n = n)); [done|congruence].
  - intros H. destruct (decide (m = n)); [congruence|]. by apply IH.
Qed.

Lemma nodes_lookup_alter_ne (f : Node → Node) (m n : NodeRef) (ns : list (NodeRef * Node)) :
  m ≠ n → nodes_lookup (nodes_alter f m ns) n = nodes_lookup ns n.
Proof.
  intros Hne. induction ns as [|[k d'] rest IH]; simpl; [done|].
  destruct (decide (k = m)) as [->|Hkm]; simpl.
  - destruct (decide (m = n)); [congruence|done].
  - destruct (decide (k = n)); [done|]. exact IH.
Qed.

Lemma nodes_lookup_remove_ne (m n : NodeRef) (ns : list (NodeRef * Node)) :
  m ≠ n → nodes_lookup (nodes_remove m ns) n = nodes_lookup ns n.
Proof.
  intros Hne. unfold nodes_remove.
  induction ns as [|[k d'] rest IH]; [done|].
  rewrite filter_cons. simpl. destruct (decide (k ≠ m)) as [Hkm|Hkm]; simpl.
  - destruct (decide (k = n)); [done|]. exact IH.
  - destruct (decide (k = n)) as [->|]; [|exact IH].
    exfalso. apply Hkm. congruence.
Qed.

Lemma nodes_lookup_remove_eq (n : NodeRef) (ns : list (NodeRef * Node)) :
  nodes_lookup (nodes_remove n ns) n = None.
Proof.
  unfold nodes_remove. induction ns as [|[k d'] rest IH]; [done|].
  rewrite filter_cons. simpl. destruct (decide (k ≠ n)) as [Hkn|Hkn]; simpl; [|exact IH].
  destruct (decide (k = n)); [congruence|exact IH].
Qed.

Lemma alter_node_run (g : Graph) (n : NodeRef) (d : Node) (f : Node → Node) :
  nodes_lookup (g_nodes g) n = Some d →
  alter_node n f g = Some (tt, set_nodes (nodes_alter f n (g_nodes g)) g).
Proof. intros H. unfold alter_node. by rewrite bind_run, (get_node_run g n d H). Qed.

Lemma RemoveNode_run (g : Graph) (n : NodeRef) (d : Node) :
  nodes_lookup (g_nodes g) n = Some d →
  RemoveNode n g = Some (tt, set_nodes (nodes_remove n (g_nodes g)) g).
Proof. intros H. unfold RemoveNode. by rewrite bind_run, (get_node_run g n d H). Qed.

Lemma GetPermAttrIfValid_run (g : Graph) (n : NodeRef) (d : Node) :
  nodes_lookup (g_nodes g) n = Some d →
  GetPermAttrIfValid n g
  = Some (match attr_ints d "perm" with
          | Some p => if IsValidPerm p then Some p else None
          | None => None
          end, g).
Proof.
  intros H. unfold GetPermAttrIfValid, GetAttributeInts.
  rewrite !bind_run, (get_node_run g n d H). cbv beta iota. rewrite ret_run.
  destruct (attr_ints d "perm") as [p|]; [|done]. by destruct (IsValidPerm p).
Qed.

(** ** Permutations *)

Lemma IsValidPerm_loop_range (rank_int : Z) (used_dims : list bool) (perm : list Z) :
  IsValidPerm_loop rank_int used_dims perm = true →
  Forall (λ x, 0 ≤ x < rank_int) perm.
Proof.
  revert used_dims. induction perm as [|x rest IH]; intros used_dims; simpl; [done|].
  destruct (bool_decide (x < 0)) eqn:E1; [done|].
  destruct (bool_decide (x >= rank_int)) eqn:E2; [done|].
  destruct (default false (used_dims !! Z.to_nat x)); [done|]. simpl.
  intros H. apply bool_decide_eq_false in E1, E2.
  apply Forall_cons. split; [lia|]. by apply IH in H.
Qed.

Lemma IsValidPerm_range (perm : list Z) :
  IsValidPerm perm = true → Forall (λ x, 0 ≤ x < Z.of_nat (length perm)) perm.
Proof. apply IsValidPerm_loop_range. Qed.

(** A loop that pushes one looked-up element per step is a [mapM]. *)
Lemma vec_fold_push {A B} (f : A → option B) (acc : list B) (v : list A) :
  vec_fold (λ acc a, x ← f a; Some (acc ++ [x])) acc v
  = (xs ← mapM f v; Some (acc ++ xs)).
Proof.
  revert acc. induction v as [|a rest IH]; intros acc; simpl.
  - by rewrite app_nil_r.
  - destruct (f a) as [x|]; simpl; [|done].
    rewrite IH. destruct (mapM f rest) as [xs|]; simpl; [|done].
    by rewrite <- app_assoc.
Qed.

(** [ComposePerm(perm1, perm2)[i] = perm1[perm2[i]]]. *)
Lemma ComposePerm_spec (perm1 perm2 r : list Z) :
  ComposePerm perm1 perm2 = Some r ↔ Forall2 (λ p x, vec_get perm1 p = Some x) perm2 r.
Proof.
  unfold ComposePerm. rewrite vec_fold_push. rewrite <- mapM_Some.
  destruct (mapM (vec_get perm1) perm2); simpl; split; congruence.
Qed.

Lemma ComposePerm_defined (perm1 perm2 : list Z) :
  Forall (λ p, 0 ≤ p < Z.of_nat (length perm1)) perm2 →
  ∃ r, ComposePerm perm1 perm2 = Some r.
Proof.
  intros H. unfold ComposePerm. rewrite vec_fold_push.
  assert (is_Some (mapM (vec_get perm1) perm2)) as [xs ->]; [|by eexists].
  apply mapM_is_Some. eapply Forall_impl; [exact H|].
  intros p Hp. cbv beta in Hp. unfold compose, vec_get.
  rewrite decide_True by lia. apply lookup_lt_is_Some. lia.
Qed.

(** ** Transpose fusion *)

Lemma put_input_first (l : list string) (name : string) :
  put_input l 0 name !! 0%nat = Some name.
Proof. unfold put_input. destruct l; reflexivity. Qed.

Lemma attr_ints_insert (d : Node) (name : string) (v : list Z) (a : gmap string AttrValue) :
  attr_ints (set_attrs (<[name := AttrInts v]> a) d) name = Some v.
Proof. unfold attr_ints. cbn [n_attrs set_attrs]. by rewrite lookup_insert_eq. Qed.

Lemma nodes_alter_alter (f1 f2 : Node → Node) (n : NodeRef) (ns : list (NodeRef * Node)) :
  nodes_alter f2 n (nodes_alter f1 n ns) = nodes_alter (λ d, f2 (f1 d)) n ns.
Proof.
  induction ns as [|[m d] ns IH]; [done|]. cbn [nodes_alter].
  destruct (decide (m = n)) as [->|Hne]; cbn [nodes_alter].
  - by rewrite decide_True.
  - rewrite decide_False by done. by rewrite IH.
Qed.

(** The list of consumers that [GetValueConsumers] returns is empty exactly
    when no node reads the value. *)
Lemma consumers_nil (name : string) (ns : list (NodeRef * Node)) :
  (filter (λ p, consumes name p.2 = true) ns).*1 = [] ↔ unread name ns.
Proof.
  unfold unread. induction ns as [|[m d] ns IH].
  - split; [|done]. intros _ m d H. by apply elem_of_nil in H.
  - rewrite filter_cons. cbn [snd]. destruct (decide (consumes name d = true)) as [Hc|Hc].
    + split; [done|]. intros H. specialize (H m d (list_elem_of_here _ _)). congruence.
    + rewrite IH. split.
      * intros H m' d' Hin. apply elem_of_cons in Hin as [[= -> ->]|Hin].
        -- by destruct (consumes name d).
        -- by apply (H m' d').
      * intros H m' d' Hin. apply (H m' d'). by apply list_elem_of_further.
Qed.

Lemma HandleTranspose_fuses_run (args : HandlerArgs) (g : Graph) (dt dn : Node)
    (q r : list Z) (tin nout tout : string) :
  node args ≠ transpose args →
  nodes_lookup (g_nodes g) (transpose args) = Some dt →
  nodes_lookup (g_nodes g) (node args) = Some dn →
  attr_ints dn "perm" = Some q → IsValidPerm q = true →
  q ≠ perm_inv args →
  ComposePerm (perm args) q = Some r →
  n_inputs dt !! 0%nat = Some tin →
  n_outputs dt !! 0%nat = Some tout →
  n_outputs dn !! 0%nat = Some nout →
  ∃ g', HandleTranspose args g = Some (true, g')
        ∧ nodes_lookup (g_nodes g') (node args) = Some (fused_node dn r tin)
        ∧ (nodes_lookup (g_nodes g') (transpose args) = None
           ∨ nodes_lookup (g_nodes g') (transpose args) = Some dt)
        ∧ (∀ m, m ≠ node args → m ≠ transpose args →
                nodes_lookup (g_nodes g') m = nodes_lookup (g_nodes g) m)
        ∧ g_initializers g' = g_initializers g
        ∧ g_value_info g' = g_value_info g
        ∧ (nodes_lookup (g_nodes g') (transpose args) = None
           ↔ (tout ∉ g_outputs g)
             ∧ unread tout (nodes_alter (λ d, fused_node d r tin) (node args) (g_nodes g))).
Proof.
  intros Hne Ht Hn Hq Hvalid Hcancel Hr Htin Htout Hnout.
  unfold HandleTranspose.
  rewrite bind_run, (GetPermAttrIfValid_run g _ dn Hn), Hq, Hvalid.
  rewrite bind_run, (Inputs_run g _ dt Ht).
  rewrite bind_run, Htin, lift_run.
  rewrite bind_run, (Outputs_run g _ dn Hn).
  rewrite bind_run, Hnout, lift_run.
  rewrite decide_False by congruence.
  rewrite ?bind_run, Hr, lift_run.
  unfold SetAttributeInts, SetInput.
  rewrite ?bind_run, (alter_node_run g _ dn _ Hn).
  set (g1 := set_nodes _ g).
  assert (nodes_lookup (g_nodes g1) (node args)
          = Some (set_attrs (<["perm" := AttrInts r]> (n_attrs dn)) dn)) as Hn1.
  { subst g1. cbn [g_nodes set_nodes].
    by apply (nodes_lookup_alter_eq
                (λ d, set_attrs (<["perm" := AttrInts r]> (n_attrs d)) d)). }
  rewrite ?bind_run, (alter_node_run g1 _ _ _ Hn1).
  set (g2 := set_nodes _ g1).
  assert (nodes_lookup (g_nodes g2) (node args) = Some (fused_node dn r tin)) as Hn2.
  { subst g2. cbn [g_nodes set_nodes].
    by rewrite (nodes_lookup_alter_eq
                  (λ d, set_inputs (put_input (n_inputs d) 0 tin) d) _ _ _ Hn1). }
  assert (∀ m, m ≠ node args → nodes_lookup (g_nodes g2) m = nodes_lookup (g_nodes g) m)
    as Hother.
  { intros m Hm. subst g2 g1. cbn [g_nodes set_nodes].
    by rewrite !nodes_lookup_alter_ne by done. }
  assert (nodes_lookup (g_nodes g2) (transpose args) = Some dt) as Ht2.
  { rewrite Hother by done. exact Ht. }
  assert (g_nodes g2 = nodes_alter (λ d, fused_node d r tin) (node args) (g_nodes g))
    as Hnodes2.
  { subst g2 g1. cbn [g_nodes set_nodes]. by rewrite nodes_alter_alter. }
  rewrite ?bind_run, (Outputs_run g2 _ dt Ht2).
  rewrite ?bind_run, Htout, lift_run.
  unfold HasValueConsumers. rewrite !bind_run.
  change (GetValueConsumers tout g2) with
    (Some ({| vc_nodes := (filter (λ p, consumes tout p.2 = true) (g_nodes g2)).*1;
              comprehensive := bool_decide (tout ∉ g_outputs g) |}, g2)).
  cbv beta iota. rewrite ret_run. cbn [comprehensive vc_nodes].
  rewrite negb_involutive.
  destruct (bool_decide (tout ∉ g_outputs g)
            && bool_decide ((filter (λ p, consumes tout p.2 = true) (g_nodes g2)).*1 = []))
    eqn:Eunused.
  - apply andb_true_iff in Eunused as [Hout%bool_decide_eq_true Hnil%bool_decide_eq_true].
    apply consumers_nil in Hnil. rewrite Hnodes2 in Hnil.
    cbn [when]. rewrite bind_run, (RemoveNode_run g2 _ dt Ht2).
    eexists. split; [reflexivity|]. cbn [g_nodes set_nodes g_initializers g_value_info].
    split; [by rewrite nodes_lookup_remove_ne|].
    split; [left; apply nodes_lookup_remove_eq|].
    split; [intros m Hm1 Hm2; rewrite nodes_lookup_remove_ne by done; by apply Hother|].
    split; [done|]. split; [done|].
    split; [done|]. intros _. apply nodes_lookup_remove_eq.
  - cbn [when]. rewrite bind_run, ret_run. cbv beta iota.
    eexists. split; [reflexivity|].
    split; [exact Hn2|]. split; [by right|].
    split; [intros m Hm1 Hm2; by apply Hother|].
    split; [done|]. split; [done|].
    rewrite Ht2. split; [done|]. intros [Hout Hnil].
    rewrite <- Hnodes2 in Hnil. apply consumers_nil in Hnil.
    rewrite (bool_decide_eq_true_2 _ Hout), (bool_decide_eq_true_2 _ Hnil) in Eunused.
    discriminate.
Qed.

(** C1 (amended).  Adjacent Transposes whose perms do not cancel are fused:
    with [p] the valid perm of the upstream node and [q] a valid perm of the
    downstream node that is no longer than [p], [q ≠ inv(p)], the handler
    returns true, the downstream node gets the perm [r] with [r[i] = p[q[i]]]
    (that is [ComposePerm p q]) and its first input becomes the upstream
    node's input.  The upstream node is removed, so that a single Transpose
    is left, exactly when its output is no graph output and no node reads it
    after the rewiring; otherwise it stays as it was.  No other node,
    initializer or [ValueInfo] changes. *)
Theorem HandleTranspose_fuses (args : HandlerArgs) (g : Graph) (dt dn : Node)
    (q : list Z) (tin nout tout : string) :
  node args ≠ transpose args →
  nodes_lookup (g_nodes g) (transpose args) = Some dt →
  nodes_lookup (g_nodes g) (node args) = Some dn →
  attr_ints dt "perm" = Some (perm args) → IsValidPerm (perm args) = true →
  InvertPerm (perm args) = Some (perm_inv args) →
  attr_ints dn "perm" = Some q → IsValidPerm q = true →
  (length q ≤ length (perm args))%nat →
  q ≠ perm_inv args →
  n_inputs dt !! 0%nat = Some tin →
  n_outputs dt !! 0%nat = Some tout →
  n_outputs dn !! 0%nat = Some nout →
  ∃ r dn' g',
    HandleTranspose args g = Some (true, g')
    ∧ ComposePerm (perm args) q = Some r
    ∧ Forall2 (λ qi ri, vec_get (perm args) qi = Some ri) q r
    ∧ nodes_lookup (g_nodes g') (node args) = Some dn'
    ∧ dn' = fused_node dn r tin
    ∧ attr_ints dn' "perm" = Some r
    ∧ n_inputs dn' !! 0%nat = Some tin
    ∧ (nodes_lookup (g_nodes g') (transpose args) = None
       ∨ nodes_lookup (g_nodes g') (transpose args) = Some dt)
    ∧ (nodes_lookup (g_nodes g') (transpose args) = None
       ↔ (tout ∉ g_outputs g)
         ∧ unread tout (nodes_alter (λ d, fused_node d r tin) (node args) (g_nodes g)))
    ∧ (∀ m, m ≠ node args → m ≠ transpose args →
            nodes_lookup (g_nodes g') m = nodes_lookup (g_nodes g) m)
    ∧ g_initializers g' = g_initializers g
    ∧ g_value_info g' = g_value_info g.
Proof.
  intros Hne Ht Hn _ _ _ Hq Hvalid Hlen Hcancel Htin Htout Hnout.
  destruct (ComposePerm_defined (perm args) q) as [r Hr].
  { eapply Forall_impl; [by apply IsValidPerm_range|]. intros x Hx. cbv beta in Hx. lia. }
  destruct (HandleTranspose_fuses_run args g dt dn q r tin nout tout)
    as (g' & Hrun & Hn' & Ht' & Hother & Hinit & Hvi & Hgone); try done.
  exists r, (fused_node dn r tin), g'.
  split; [done|]. split; [done|]. split; [by apply ComposePerm_spec|].
  split; [done|]. split; [done|].
  split; [apply attr_ints_insert|].
  split; [apply put_input_first|]. done.
Qed.

Lemma HandleTranspose_fuses_witness :
  ∃ r dn' g',
    HandleTranspose args_two_transposes graph_two_transposes = Some (true, g')
    ∧ ComposePerm [1; 0; 2] [2; 1; 0] = Some r
    ∧ Forall2 (λ qi ri, vec_get [1; 0; 2] qi = Some ri) [2; 1; 0] r
    ∧ nodes_lookup (g_nodes g') 1%nat = Some dn'
    ∧ dn' = fused_node (mkNode "Transpose" "" {["perm" := AttrInts [2; 1; 0]]} ["t"] ["y"])
                       r "x"
    ∧ attr_ints dn' "perm" = Some r
    ∧ n_inputs dn' !! 0%nat = Some "x"
    ∧ nodes_lookup (g_nodes g') 0%nat = None
    ∧ (∀ m, m ≠ 1%nat → m ≠ 0%nat →
            nodes_lookup (g_nodes g') m = nodes_lookup (g_nodes graph_two_transposes) m)
    ∧ g_initializers g' = g_initializers graph_two_transposes
    ∧ g_value_info g' = g_value_info graph_two_transposes.
Proof.
  destruct (HandleTranspose_fuses args_two_transposes graph_two_transposes
              (mkNode "Transpose" "" {["perm" := AttrInts [1; 0; 2]]} ["x"] ["t"])
              (mkNode "Transpose" "" {["perm" := AttrInts [2; 1; 0]]} ["t"] ["y"])
              [2; 1; 0] "x" "y" "t")
    as (r & dn' & g' & Hrun & Hr & Hcomp & Hn' & Hdn' & Hperm & Hin & _ & Hgone & Hrest);
    [discriminate|reflexivity|reflexivity|reflexivity|reflexivity|reflexivity|reflexivity
    |reflexivity|cbn; lia|discriminate|reflexivity|reflexivity|reflexivity|].
  exists r, dn', g'.
  split; [exact Hrun|]. split; [exact Hr|]. split; [exact Hcomp|]. split; [exact Hn'|].
  split; [exact Hdn'|]. split; [exact Hperm|]. split; [exact Hin|].
  split; [|exact Hrest].
  apply Hgone. split.
  - cbn. rewrite list_elem_of_singleton. discriminate.
  - apply consumers_nil. clear -Hr. vm_compute in Hr. injection Hr as <-.
    vm_compute. reflexivity.
Defined.

(** C1 as stated fails.  With [p = [1,0,2]] upstream and [q = [2,1,0]]
    downstream the fused perm is [[2,0,1]], which is [p[q[i]]], while
    [compose(q, p)[i] = q[p[i]]] is [[1,2,0]].  When the output of the
    upstream node is also read by another node, the upstream node stays: the
    graph keeps two Transposes, not a single one.  And for a valid [q] longer
    than [p] the composition reads [p] outside the vector: the handler has no
    defined result. *)
Lemma HandleTranspose_perm_is_not_compose_q_p :
  (∃ g' dn',
     HandleTranspose args_two_transposes graph_two_transposes = Some (true, g')
     ∧ nodes_lookup (g_nodes g') 1%nat = Some dn'
     ∧ attr_ints dn' "perm" = Some [2; 0; 1]
     ∧ ComposePerm [2; 1; 0] [1; 0; 2] = Some [1; 2; 0]
     ∧ attr_ints dn' "perm" ≠ ComposePerm [2; 1; 0] [1; 0; 2])
  ∧ (∃ g',
       HandleTranspose args_two_transposes graph_shared_upstream = Some (true, g')
       ∧ nodes_lookup (g_nodes g') 0%nat
         = Some (mkNode "Transpose" "" {["perm" := AttrInts [1; 0; 2]]} ["x"] ["t"])
       ∧ nodes_lookup (g_nodes g') 1%nat
         = Some (mkNode "Transpose" "" {["perm" := AttrInts [2; 0; 1]]} ["x"] ["y"]))
  ∧ (IsValidPerm [1; 0] = true ∧ IsValidPerm [2; 1; 0] = true
     ∧ HandleTranspose args_longer_downstream graph_longer_downstream = None).
Proof.
  split; [|split; [|by vm_compute]].
  - eexists. eexists.
    split; [vm_compute; reflexivity|].
    split; [vm_compute; reflexivity|].
    split; [reflexivity|].
    split; [reflexivity|].
    discriminate.
  - eexists.
    split; [vm_compute; reflexivity|].
    split; vm_compute; reflexivity.
Qed.

(** ** What input and output transposition leave alone

    Pushing a transpose through a node edits the node's inputs and outputs
    and adds or removes Transpose nodes around it.  A node that is not itself
    a Transpose stays in the graph with its op type, domain and attributes. *)

Section Keeps.
Variables (n : NodeRef) (d0 : Node).

Lemma keeps_ret {A} (a : A) : keeps n d0 (mret a : Edit A).
Proof. intros g a' g' H [= _ <-]. exact H. Qed.

Lemma keeps_read_only {A} (m : Edit A) : read_only m → keeps n d0 m.
Proof. intros Hm g a g' H Hrun. by rewrite (Hm g a g' Hrun). Qed.

Lemma keeps_bind {A B} (m : Edit A) (k : A → Edit B) :
  keeps n d0 m → (∀ x, keeps n d0 (k x)) → keeps n d0 (m ≫= k).
Proof.
  intros Hm Hk g b g' H Hrun. apply bind_Some in Hrun as (a & g1 & H1 & H2).
  eapply Hk; [|exact H2]. eapply Hm; [exact H|exact H1].
Qed.

Lemma keeps_when (b : bool) (m : Edit unit) : keeps n d0 m → keeps n d0 (when b m).
Proof. intros Hm. destruct b; [exact Hm|apply keeps_ret]. Qed.

Lemma keeps_for_each {A} (v : list A) (body : A → Edit unit) :
  (∀ x, keeps n d0 (body x)) → keeps n d0 (for_each v body).
Proof.
  intros Hb. induction v as [|x rest IH]; [apply keeps_ret|].
  cbn [for_each]. apply keeps_bind; [apply Hb|]. intros _. exact IH.
Qed.

(** An update that touches neither the node table nor the node counter. *)
Lemma keeps_update (f : Graph → Graph) :
  (∀ g, g_nodes (f g) = g_nodes g ∧ g_next_node (f g) = g_next_node g) →
  keeps n d0 (update f).
Proof.
  intros Hf g a g' [Hlt (d & Hd & Hrest)] [= _ <-].
  destruct (Hf g) as [Hn Hc]. split; [by rewrite Hc|].
  exists d. by rewrite Hn.
Qed.

(** Editing the inputs or outputs of any node. *)
Lemma keeps_alter_node (m : NodeRef) (f : Node → Node) :
  (∀ d, n_op_type (f d) = n_op_type d ∧ n_domain (f d) = n_domain d
        ∧ n_attrs (f d) = n_attrs d) →
  keeps n d0 (alter_node m f).
Proof.
  intros Hf g a g' [Hlt (d & Hd & Hop & Hdom & Hattrs)] Hrun.
  unfold alter_node in Hrun. apply bind_Some in Hrun as (dm & g1 & H1 & H2).
  apply read_only_get_node in H1 as Heq. subst g1.
  injection H2 as _ <-. split; [exact Hlt|]. cbn [g_nodes set_nodes].
  destruct (decide (m = n)) as [->|Hne].
  - exists (f d). rewrite (nodes_lookup_alter_eq f n _ d Hd).
    destruct (Hf d) as (-> & -> & ->). done.
  - exists d. by rewrite nodes_lookup_alter_ne.
Qed.

(** Editing another node in any way. *)
Lemma keeps_alter_other (m : NodeRef) (f : Node → Node) :
  m ≠ n → keeps n d0 (alter_node m f).
Proof.
  intros Hne g a g' [Hlt (d & Hd & Hrest)] Hrun.
  unfold alter_node in Hrun. apply bind_Some in Hrun as (dm & g1 & H1 & H2).
  apply read_only_get_node in H1 as Heq. subst g1.
  injection H2 as _ <-. split; [exact Hlt|]. cbn [g_nodes set_nodes].
  exists d. by rewrite nodes_lookup_alter_ne.
Qed.

Lemma keeps_RemoveNode_other (m : NodeRef) : m ≠ n → keeps n d0 (RemoveNode m).
Proof.
  intros Hne g a g' [Hlt (d & Hd & Hrest)] Hrun.
  unfold RemoveNode in Hrun. apply bind_Some in Hrun as (dm & g1 & H1 & H2).
  apply read_only_get_node in H1 as Heq. subst g1.
  injection H2 as _ <-. split; [exact Hlt|]. cbn [g_nodes set_nodes].
  exists d. by rewrite nodes_lookup_remove_ne.
Qed.

Lemma nodes_lookup_app_l (ns extra : list (NodeRef * Node)) (k : NodeRef) (d : Node) :
  nodes_lookup ns k = Some d → nodes_lookup (ns ++ extra) k = Some d.
Proof.
  induction ns as [|[m d'] rest IH]; simpl; [done|].
  destruct (decide (m = k)); [done|exact IH].
Qed.

(** A fresh node is another node. *)
Lemma AddNode_kept (op_type : string) (inputs : list string) (num_outputs : nat)
    (domain : string) (g : Graph) (k : NodeRef) (g' : Graph) :
  node_kept n d0 g → AddNode op_type inputs num_outputs domain g = Some (k, g') →
  node_kept n d0 g' ∧ k ≠ n.
Proof.
  intros [Hlt (d & Hd & Hrest)] [= <- <-].
  split; [|lia]. split; [cbn; lia|].
  exists d. cbn [g_nodes set_nodes set_next_node set_next_value].
  split; [by apply nodes_lookup_app_l|exact Hrest].
Qed.

Lemma keeps_AddNode_then {B} (op_type : string) (inputs : list string) (num_outputs : nat)
    (domain : string) (k : NodeRef → Edit B) :
  (∀ x, x ≠ n → keeps n d0 (k x)) →
  keeps n d0 (AddNode op_type inputs num_outputs domain ≫= k).
Proof.
  intros Hk g b g' H Hrun. apply bind_Some in Hrun as (x & g1 & H1 & H2).
  destruct (AddNode_kept _ _ _ _ _ _ _ H H1) as [H' Hne].
  exact (Hk x Hne g1 b g' H' H2).
Qed.
End Keeps.

Create HintDb keeps.

Ltac keeps_step :=
  match goal with
  | |- keeps _ _ (mret _) => apply keeps_ret
  | |- keeps _ _ (AddNode _ _ _ _ ≫= _) => apply keeps_AddNode_then; intros ? ?
  | |- keeps _ _ (mbind _ (AddNode _ _ _ _)) => apply keeps_AddNode_then; intros ? ?
  | |- keeps _ _ (when _ _) => apply keeps_when
  | |- keeps _ _ (for_each _ _) => apply keeps_for_each; intros ?
  | |- keeps _ _ (_ ≫= _) => apply keeps_bind; [| intros ?]
  | |- keeps _ _ (mbind _ _) => apply keeps_bind; [| intros ?]
  | |- keeps _ _ (if ?b then _ else _) => destruct b
  | |- keeps _ _ (match ?x with _ => _ end) => destruct x
  | |- keeps _ _ (let '(_, _) := ?x in _) => destruct x
  | |- keeps _ _ _ => solve [auto with keeps]
  | |- keeps _ _ _ => solve [apply keeps_read_only; read_only_solve]
  end.

Ltac keeps_solve := repeat keeps_step.

Lemma keeps_SetInput n d0 m i name : keeps n d0 (SetInput m i name).
Proof. apply keeps_alter_node. by intros d. Qed.

Lemma keeps_SetAttributeInts_other n d0 m name v :
  m ≠ n → keeps n d0 (SetAttributeInts m name v).
Proof. apply keeps_alter_other. Qed.

Lemma keeps_SetAttributeInt_other n d0 m name v :
  m ≠ n → keeps n d0 (SetAttributeInt m name v).
Proof. apply keeps_alter_other. Qed.

Lemma keeps_CopyValueInfo n d0 src dst : keeps n d0 (CopyValueInfo src dst).
Proof. apply keeps_update. by intros g. Qed.

Lemma keeps_SetShape n d0 name shape : keeps n d0 (SetShape name shape).
Proof. apply keeps_update. by intros g. Qed.
#[export] Hint Resolve keeps_SetInput keeps_SetAttributeInts_other
  keeps_SetAttributeInt_other keeps_CopyValueInfo keeps_SetShape keeps_RemoveNode_other
  : keeps.

Lemma keeps_PermuteDims n d0 name perm : keeps n d0 (PermuteDims name perm).
Proof. unfold PermuteDims. keeps_solve. Qed.

Lemma keeps_TransposeInitializer n d0 name perm : keeps n d0 (TransposeInitializer name perm).
Proof.
  unfold TransposeInitializer. apply keeps_bind; [|intros _; apply keeps_PermuteDims].
  apply keeps_update. by intros g.
Qed.

Lemma keeps_MoveOutput n d0 src i dst j : keeps n d0 (MoveOutput src i dst j).
Proof.
  unfold MoveOutput.
  apply keeps_bind; [apply keeps_read_only; read_only_solve|]. intros s.
  apply keeps_bind; [apply keeps_read_only; read_only_solve|]. intros name.
  apply keeps_bind; [apply keeps_read_only; read_only_solve|]. intros d.
  apply keeps_bind; [apply keeps_read_only; read_only_solve|]. intros _.
  apply keeps_bind; [apply keeps_read_only; read_only_solve|]. intros k.
  apply keeps_bind; [apply keeps_update; by intros g|]. intros _.
  apply keeps_bind; [apply keeps_alter_node; by intros d'|]. intros _.
  apply keeps_alter_node. by intros d'.
Qed.

Lemma keeps_MakeNode1Attr n d0 op_type input attr_name attr_val :
  keeps n d0 (MakeNode1Attr op_type input attr_name attr_val).
Proof. unfold MakeNode1Attr. keeps_solve. Qed.

Lemma keeps_MakeTranspose n d0 input perm : keeps n d0 (MakeTranspose input perm).
Proof. apply keeps_MakeNode1Attr. Qed.
#[export] Hint Resolve keeps_PermuteDims keeps_TransposeInitializer keeps_MoveOutput
  keeps_MakeNode1Attr keeps_MakeTranspose : keeps.

Lemma keeps_ReplaceValueReferences n d0 nodes old_value new_value :
  keeps n d0 (ReplaceValueReferences nodes old_value new_value).
Proof. unfold ReplaceValueReferences. keeps_solve. Qed.
#[export] Hint Resolve keeps_ReplaceValueReferences : keeps.

Lemma keeps_TransposeOutput n d0 c m i perm perm_inv :
  keeps n d0 (TransposeOutput c m i perm perm_inv).
Proof. unfold TransposeOutput. keeps_solve. Qed.
#[export] Hint Resolve keeps_TransposeOutput : keeps.

Lemma keeps_TransposeOutputs n d0 c m perm : keeps n d0 (TransposeOutputs c m perm).
Proof. unfold TransposeOutputs. keeps_solve. Qed.
#[export] Hint Resolve keeps_TransposeOutputs : keeps.

Lemma read_only_find_transpose_consumer perm cs : read_only (find_transpose_consumer perm cs).
Proof. induction cs; simpl; read_only_solve. Qed.
#[export] Hint Resolve read_only_find_transpose_consumer : read_only.

Lemma node_is_op_same (d d0 : Node) (op : string) :
  n_op_type d = n_op_type d0 → n_domain d = n_domain d0 →
  node_is_op d op = node_is_op d0 op.
Proof. intros H1 H2. unfold node_is_op. by rewrite H1, H2. Qed.

(** The producer that [TransposeInput] removes is a Transpose, hence not the
    node that is kept. *)
Lemma transpose_producer_other (n : NodeRef) (d0 : Node) (g : Graph) (t : NodeRef)
    (perm2 : list Z) :
  node_is_op d0 "Transpose" = false → node_kept n d0 g →
  (is_transpose ← IsOp t "Transpose";
   if is_transpose : bool then GetPermAttrIfValid t else mret None) g
  = Some (Some perm2, g) →
  t ≠ n.
Proof.
  intros Hop [_ (d & Hd & Hty & Hdom & _)] Hrun ->.
  rewrite bind_run, (IsOp_run g n d _ Hd) in Hrun.
  rewrite (node_is_op_same d d0) in Hrun by done.
  rewrite Hop in Hrun. discriminate.
Qed.

Lemma keeps_apply n d0 {A} (m : Edit A) (g : Graph) (a : A) (g' : Graph) :
  keeps n d0 m → node_kept n d0 g → m g = Some (a, g') → node_kept n d0 g'.
Proof. intros H. apply H. Qed.

Lemma keeps_TransposeInput n d0 c m i perm perm_inv :
  node_is_op d0 "Transpose" = false →
  keeps n d0 (TransposeInput c m i perm perm_inv).
Proof.
  intros Hop g a g' Hkept Hrun. unfold TransposeInput in Hrun.
  apply bind_Some in Hrun as (inputs & g0 & H0 & Hrun).
  apply read_only_Inputs in H0 as ->.
  apply bind_Some in Hrun as (input & g0 & H0 & Hrun).
  apply read_only_lift in H0 as ->.
  apply bind_Some in Hrun as ([] & g1 & H1 & Hrun).
  apply (keeps_SetInput n d0 _ _ _ _ _ _ Hkept) in H1 as Hkept1.
  apply bind_Some in Hrun as (constant & g0 & H0 & Hrun).
  apply read_only_GetConstant in H0 as ->.
  apply bind_Some in Hrun as (consumers & g0 & H0 & Hrun).
  apply read_only_GetValueConsumers in H0 as ->.
  destruct (bool_decide (constant ≠ None) && comprehensive consumers).
  - refine (keeps_apply n d0 _ g1 a g' _ Hkept1 Hrun). keeps_solve.
  - apply bind_Some in Hrun as (inp_node & g0 & H0 & Hrun).
    apply read_only_GetNodeProducingOutput in H0 as ->.
    apply bind_Some in Hrun as (transpose_perm & g0 & Htp & Hrun).
    assert (g0 = g1) as ->.
    { revert Htp. apply (λ H : read_only _, H g1 transpose_perm g0). read_only_solve. }
    destruct inp_node as [t|].
    + destruct transpose_perm as [perm2|].
      * assert (t ≠ n) as Hne by (by apply (transpose_producer_other n d0 g1 t perm2)).
        refine (keeps_apply n d0 _ g1 a g' _ Hkept1 Hrun). keeps_solve.
      * refine (keeps_apply n d0 _ g1 a g' _ Hkept1 Hrun). keeps_solve.
    + refine (keeps_apply n d0 _ g1 a g' _ Hkept1 Hrun). keeps_solve.
Qed.

Lemma keeps_TransposeInputs n d0 c m perm input_indices :
  node_is_op d0 "Transpose" = false →
  keeps n d0 (TransposeInputs c m perm input_indices).
Proof.
  intros Hop. unfold TransposeInputs.
  apply keeps_bind; [apply keeps_read_only; read_only_solve|]. intros perm_inv.
  apply keeps_for_each. intros j. by apply keeps_TransposeInput.
Qed.

Lemma keeps_TransposeFirstInput n d0 c m perm :
  node_is_op d0 "Transpose" = false →
  keeps n d0 (TransposeFirstInput c m perm).
Proof. apply keeps_TransposeInputs. Qed.

(** ** Axes of a transposed input *)

Lemma elem_of_index_range (x : Z) (lo n : nat) :
  x ∈ index_range lo n ↔ Z.of_nat lo ≤ x < Z.of_nat lo + Z.of_nat n.
Proof.
  unfold index_range. rewrite list_elem_of_fmap. split.
  - intros (k & -> & Hk). apply elem_of_seq in Hk. lia.
  - intros H. exists (Z.to_nat x). split; [lia|]. apply elem_of_seq. lia.
Qed.

Lemma index_range_sorted (lo n : nat) : StronglySorted Z.lt (index_range lo n).
Proof.
  revert lo. induction n as [|n IH]; intros lo; [constructor|].
  rewrite index_range_S. apply StronglySorted_cons. split; [|apply IH].
  apply Forall_forall. intros x Hx. apply elem_of_index_range in Hx. lia.
Qed.

Lemma StronglySorted_filter {A} (R : relation A) (P : A → Prop) `{∀ x, Decision (P x)}
    (l : list A) :
  StronglySorted R l → StronglySorted R (filter P l).
Proof.
  induction l as [|x l IH]; [done|].
  rewrite StronglySorted_cons. intros [Hx Hl]. rewrite filter_cons.
  destruct (decide (P x)); [|by apply IH].
  apply StronglySorted_cons. split; [|by apply IH].
  apply Forall_forall. intros y Hy. apply list_elem_of_filter in Hy as [_ Hy].
  rewrite Forall_forall in Hx. by apply Hx.
Qed.

Lemma vec_set_Some {A} (v : list A) (i : Z) (x : A) (v' : list A) :
  vec_set v i x = Some v' ↔ 0 ≤ i < Z.of_nat (length v) ∧ v' = <[Z.to_nat i := x]> v.
Proof.
  unfold vec_set. destruct (decide (0 ≤ i < Z.of_nat (length v))); split.
  - by intros [= <-].
  - by intros [_ ->].
  - done.
  - by intros [? _].
Qed.

(** The flags set by the first loop of [SortedAxesForTransposedInput]. *)
Lemma SortedAxes_flags (perm axes : list Z) (flags0 flags : list bool) :
  vec_fold (λ fl a, new_axis ← vec_get perm a; vec_set fl new_axis true) flags0 axes
  = Some flags →
  length flags = length flags0
  ∧ Forall (λ a, ∃ x, vec_get perm a = Some x ∧ 0 ≤ x < Z.of_nat (length flags0)) axes
  ∧ ∀ k : nat, flags !! k = Some true ↔
               flags0 !! k = Some true
               ∨ ∃ a, a ∈ axes ∧ vec_get perm a = Some (Z.of_nat k).
Proof.
  revert flags0. induction axes as [|a rest IH]; intros flags0.
  - intros [= <-]. split; [done|]. split; [constructor|]. intros k. split; [by left|].
    intros [H|(a & Ha & _)]; [done|by apply elem_of_nil in Ha].
  - rewrite vec_fold_cons. destruct (vec_get perm a) as [x|] eqn:Ex; [|done].
    cbn [mbind option_bind].
    destruct (vec_set flags0 x true) as [flags1|] eqn:E1; [|done].
    cbn [mbind option_bind]. intros Hrest.
    apply vec_set_Some in E1 as [Hx ->].
    apply IH in Hrest as (Hlen & Hrange & Hflags). rewrite length_insert in Hlen, Hrange.
    split; [done|]. split; [apply Forall_cons; split; [by exists x|done]|].
    intros k. rewrite Hflags. split.
    + intros [Hk|(a' & Ha' & Hp)].
      * destruct (decide (Z.to_nat x = k)) as [<-|Hne].
        -- right. exists a. split; [apply list_elem_of_here|].
           rewrite Ex. f_equal. lia.
        -- left. by rewrite list_lookup_insert_ne in Hk.
      * right. exists a'. split; [by apply list_elem_of_further|done].
    + intros [Hk|(a' & Ha' & Hp)].
      * left. destruct (decide (Z.to_nat x = k)) as [<-|Hne].
        -- apply list_lookup_insert_eq. lia.
        -- by rewrite list_lookup_insert_ne.
      * apply elem_of_cons in Ha' as [->|Ha'].
        -- left. rewrite Ex in Hp. injection Hp as ->. rewrite Nat2Z.id.
           apply list_lookup_insert_eq. lia.
        -- right. by exists a'.
Qed.

(** The result of [SortedAxesForTransposedInput] is the image of [axes]
    under [perm], in ascending order and without repetition. *)
Lemma SortedAxesForTransposedInput_spec (axes perm new_axes : list Z) :
  SortedAxesForTransposedInput axes perm = Some new_axes →
  StronglySorted Z.lt new_axes
  ∧ Forall (λ x, 0 ≤ x < Z.of_nat (length perm)) new_axes
  ∧ ∀ x, x ∈ new_axes ↔ ∃ a, a ∈ axes ∧ vec_get perm a = Some x.
Proof.
  unfold SortedAxesForTransposedInput.
  destruct (vec_fold _ _ axes) as [flags|] eqn:E; [|done].
  cbn [mbind option_bind]. intros [= <-].
  apply SortedAxes_flags in E as (Hlen & Hrange & Hflags).
  rewrite length_replicate in Hlen, Hrange.
  split; [apply StronglySorted_filter, index_range_sorted|].
  split.
  { apply Forall_forall. intros x Hx. apply list_elem_of_filter in Hx as [_ Hx].
    apply elem_of_index_range in Hx. lia. }
  intros x. rewrite list_elem_of_filter, elem_of_index_range. split.
  - intros [Hfl Hx].
    destruct (flags !! Z.to_nat x) as [[]|] eqn:Ek; try done.
    apply Hflags in Ek as [Hk|(a & Ha & Hp)].
    + apply lookup_replicate in Hk as [? _]. done.
    + exists a. split; [done|]. rewrite Hp. f_equal. lia.
  - intros (a & Ha & Hp).
    rewrite Forall_forall in Hrange. destruct (Hrange a Ha) as (x' & Hp' & Hx').
    assert (x' = x) as -> by congruence.
    assert (flags !! Z.to_nat x = Some true) as Hk.
    { apply Hflags. right. exists a. split; [done|]. rewrite Hp. f_equal. lia. }
    split; [by rewrite Hk|lia].
Qed.

(** It is defined as soon as the axes index [perm] and [perm] is valid. *)
Lemma SortedAxesForTransposedInput_defined (axes perm : list Z) :
  IsValidPerm perm = true →
  Forall (λ a, 0 ≤ a < Z.of_nat (length perm)) axes →
  is_Some (SortedAxesForTransposedInput axes perm).
Proof.
  intros Hvalid%IsValidPerm_range Haxes. unfold SortedAxesForTransposedInput.
  assert (∀ flags0, length flags0 = length perm →
            is_Some (vec_fold (λ fl a, new_axis ← vec_get perm a; vec_set fl new_axis true)
                              flags0 axes)) as Hfold.
  { induction Haxes as [|a rest Ha _ IH]; intros flags0 Hlen; [by eexists|].
    rewrite vec_fold_cons. cbv beta.
    destruct (perm !! Z.to_nat a) as [x|] eqn:Ex.
    2:{ apply lookup_ge_None in Ex. lia. }
    rewrite (vec_get_in_range perm a) by lia. rewrite Ex.
    cbn [mbind option_bind].
    assert (0 ≤ x < Z.of_nat (length perm)) as Hx.
    { rewrite Forall_forall in Hvalid. apply Hvalid. by apply list_elem_of_lookup_2 in Ex. }
    unfold vec_set. rewrite decide_True by lia. cbn [mbind option_bind].
    apply IH. by rewrite length_insert. }
  destruct (Hfold (replicate (length perm) false)) as [flags ->];
    [apply length_replicate|].
  by eexists.
Qed.

Lemma vec_set_defined {A} (v : list A) (i : Z) (x : A) :
  0 ≤ i < Z.of_nat (length v) → vec_set v i x = Some (<[Z.to_nat i := x]> v).
Proof. intros Hi. unfold vec_set. by rewrite decide_True. Qed.

Lemma mark_axes_defined (flags : list bool) (axes : list Z) :
  Forall (λ a, 0 ≤ a < Z.of_nat (length flags)) axes →
  ∃ flags', mark_axes flags axes = Some flags' ∧ length flags' = length flags.
Proof.
  unfold mark_axes. revert flags. induction axes as [|a rest IH]; intros flags Haxes.
  - by exists flags.
  - apply Forall_cons in Haxes as [Ha Hrest].
    rewrite vec_fold_cons. cbv beta. rewrite vec_set_defined by done.
    cbn [mbind option_bind].
    destruct (IH (<[Z.to_nat a := true]> flags)) as (flags' & Hrun & Hlen).
    { by rewrite length_insert. }
    exists flags'. split; [done|]. by rewrite Hlen, length_insert.
Qed.

Lemma vec_get_defined {A} (v : list A) (i : Z) :
  0 ≤ i < Z.of_nat (length v) → is_Some (vec_get v i).
Proof.
  intros Hi. rewrite vec_get_in_range by lia. apply lookup_lt_is_Some. lia.
Qed.

Lemma SqueezePerm_axes_map_defined (is_removed_axis : list bool) (indices : list Z)
    (axes_map : list Z) (j : Z) :
  length axes_map = length is_removed_axis →
  Forall (λ i, 0 ≤ i < Z.of_nat (length is_removed_axis)) indices →
  ∃ r, vec_fold (λ '(axes_map, j) i,
                   removed ← vec_get is_removed_axis i;
                   if removed : bool then Some (axes_map, j)
                   else am ← vec_set axes_map i j; Some (am, j + 1))
                (axes_map, j) indices = Some r
       ∧ length r.1 = length is_removed_axis.
Proof.
  intros Hlen Hind. revert axes_map j Hlen.
  induction Hind as [|i rest Hi _ IH]; intros axes_map j Hlen.
  - by exists (axes_map, j).
  - rewrite vec_fold_cons. cbv beta iota.
    destruct (vec_get_defined is_removed_axis i Hi) as [removed ->].
    cbn [mbind option_bind]. destruct removed.
    + cbn [mbind option_bind]. by apply IH.
    + rewrite vec_set_defined by lia.
      cbn [mbind option_bind]. apply IH. by rewrite length_insert.
Qed.

Lemma SqueezePerm_new_perm_defined (is_removed_axis : list bool) (axes_map perm : list Z)
    (acc : list Z) :
  length axes_map = length is_removed_axis →
  Forall (λ p, 0 ≤ p < Z.of_nat (length is_removed_axis)) perm →
  is_Some (vec_fold (λ new_perm p,
                       removed ← vec_get is_removed_axis p;
                       if removed : bool then Some new_perm
                       else x ← vec_get axes_map p; Some (new_perm ++ [x]))
                    acc perm).
Proof.
  intros Hlen Hperm. revert acc.
  induction Hperm as [|p rest Hp _ IH]; intros acc; [by eexists|].
  rewrite vec_fold_cons. cbv beta.
  destruct (vec_get_defined is_removed_axis p Hp) as [removed ->].
  cbn [mbind option_bind]. destruct removed.
  - cbn [mbind option_bind]. apply IH.
  - destruct (vec_get_defined axes_map p) as [x ->]; [lia|].
    cbn [mbind option_bind]. apply IH.
Qed.

(** [SqueezePerm] is defined on axes within the rank of a valid perm. *)
Lemma SqueezePerm_defined (axes perm : list Z) :
  IsValidPerm perm = true →
  Forall (λ a, 0 ≤ a < Z.of_nat (length perm)) axes →
  is_Some (SqueezePerm axes perm).
Proof.
  intros Hvalid%IsValidPerm_range Haxes. unfold SqueezePerm.
  destruct (mark_axes_defined (replicate (length perm) false) axes)
    as (is_removed & -> & Hlen).
  { by rewrite length_replicate. }
  rewrite length_replicate in Hlen. cbn [mbind option_bind].
  destruct (SqueezePerm_axes_map_defined is_removed (index_range 0 (length perm))
              (replicate (length perm) 0) 0) as (r & -> & Hr).
  { by rewrite length_replicate. }
  { apply Forall_forall. intros i Hi. apply elem_of_index_range in Hi. lia. }
  cbn [mbind option_bind].
  apply SqueezePerm_new_perm_defined; [done|]. by rewrite Hlen.
Qed.

(** ** The push is defined where the driver calls it *)

Lemma succeeds_ret {A} (P : Graph → Prop) (a : A) (Q : A → Graph → Prop) :
  (∀ g, P g → Q a g) → succeeds P (mret a) Q.
Proof. intros H g Hg. exists a, g. split; [done|by apply H]. Qed.

Lemma succeeds_bind {A B} (P : Graph → Prop) (m : Edit A) (Q : A → Graph → Prop)
    (k : A → Edit B) (R : B → Graph → Prop) :
  succeeds P m Q → (∀ a, succeeds (Q a) (k a) R) → succeeds P (m ≫= k) R.
Proof.
  intros Hm Hk g Hg. destruct (Hm g Hg) as (a & g1 & H1 & HQ).
  destruct (Hk a g1 HQ) as (b & g' & H2 & HR).
  exists b, g'. split; [|done]. rewrite bind_run, H1. exact H2.
Qed.

Lemma succeeds_weaken {A} (P P' : Graph → Prop) (m : Edit A) (Q Q' : A → Graph → Prop) :
  succeeds P m Q → (∀ g, P' g → P g) → (∀ a g, Q a g → Q' a g) → succeeds P' m Q'.
Proof.
  intros Hm HP HQ g Hg. destruct (Hm g (HP g Hg)) as (a & g' & H1 & H2).
  exists a, g'. split; [done|by apply HQ].
Qed.

Lemma succeeds_for_each {A} (I : Graph → Prop) (v : list A) (body : A → Edit unit) :
  (∀ x, x ∈ v → succeeds I (body x) (λ _, I)) →
  succeeds I (for_each v body) (λ _, I).
Proof.
  induction v as [|x rest IH]; intros Hb.
  - by apply succeeds_ret.
  - cbn [for_each]. apply (succeeds_bind _ _ (λ _, I)).
    + apply Hb. apply list_elem_of_here.
    + intros _. apply IH. intros y Hy. apply Hb. by apply list_elem_of_further.
Qed.

(** A graph property that survives the edits a push makes around the nodes it
    speaks of: changing inputs, renaming outputs, changing attributes, adding
    a fresh node, and edits outside the node table. *)
Class Stable (P : Graph → Prop) : Prop := {
  stable_alter : ∀ g k f,
    (∀ d, length (n_outputs (f d)) = length (n_outputs d)) →
    P g → P (set_nodes (nodes_alter f k (g_nodes g)) g);
  stable_add : ∀ g d k,
    fresh_counter g → P g →
    P (set_next_value k (set_next_node (S (g_next_node g))
                           (set_nodes (g_nodes g ++ [(g_next_node g, d)]) g)));
  stable_other : ∀ g g',
    g_nodes g' = g_nodes g → g_next_node g' = g_next_node g → P g → P g'
}.

Lemma nodes_alter_ids (f : Node → Node) (k : NodeRef) (ns : list (NodeRef * Node)) :
  (nodes_alter f k ns).*1 = ns.*1.
Proof.
  induction ns as [|[m d] rest IH]; [done|]. simpl.
  destruct (decide (m = k)); simpl; [done|]. f_equal. exact IH.
Qed.

Global Instance fresh_counter_stable : Stable fresh_counter.
Proof.
  split.
  - intros g k f _ H. unfold fresh_counter in *. cbn [g_nodes g_next_node set_nodes].
    assert (Forall (λ m, (m < g_next_node g)%nat) (g_nodes g).*1) as H'.
    { apply Forall_fmap. exact H. }
    apply (Forall_fmap fst (λ m, (m < g_next_node g)%nat)).
    by rewrite nodes_alter_ids.
  - intros g d k _ H. unfold fresh_counter in *.
    cbn [g_nodes g_next_node set_nodes set_next_node set_next_value].
    apply Forall_app. split.
    + eapply Forall_impl; [exact H|]. intros p Hp. simpl in *. lia.
    + apply Forall_singleton. simpl. lia.
  - intros g g' Hn Hc H. unfold fresh_counter in *. by rewrite Hn, Hc.
Qed.

Global Instance has_outputs_stable (m : NodeRef) (L : nat) : Stable (has_outputs m L).
Proof.
  split.
  - intros g k f Hf (d & Hd & Hlen). unfold has_outputs. cbn [g_nodes set_nodes].
    destruct (decide (k = m)) as [->|Hne].
    + exists (f d). split; [by apply nodes_lookup_alter_eq|]. by rewrite Hf.
    + exists d. by rewrite nodes_lookup_alter_ne.
  - intros g d k _ (d' & Hd & Hlen). exists d'.
    cbn [g_nodes set_nodes set_next_node set_next_value].
    split; [by apply nodes_lookup_app_l|done].
  - intros g g' Hn _ (d & Hd & Hlen). exists d. by rewrite Hn.
Qed.

Global Instance and_stable (P Q : Graph → Prop) :
  Stable P → Stable Q → Stable (λ g, P g ∧ Q g).
Proof.
  intros HP HQ. split.
  - intros g k f Hf [H1 H2]. split; by apply stable_alter.
  - intros g d k Hfr [H1 H2]. split; by apply stable_add.
  - intros g g' Hn Hc [H1 H2]. split; by eapply stable_other.
Qed.

Lemma has_outputs_is_Some (m : NodeRef) (L : nat) (g : Graph) :
  has_outputs m L g → is_Some (nodes_lookup (g_nodes g) m).
Proof. intros (d & Hd & _). by exists d. Qed.

Lemma succeeds_Outputs (P : Graph → Prop) (k : NodeRef) (L : nat) :
  (∀ g, P g → has_outputs k L g) →
  succeeds P (Outputs k) (λ outs g, P g ∧ length outs = L).
Proof.
  intros HP g Hg. destruct (HP g Hg) as (d & Hd & Hlen).
  exists (n_outputs d), g. by rewrite (Outputs_run g k d Hd).
Qed.

Lemma succeeds_lift_lookup {A} (P : Graph → Prop) (l : list A) (j : nat) :
  (j < length l)%nat → succeeds P (lift (l !! j)) (λ _, P).
Proof.
  intros Hj g Hg. destruct (lookup_lt_is_Some_2 l j Hj) as [x Hx].
  exists x, g. by rewrite Hx.
Qed.

Lemma succeeds_lift_Some {A} (P : Graph → Prop) (o : option A) :
  is_Some o → succeeds P (lift o) (λ _, P).
Proof. intros [x ->] g Hg. by exists x, g. Qed.

Lemma succeeds_alter_node (P : Graph → Prop) `{!Stable P} (k : NodeRef) (f : Node → Node) :
  (∀ d, length (n_outputs (f d)) = length (n_outputs d)) →
  (∀ g, P g → is_Some (nodes_lookup (g_nodes g) k)) →
  succeeds P (alter_node k f) (λ _, P).
Proof.
  intros Hf Hk g Hg. destruct (Hk g Hg) as [d Hd].
  eexists tt, _. rewrite (alter_node_run g k d f Hd). split; [reflexivity|].
  by apply stable_alter.
Qed.

Lemma succeeds_SetInput (P : Graph → Prop) `{!Stable P} (k : NodeRef) (i : nat)
    (name : string) :
  (∀ g, P g → is_Some (nodes_lookup (g_nodes g) k)) →
  succeeds P (SetInput k i name) (λ _, P).
Proof. intros Hk. by apply succeeds_alter_node. Qed.

Lemma succeeds_SetAttributeInts (P : Graph → Prop) `{!Stable P} (k : NodeRef)
    (name : string) (v : list Z) :
  (∀ g, P g → is_Some (nodes_lookup (g_nodes g) k)) →
  succeeds P (SetAttributeInts k name v) (λ _, P).
Proof. intros Hk. by apply succeeds_alter_node. Qed.

Lemma succeeds_update (P : Graph → Prop) `{!Stable P} (f : Graph → Graph) :
  (∀ g, g_nodes (f g) = g_nodes g ∧ g_next_node (f g) = g_next_node g) →
  succeeds P (update f) (λ _, P).
Proof.
  intros Hf g Hg. exists tt, (f g). split; [done|].
  destruct (Hf g) as [Hn Hc]. by apply (stable_other g).
Qed.

Lemma succeeds_CopyValueInfo (P : Graph → Prop) `{!Stable P} (src dst : string) :
  succeeds P (CopyValueInfo src dst) (λ _, P).
Proof. apply succeeds_update; [done|]. by intros g. Qed.

Lemma succeeds_PermuteDims (P : Graph → Prop) `{!Stable P} (name : string) (perm : list Z) :
  succeeds P (PermuteDims name perm) (λ _, P).
Proof.
  intros g Hg. unfold PermuteDims. rewrite bind_run.
  change (ValueShape name g) with (Some (vi_shape (value_info_of g name), g)).
  cbv beta iota. destruct (vi_shape (value_info_of g name)) as [sh|].
  - eexists tt, _. split; [reflexivity|]. by apply (stable_other g).
  - by exists tt, g.
Qed.

Lemma nodes_lookup_app_fresh (ns : list (NodeRef * Node)) (k : NodeRef) (d : Node) :
  Forall (λ p, (p.1 < k)%nat) ns → nodes_lookup (ns ++ [(k, d)]) k = Some d.
Proof.
  induction 1 as [|[m d'] rest Hm _ IH]; simpl.
  - by rewrite decide_True.
  - simpl in Hm. rewrite decide_False by lia. exact IH.
Qed.

Lemma succeeds_AddNode (P : Graph → Prop) `{!Stable P} (op_type : string)
    (inputs : list string) (num_outputs : nat) (domain : string) :
  (∀ g, P g → fresh_counter g) →
  succeeds P (AddNode op_type inputs num_outputs domain)
           (λ tr g, P g ∧ has_outputs tr num_outputs g).
Proof.
  intros Hfresh g Hg. eexists _, _. split; [reflexivity|].
  split; [apply stable_add; [by apply Hfresh|done]|].
  eexists. cbn [g_nodes set_nodes set_next_node set_next_value].
  split; [apply nodes_lookup_app_fresh; by apply Hfresh|].
  cbn [n_outputs]. by rewrite length_fmap, length_seq.
Qed.

Lemma succeeds_MakeTranspose (P : Graph → Prop) `{!Stable P} (input : string)
    (perm : list Z) :
  (∀ g, P g → fresh_counter g) →
  succeeds P (MakeTranspose input perm) (λ tr g, P g ∧ has_outputs tr 1 g).
Proof.
  intros Hfresh. unfold MakeTranspose, MakeNode1Attr.
  apply (succeeds_bind _ _ (λ tr g, P g ∧ has_outputs tr 1 g)).
  - by apply succeeds_AddNode.
  - intros tr. apply (succeeds_bind _ _ (λ _ g, P g ∧ has_outputs tr 1 g)).
    + apply succeeds_SetAttributeInts; [apply _|].
      intros g [_ H]. by apply (has_outputs_is_Some tr 1).
    + intros _. by apply succeeds_ret.
Qed.

Lemma succeeds_get_node (P : Graph → Prop) (k : NodeRef) (L : nat) :
  (∀ g, P g → has_outputs k L g) →
  succeeds P (get_node k) (λ d g, P g ∧ length (n_outputs d) = L).
Proof.
  intros HP g Hg. destruct (HP g Hg) as (d & Hd & Hlen).
  exists d, g. by rewrite (get_node_run g k d Hd).
Qed.

Lemma succeeds_MoveOutput (P : Graph → Prop) `{!Stable P} (src : NodeRef) (i : nat)
    (dst : NodeRef) (j : nat) (L1 L2 : nat) :
  (∀ g, P g → has_outputs src L1 g) → (∀ g, P g → has_outputs dst L2 g) →
  (i < L1)%nat → (j < L2)%nat →
  succeeds P (MoveOutput src i dst j) (λ _, P).
Proof.
  intros Hsrc Hdst Hi Hj. unfold MoveOutput.
  apply (succeeds_bind _ _ (λ d g, P g ∧ length (n_outputs d) = L1));
    [by apply succeeds_get_node|]. intros s.
  apply (succeeds_bind _ _ (λ _ g, P g)).
  { intros g [Hg Hlen]. destruct (lookup_lt_is_Some_2 (n_outputs s) i) as [x Hx]; [lia|].
    exists x, g. by rewrite Hx. }
  intros name.
  apply (succeeds_bind _ _ (λ d g, P g ∧ length (n_outputs d) = L2));
    [by apply succeeds_get_node|]. intros d.
  apply (succeeds_bind _ _ (λ _ g, P g)).
  { intros g [Hg Hlen]. destruct (lookup_lt_is_Some_2 (n_outputs d) j) as [x Hx]; [lia|].
    exists x, g. by rewrite Hx. }
  intros _.
  apply (succeeds_bind _ _ (λ _ g, P g)).
  { intros g Hg. by exists (g_next_value g), g. }
  intros k.
  apply (succeeds_bind _ _ (λ _ g, P g)).
  { apply succeeds_update; [done|]. by intros g. }
  intros _.
  apply (succeeds_bind _ _ (λ _ g, P g)).
  { apply succeeds_alter_node; [done| |].
    - intros d'. cbn [n_outputs set_outputs]. apply length_insert.
    - intros g Hg. by apply (has_outputs_is_Some dst L2), Hdst. }
  intros _.
  apply succeeds_alter_node; [done| |].
  - intros d'. cbn [n_outputs set_outputs]. apply length_insert.
  - intros g Hg. by apply (has_outputs_is_Some src L1), Hsrc.
Qed.

Lemma succeeds_TransposeOutput (P : Graph → Prop) `{!Stable P} (c : OptimizerCtx)
    (n : NodeRef) (j L : nat) (perm perm_inv : list Z) :
  (∀ g, P g → fresh_counter g) → (∀ g, P g → has_outputs n L g) → (j < L)%nat →
  succeeds P (TransposeOutput c n j perm perm_inv) (λ _, P).
Proof.
  intros Hfresh Hn Hj. unfold TransposeOutput.
  apply (succeeds_bind _ _ (λ tr g, P g ∧ has_outputs tr 1 g));
    [by apply succeeds_MakeTranspose|]. intros tr.
  set (P1 := λ g, P g ∧ has_outputs tr 1 g).
  assert (Stable P1) as HP1 by apply _.
  apply (succeeds_bind _ _ (λ _, P1)).
  { apply (succeeds_MoveOutput P1 n j tr 0 L 1); [|by intros g [_ H]|done|lia].
    intros g [H _]. by apply Hn. }
  intros _.
  apply (succeeds_bind _ _ (λ outs g, P1 g ∧ length outs = L)).
  { apply succeeds_Outputs. intros g [H _]. by apply Hn. }
  intros outs.
  apply (succeeds_bind _ _ (λ _, P1)).
  { intros g [Hg Hlen]. destruct (lookup_lt_is_Some_2 outs j) as [x Hx]; [lia|].
    exists x, g. by rewrite Hx. }
  intros new_output.
  apply (succeeds_bind _ _ (λ _, P1)).
  { apply succeeds_SetInput; [done|]. intros g [_ H]. by apply (has_outputs_is_Some tr 1). }
  intros _.
  apply (succeeds_bind _ _ (λ outs g, P1 g ∧ length outs = 1%nat)).
  { apply succeeds_Outputs. by intros g [_ H]. }
  intros tr_outs.
  apply (succeeds_bind _ _ (λ _, P1)).
  { intros g [Hg Hlen]. destruct (lookup_lt_is_Some_2 tr_outs 0) as [x Hx]; [lia|].
    exists x, g. by rewrite Hx. }
  intros old_output.
  apply (succeeds_bind _ _ (λ _, P1)); [by apply succeeds_CopyValueInfo|]. intros _.
  apply (succeeds_bind _ _ (λ _, P1)); [by apply succeeds_PermuteDims|]. intros _.
  apply succeeds_ret. by intros g [H _].
Qed.

Lemma succeeds_TransposeOutputs (P : Graph → Prop) `{!Stable P} (c : OptimizerCtx)
    (n : NodeRef) (L : nat) (perm : list Z) :
  (∀ g, P g → fresh_counter g) → (∀ g, P g → has_outputs n L g) →
  IsIdentityPerm perm = true ∨ is_Some (InvertPerm perm) →
  succeeds P (TransposeOutputs c n perm) (λ _, P).
Proof.
  intros Hfresh Hn Hperm. unfold TransposeOutputs.
  destruct (IsIdentityPerm perm); [by apply succeeds_ret|].
  destruct Hperm as [|Hinv]; [done|].
  apply (succeeds_bind _ _ (λ _, P)); [by apply succeeds_lift_Some|]. intros perm_inv.
  apply (succeeds_bind _ _ (λ outs g, P g ∧ length outs = L));
    [by apply succeeds_Outputs|]. intros outs.
  intros g [Hg Hlen].
  refine (succeeds_for_each P _ _ _ g Hg).
  intros j Hj. apply elem_of_seq in Hj.
  apply (succeeds_bind _ _ (λ _, P)).
  - apply (succeeds_TransposeOutput P c n j L); [done|done|lia].
  - intros _. by apply succeeds_ret.
Qed.

Lemma producer_alter (f : Node → Node) (k : NodeRef) (name : string)
    (ns : list (NodeRef * Node)) :
  (∀ d, n_outputs (f d) = n_outputs d) →
  fst <$> head (filter (λ p, produces name p.2 = true) (nodes_alter f k ns))
  = fst <$> head (filter (λ p, produces name p.2 = true) ns).
Proof.
  intros Hf. induction ns as [|[m d] rest IH]; [done|].
  simpl. destruct (decide (m = k)) as [->|Hne].
  - assert (produces name (f d) = produces name d) as E
      by (unfold produces; by rewrite Hf).
    rewrite !filter_cons. simpl. rewrite E.
    by destruct (decide (produces name d = true)).
  - rewrite !filter_cons. simpl.
    destruct (decide (produces name d = true)); [done|exact IH].
Qed.

Lemma fresh_counter_remove (g : Graph) (k : NodeRef) :
  fresh_counter g → fresh_counter (set_nodes (nodes_remove k (g_nodes g)) g).
Proof.
  unfold fresh_counter, nodes_remove. cbn [g_nodes g_next_node set_nodes].
  intros H. rewrite Forall_forall in H. apply Forall_forall.
  intros p Hp. apply list_elem_of_filter in Hp as [_ Hp]. by apply H.
Qed.

(** In the call context of the driver, transposing the first input by
    [perm_inv] is defined and cancels with the Transpose that feeds the node:
    the node reads the input of that Transpose, and nothing else of the node
    changes. *)
Lemma TransposeInput_cancels (args : HandlerArgs) (g : Graph) (dn dt : Node)
    (tin tout : string) :
  push_context args g dn dt tin tout →
  ∃ g', TransposeInput (ctx args) (node args) 0 (perm_inv args) (perm args) g = Some (tt, g')
        ∧ fresh_counter g'
        ∧ nodes_lookup (g_nodes g') (node args)
          = Some (set_inputs (<[0%nat := tin]> (n_inputs dn)) dn).
Proof.
  intros (Hne & Hn & Ht & Htout & Hprod & Hinit & Hop & Hperm & Hvalid & Htin & _ & _ & Hfresh).
  unfold TransposeInput.
  rewrite bind_run, (Inputs_run g _ dn Hn). cbv beta iota.
  rewrite bind_run, Htout, lift_run. cbv beta iota.
  rewrite bind_run. unfold SetInput at 1.
  rewrite (alter_node_run g _ dn _ Hn). cbv beta iota.
  set (f1 := λ d : Node, set_inputs (put_input (n_inputs d) 0 "") d).
  set (g1 := set_nodes (nodes_alter f1 (node args) (g_nodes g)) g).
  assert (nodes_lookup (g_nodes g1) (node args) = Some (f1 dn)) as Hn1.
  { unfold g1. cbn [g_nodes set_nodes]. by apply (nodes_lookup_alter_eq f1). }
  assert (nodes_lookup (g_nodes g1) (transpose args) = Some dt) as Ht1.
  { unfold g1. cbn [g_nodes set_nodes]. by rewrite nodes_lookup_alter_ne. }
  assert (fresh_counter g1) as Hfresh1.
  { unfold g1. apply (stable_alter (P := fresh_counter)); [by intros d|done]. }
  rewrite bind_run.
  change (GetConstant tout g1) with (Some (g_initializers g !! tout, g1)).
  rewrite Hinit. cbv beta iota.
  rewrite bind_run.
  set (cons := {| vc_nodes := (filter (λ p, consumes tout p.2 = true) (g_nodes g1)).*1;
                  comprehensive := bool_decide (tout ∉ g_outputs g1) |}).
  change (GetValueConsumers tout g1) with (Some (cons, g1)). cbv beta iota.
  rewrite bool_decide_eq_false_2 by (by intros H; apply H).
  cbn [andb]. rewrite bind_run.
  assert (GetNodeProducingOutput tout g1 = Some (Some (transpose args), g1)) as Hprod1.
  { unfold GetNodeProducingOutput, query in *. unfold g1 at 1. cbn [g_nodes set_nodes].
    rewrite (producer_alter f1) by (by intros d). injection Hprod as ->. done. }
  rewrite Hprod1. cbv beta iota.
  rewrite !bind_run, (IsOp_run g1 _ dt _ Ht1), Hop. cbv beta iota.
  rewrite (GetPermAttrIfValid_run g1 _ dt Ht1), Hperm, Hvalid. cbv beta iota.
  rewrite decide_True by done.
  rewrite bind_run, (Inputs_run g1 _ dt Ht1). cbv beta iota.
  rewrite bind_run, Htin, lift_run. cbv beta iota.
  rewrite bind_run. unfold when.
  assert (put_input (n_inputs (f1 dn)) 0 tin = <[0%nat := tin]> (n_inputs dn)) as Hput.
  { destruct (n_inputs dn) as [|x rest] eqn:E; [done|]. unfold f1. cbn [n_inputs set_inputs].
    rewrite E. unfold put_input. cbn [length Nat.sub replicate].
    rewrite app_nil_r. cbn. by rewrite app_nil_r. }
  destruct (comprehensive cons && bool_decide (length (vc_nodes cons) = 0%nat)).
  - rewrite (RemoveNode_run g1 _ dt Ht1). cbv beta iota.
    set (g2 := set_nodes (nodes_remove (transpose args) (g_nodes g1)) g1).
    assert (nodes_lookup (g_nodes g2) (node args) = Some (f1 dn)) as Hn2.
    { unfold g2. cbn [g_nodes set_nodes]. rewrite nodes_lookup_remove_ne; [done|congruence]. }
    unfold SetInput. rewrite (alter_node_run g2 _ _ _ Hn2).
    eexists. split; [reflexivity|]. split.
    + apply (stable_alter (P := fresh_counter)); [by intros d|].
      by apply fresh_counter_remove.
    + cbn [g_nodes set_nodes].
      rewrite (nodes_lookup_alter_eq _ _ _ (f1 dn) Hn2). rewrite Hput. done.
  - rewrite ret_run. cbv beta iota.
    unfold SetInput. rewrite (alter_node_run g1 _ _ _ Hn1).
    eexists. split; [reflexivity|]. split.
    + by apply (stable_alter (P := fresh_counter)); [intros d|].
    + cbn [g_nodes set_nodes].
      rewrite (nodes_lookup_alter_eq _ _ _ (f1 dn) Hn1). rewrite Hput. done.
Qed.

(** The push of the first input and of the outputs is defined in the call
    context of the driver, for an output perm that is the identity or has an
    inverse, and reports "modified". *)
Lemma push_first_input_succeeds (args : HandlerArgs) (g : Graph) (dn dt : Node)
    (tin tout : string) (out_perm : list Z) :
  push_context args g dn dt tin tout →
  IsIdentityPerm out_perm = true ∨ is_Some (InvertPerm out_perm) →
  ∃ g', push_first_input args out_perm g = Some (true, g').
Proof.
  intros Hctx Hout.
  destruct (TransposeInput_cancels args g dn dt tin tout Hctx) as (g1 & Hrun & Hfresh & Hn).
  destruct Hctx as (_ & _ & _ & _ & _ & _ & _ & _ & _ & _ & _ & Hinv & _).
  unfold push_first_input, TransposeFirstInput, TransposeInputs.
  rewrite !bind_run, Hinv, lift_run. cbv beta iota.
  cbn [for_each]. rewrite bind_run, Hrun. cbv beta iota. rewrite ret_run. cbv beta iota.
  set (P := λ g, fresh_counter g ∧ has_outputs (node args) (length (n_outputs dn)) g).
  rewrite ?bind_run.
  destruct (succeeds_TransposeOutputs P (ctx args) (node args) (length (n_outputs dn)) out_perm
              ltac:(by intros ? [? _]) ltac:(by intros ? [_ ?]) Hout g1) as ([] & g2 & -> & _).
  { split; [done|]. by eexists. }
  cbv beta iota. by eexists.
Qed.

(** Setting an attribute of the node leaves the call context in place. *)
Lemma push_context_SetAttributeInts (args : HandlerArgs) (g : Graph) (dn dt : Node)
    (tin tout name : string) (v : list Z) :
  push_context args g dn dt tin tout →
  ∃ g', SetAttributeInts (node args) name v g = Some (tt, g')
        ∧ push_context args g' (set_attrs (<[name := AttrInts v]> (n_attrs dn)) dn) dt tin tout.
Proof.
  intros (Hne & Hn & Ht & Htout & Hprod & Hinit & Hop & Hperm & Hvalid & Htin & Hi1 & Hi2
          & Hfresh).
  set (f := λ d : Node, set_attrs (<[name := AttrInts v]> (n_attrs d)) d).
  eexists. split; [unfold SetAttributeInts; by apply (alter_node_run g _ dn)|].
  repeat split; try done; cbn [g_nodes set_nodes g_initializers].
  - by apply (nodes_lookup_alter_eq f).
  - by rewrite nodes_lookup_alter_ne.
  - unfold GetNodeProducingOutput, query in *. cbn [g_nodes set_nodes].
    rewrite (producer_alter f) by (by intros d). by injection Hprod as ->.
  - apply (stable_alter (P := fresh_counter)); [by intros d|done].
Qed.

Lemma InvertPerm_loop_defined (acc : list Z) (l : list (Z * Z)) :
  Forall (λ p, 0 ≤ p.2 < Z.of_nat (length acc)) l →
  is_Some (vec_fold (λ perm_inv '(i, j), vec_set perm_inv j i) acc l).
Proof.
  revert acc. induction l as [|[i j] rest IH]; intros acc Hl; [by eexists|].
  apply Forall_cons in Hl as [Hj Hrest]. simpl in Hj.
  rewrite vec_fold_cons. cbv beta iota. rewrite vec_set_defined by done.
  change (Some ?x ≫= ?f) with (f x). cbv beta. apply IH.
  by rewrite length_insert.
Qed.

(** [InvertPerm] is defined when every entry of [perm] is an index of it. *)
Lemma InvertPerm_defined (perm : list Z) :
  Forall (λ x, 0 ≤ x < Z.of_nat (length perm)) perm → is_Some (InvertPerm perm).
Proof.
  intros Hrange. unfold InvertPerm. apply InvertPerm_loop_defined.
  rewrite length_replicate. apply Forall_forall. intros [i j] Hin.
  apply elem_of_zip_r in Hin. rewrite Forall_forall in Hrange. by apply Hrange.
Qed.

Lemma IsValidPerm_loop_NoDup (rank_int : Z) (used_dims : list bool) (perm : list Z) :
  rank_int ≤ Z.of_nat (length used_dims) →
  IsValidPerm_loop rank_int used_dims perm = true →
  NoDup perm ∧ ∀ y, y ∈ perm → default false (used_dims !! Z.to_nat y) = false.
Proof.
  revert used_dims. induction perm as [|x rest IH]; intros used_dims Hlen; simpl.
  { intros _. split; [constructor|]. intros y Hy. by apply elem_of_nil in Hy. }
  destruct (bool_decide (x < 0)) eqn:E1; [done|].
  destruct (bool_decide (x >= rank_int)) eqn:E2; [done|].
  destruct (default false (used_dims !! Z.to_nat x)) eqn:E3; [done|].
  cbn [orb]. intros Hrest.
  apply bool_decide_eq_false in E1. apply bool_decide_eq_false in E2.
  pose proof (IsValidPerm_loop_range _ _ _ Hrest) as Hrange.
  rewrite Forall_forall in Hrange.
  apply IH in Hrest as [Hnodup Hunused]; [|by rewrite length_insert].
  assert (x ∉ rest) as Hnotin.
  { intros Hin. apply Hunused in Hin.
    rewrite list_lookup_insert_eq in Hin by lia. discriminate. }
  split; [by constructor|].
  intros y Hy. apply elem_of_cons in Hy as [->|Hy]; [done|].
  pose proof (Hunused y Hy) as Hu. pose proof (Hrange y Hy) as Hr.
  rewrite list_lookup_insert_ne in Hu; [done|].
  intros Heq. apply Hnotin. assert (x = y) as -> by lia. done.
Qed.

(** A valid perm is a rearrangement of the indices [0 .. rank-1]. *)
Lemma IsValidPerm_Permutation (perm : list Z) :
  IsValidPerm perm = true → perm ≡ₚ index_range 0 (length perm).
Proof.
  intros Hvalid. pose proof (IsValidPerm_range perm Hvalid) as Hrange.
  apply IsValidPerm_loop_NoDup in Hvalid as [Hnodup _]; [|by rewrite length_replicate].
  apply submseteq_length_Permutation.
  - apply NoDup_submseteq; [done|]. intros x Hx.
    rewrite Forall_forall in Hrange. apply elem_of_index_range. specialize (Hrange x Hx). lia.
  - unfold index_range. by rewrite length_fmap, length_seq.
Qed.

(** The first loop of [SqueezePerm] numbers the kept axes: the counter grows
    by the number of kept indices, and every kept index gets a number between
    the counter's first and last value. *)
Lemma SqueezePerm_axes_map_spec (is_removed_axis : list bool) (indices : list Z)
    (axes_map : list Z) (j : Z) (r : list Z * Z) :
  vec_fold (λ '(axes_map, j) i,
              removed ← vec_get is_removed_axis i;
              if removed : bool then Some (axes_map, j)
              else am ← vec_set axes_map i j; Some (am, j + 1))
           (axes_map, j) indices = Some r →
  length r.1 = length axes_map
  ∧ r.2 = j + Z.of_nat (length (filter (λ i, vec_get is_removed_axis i = Some false) indices))
  ∧ (∀ (k : nat) v, r.1 !! k = Some v → axes_map !! k = Some v ∨ j ≤ v < r.2)
  ∧ (∀ i, i ∈ indices → vec_get is_removed_axis i = Some false →
          ∃ v, vec_get r.1 i = Some v ∧ j ≤ v < r.2).
Proof.
  revert axes_map j. induction indices as [|i rest IH]; intros axes_map j.
  { intros [= <-]. cbn [fst snd]. split; [done|]. split; [simpl; lia|].
    split; [by left|]. intros i Hi. by apply elem_of_nil in Hi. }
  rewrite vec_fold_cons. cbv beta iota. rewrite filter_cons.
  destruct (vec_get is_removed_axis i) as [removed|] eqn:Eremoved; [|done].
  cbn [mbind option_bind]. destruct removed.
  - cbn [mbind option_bind]. intros Hrun.
    apply IH in Hrun as (Hlen & Hcount & Hold & Hnew).
    rewrite decide_False by done.
    split; [done|]. split; [done|]. split; [done|].
    intros i' Hi' Hkept. apply elem_of_cons in Hi' as [->|Hi']; [congruence|].
    by apply Hnew.
  - destruct (vec_set axes_map i j) as [am|] eqn:Eset; [|done].
    cbn [mbind option_bind]. intros Hrun.
    apply vec_set_Some in Eset as [Hi ->].
    apply IH in Hrun as (Hlen & Hcount & Hold & Hnew).
    rewrite length_insert in Hlen.
    rewrite decide_True by done. cbn [length].
    split; [done|]. split; [lia|].
    assert (∀ (k : nat) v, r.1 !! k = Some v → axes_map !! k = Some v ∨ j ≤ v < r.2) as Hold'.
    { intros k v Hk. apply Hold in Hk as [Hk|Hk]; [|right; lia].
      destruct (decide (k = Z.to_nat i)) as [->|Hne].
      - rewrite list_lookup_insert_eq in Hk by lia. injection Hk as <-. right. lia.
      - rewrite list_lookup_insert_ne in Hk by done. by left. }
    split; [done|].
    intros i' Hi' Hkept. apply elem_of_cons in Hi' as [->|Hi'].
    + destruct (lookup_lt_is_Some_2 r.1 (Z.to_nat i)) as [v Hv]; [lia|].
      exists v. rewrite vec_get_in_range by lia. split; [done|].
      apply Hold in Hv as [Hv|Hv]; [|lia].
      rewrite list_lookup_insert_eq in Hv by lia. injection Hv as <-. lia.
    + destruct (Hnew i' Hi' Hkept) as (v & Hv & Hrange). exists v. split; [done|lia].
Qed.

(** The second loop of [SqueezePerm] appends the number of every kept entry
    of [perm]. *)
Lemma SqueezePerm_new_perm_spec (is_removed_axis : list bool) (axes_map perm : list Z)
    (acc r : list Z) :
  vec_fold (λ new_perm p,
              removed ← vec_get is_removed_axis p;
              if removed : bool then Some new_perm
              else x ← vec_get axes_map p; Some (new_perm ++ [x]))
           acc perm = Some r →
  length r
  = (length acc + length (filter (λ p, vec_get is_removed_axis p = Some false) perm))%nat
  ∧ ∀ x, x ∈ r →
         x ∈ acc ∨ ∃ p, p ∈ perm ∧ vec_get is_removed_axis p = Some false
                        ∧ vec_get axes_map p = Some x.
Proof.
  revert acc. induction perm as [|p rest IH]; intros acc.
  { intros [= <-]. split; [simpl; lia|]. intros x Hx. by left. }
  rewrite vec_fold_cons. cbv beta. rewrite filter_cons.
  destruct (vec_get is_removed_axis p) as [removed|] eqn:Eremoved; [|done].
  cbn [mbind option_bind]. destruct removed.
  - cbn [mbind option_bind]. intros Hrun. apply IH in Hrun as [Hlen Hin].
    rewrite decide_False by done. split; [done|].
    intros x Hx. apply Hin in Hx as [Hx|(p' & Hp' & Hk & Hv)]; [by left|].
    right. exists p'. split; [by apply elem_of_cons; right|done].
  - destruct (vec_get axes_map p) as [x0|] eqn:Ex0; [|done].
    cbn [mbind option_bind]. intros Hrun. apply IH in Hrun as [Hlen Hin].
    rewrite decide_True by done. rewrite length_app in Hlen. cbn [length] in *.
    split; [lia|].
    intros x Hx. apply Hin in Hx as [Hx|(p' & Hp' & Hk & Hv)].
    + apply elem_of_app in Hx as [Hx|Hx]; [by left|].
      apply list_elem_of_singleton in Hx as ->. right. exists p.
      split; [by apply elem_of_cons; left|done].
    + right. exists p'. split; [by apply elem_of_cons; right|done].
Qed.

(** The perm that [SqueezePerm] computes from a valid perm has all its
    entries among its own indices, so it has an inverse. *)
Lemma SqueezePerm_range (axes perm sq : list Z) :
  IsValidPerm perm = true →
  SqueezePerm axes perm = Some sq →
  Forall (λ x, 0 ≤ x < Z.of_nat (length sq)) sq.
Proof.
  intros Hvalid. pose proof (IsValidPerm_Permutation perm Hvalid) as Hperm.
  unfold SqueezePerm.
  destruct (mark_axes _ axes) as [is_removed|]; [|done]. cbn [mbind option_bind].
  destruct (vec_fold _ (replicate (length perm) 0, 0) _) as [r|] eqn:Emap; [|done].
  cbn [mbind option_bind].
  apply SqueezePerm_axes_map_spec in Emap as (_ & Hcount & _ & Hnew).
  intros Hrun. apply SqueezePerm_new_perm_spec in Hrun as [Hlen Hin].
  cbn [length] in Hlen. rewrite Nat.add_0_l in Hlen.
  rewrite Hperm in Hlen at 1.
  apply Forall_forall. intros x Hx.
  apply Hin in Hx as [Hx|(p & Hp & Hkept & Hv)]; [by apply elem_of_nil in Hx|].
  rewrite Hperm in Hp.
  destruct (Hnew p Hp Hkept) as (v & Hv' & Hrange).
  rewrite Hv in Hv'. injection Hv' as <-. lia.
Qed.

(** The call context holds in the example graphs. *)
Example push_context_reduce_mean :
  push_context args_reduce_mean graph_reduce_mean
    (mkNode "ReduceMean" "" {["axes" := AttrInts [2]; "keepdims" := AttrInt 0]} ["t"] ["y"])
    (mkNode "Transpose" "" {["perm" := AttrInts [0; 3; 1; 2]]} ["x"] ["t"]) "x" "t".
Proof.
  repeat split; try reflexivity; try done.
  repeat constructor; cbn; lia.
Qed.

Example push_context_softmax :
  push_context (args_softmax [0; 2; 1] [0; 2; 1]) (graph_softmax [0; 2; 1])
    (mkNode "Softmax" "" {["axis" := AttrInt 1]} ["t"] ["y"])
    (mkNode "Transpose" "" {["perm" := AttrInts [0; 2; 1]]} ["x"] ["t"]) "x" "t".
Proof.
  repeat split; try reflexivity; try done.
  repeat constructor; cbn; lia.
Qed.

(** ** The reduce handler *)

Lemma GetAttributeInt_run (g : Graph) (n : NodeRef) (d : Node) (name : string) :
  nodes_lookup (g_nodes g) n = Some d →
  GetAttributeInt n name g = Some (attr_int d name, g).
Proof. intros H. unfold GetAttributeInt. by rewrite bind_run, (get_node_run g n d H). Qed.

Lemma GetAttributeInts_run (g : Graph) (n : NodeRef) (d : Node) (name : string) :
  nodes_lookup (g_nodes g) n = Some d →
  GetAttributeInts n name g = Some (attr_ints d name, g).
Proof. intros H. unfold GetAttributeInts. by rewrite bind_run, (get_node_run g n d H). Qed.

Lemma GetAttributeIntDefault_run (g : Graph) (n : NodeRef) (d : Node) (name : string)
    (v : Z) :
  nodes_lookup (g_nodes g) n = Some d →
  GetAttributeIntDefault n name v g = Some (default v (attr_int d name), g).
Proof.
  intros H. unfold GetAttributeIntDefault.
  by rewrite bind_run, (GetAttributeInt_run g n d name H).
Qed.

(** Transposing the outputs by the empty permutation does nothing. *)
Lemma TransposeOutputs_empty (c : OptimizerCtx) (n : NodeRef) :
  TransposeOutputs c n [] = mret tt.
Proof. reflexivity. Qed.

Lemma push_first_input_never_false args out_perm :
  never negb (push_first_input args out_perm).
Proof. unfold push_first_input. never_solve. Qed.

Lemma keeps_push_first_input n d0 args out_perm :
  node_is_op d0 "Transpose" = false → keeps n d0 (push_first_input args out_perm).
Proof.
  intros Hop. unfold push_first_input.
  apply keeps_bind; [by apply keeps_TransposeFirstInput|]. intros _. keeps_solve.
Qed.

Lemma node_kept_refl (g : Graph) (n : NodeRef) (d : Node) :
  (n < g_next_node g)%nat → nodes_lookup (g_nodes g) n = Some d → node_kept n d g.
Proof. intros Hlt Hd. split; [done|]. by exists d. Qed.

Lemma HandleReduceOp_axes_unset (args : HandlerArgs) (g : Graph) (dn : Node) :
  nodes_lookup (g_nodes g) (node args) = Some dn →
  attr_ints dn "axes" = None →
  HandleReduceOp args g
  = push_first_input args (if decide (default 1 (attr_int dn "keepdims") = 0)
                           then [] else perm args) g.
Proof.
  intros Hn Haxes. unfold HandleReduceOp.
  rewrite bind_run, (GetAttributeIntDefault_run g _ dn _ _ Hn).
  rewrite bind_run, (GetAttributeInts_run g _ dn _ Hn), Haxes.
  rewrite bind_run. by destruct (decide _).
Qed.

Lemma HandleReduceOp_axes_set (args : HandlerArgs) (g : Graph) (dn : Node)
    (axes axes' : list Z) :
  nodes_lookup (g_nodes g) (node args) = Some dn →
  attr_ints dn "axes" = Some axes →
  NormalizeAndValidateAxes axes (length (perm args)) = (true, axes') →
  HandleReduceOp args g
  = reduce_axes_push args (default 1 (attr_int dn "keepdims")) axes' g.
Proof.
  intros Hn Haxes Hnorm. unfold HandleReduceOp, reduce_axes_push.
  rewrite bind_run, (GetAttributeIntDefault_run g _ dn _ _ Hn).
  rewrite bind_run, (GetAttributeInts_run g _ dn _ Hn), Haxes.
  rewrite Hnorm. cbn [negb]. rewrite !bind_run.
  destruct (lift (SortedAxesForTransposedInput axes' (perm args)) g) as [[new_axes g0]|];
    [|done].
  rewrite !bind_run.
  destruct (SetAttributeInts (node args) "axes" new_axes g0) as [[[] g1]|]; [|done].
  destruct (decide _); [|done].
  rewrite !bind_run.
  by destruct (lift (SqueezePerm new_axes (perm args)) g1) as [[sq g2]|].
Qed.

Lemma SetAttributeInts_run (g : Graph) (n : NodeRef) (d : Node) (name : string)
    (v : list Z) :
  nodes_lookup (g_nodes g) n = Some d →
  ∃ g1, SetAttributeInts n name v g = Some (tt, g1)
        ∧ g_next_node g1 = g_next_node g
        ∧ nodes_lookup (g_nodes g1) n = Some (set_attrs (<[name := AttrInts v]> (n_attrs d)) d).
Proof.
  intros H. unfold SetAttributeInts. rewrite (alter_node_run g n d _ H).
  eexists. split; [reflexivity|]. split; [done|]. cbn [g_nodes set_nodes].
  by apply (nodes_lookup_alter_eq (λ d, set_attrs (<[name := AttrInts v]> (n_attrs d)) d)).
Qed.

(** The node after a run of [reduce_axes_push]. *)
Lemma reduce_axes_push_node (args : HandlerArgs) (keepdims : Z) (axes' : list Z)
    (g : Graph) (dn : Node) (b : bool) (g' : Graph) :
  nodes_lookup (g_nodes g) (node args) = Some dn →
  (node args < g_next_node g)%nat →
  node_is_op dn "Transpose" = false →
  reduce_axes_push args keepdims axes' g = Some (b, g') →
  ∃ new_axes dn',
    SortedAxesForTransposedInput axes' (perm args) = Some new_axes
    ∧ b = true
    ∧ nodes_lookup (g_nodes g') (node args) = Some dn'
    ∧ n_attrs dn' = <["axes" := AttrInts new_axes]> (n_attrs dn)
    ∧ attr_ints dn' "axes" = Some new_axes
    ∧ n_op_type dn' = n_op_type dn.
Proof.
  intros Hn Hlt Hop Hrun. unfold reduce_axes_push in Hrun.
  apply bind_Some in Hrun as (new_axes & g0 & H0 & Hrun).
  apply lift_Some in H0 as [Hsorted ->].
  apply bind_Some in Hrun as ([] & g1 & H1 & Hrun).
  destruct (SetAttributeInts_run g _ dn "axes" new_axes Hn) as (g1' & H1' & Hnext & Hn1).
  rewrite H1' in H1. injection H1 as ->.
  set (d1 := set_attrs (<["axes" := AttrInts new_axes]> (n_attrs dn)) dn) in *.
  assert (node_kept (node args) d1 g1) as Hkept.
  { apply node_kept_refl; [by rewrite Hnext|done]. }
  apply bind_Some in Hrun as (out_perm & g2 & H2 & Hrun).
  assert (g2 = g1) as ->.
  { revert H2. apply (λ H : read_only _, H g1 out_perm g2). read_only_solve. }
  pose proof (push_first_input_never_false args out_perm g1 b g' Hrun) as Hb.
  apply negb_false_iff in Hb.
  apply (keeps_apply (node args) d1 _ g1 b g') in Hrun;
    [|by apply keeps_push_first_input|done].
  destruct Hrun as [_ (dn' & Hn' & Hty & _ & Hattrs)].
  exists new_axes, dn'. split; [done|]. split; [done|]. split; [done|].
  split; [done|]. split; [|done].
  unfold attr_ints. rewrite Hattrs. subst d1. cbn [n_attrs set_attrs].
  by rewrite lookup_insert_eq.
Qed.

(** With the axes within the rank, the push of a reduction with [axes] is
    defined in the call context of the driver. *)
Lemma reduce_axes_push_succeeds (args : HandlerArgs) (keepdims : Z) (axes' : list Z)
    (g : Graph) (dn dt : Node) (tin tout : string) :
  push_context args g dn dt tin tout →
  Forall (λ a, 0 ≤ a < Z.of_nat (length (perm args))) axes' →
  ∃ g', reduce_axes_push args keepdims axes' g = Some (true, g').
Proof.
  intros Hctx Haxes.
  assert (IsValidPerm (perm args) = true) as Hvalid by apply Hctx.
  assert (is_Some (InvertPerm (perm args))) as Hinv.
  { destruct Hctx as (_ & _ & _ & _ & _ & _ & _ & _ & _ & _ & Hinv & _). by eexists. }
  destruct (SortedAxesForTransposedInput_defined axes' (perm args) Hvalid Haxes)
    as [new_axes Hsorted].
  pose proof (SortedAxesForTransposedInput_spec _ _ _ Hsorted) as (_ & Hrange & _).
  destruct (push_context_SetAttributeInts args g dn dt tin tout "axes" new_axes Hctx)
    as (g1 & Hset & Hctx1).
  unfold reduce_axes_push.
  rewrite bind_run, Hsorted, lift_run. cbv beta iota.
  rewrite bind_run, Hset. cbv beta iota. rewrite bind_run.
  destruct (decide (keepdims = 0)) as [_|_].
  - destruct (SqueezePerm_defined new_axes (perm args) Hvalid Hrange) as [sq Hsq].
    rewrite Hsq, lift_run. cbv beta iota.
    apply (push_first_input_succeeds args g1 _ dt tin tout sq Hctx1).
    right. apply InvertPerm_defined. by apply (SqueezePerm_range new_axes (perm args)).
  - rewrite ret_run. cbv beta iota.
    apply (push_first_input_succeeds args g1 _ dt tin tout (perm args) Hctx1). by right.
Qed.

(** The reduce handler, on a node of the graph that is not a Transpose,
    with a valid perm.  With [axes] unset it transposes the input by
    [perm_inv] and the outputs by [perm] when [keepdims] is nonzero and by the
    empty permutation, that is not at all, when [keepdims] is 0; the node's
    attributes stay as they were.  With [axes] set and normalized to [axes'],
    it sets [axes] to [SortedAxesForTransposedInput(axes', perm)], which is
    the image of [axes'] under [perm] sorted ascending, and transposes the
    outputs by [perm] when [keepdims] is nonzero and by
    [SqueezePerm(new_axes, perm)], which is then defined, when it is 0.  In
    the call context of the driver (the node's first input is the output of a
    Transpose with perm [perm]) the handler is defined and answers "modified";
    with [axes] set this needs the normalized axes to lie within the rank. *)
Theorem HandleReduceOp_pushes (args : HandlerArgs) (g : Graph) (dn : Node) :
  nodes_lookup (g_nodes g) (node args) = Some dn →
  (node args < g_next_node g)%nat →
  node_is_op dn "Transpose" = false →
  IsValidPerm (perm args) = true →
  let keepdims := default 1 (attr_int dn "keepdims") in
  match attr_ints dn "axes" with
  | None =>
      HandleReduceOp args g
      = push_first_input args (if decide (keepdims = 0) then [] else perm args) g
      ∧ TransposeOutputs (ctx args) (node args) [] = mret tt
      ∧ (∀ dt tin tout, push_context args g dn dt tin tout →
                        ∃ g', HandleReduceOp args g = Some (true, g'))
      ∧ ∀ b g', HandleReduceOp args g = Some (b, g') →
                b = true
                ∧ ∃ dn', nodes_lookup (g_nodes g') (node args) = Some dn'
                         ∧ n_attrs dn' = n_attrs dn
  | Some axes =>
      ∀ axes', NormalizeAndValidateAxes axes (length (perm args)) = (true, axes') →
        HandleReduceOp args g
        = (new_axes ← lift (SortedAxesForTransposedInput axes' (perm args));
           SetAttributeInts (node args) "axes" new_axes;;
           out_perm ← (if decide (keepdims = 0)
                       then lift (SqueezePerm new_axes (perm args))
                       else mret (perm args));
           push_first_input args out_perm) g
        ∧ (Forall (λ a, 0 ≤ a < Z.of_nat (length (perm args))) axes' →
           is_Some (SortedAxesForTransposedInput axes' (perm args)))
        ∧ (∀ new_axes,
             SortedAxesForTransposedInput axes' (perm args) = Some new_axes →
             StronglySorted Z.lt new_axes
             ∧ (∀ x, x ∈ new_axes ↔ ∃ a, a ∈ axes' ∧ vec_get (perm args) a = Some x)
             ∧ is_Some (SqueezePerm new_axes (perm args)))
        ∧ (∀ dt tin tout, push_context args g dn dt tin tout →
             Forall (λ a, 0 ≤ a < Z.of_nat (length (perm args))) axes' →
             ∃ g', HandleReduceOp args g = Some (true, g'))
        ∧ ∀ b g', HandleReduceOp args g = Some (b, g') →
                  b = true
                  ∧ ∃ new_axes dn',
                      SortedAxesForTransposedInput axes' (perm args) = Some new_axes
                      ∧ nodes_lookup (g_nodes g') (node args) = Some dn'
                      ∧ attr_ints dn' "axes" = Some new_axes
  end.
Proof.
  intros Hn Hlt Hop Hvalid keepdims.
  destruct (attr_ints dn "axes") as [axes|] eqn:Haxes.
  - intros axes' Hnorm.
    pose proof (HandleReduceOp_axes_set args g dn axes axes' Hn Haxes Hnorm) as Heq.
    split; [exact Heq|].
    split; [by apply SortedAxesForTransposedInput_defined|].
    split.
    + intros new_axes Hsorted.
      apply SortedAxesForTransposedInput_spec in Hsorted as (Hs & Hrange & Himage).
      split; [done|]. split; [done|]. by apply SqueezePerm_defined.
    + split.
      { intros dt tin tout Hctx Hrange. rewrite Heq.
        by apply (reduce_axes_push_succeeds args _ axes' g dn dt tin tout). }
      intros b g' Hrun. rewrite Heq in Hrun.
      destruct (reduce_axes_push_node args _ axes' g dn b g' Hn Hlt Hop Hrun)
        as (new_axes & dn' & Hsorted & -> & Hn' & _ & Hattr & _).
      split; [done|]. by exists new_axes, dn'.
  - pose proof (HandleReduceOp_axes_unset args g dn Hn Haxes) as Heq.
    split; [exact Heq|]. split; [reflexivity|].
    split.
    { intros dt tin tout Hctx. rewrite Heq.
      apply (push_first_input_succeeds args g dn dt tin tout _ Hctx).
      destruct (decide _); [by left|right].
      destruct Hctx as (_ & _ & _ & _ & _ & _ & _ & _ & _ & _ & Hinv & _). by eexists. }
    intros b g' Hrun. rewrite Heq in Hrun.
    pose proof (push_first_input_never_false args _ g b g' Hrun) as Hb.
    apply negb_false_iff in Hb. split; [done|].
    apply (keeps_apply (node args) dn _ g b g') in Hrun;
      [|by apply keeps_push_first_input|by apply node_kept_refl].
    destruct Hrun as [_ (dn' & Hn' & _ & _ & Hattrs)]. by exists dn'.
Qed.

Lemma HandleReduceOp_pushes_witness :
  ∃ g' dn',
    HandleReduceOp args_reduce_mean graph_reduce_mean = Some (true, g')
    ∧ nodes_lookup (g_nodes g') 1%nat = Some dn'
    ∧ attr_ints dn' "axes" = Some [1]
    ∧ SqueezePerm [1] [0; 3; 1; 2] = Some [0; 2; 1].
Proof.
  pose proof (HandleReduceOp_pushes args_reduce_mean graph_reduce_mean
                (mkNode "ReduceMean" "" {["axes" := AttrInts [2]; "keepdims" := AttrInt 0]}
                        ["t"] ["y"])
                eq_refl ltac:(cbn; lia) eq_refl eq_refl) as H.
  cbv zeta in H.
  assert (attr_ints (mkNode "ReduceMean" ""
                       {["axes" := AttrInts [2]; "keepdims" := AttrInt 0]} ["t"] ["y"])
                    "axes" = Some [2]) as E by reflexivity.
  rewrite E in H. clear E.
  destruct (H [2] eq_refl) as (_ & _ & _ & Htotal & Hpost).
  destruct (Htotal _ _ _ push_context_reduce_mean) as [g' Hrun].
  { repeat constructor; cbn; lia. }
  destruct (Hpost true g' Hrun) as (_ & new_axes & dn' & Hsorted & Hn' & Hattr).
  exists g', dn'. split; [exact Hrun|]. split; [exact Hn'|].
  split; [|reflexivity].
  rewrite Hattr. rewrite <- Hsorted. reflexivity.
Defined.

(** C5.  The reduce handler on [ReduceMean(axes=[7], keepdims=0)] behind a
    Transpose of rank 4.  The axes are set and normalize successfully:
    [NormalizeAndValidateAxes] accepts them and leaves them as they are, since
    it tests the entries that were negative only, although its comment says
    that it checks that axes are within [[0, rank)].  The handler then asks
    [SortedAxesForTransposedInput] for the image of axis 7 under a perm of
    size 4, which reads [perm[7]] outside the vector: neither the handler nor
    the optimizer run that reaches it has a defined result, where the
    specification has the axes set to their sorted image under the perm.
    Within the rank the handler does that ([HandleReduceOp_pushed]). *)
Theorem HandleReduceOp_axis_beyond_rank :
  attr_ints (mkNode "ReduceMean" "" {["axes" := AttrInts [7]; "keepdims" := AttrInt 0]}
                    ["t"] ["y"]) "axes" = Some [7]
  ∧ IsValidPerm [0; 3; 1; 2] = true
  ∧ NormalizeAndValidateAxes [7] 4 = (true, [7])
  ∧ vec_get [0; 3; 1; 2] 7 = None
  ∧ SortedAxesForTransposedInput [7] [0; 3; 1; 2] = None
  ∧ HandleReduceOp args_reduce_mean graph_reduce_axis_7 = None
  ∧ Optimize 7 15 false graph_reduce_axis_7 = None.
Proof. repeat split; vm_compute; reflexivity. Qed.

(** ** Softmax, Hardmax and LogSoftmax before opset 13 *)

Lemma keeps_split_point_from (perm : list Z) (a : Z) (lo : nat) :
  forallb (λ '(i, p), bool_decide (bool_decide (i < a) = bool_decide (p < a)))
          (zip (index_range lo (length perm)) perm) = true
  ↔ ∀ (i : nat) (p : Z), perm !! i = Some p → (Z.of_nat (lo + i) < a ↔ p < a).
Proof.
  revert lo. induction perm as [|x rest IH]; intros lo.
  - split; [intros _ i p Hi; done|done].
  - cbn [length]. rewrite index_range_S. cbn [zip zip_with forallb].
    rewrite andb_true_iff, (IH (S lo)), bool_decide_eq_true. split.
    + intros [Hx Hrest] [|i] p Hi.
      * injection Hi as <-. rewrite Nat.add_0_r.
        split; intros H.
        -- eapply bool_decide_eq_true_1. rewrite <- Hx. by apply bool_decide_eq_true_2.
        -- eapply bool_decide_eq_true_1. rewrite Hx. by apply bool_decide_eq_true_2.
      * replace (lo + S i)%nat with (S lo + i)%nat by lia. by apply Hrest.
    + intros H. split.
      * specialize (H 0%nat x eq_refl). rewrite Nat.add_0_r in H.
        apply bool_decide_ext. exact H.
      * intros i p Hi. specialize (H (S i) p Hi).
        by replace (lo + S i)%nat with (S lo + i)%nat in H by lia.
Qed.

Lemma keeps_split_point_spec (perm : list Z) (a : Z) :
  keeps_split_point perm a = true ↔ keeps_split perm a.
Proof. unfold keeps_split_point. by rewrite keeps_split_point_from. Qed.

Lemma HandleSoftHardMax_run (args : HandlerArgs) (g : Graph) (dn : Node) (a : Z) :
  opset (ctx args) < 13 →
  nodes_lookup (g_nodes g) (node args) = Some dn →
  NormalizeAndValidateAxis (default 1 (attr_int dn "axis")) (length (perm args)) = (true, a) →
  HandleSoftHardMax args g
  = if keeps_split_point (perm args) a
    then (TransposeInputs (ctx args) (node args) (perm_inv args) (transposible_inputs args);;
          TransposeOutputs (ctx args) (node args) (perm args);;
          mret true) g
    else Some (false, g).
Proof.
  intros Hopset Hn Hnorm. unfold HandleSoftHardMax.
  rewrite decide_False by lia.
  rewrite bind_run, (GetAttributeIntDefault_run g _ dn _ _ Hn), Hnorm. cbn [negb].
  by destruct (keeps_split_point (perm args) a).
Qed.




(** * Further properties *)

(** ** Valid permutations *)

Lemma IsValidPerm_loop_complete (rank_int : Z) (used_dims : list bool) (perm : list Z) :
  NoDup perm →
  (∀ x, x ∈ perm → 0 ≤ x < rank_int ∧ default false (used_dims !! Z.to_nat x) = false) →
  IsValidPerm_loop rank_int used_dims perm = true.
Proof.
  intros Hnodup. revert used_dims.
  induction Hnodup as [|x rest Hx _ IH]; intros used_dims Hperm; simpl; [done|].
  destruct (Hperm x) as [Hrange Hunused]; [by left|].
  rewrite bool_decide_eq_false_2 by lia. rewrite bool_decide_eq_false_2 by lia.
  rewrite Hunused. cbn [orb]. apply IH. intros y Hy.
  destruct (Hperm y) as [Hyrange Hyunused]; [by right|]. split; [done|].
  rewrite list_lookup_insert_ne; [done|].
  intros Heq. apply Hx. assert (x = y) as -> by lia. done.
Qed.

Lemma IsValidPerm_intro (perm : list Z) :
  NoDup perm → Forall (λ x, 0 ≤ x < Z.of_nat (length perm)) perm → IsValidPerm perm = true.
Proof.
  intros Hnodup Hrange. apply IsValidPerm_loop_complete; [done|].
  intros x Hx. rewrite Forall_forall in Hrange. split; [by apply Hrange|].
  destruct (replicate (length perm) false !! Z.to_nat x) as [b|] eqn:E; [|done].
  apply lookup_replicate in E as [-> _]. done.
Qed.

Lemma index_range_length (lo n : nat) : length (index_range lo n) = n.
Proof. unfold index_range. by rewrite length_fmap, length_seq. Qed.

Lemma index_range_NoDup (lo n : nat) : NoDup (index_range lo n).
Proof.
  unfold index_range. apply NoDup_fmap_2; [|apply NoDup_seq].
  intros x y H. lia.
Qed.

Lemma index_range_lookup (lo n i : nat) :
  (i < n)%nat → index_range lo n !! i = Some (Z.of_nat (lo + i)).
Proof.
  intros Hi. unfold index_range. rewrite list_lookup_fmap, lookup_seq_lt by done. done.
Qed.

(** X1.  [IsValidPerm] accepts exactly the rearrangements of the indices
    [0, 1, ..., perm.size() - 1]: each of them once, as the comment of the
    source says. *)
Theorem IsValidPerm_iff_Permutation (perm : list Z) :
  IsValidPerm perm = true ↔ perm ≡ₚ index_range 0 (length perm).
Proof.
  split; [apply IsValidPerm_Permutation|].
  intros Hperm. apply IsValidPerm_intro.
  - rewrite Hperm. apply index_range_NoDup.
  - apply Forall_forall. intros x Hx. rewrite Hperm in Hx.
    apply elem_of_index_range in Hx. lia.
Qed.

(** ** Inverse and composition of permutations *)

(** The loop of [InvertPerm] writes [i] at position [j] for every pair
    [(i, j)] it visits and leaves the other positions alone. *)
Lemma InvertPerm_loop_spec (acc : list Z) (l : list (Z * Z)) (r : list Z) :
  NoDup l.*2 →
  vec_fold (λ perm_inv '(i, j), vec_set perm_inv j i) acc l = Some r →
  length r = length acc
  ∧ (∀ i j, (i, j) ∈ l → vec_get r j = Some i)
  ∧ (∀ k : nat, Z.of_nat k ∉ l.*2 → r !! k = acc !! k).
Proof.
  revert acc. induction l as [|[i j] rest IH]; intros acc Hnodup.
  { intros [= <-]. split; [done|]. split; [|done]. intros i j Hin. by apply elem_of_nil in Hin. }
  rewrite fmap_cons in Hnodup. apply NoDup_cons in Hnodup as [Hj Hnodup]. cbn [snd] in Hj.
  rewrite vec_fold_cons. cbv beta iota.
  destruct (vec_set acc j i) as [acc'|] eqn:Eset; [|done].
  apply vec_set_Some in Eset as [Hrange ->]. cbn [mbind option_bind].
  intros Hrun. apply IH in Hrun as (Hlen & Hset & Hother); [|done].
  rewrite length_insert in Hlen. split; [done|]. split.
  - intros i' j' Hin. apply elem_of_cons in Hin as [[= -> ->]|Hin]; [|by apply Hset].
    rewrite vec_get_in_range by lia. rewrite Hother.
    + apply list_lookup_insert_eq. lia.
    + by rewrite Z2Nat.id by lia.
  - intros k Hk. rewrite fmap_cons, not_elem_of_cons in Hk. destruct Hk as [Hkj Hk].
    cbn [snd] in Hkj. rewrite Hother by done. apply list_lookup_insert_ne. lia.
Qed.

Lemma elem_of_zip_index_range (perm : list Z) (i : nat) (p : Z) :
  perm !! i = Some p → (Z.of_nat i, p) ∈ zip (index_range 0 (length perm)) perm.
Proof.
  intros Hp. apply list_elem_of_lookup. exists i.
  apply lookup_zip_with_Some. exists (Z.of_nat i), p. split; [done|]. split; [|done].
  apply lookup_lt_Some in Hp as Hlt. by rewrite index_range_lookup.
Qed.

Lemma zip_index_range_snd (perm : list Z) : (zip (index_range 0 (length perm)) perm).*2 = perm.
Proof. apply snd_zip. by rewrite index_range_length. Qed.

(** [InvertPerm] of a valid perm: the inverse sends [perm[i]] to [i]. *)
Lemma InvertPerm_valid (perm : list Z) :
  IsValidPerm perm = true →
  ∃ inv, InvertPerm perm = Some inv
         ∧ length inv = length perm
         ∧ (∀ (i : nat) p, perm !! i = Some p → vec_get inv p = Some (Z.of_nat i))
         ∧ IsValidPerm inv = true.
Proof.
  intros Hvalid.
  pose proof (IsValidPerm_range perm Hvalid) as Hrange.
  pose proof (IsValidPerm_Permutation perm Hvalid) as Hperm.
  assert (NoDup perm) as Hnodup by (rewrite Hperm; apply index_range_NoDup).
  destruct (InvertPerm_defined perm Hrange) as [inv Hinv]. exists inv.
  split; [done|]. unfold InvertPerm in Hinv.
  apply InvertPerm_loop_spec in Hinv as (Hlen & Hset & _);
    [|by rewrite zip_index_range_snd].
  rewrite length_replicate in Hlen.
  assert (∀ (i : nat) p, perm !! i = Some p → vec_get inv p = Some (Z.of_nat i)) as Hspec.
  { intros i p Hp. by apply Hset, elem_of_zip_index_range. }
  split; [done|]. split; [done|].
  assert (∀ (k : nat) x, inv !! k = Some x →
            ∃ i : nat, x = Z.of_nat i ∧ perm !! i = Some (Z.of_nat k)) as Hback.
  { intros k x Hk. apply lookup_lt_Some in Hk as Hlt.
    assert (Z.of_nat k ∈ perm) as Hin.
    { rewrite Hperm. apply elem_of_index_range. lia. }
    apply list_elem_of_lookup in Hin as [i Hi]. exists i. split; [|done].
    specialize (Hspec i _ Hi). rewrite vec_get_nat in Hspec. congruence. }
  apply IsValidPerm_intro.
  - apply NoDup_alt. intros k1 k2 x Hk1 Hk2.
    destruct (Hback k1 x Hk1) as (i1 & -> & Hi1).
    destruct (Hback k2 _ Hk2) as (i2 & Heq & Hi2).
    assert (i1 = i2) as -> by lia. rewrite Hi1 in Hi2. injection Hi2. lia.
  - apply Forall_forall. intros x Hx. apply list_elem_of_lookup in Hx as [k Hk].
    destruct (Hback k x Hk) as (i & -> & Hi). apply lookup_lt_Some in Hi. lia.
Qed.

(** X2.  For a valid perm, [InvertPerm] returns a valid perm of the same
    length that sends [perm[i]] back to [i]. *)
Theorem InvertPerm_inverts (perm : list Z) :
  IsValidPerm perm = true →
  ∃ inv, InvertPerm perm = Some inv
         ∧ length inv = length perm
         ∧ IsValidPerm inv = true
         ∧ ∀ (i : nat) p, perm !! i = Some p → vec_get inv p = Some (Z.of_nat i).
Proof.
  intros Hvalid. destruct (InvertPerm_valid perm Hvalid) as (inv & H1 & H2 & H3 & H4).
  by exists inv.
Qed.

Lemma InvertPerm_inverts_witness :
  ∃ inv, InvertPerm [2; 0; 1] = Some inv ∧ length inv = 3%nat ∧ IsValidPerm inv = true
         ∧ ∀ (i : nat) p, [2; 0; 1] !! i = Some p → vec_get inv p = Some (Z.of_nat i).
Proof. exact (InvertPerm_inverts [2; 0; 1] eq_refl). Defined.

Lemma InvertPerm_involutive_aux (perm inv : list Z) :
  IsValidPerm perm = true → InvertPerm perm = Some inv → InvertPerm inv = Some perm.
Proof.
  intros Hvalid Hinv.
  destruct (InvertPerm_valid perm Hvalid) as (inv' & Hinv' & Hlen & Hspec & Hvalid').
  assert (inv' = inv) as -> by congruence.
  destruct (InvertPerm_valid inv Hvalid') as (inv2 & Hinv2 & Hlen2 & Hspec2 & _).
  rewrite Hinv2. f_equal. apply list_eq_same_length with (length perm); [lia|lia|].
  intros i x y Hi Hx Hy.
  specialize (Hspec i y Hy).
  pose proof (IsValidPerm_range perm Hvalid) as Hrange. rewrite Forall_forall in Hrange.
  assert (0 ≤ y < Z.of_nat (length perm)) as Hyr.
  { apply Hrange. apply list_elem_of_lookup. by exists i. }
  rewrite vec_get_in_range in Hspec by lia.
  specialize (Hspec2 _ _ Hspec). rewrite vec_get_nat, Z2Nat.id in Hspec2 by lia. congruence.
Qed.

(** X3.  Inverting twice gives the perm back: for a valid perm,
    [InvertPerm(InvertPerm(perm)) = perm]. *)
Theorem InvertPerm_involutive (perm inv : list Z) :
  IsValidPerm perm = true → InvertPerm perm = Some inv → InvertPerm inv = Some perm.
Proof. apply InvertPerm_involutive_aux. Qed.

Lemma InvertPerm_involutive_witness :
  InvertPerm [0; 3; 1; 2] = Some [0; 2; 3; 1] ∧ InvertPerm [0; 2; 3; 1] = Some [0; 3; 1; 2].
Proof.
  split; [reflexivity|].
  exact (InvertPerm_involutive [0; 3; 1; 2] [0; 2; 3; 1] eq_refl eq_refl).
Defined.

Lemma IsIdentityPerm_from (lo : nat) (perm : list Z) :
  forallb (λ '(i, p), bool_decide (p = i)) (zip (index_range lo (length perm)) perm) = true
  ↔ perm = index_range lo (length perm).
Proof.
  revert lo. induction perm as [|p rest IH]; intros lo; [done|].
  cbn [length]. rewrite index_range_S. cbn [zip zip_with forallb].
  rewrite andb_true_iff, bool_decide_eq_true, IH. split.
  - intros [-> H]. by f_equal.
  - intros [= -> H]. by split.
Qed.

(** X4.  [IsIdentityPerm] accepts exactly the perms [0, 1, ..., n-1], the
    empty perm included. *)
Theorem IsIdentityPerm_iff (perm : list Z) :
  IsIdentityPerm perm = true ↔ perm = index_range 0 (length perm).
Proof. apply IsIdentityPerm_from. Qed.

Lemma ComposePerm_lookup (perm1 perm2 r : list Z) :
  length perm2 = length r →
  (∀ (i : nat) p x, perm2 !! i = Some p → r !! i = Some x → vec_get perm1 p = Some x) →
  ComposePerm perm1 perm2 = Some r.
Proof.
  intros Hlen H. apply ComposePerm_spec. by apply Forall2_same_length_lookup_2.
Qed.

(** X5.  A valid perm composed with its inverse, in either order, is the
    identity perm, which [IsIdentityPerm] accepts. *)
Theorem ComposePerm_InvertPerm (perm inv : list Z) :
  IsValidPerm perm = true → InvertPerm perm = Some inv →
  ComposePerm perm inv = Some (index_range 0 (length perm))
  ∧ ComposePerm inv perm = Some (index_range 0 (length perm))
  ∧ IsIdentityPerm (index_range 0 (length perm)) = true.
Proof.
  intros Hvalid Hinv.
  destruct (InvertPerm_valid perm Hvalid) as (inv' & Hinv' & Hlen & Hspec & Hvalid').
  assert (inv' = inv) as -> by congruence.
  pose proof (InvertPerm_involutive_aux perm inv Hvalid Hinv) as Hback.
  destruct (InvertPerm_valid inv Hvalid') as (perm' & Hperm' & _ & Hspec' & _).
  assert (perm' = perm) as -> by congruence.
  split; [|split].
  - apply ComposePerm_lookup; [by rewrite index_range_length|].
    intros i p x Hp Hx. apply lookup_lt_Some in Hp as Hlt.
    rewrite index_range_lookup in Hx by lia. injection Hx as <-. by apply Hspec'.
  - apply ComposePerm_lookup; [by rewrite index_range_length|].
    intros i p x Hp Hx. apply lookup_lt_Some in Hp as Hlt.
    rewrite index_range_lookup in Hx by lia. injection Hx as <-. by apply Hspec.
  - apply IsIdentityPerm_from. by rewrite index_range_length.
Qed.

Lemma ComposePerm_InvertPerm_witness :
  ComposePerm [2; 0; 1] [1; 2; 0] = Some [0; 1; 2]
  ∧ ComposePerm [1; 2; 0] [2; 0; 1] = Some [0; 1; 2]
  ∧ IsIdentityPerm [0; 1; 2] = true.
Proof. exact (ComposePerm_InvertPerm [2; 0; 1] [1; 2; 0] eq_refl eq_refl). Defined.

Lemma IsValidPerm_NoDup (perm : list Z) : IsValidPerm perm = true → NoDup perm.
Proof.
  intros Hvalid. rewrite (IsValidPerm_Permutation perm Hvalid). apply index_range_NoDup.
Qed.

(** X6.  The composition of two valid perms of the same length is defined
    and is a valid perm of that length, with [r[i] = perm1[perm2[i]]]. *)
Theorem ComposePerm_valid (perm1 perm2 : list Z) :
  IsValidPerm perm1 = true → IsValidPerm perm2 = true → length perm1 = length perm2 →
  ∃ r, ComposePerm perm1 perm2 = Some r
       ∧ length r = length perm2
       ∧ IsValidPerm r = true
       ∧ ∀ (i : nat) p, perm2 !! i = Some p → r !! i = perm1 !! Z.to_nat p.
Proof.
  intros Hvalid1 Hvalid2 Hlen.
  pose proof (IsValidPerm_range perm1 Hvalid1) as Hrange1.
  pose proof (IsValidPerm_range perm2 Hvalid2) as Hrange2.
  pose proof (IsValidPerm_NoDup perm1 Hvalid1) as Hnodup1.
  pose proof (IsValidPerm_NoDup perm2 Hvalid2) as Hnodup2.
  rewrite Forall_forall in Hrange1, Hrange2. rewrite NoDup_alt in Hnodup1, Hnodup2.
  destruct (ComposePerm_defined perm1 perm2) as [r Hr].
  { apply Forall_forall. intros p Hp. rewrite Hlen. by apply Hrange2. }
  exists r. split; [done|]. apply ComposePerm_spec in Hr.
  pose proof (Forall2_length _ _ _ Hr) as Hlenr.
  assert (∀ (i : nat) p, perm2 !! i = Some p → r !! i = perm1 !! Z.to_nat p) as Hspec.
  { intros i p Hp. destruct (Forall2_lookup_l _ _ _ _ _ Hr Hp) as (x & Hx & Hget).
    rewrite Hx, <- Hget. apply vec_get_in_range.
    assert (p ∈ perm2) as Hin by (apply list_elem_of_lookup; by exists i).
    specialize (Hrange2 p Hin). lia. }
  assert (∀ (i : nat) x, r !! i = Some x →
            ∃ p, perm2 !! i = Some p ∧ 0 ≤ p ∧ perm1 !! Z.to_nat p = Some x) as Hback.
  { intros i x Hx. destruct (Forall2_lookup_r _ _ _ _ _ Hr Hx) as (p & Hp & Hget).
    exists p. split; [done|].
    assert (p ∈ perm2) as Hin by (apply list_elem_of_lookup; by exists i).
    specialize (Hrange2 p Hin). split; [lia|]. by rewrite <- vec_get_in_range by lia. }
  split; [lia|]. split; [|done].
  apply IsValidPerm_intro.
  - apply NoDup_alt. intros i j x Hi Hj.
    destruct (Hback i x Hi) as (p & Hp & Hp0 & Hp1).
    destruct (Hback j x Hj) as (q & Hq & Hq0 & Hq1).
    assert (Z.to_nat p = Z.to_nat q) as Heq by (by apply (Hnodup1 _ _ x)).
    assert (p = q) as -> by lia. by apply (Hnodup2 _ _ q).
  - apply Forall_forall. intros x Hx. apply list_elem_of_lookup in Hx as [i Hi].
    destruct (Hback i x Hi) as (p & _ & _ & Hp1).
    assert (x ∈ perm1) as Hin by (apply list_elem_of_lookup; by eexists).
    specialize (Hrange1 x Hin). lia.
Qed.

Lemma ComposePerm_valid_witness :
  ∃ r, ComposePerm [1; 0; 2] [2; 1; 0] = Some r ∧ length r = 3%nat ∧ IsValidPerm r = true
       ∧ ∀ (i : nat) p, [2; 1; 0] !! i = Some p → r !! i = [1; 0; 2] !! Z.to_nat p.
Proof. exact (ComposePerm_valid [1; 0; 2] [2; 1; 0] eq_refl eq_refl eq_refl). Defined.

Lemma InvertPerm_loop_Some (acc : list Z) (l : list (Z * Z)) :
  is_Some (vec_fold (λ perm_inv '(i, j), vec_set perm_inv j i) acc l) →
  Forall (λ p, 0 ≤ p.2 < Z.of_nat (length acc)) l.
Proof.
  revert acc. induction l as [|[i j] rest IH]; intros acc; [by constructor|].
  rewrite vec_fold_cons. cbv beta iota.
  destruct (vec_set acc j i) as [acc'|] eqn:Eset; [|by intros [? ?]].
  apply vec_set_Some in Eset as [Hrange ->]. cbn [mbind option_bind].
  intros Hrun. apply IH in Hrun. rewrite length_insert in Hrun. by constructor.
Qed.

(** X7.  [InvertPerm] is defined exactly when every entry of [perm] is one of
    its indices; an entry that is negative or at least [perm.size()] makes it
    write outside the vector it fills. *)
Theorem InvertPerm_defined_iff (perm : list Z) :
  is_Some (InvertPerm perm) ↔ Forall (λ x, 0 ≤ x < Z.of_nat (length perm)) perm.
Proof.
  split; [|apply InvertPerm_defined].
  unfold InvertPerm. intros H%InvertPerm_loop_Some.
  rewrite length_replicate in H. rewrite Forall_forall in H.
  apply Forall_forall. intros x Hx. apply list_elem_of_lookup in Hx as [i Hi].
  exact (H _ (elem_of_zip_index_range perm i x Hi)).
Qed.

(** ** The channel-last to channel-first perm at rank 2 and above *)

Lemma channel_perm_valid (k : nat) :
  IsValidPerm (0 :: Z.of_nat (S k) :: index_range 1 k) = true.
Proof.
  apply IsValidPerm_intro.
  - apply NoDup_cons. split.
    { rewrite not_elem_of_cons, elem_of_index_range. lia. }
    apply NoDup_cons. split; [rewrite elem_of_index_range; lia|apply index_range_NoDup].
  - cbn [length]. rewrite index_range_length.
    apply Forall_cons. split; [lia|]. apply Forall_cons. split; [lia|].
    apply Forall_forall. intros x Hx. apply elem_of_index_range in Hx. lia.
Qed.

Lemma channel_perm_inverse (k : nat) :
  InvertPerm (0 :: Z.of_nat (S k) :: index_range 1 k) = Some (0 :: index_range 2 k ++ [1]).
Proof.
  set (p := 0 :: Z.of_nat (S k) :: index_range 1 k).
  destruct (InvertPerm_valid p (channel_perm_valid k)) as (inv & -> & Hlen & Hspec & _).
  f_equal. unfold p in Hlen. cbn [length] in Hlen. rewrite index_range_length in Hlen.
  apply list_eq_same_length with (S (S k)); [|done|].
  { cbn [length]. rewrite length_app, index_range_length. cbn [length]. lia. }
  intros i x y Hi Hx Hy.
  destruct (decide (i = 0%nat)) as [->|Hi0].
  { specialize (Hspec 0%nat 0 eq_refl).
    change (vec_get inv 0) with (vec_get inv (Z.of_nat 0)) in Hspec.
    rewrite vec_get_nat in Hspec. change (Z.of_nat 0) with 0 in Hspec.
    cbn in Hy. congruence. }
  destruct (decide (i = S k)) as [->|Hik].
  { specialize (Hspec 1%nat (Z.of_nat (S k)) eq_refl). rewrite vec_get_nat in Hspec.
    rewrite lookup_cons_ne_0, lookup_app_r in Hy by (rewrite ?index_range_length; lia).
    rewrite index_range_length in Hy. replace (pred (S k) - k)%nat with 0%nat in Hy by lia.
    change (Z.of_nat 1) with 1 in Hspec. cbn in Hy. congruence. }
  assert (p !! S i = Some (Z.of_nat i)) as Hp.
  { unfold p. destruct i as [|i]; [done|]. cbn [lookup list_lookup].
    by rewrite index_range_lookup by lia. }
  specialize (Hspec (S i) _ Hp). rewrite vec_get_nat in Hspec.
  rewrite lookup_cons_ne_0, lookup_app_l in Hy by (rewrite ?index_range_length; lia).
  rewrite index_range_lookup in Hy by lia.
  assert (x = Z.of_nat (S i)) as -> by congruence. injection Hy as <-. lia.
Qed.

(** X8.  [ChannelLastToFirstPerm] is defined exactly from rank 2 on; there it
    is the valid perm [0, r-1, 1, ..., r-2], whose inverse is
    [0, 2, ..., r-1, 1].  At ranks 0 and 1 it writes [p[0]] or [p[1]] outside
    the vector. *)
Theorem ChannelLastToFirstPerm_from_rank_2 (rank : nat) :
  (is_Some (ChannelLastToFirstPerm rank) ↔ (2 ≤ rank)%nat)
  ∧ ∀ p, ChannelLastToFirstPerm rank = Some p →
         p = 0 :: Z.of_nat (rank - 1) :: index_range 1 (rank - 2)
         ∧ IsValidPerm p = true
         ∧ InvertPerm p = Some (0 :: index_range 2 (rank - 2) ++ [1]).
Proof.
  destruct rank as [|[|k]].
  - split; [split; [by intros [? ?]|lia]|done].
  - split; [split; [by intros [? ?]|lia]|done].
  - rewrite ChannelLastToFirstPerm_rank_ge_2. split; [split; [lia|by eexists]|].
    intros p [= <-]. replace (S (S k) - 1)%nat with (S k) by lia.
    replace (S (S k) - 2)%nat with k by lia.
    split; [done|]. split; [apply channel_perm_valid|apply channel_perm_inverse].
Qed.

(** ** Axes normalization, negative entries *)

Lemma NormalizeAndValidateAxes_loop_length (rank_int : Z) (used_dims : list bool)
    (axes : list Z) :
  length (NormalizeAndValidateAxes_loop rank_int used_dims axes).2 = length axes.
Proof.
  revert used_dims. induction axes as [|a rest IH]; intros used_dims; [done|].
  simpl. destruct (decide (a < 0)).
  - destruct (bool_decide (a + rank_int < 0) || bool_decide (a + rank_int >= rank_int)
              || default false (used_dims !! Z.to_nat (a + rank_int))); [done|].
    specialize (IH (<[Z.to_nat (a + rank_int) := true]> used_dims)).
    destruct (NormalizeAndValidateAxes_loop _ _ rest). simpl in *. by rewrite IH.
  - specialize (IH used_dims).
    destruct (NormalizeAndValidateAxes_loop _ _ rest). simpl in *. by rewrite IH.
Qed.

Lemma NormalizeAndValidateAxes_loop_result (rank_int : Z) (used_dims : list bool)
    (axes : list Z) :
  (NormalizeAndValidateAxes_loop rank_int used_dims axes).1 = true →
  (NormalizeAndValidateAxes_loop rank_int used_dims axes).2
  = (λ a, if decide (a < 0) then a + rank_int else a) <$> axes.
Proof.
  revert used_dims. induction axes as [|a rest IH]; intros used_dims; [done|].
  simpl. destruct (decide (a < 0)).
  - destruct (bool_decide (a + rank_int < 0) || bool_decide (a + rank_int >= rank_int)
              || default false (used_dims !! Z.to_nat (a + rank_int))); [done|].
    specialize (IH (<[Z.to_nat (a + rank_int) := true]> used_dims)).
    destruct (NormalizeAndValidateAxes_loop _ _ rest). simpl in *.
    intros H. by rewrite IH.
  - specialize (IH used_dims).
    destruct (NormalizeAndValidateAxes_loop _ _ rest). simpl in *.
    intros H. by rewrite IH.
Qed.

Lemma NormalizeAndValidateAxes_loop_verdict (rank_int : Z) (used_dims : list bool)
    (axes : list Z) :
  rank_int ≤ Z.of_nat (length used_dims) →
  (NormalizeAndValidateAxes_loop rank_int used_dims axes).1 = true
  ↔ (∀ a, a ∈ axes → a < 0 →
          0 ≤ a + rank_int ∧ default false (used_dims !! Z.to_nat (a + rank_int)) = false)
    ∧ NoDup (filter (λ a, a < 0) axes).
Proof.
  revert used_dims. induction axes as [|a rest IH]; intros used_dims Hlen.
  { split; [|done]. intros _. split; [|constructor]. intros a Ha. by apply elem_of_nil in Ha. }
  rewrite filter_cons. simpl. destruct (decide (a < 0)) as [Hneg|Hpos].
  - destruct (bool_decide (a + rank_int < 0)) eqn:E1.
    { apply bool_decide_eq_true in E1. split; [done|]. intros [H _].
      destruct (H a) as [H0 _]; [by left|done|lia]. }
    apply bool_decide_eq_false in E1.
    rewrite (bool_decide_eq_false_2 (a + rank_int >= rank_int)) by lia. cbn [orb].
    destruct (default false (used_dims !! Z.to_nat (a + rank_int))) eqn:E3.
    { split; [done|]. intros [H _]. destruct (H a) as [_ H1]; [by left|done|congruence]. }
    specialize (IH (<[Z.to_nat (a + rank_int) := true]> used_dims)).
    rewrite length_insert in IH. specialize (IH Hlen).
    destruct (NormalizeAndValidateAxes_loop _ _ rest) as [ok rest']. cbn [fst] in *.
    rewrite IH. clear IH. rewrite NoDup_cons. split.
    + intros [Hrest Hnodup]. split; [|split; [|done]].
      * intros b Hb Hbneg. apply elem_of_cons in Hb as [->|Hb]; [by split; [lia|]|].
        destruct (Hrest b Hb Hbneg) as [Hb0 Hb1]. split; [done|].
        destruct (decide (b = a)) as [->|Hne].
        { rewrite list_lookup_insert_eq in Hb1 by lia. discriminate. }
        rewrite list_lookup_insert_ne in Hb1 by lia. done.
      * intros Hin. apply list_elem_of_filter in Hin as [_ Hin].
        destruct (Hrest a Hin Hneg) as [_ H1].
        rewrite list_lookup_insert_eq in H1 by lia. discriminate.
    + intros [Hall [Hnotin Hnodup]]. split; [|done].
      intros b Hb Hbneg. destruct (Hall b) as [Hb0 Hb1]; [by right|done|].
      split; [done|]. rewrite list_lookup_insert_ne; [done|].
      intros Heq. apply Hnotin. apply list_elem_of_filter. split; [done|].
      assert (a = b) as -> by lia. done.
  - specialize (IH used_dims Hlen).
    destruct (NormalizeAndValidateAxes_loop _ _ rest) as [ok rest']. cbn [fst] in *.
    rewrite IH. split.
    + intros [Hrest Hnodup]. split; [|done]. intros b Hb Hbneg.
      apply elem_of_cons in Hb as [->|Hb]; [lia|]. by apply Hrest.
    + intros [Hall Hnodup]. split; [|done]. intros b Hb. apply Hall. by right.
Qed.

(** X9.  [NormalizeAndValidateAxes] returns true exactly when every negative
    entry is at least [-rank] and no negative entry occurs twice.  It then
    leaves [rank] added to every negative entry and the other entries as they
    were; the vector keeps its length whatever the verdict. *)
Theorem NormalizeAndValidateAxes_verdict (axes : list Z) (rank : nat) :
  ((NormalizeAndValidateAxes axes rank).1 = true
   ↔ Forall (λ a, a < 0 → - Z.of_nat rank ≤ a) axes ∧ NoDup (filter (λ a, a < 0) axes))
  ∧ ((NormalizeAndValidateAxes axes rank).1 = true →
     (NormalizeAndValidateAxes axes rank).2
     = (λ a, if decide (a < 0) then a + Z.of_nat rank else a) <$> axes)
  ∧ length (NormalizeAndValidateAxes axes rank).2 = length axes.
Proof.
  unfold NormalizeAndValidateAxes.
  split; [|split; [apply NormalizeAndValidateAxes_loop_result
                  |apply NormalizeAndValidateAxes_loop_length]].
  rewrite NormalizeAndValidateAxes_loop_verdict by (rewrite length_replicate; lia).
  rewrite Forall_forall. split.
  - intros [H Hnodup]. split; [|done]. intros a Ha Hneg.
    destruct (H a Ha Hneg) as [H0 _]. lia.
  - intros [H Hnodup]. split; [|done]. intros a Ha Hneg. specialize (H a Ha Hneg).
    split; [lia|].
    destruct (replicate rank false !! Z.to_nat (a + Z.of_nat rank)) as [b|] eqn:E; [|done].
    apply lookup_replicate in E as [-> _]. done.
Qed.

(** X10.  The uniqueness check misses a negative entry that names the same
    axis as a non-negative one: for an axis [a] within the rank,
    [[a, a - rank]] is accepted and normalized to [[a, a]]. *)
Theorem NormalizeAndValidateAxes_misses_mixed_duplicate (a : Z) (rank : nat) :
  0 ≤ a < Z.of_nat rank →
  NormalizeAndValidateAxes [a; a - Z.of_nat rank] rank = (true, [a; a]).
Proof.
  intros Ha. unfold NormalizeAndValidateAxes. simpl.
  destruct (decide (a < 0)); [lia|].
  destruct (decide (a - Z.of_nat rank < 0)); [|lia].
  replace (a - Z.of_nat rank + Z.of_nat rank) with a by lia.
  rewrite (bool_decide_eq_false_2 (a < 0)) by lia.
  rewrite (bool_decide_eq_false_2 (a >= Z.of_nat rank)) by lia. cbn [orb].
  destruct (replicate rank false !! Z.to_nat a) as [b|] eqn:E; [|done].
  apply lookup_replicate in E as [-> _]. done.
Qed.

Lemma NormalizeAndValidateAxes_misses_mixed_duplicate_witness :
  NormalizeAndValidateAxes [1; -2] 3 = (true, [1; 1]).
Proof. exact (NormalizeAndValidateAxes_misses_mixed_duplicate 1 3 ltac:(lia)). Defined.

(** ** Axes of a transposed input, sorted and unsorted *)

Lemma StronglySorted_lt_NoDup (l : list Z) : StronglySorted Z.lt l → NoDup l.
Proof.
  induction 1 as [|x rest _ IH Hx]; constructor; [|done].
  intros Hin. rewrite Forall_forall in Hx. specialize (Hx x Hin). lia.
Qed.

(** X11.  For duplicate-free axes within the rank of a valid perm,
    [AxesForTransposedInput] maps every axis through [perm] in place, and
    [SortedAxesForTransposedInput] returns the same axes in ascending
    order. *)
Theorem SortedAxes_sorts_AxesForTransposedInput (axes perm : list Z) :
  IsValidPerm perm = true → NoDup axes →
  Forall (λ a, 0 ≤ a < Z.of_nat (length perm)) axes →
  ∃ unsorted sorted,
    AxesForTransposedInput axes perm = Some unsorted
    ∧ SortedAxesForTransposedInput axes perm = Some sorted
    ∧ Forall2 (λ a x, vec_get perm a = Some x) axes unsorted
    ∧ sorted ≡ₚ unsorted
    ∧ StronglySorted Z.lt sorted.
Proof.
  intros Hvalid Hnodup Hrange.
  destruct (ComposePerm_defined perm axes Hrange) as [u Hu].
  destruct (SortedAxesForTransposedInput_defined axes perm Hvalid Hrange) as [s Hs].
  exists u, s. split; [exact Hu|]. split; [exact Hs|].
  apply ComposePerm_spec in Hu.
  apply SortedAxesForTransposedInput_spec in Hs as (Hsorted & _ & Himage).
  split; [done|]. split; [|done].
  pose proof (IsValidPerm_NoDup perm Hvalid) as Hperm. rewrite NoDup_alt in Hperm.
  rewrite Forall_forall in Hrange.
  apply NoDup_Permutation.
  - by apply StronglySorted_lt_NoDup.
  - apply NoDup_alt. intros i j x Hi Hj.
    destruct (Forall2_lookup_r _ _ _ _ _ Hu Hi) as (a & Ha & Hpa).
    destruct (Forall2_lookup_r _ _ _ _ _ Hu Hj) as (b & Hb & Hpb).
    assert (0 ≤ a ∧ 0 ≤ b) as [Ha0 Hb0].
    { split; [apply (Hrange a)|apply (Hrange b)]; apply list_elem_of_lookup; by eexists. }
    rewrite vec_get_in_range in Hpa, Hpb by done.
    assert (Z.to_nat a = Z.to_nat b) as Heq by (by apply (Hperm _ _ x)).
    assert (a = b) as -> by lia.
    rewrite NoDup_alt in Hnodup. by apply (Hnodup _ _ b).
  - intros x. rewrite Himage. split.
    + intros (a & Ha & Hpa). apply list_elem_of_lookup in Ha as [i Hi].
      destruct (Forall2_lookup_l _ _ _ _ _ Hu Hi) as (x' & Hx' & Hpx).
      assert (x' = x) as -> by congruence. apply list_elem_of_lookup. by exists i.
    + intros Hx. apply list_elem_of_lookup in Hx as [i Hi].
      destruct (Forall2_lookup_r _ _ _ _ _ Hu Hi) as (a & Ha & Hpa).
      exists a. split; [|done]. apply list_elem_of_lookup. by exists i.
Qed.

Lemma SortedAxes_sorts_AxesForTransposedInput_witness :
  ∃ unsorted sorted,
    AxesForTransposedInput [0; 1] [2; 0; 1] = Some unsorted
    ∧ SortedAxesForTransposedInput [0; 1] [2; 0; 1] = Some sorted
    ∧ Forall2 (λ a x, vec_get [2; 0; 1] a = Some x) [0; 1] unsorted
    ∧ sorted ≡ₚ unsorted
    ∧ StronglySorted Z.lt sorted.
Proof.
  apply (SortedAxes_sorts_AxesForTransposedInput [0; 1] [2; 0; 1] eq_refl).
  - apply NoDup_cons. split; [rewrite list_elem_of_singleton; lia|apply NoDup_singleton].
  - repeat constructor; cbn; lia.
Defined.

(** ** The perm of a squeezed tensor *)

Lemma mark_axes_spec (flags : list bool) (axes : list Z) (flags' : list bool) :
  mark_axes flags axes = Some flags' →
  length flags' = length flags
  ∧ ∀ k : nat, flags' !! k = Some true ↔
               flags !! k = Some true ∨ ((k < length flags)%nat ∧ Z.of_nat k ∈ axes).
Proof.
  unfold mark_axes. revert flags. induction axes as [|a rest IH]; intros flags.
  { intros [= <-]. split; [done|]. intros k. split; [by left|].
    intros [H|[_ H]]; [done|by apply elem_of_nil in H]. }
  rewrite vec_fold_cons. destruct (vec_set flags a true) as [flags1|] eqn:E; [|done].
  cbn [mbind option_bind]. apply vec_set_Some in E as [Ha ->].
  intros Hrun. apply IH in Hrun as [Hlen Hflags]. rewrite length_insert in Hlen, Hflags.
  split; [done|]. intros k. rewrite Hflags. split.
  - intros [Hk|[Hlt Hk]].
    + destruct (decide (Z.to_nat a = k)) as [<-|Hne].
      * right. split; [lia|]. rewrite Z2Nat.id by lia. by left.
      * left. by rewrite list_lookup_insert_ne in Hk.
    + right. split; [done|by right].
  - intros [Hk|[Hlt Hk]].
    + left. destruct (decide (Z.to_nat a = k)) as [<-|Hne].
      * apply list_lookup_insert_eq. lia.
      * by rewrite list_lookup_insert_ne.
    + apply elem_of_cons in Hk as [<-|Hk].
      * left. rewrite Nat2Z.id. apply list_lookup_insert_eq. lia.
      * right. by split.
Qed.

Lemma SqueezePerm_axes_map_untouched (is_removed_axis : list bool) (indices : list Z)
    (axes_map : list Z) (j : Z) (r : list Z * Z) (k : nat) :
  vec_fold (λ '(axes_map, j) i,
              removed ← vec_get is_removed_axis i;
              if removed : bool then Some (axes_map, j)
              else am ← vec_set axes_map i j; Some (am, j + 1))
           (axes_map, j) indices = Some r →
  Z.of_nat k ∉ indices → r.1 !! k = axes_map !! k.
Proof.
  revert axes_map j. induction indices as [|i rest IH]; intros axes_map j.
  { by intros [= <-]. }
  rewrite vec_fold_cons. cbv beta iota.
  destruct (vec_get is_removed_axis i) as [removed|]; [|done].
  cbn [mbind option_bind]. rewrite not_elem_of_cons. destruct removed.
  - cbn [mbind option_bind]. intros Hrun [_ Hk]. by apply (IH axes_map j).
  - destruct (vec_set axes_map i j) as [am|] eqn:Eset; [|done].
    cbn [mbind option_bind]. apply vec_set_Some in Eset as [Hi ->].
    intros Hrun [Hne Hk]. rewrite (IH _ _ Hrun Hk). apply list_lookup_insert_ne. lia.
Qed.

Lemma SqueezePerm_axes_map_inj (is_removed_axis : list bool) (indices : list Z)
    (axes_map : list Z) (j : Z) (r : list Z * Z) :
  NoDup indices →
  vec_fold (λ '(axes_map, j) i,
              removed ← vec_get is_removed_axis i;
              if removed : bool then Some (axes_map, j)
              else am ← vec_set axes_map i j; Some (am, j + 1))
           (axes_map, j) indices = Some r →
  ∀ i i' v, i ∈ indices → i' ∈ indices →
            vec_get is_removed_axis i = Some false →
            vec_get is_removed_axis i' = Some false →
            vec_get r.1 i = Some v → vec_get r.1 i' = Some v → i = i'.
Proof.
  intros Hnodup. revert axes_map j.
  induction Hnodup as [|i0 rest Hnotin Hnodup IH]; intros axes_map j.
  { intros _ i i' v Hi. by apply elem_of_nil in Hi. }
  rewrite vec_fold_cons. cbv beta iota.
  destruct (vec_get is_removed_axis i0) as [removed|] eqn:Eremoved; [|done].
  cbn [mbind option_bind]. destruct removed.
  { cbn [mbind option_bind]. intros Hrun i i' v Hi Hi' Hk Hk'.
    apply elem_of_cons in Hi as [->|Hi]; [congruence|].
    apply elem_of_cons in Hi' as [->|Hi']; [congruence|].
    by apply (IH axes_map j Hrun). }
  destruct (vec_set axes_map i0 j) as [am|] eqn:Eset; [|done].
  cbn [mbind option_bind]. apply vec_set_Some in Eset as [Hi0 ->].
  intros Hrun.
  pose proof (SqueezePerm_axes_map_spec _ _ _ _ _ Hrun) as (_ & _ & _ & Hnew).
  assert (vec_get r.1 i0 = Some j) as Hhead.
  { rewrite vec_get_in_range by lia.
    rewrite (SqueezePerm_axes_map_untouched _ _ _ _ _ (Z.to_nat i0) Hrun)
      by (by rewrite Z2Nat.id by lia).
    apply list_lookup_insert_eq. lia. }
  intros i i' v Hi Hi' Hk Hk' Hv Hv'.
  apply elem_of_cons in Hi as [->|Hi]; apply elem_of_cons in Hi' as [->|Hi']; [done| | |].
  - destruct (Hnew i' Hi' Hk') as (v' & Hv'' & Hrange).
    rewrite Hhead in Hv. assert (v' = v) as -> by congruence. injection Hv as <-. lia.
  - destruct (Hnew i Hi Hk) as (v' & Hv'' & Hrange).
    rewrite Hhead in Hv'. assert (v' = v) as -> by congruence. injection Hv' as <-. lia.
  - by apply (IH _ _ Hrun i i' v).
Qed.

Lemma SqueezePerm_new_perm_Forall2 (is_removed_axis : list bool) (axes_map perm : list Z)
    (acc r : list Z) :
  vec_fold (λ new_perm p,
              removed ← vec_get is_removed_axis p;
              if removed : bool then Some new_perm
              else x ← vec_get axes_map p; Some (new_perm ++ [x]))
           acc perm = Some r →
  ∃ xs, r = acc ++ xs
        ∧ Forall2 (λ p x, vec_get axes_map p = Some x)
                  (filter (λ p, vec_get is_removed_axis p = Some false) perm) xs.
Proof.
  revert acc. induction perm as [|p rest IH]; intros acc.
  { intros [= <-]. exists []. by rewrite app_nil_r. }
  rewrite vec_fold_cons. cbv beta. rewrite filter_cons.
  destruct (vec_get is_removed_axis p) as [removed|] eqn:Eremoved; [|done].
  cbn [mbind option_bind]. destruct removed.
  - cbn [mbind option_bind]. intros Hrun. rewrite decide_False by done. by apply IH.
  - destruct (vec_get axes_map p) as [x0|] eqn:Ex0; [|done].
    cbn [mbind option_bind]. intros Hrun. apply IH in Hrun as (xs & -> & Hxs).
    rewrite decide_True by done. exists (x0 :: xs). split; [by rewrite <- app_assoc|].
    by constructor.
Qed.

(** X12.  For a valid perm and duplicate-free axes within its rank,
    [SqueezePerm] returns a valid perm of size [perm.size() - axes.size()]. *)
Theorem SqueezePerm_valid (axes perm : list Z) :
  IsValidPerm perm = true → NoDup axes →
  Forall (λ a, 0 ≤ a < Z.of_nat (length perm)) axes →
  ∃ sq, SqueezePerm axes perm = Some sq
        ∧ (length sq + length axes = length perm)%nat
        ∧ IsValidPerm sq = true.
Proof.
  intros Hvalid Hnodup Haxes.
  destruct (SqueezePerm_defined axes perm Hvalid Haxes) as [sq Hsq]. exists sq.
  split; [done|].
  pose proof (SqueezePerm_range axes perm sq Hvalid Hsq) as Hsqrange.
  pose proof (IsValidPerm_Permutation perm Hvalid) as Hperm.
  pose proof (IsValidPerm_range perm Hvalid) as Hprange. rewrite Forall_forall in Hprange.
  unfold SqueezePerm in Hsq.
  destruct (mark_axes _ axes) as [R|] eqn:Emark; [|done]. cbn [mbind option_bind] in Hsq.
  apply mark_axes_spec in Emark as [HlenR HR]. rewrite length_replicate in HlenR, HR.
  destruct (vec_fold _ (replicate (length perm) 0, 0) _) as [r|] eqn:Emap; [|done].
  cbn [mbind option_bind] in Hsq.
  apply SqueezePerm_new_perm_Forall2 in Hsq as (xs & -> & Hxs). rewrite app_nil_l in *.
  set (kept := λ p : Z, vec_get R p = Some false) in *.
  assert (filter (λ p, ¬ kept p) (index_range 0 (length perm)) ≡ₚ axes) as Hremoved.
  { apply NoDup_Permutation; [apply NoDup_filter, index_range_NoDup|done|].
    intros x. rewrite list_elem_of_filter, elem_of_index_range. unfold kept. split.
    - intros [Hnk Hx]. rewrite vec_get_in_range in Hnk by lia.
      destruct (lookup_lt_is_Some_2 R (Z.to_nat x)) as [b Hb]; [lia|].
      destruct b; [|by rewrite Hb in Hnk].
      apply HR in Hb as [Hb|[_ Hb]]; [by apply lookup_replicate in Hb as [? _]|].
      by rewrite Z2Nat.id in Hb by lia.
    - intros Hx. rewrite Forall_forall in Haxes. specialize (Haxes x Hx).
      split; [|lia]. rewrite vec_get_in_range by lia.
      assert (R !! Z.to_nat x = Some true) as ->; [|done].
      apply HR. right. split; [lia|]. by rewrite Z2Nat.id by lia. }
  split.
  - rewrite <- (Forall2_length _ _ _ Hxs). rewrite Hperm at 1. rewrite <- Hremoved.
    rewrite <- length_app, filter_app_complement. apply index_range_length.
  - apply IsValidPerm_intro; [|done].
    assert (NoDup (filter kept perm)) as Hkept.
    { apply NoDup_filter. by apply IsValidPerm_NoDup. }
    rewrite NoDup_alt in Hkept. apply NoDup_alt. intros i j x Hi Hj.
    destruct (Forall2_lookup_r _ _ _ _ _ Hxs Hi) as (p & Hp & Hpx).
    destruct (Forall2_lookup_r _ _ _ _ _ Hxs Hj) as (q & Hq & Hqx).
    assert (p ∈ filter kept perm) as Hpin by (apply list_elem_of_lookup; by exists i).
    assert (q ∈ filter kept perm) as Hqin by (apply list_elem_of_lookup; by exists j).
    apply list_elem_of_filter in Hpin as [Hpk Hpin].
    apply list_elem_of_filter in Hqin as [Hqk Hqin].
    assert (p = q) as ->; [|by apply (Hkept _ _ q)].
    apply (SqueezePerm_axes_map_inj R _ _ _ r (index_range_NoDup 0 (length perm)) Emap p q x);
      try done; apply elem_of_index_range.
    + specialize (Hprange p Hpin). lia.
    + specialize (Hprange q Hqin). lia.
Qed.

Lemma SqueezePerm_valid_witness :
  ∃ sq, SqueezePerm [1] [0; 3; 1; 2] = Some sq
        ∧ (length sq + 1 = 4)%nat ∧ IsValidPerm sq = true.
Proof.
  apply (SqueezePerm_valid [1] [0; 3; 1; 2] eq_refl).
  - apply NoDup_singleton.
  - repeat constructor; cbn; lia.
Defined.

(** ** Reordering pads *)

Lemma PermutePads_mapM (pads perm : list Z) :
  PermutePads pads perm
  = (starts ← mapM (vec_get pads) perm;
     ends ← mapM (λ i, vec_get pads (i + Z.of_nat (length perm))) perm;
     Some (starts ++ ends)).
Proof.
  unfold PermutePads. rewrite vec_fold_push.
  destruct (mapM (vec_get pads) perm) as [starts|]; [|done].
  cbn [mbind option_bind]. rewrite app_nil_l. by rewrite vec_fold_push.
Qed.

Lemma PermutePads_intro (pads perm starts ends : list Z) :
  Forall2 (λ p x, vec_get pads p = Some x) perm starts →
  Forall2 (λ p x, vec_get pads (p + Z.of_nat (length perm)) = Some x) perm ends →
  PermutePads pads perm = Some (starts ++ ends).
Proof.
  intros Hs He. rewrite PermutePads_mapM.
  apply mapM_Some in Hs. apply mapM_Some in He. by rewrite Hs, He.
Qed.

Lemma PermutePads_halves (pads perm : list Z) :
  Forall (λ p, 0 ≤ p < Z.of_nat (length perm)) perm →
  length pads = (2 * length perm)%nat →
  ∃ starts ends,
    PermutePads pads perm = Some (starts ++ ends)
    ∧ Forall2 (λ p x, pads !! Z.to_nat p = Some x) perm starts
    ∧ Forall2 (λ p x, pads !! (Z.to_nat p + length perm)%nat = Some x) perm ends.
Proof.
  intros Hrange Hlen. rewrite Forall_forall in Hrange.
  assert (is_Some (mapM (vec_get pads) perm)) as [starts Hs].
  { apply mapM_is_Some, Forall_forall. intros p Hp. specialize (Hrange p Hp).
    cbv beta. unfold compose. apply vec_get_defined. lia. }
  assert (is_Some (mapM (λ i, vec_get pads (i + Z.of_nat (length perm))) perm))
    as [ends He].
  { apply mapM_is_Some, Forall_forall. intros p Hp. specialize (Hrange p Hp).
    cbv beta. unfold compose. apply vec_get_defined. lia. }
  exists starts, ends. rewrite PermutePads_mapM, Hs, He. split; [done|].
  apply mapM_Some in Hs. apply mapM_Some in He. split.
  - apply Forall2_same_length_lookup in Hs as [Hl Hs].
    apply Forall2_same_length_lookup_2; [done|]. intros i p x Hp Hx.
    specialize (Hs i p x Hp Hx). apply list_elem_of_lookup_2 in Hp.
    specialize (Hrange p Hp). by rewrite <- vec_get_in_range by lia.
  - apply Forall2_same_length_lookup in He as [Hl He].
    apply Forall2_same_length_lookup_2; [done|]. intros i p x Hp Hx.
    specialize (He i p x Hp Hx). apply list_elem_of_lookup_2 in Hp.
    specialize (Hrange p Hp). rewrite vec_get_in_range in He by lia.
    rewrite <- He. f_equal. lia.
Qed.

Lemma PermutePads_round_trip_aux (pads perm inv : list Z) :
  IsValidPerm perm = true → InvertPerm perm = Some inv →
  length pads = (2 * length perm)%nat →
  ∃ new_pads,
    PermutePads pads perm = Some new_pads
    ∧ length new_pads = length pads
    ∧ (∀ (i : nat) p, perm !! i = Some p →
         new_pads !! i = pads !! Z.to_nat p
         ∧ new_pads !! (length perm + i)%nat = pads !! (length perm + Z.to_nat p)%nat)
    ∧ PermutePads new_pads inv = Some pads.
Proof.
  intros Hvalid Hinv Hlen.
  pose proof (IsValidPerm_range perm Hvalid) as Hrange.
  destruct (PermutePads_halves pads perm Hrange Hlen) as (starts & ends & Hrun & Hs & He).
  pose proof (Forall2_length _ _ _ Hs) as Hls. pose proof (Forall2_length _ _ _ He) as Hle.
  exists (starts ++ ends). split; [done|]. split; [rewrite length_app; lia|].
  assert (∀ (i : nat) p, perm !! i = Some p →
            (starts ++ ends) !! i = pads !! Z.to_nat p
            ∧ (starts ++ ends) !! (length perm + i)%nat
              = pads !! (length perm + Z.to_nat p)%nat) as Hpoint.
  { intros i p Hp. apply lookup_lt_Some in Hp as Hlt. split.
    - rewrite lookup_app_l by lia.
      destruct (Forall2_lookup_l _ _ _ _ _ Hs Hp) as (x & -> & Hx). done.
    - rewrite lookup_app_r by lia. replace (length perm + i - length starts)%nat with i by lia.
      destruct (Forall2_lookup_l _ _ _ _ _ He Hp) as (x & -> & Hx).
      rewrite <- Hx. f_equal. lia. }
  split; [done|].
  destruct (InvertPerm_valid perm Hvalid) as (inv' & Hinv' & Hleni & _ & Hvalid').
  assert (inv' = inv) as -> by congruence.
  pose proof (InvertPerm_involutive_aux perm inv Hvalid Hinv) as Hback.
  destruct (InvertPerm_valid inv Hvalid') as (perm' & Hperm' & _ & Hspec' & _).
  assert (perm' = perm) as -> by congruence.
  pose proof (IsValidPerm_range inv Hvalid') as Hirange. rewrite Forall_forall in Hirange.
  replace (Some pads) with (Some (take (length perm) pads ++ drop (length perm) pads))
    by (by rewrite take_drop).
  apply PermutePads_intro.
  - apply Forall2_same_length_lookup_2; [rewrite length_take; lia|].
    intros k q x Hq Hx. apply lookup_lt_Some in Hq as Hk.
    rewrite lookup_take_lt in Hx by lia.
    assert (0 ≤ q < Z.of_nat (length inv)) as Hqr.
    { apply Hirange, list_elem_of_lookup. by exists k. }
    specialize (Hspec' k q Hq). rewrite vec_get_in_range in Hspec' by lia.
    destruct (Hpoint _ _ Hspec') as [H1 _]. rewrite Nat2Z.id in H1.
    rewrite vec_get_in_range by lia. by rewrite H1.
  - apply Forall2_same_length_lookup_2; [rewrite length_drop; lia|].
    intros k q x Hq Hx. apply lookup_lt_Some in Hq as Hk.
    rewrite lookup_drop in Hx.
    assert (0 ≤ q < Z.of_nat (length inv)) as Hqr.
    { apply Hirange, list_elem_of_lookup. by exists k. }
    specialize (Hspec' k q Hq). rewrite vec_get_in_range in Hspec' by lia.
    destruct (Hpoint _ _ Hspec') as [_ H2]. rewrite Nat2Z.id in H2.
    rewrite vec_get_in_range by lia.
    replace (Z.to_nat (q + Z.of_nat (length inv))) with (length perm + Z.to_nat q)%nat by lia.
    by rewrite H2.
Qed.

(** X13.  For a valid perm and pads of twice its length, [PermutePads]
    returns pads of the same length whose start and end halves are the
    halves of [pads] reordered by [perm], and reordering the result by the
    inverse perm gives [pads] back. *)
Theorem PermutePads_round_trip (pads perm inv : list Z) :
  IsValidPerm perm = true → InvertPerm perm = Some inv →
  length pads = (2 * length perm)%nat →
  ∃ new_pads,
    PermutePads pads perm = Some new_pads
    ∧ length new_pads = length pads
    ∧ (∀ (i : nat) p, perm !! i = Some p →
         new_pads !! i = pads !! Z.to_nat p
         ∧ new_pads !! (length perm + i)%nat = pads !! (length perm + Z.to_nat p)%nat)
    ∧ PermutePads new_pads inv = Some pads.
Proof. apply PermutePads_round_trip_aux. Qed.

Lemma PermutePads_round_trip_witness :
  ∃ new_pads,
    PermutePads [1; 2; 3; 4; 5; 6] [2; 0; 1] = Some new_pads
    ∧ length new_pads = 6%nat
    ∧ (∀ (i : nat) p, [2; 0; 1] !! i = Some p →
         new_pads !! i = [1; 2; 3; 4; 5; 6] !! Z.to_nat p
         ∧ new_pads !! (3 + i)%nat = [1; 2; 3; 4; 5; 6] !! (3 + Z.to_nat p)%nat)
    ∧ PermutePads new_pads [1; 2; 0] = Some [1; 2; 3; 4; 5; 6].
Proof.
  exact (PermutePads_round_trip [1; 2; 3; 4; 5; 6] [2; 0; 1] [1; 2; 0] eq_refl eq_refl eq_refl).
Defined.

(** ** A driver that reports "unchanged" made no edit *)

Lemma table_handlers_unchanged (info : HandlerInfo) :
  in_dispatch_tables info → unchanged_on_false (handler_fn info).
Proof.
  revert info.
  apply (all_handlers_ind (λ info, unchanged_on_false (handler_fn info))).
  unfold all_handlers.
  repeat (apply Forall_cons; split;
          [cbn [handler_fn simple_node_handler broadcast_node_handler node_1_inp_handler
                transpose_handler concat_handler split_handler shape_handler pad_handler
                reduce_sum_handler reduce_op_handler arg_min_max_handler squeeze_handler
                unsqueeze_handler slice_handler tile_handler soft_hard_max_handler
                quantize_dequantize_linear_handler q_linear_concat_handler
                q_linear_binary_op_handler q_linear_pool_op_handler max_pool_op_handler];
           auto using HandleSimpleNode_unchanged, HandleSimpleNodeBroadcast_unchanged,
             HandleSimpleNode1Inp_unchanged, HandleSplit_unchanged, HandleConcat_unchanged,
             HandleQLinearConcat_unchanged, HandleQLinearBinaryOp_unchanged,
             HandleSoftHardMax_unchanged, HandleShape_unchanged, HandlePad_unchanged,
             HandleReduceOp_unchanged, HandleReduceSum_unchanged, HandleSqueeze_unchanged,
             HandleUnsqueeze_unchanged, HandleQuantizeDequantizeLinear_unchanged,
             HandleArgMinMax_unchanged, HandleSlice_unchanged, HandleTile_unchanged,
             HandleTranspose_unchanged, HandleQLinearPoolOp_unchanged,
             HandleMaxPool_unchanged |]).
  apply Forall_nil_2.
Qed.

Lemma ProcessTranspose_found_clean (info : HandlerInfo) (c : OptimizerCtx)
    (transpose n : NodeRef) (perm : list Z) (j : nat) (leading : gset string) :
  in_dispatch_tables info →
  clean_when negb (ProcessTranspose_found info c transpose n perm j leading).
Proof.
  intros Hin. unfold ProcessTranspose_found.
  apply clean_bind_read_only; [by apply transposible_inputs_fn_read_only|].
  intros input_indices. destruct (bool_decide _); [apply clean_ret|].
  apply clean_bind_read_only; [read_only_solve|]. intros is_transpose.
  apply clean_bind_read_only; [read_only_solve|]. intros is_max_pool.
  apply clean_bind_read_only; [read_only_solve|]. intros rejected.
  destruct rejected; [apply clean_ret|].
  apply clean_bind_read_only; [read_only_solve|]. intros perm_inv.
  by apply table_handlers_unchanged.
Qed.

Lemma ProcessTranspose_clean (c : OptimizerCtx) (transpose n : NodeRef) (perm : list Z)
    (j : nat) (leading : gset string) :
  clean_when negb (ProcessTranspose c transpose n perm j leading).
Proof.
  intros g b g' Hrun Hb. unfold ProcessTranspose, GetHandler in Hrun.
  apply bind_Some in Hrun as (info & g1 & H1 & Hrun).
  apply bind_Some in H1 as (d & g2 & Hd & H1).
  apply read_only_get_node in Hd as Heq. subst g2. injection H1 as <- <-.
  destruct (node_handler d (allow_extended_ops c)) as [info|] eqn:E.
  - apply node_handler_in_tables in E.
    by apply (ProcessTranspose_found_clean info c transpose n perm j leading E g b g').
  - by injection Hrun as _ <-.
Qed.

(** X14.  [ProcessTranspose] returns false only with the graph it was given:
    the missing handler, the ineligible input, the cost gate and a handler
    that declines all leave the graph untouched. *)
Theorem ProcessTranspose_false_unchanged (c : OptimizerCtx) (transpose n : NodeRef)
    (perm : list Z) (transpose_input_index : nat) (leading : gset string) (g g' : Graph) :
  ProcessTranspose c transpose n perm transpose_input_index leading g = Some (false, g') →
  g' = g.
Proof. intros Hrun. exact (ProcessTranspose_clean _ _ _ _ _ _ g false g' Hrun eq_refl). Qed.

Lemma ProcessTranspose_false_unchanged_witness :
  ∃ g', ProcessTranspose ctx_13 0%nat 1%nat [1; 0] 0 ∅ graph_transpose_add = Some (false, g')
        ∧ g' = graph_transpose_add.
Proof.
  eexists. split; [vm_compute; reflexivity|].
  apply (ProcessTranspose_false_unchanged ctx_13 0%nat 1%nat [1; 0] 0%nat ∅).
  vm_compute. reflexivity.
Defined.

Lemma GetHandler_in_tables (n : NodeRef) (allow : bool) (g : Graph) (info : HandlerInfo)
    (g' : Graph) :
  GetHandler n allow g = Some (Some info, g') → in_dispatch_tables info.
Proof.
  unfold GetHandler. intros Hrun. apply bind_Some in Hrun as (d & g1 & _ & Hrun).
  injection Hrun as Hinfo _. by apply node_handler_in_tables in Hinfo.
Qed.

Lemma read_only_mark_outputs (c : OptimizerCtx) (n : NodeRef) (leading : gset string)
    (outputs : list string) :
  read_only (mark_outputs c n leading outputs).
Proof.
  revert leading. induction outputs as [|out rest IH]; intros leading; [apply read_only_ret|].
  cbn [mark_outputs]. apply read_only_bind; [|intros ?; apply IH].
  destruct (bool_decide (out ∈ leading)); [|apply read_only_ret].
  intros g a g' Hrun. apply bind_Some in Hrun as (info & g1 & H1 & Hrun).
  apply read_only_GetHandler in H1 as Heq. subst g1.
  destruct info as [info|]; [|by injection Hrun as _ <-].
  apply GetHandler_in_tables in H1.
  destruct (transposes_outputs info); [|by injection Hrun as _ <-].
  revert Hrun. apply (λ H : read_only _, H g a g').
  apply read_only_bind; [by apply transposible_inputs_fn_read_only|].
  intros ?. read_only_solve.
Qed.

Lemma read_only_reverse_pass (c : OptimizerCtx) (leading : gset string)
    (nodes : list NodeRef) :
  read_only (reverse_pass c leading nodes).
Proof.
  revert leading. induction nodes as [|n rest IH]; intros leading; [apply read_only_ret|].
  cbn [reverse_pass]. apply read_only_bind; [read_only_solve|]. intros is_transpose.
  apply read_only_bind; [|intros ?; apply IH].
  destruct is_transpose; [read_only_solve|].
  apply read_only_bind; [read_only_solve|]. intros ?. apply read_only_mark_outputs.
Qed.

Lemma scan_inputs_clean (c : OptimizerCtx) (n : NodeRef) (leading : gset string) (j : nat)
    (inputs : list string) :
  clean_when negb (scan_inputs c n leading j inputs).
Proof.
  revert j. induction inputs as [|inp rest IH]; intros j; [apply clean_ret|].
  cbn [scan_inputs]. destruct (decide (inp = "")); [apply IH|].
  apply clean_bind_read_only; [read_only_solve|]. intros transpose.
  apply clean_bind_read_only; [read_only_solve|]. intros transpose_perm.
  destruct transpose as [t|]; [|apply IH].
  destruct transpose_perm as [perm|]; [|apply IH].
  apply clean_bind_read_only; [read_only_solve|]. intros _.
  apply (clean_bind_flag negb); [apply ProcessTranspose_clean| |].
  - intros [] Hx; [done|]. apply IH.
  - intros [] Hx; [|done]. by apply never_ret.
Qed.

Lemma forward_pass_changed (c : OptimizerCtx) (leading : gset string) (nodes : list NodeRef) :
  never negb (forward_pass c leading true nodes).
Proof.
  induction nodes as [|n rest IH]; [by apply never_ret|].
  cbn [forward_pass]. apply never_bind. intros inputs. apply never_bind. intros pushed.
  exact IH.
Qed.

Lemma forward_pass_clean (c : OptimizerCtx) (leading : gset string) (changed : bool)
    (nodes : list NodeRef) :
  clean_when negb (forward_pass c leading changed nodes).
Proof.
  destruct changed; [apply never_clean, forward_pass_changed|].
  induction nodes as [|n rest IH]; [apply clean_ret|].
  cbn [forward_pass]. apply clean_bind_read_only; [read_only_solve|]. intros inputs.
  apply (clean_bind_flag negb); [apply scan_inputs_clean| |].
  - intros [] Hx; [done|]. exact IH.
  - intros [] Hx; [|done]. apply forward_pass_changed.
Qed.

Lemma OptimizeImpl_clean (c : OptimizerCtx) : clean_when negb (OptimizeImpl c).
Proof.
  unfold OptimizeImpl. apply clean_bind_read_only; [read_only_solve|]. intros nodes.
  apply clean_bind_read_only; [apply read_only_reverse_pass|]. intros leading.
  apply forward_pass_clean.
Qed.

(** X15.  [Optimize] and [OptimizeImpl] return false only with the graph
    they were given: the first pass only reads the graph, and a second pass
    in which no push happened made no edit. *)
Theorem Optimize_false_unchanged (kMinSupportedOpset kMaxSupportedOpset : Z)
    (allow_extended_ops : bool) (c : OptimizerCtx) (g g' : Graph) :
  (OptimizeImpl c g = Some (false, g') → g' = g)
  ∧ (Optimize kMinSupportedOpset kMaxSupportedOpset allow_extended_ops g = Some (false, g') →
     g' = g).
Proof.
  split.
  - intros Hrun. exact (OptimizeImpl_clean c g false g' Hrun eq_refl).
  - unfold Optimize. intros Hrun. apply bind_Some in Hrun as (oc & g1 & H1 & Hrun).
    apply MakeOptimizerContext_read_only in H1 as ->.
    destruct oc as [c'|]; [|by injection Hrun as <-].
    exact (OptimizeImpl_clean c' g false g' Hrun eq_refl).
Qed.

Lemma Optimize_false_unchanged_witness :
  ∃ g', Optimize 7 15 false graph_transpose_add = Some (false, g')
        ∧ g' = graph_transpose_add.
Proof.
  eexists. split; [vm_compute; reflexivity|].
  apply (proj2 (Optimize_false_unchanged 7 15 false ctx_13 graph_transpose_add _)).
  vm_compute. reflexivity.
Defined.

(** ** What a negative cost estimate means *)

Lemma EstimateValueRank_nonneg (input : string) (g : Graph) (r : Z) (g' : Graph) :
  EstimateValueRank input g = Some (r, g') → 0 ≤ r.
Proof.
  unfold EstimateValueRank. intros Hrun. apply bind_Some in Hrun as (shape & g1 & _ & Hrun).
  destruct shape as [sh|]; injection Hrun as <- _; lia.
Qed.

Lemma EstimateTransposeValueCost_negative (input : string) (perm_inv : list Z) (g : Graph)
    (cost : Z) (g' : Graph) :
  EstimateTransposeValueCost input perm_inv g = Some (cost, g') → cost < 0 →
  g_initializers g !! input = None
  ∧ ∃ m dm, GetNodeProducingOutput input g = Some (Some m, g)
            ∧ nodes_lookup (g_nodes g) m = Some dm
            ∧ node_is_op dm "Transpose" = true
            ∧ attr_ints dm "perm" = Some perm_inv
            ∧ IsValidPerm perm_inv = true.
Proof.
  unfold EstimateTransposeValueCost. intros Hrun Hneg.
  apply bind_Some in Hrun as (constant & g1 & H1 & Hrun).
  injection H1 as <- <-.
  destruct (g_initializers g !! input) as [t|] eqn:Einit.
  { injection Hrun as <- _. lia. }
  split; [done|].
  apply bind_Some in Hrun as (producer & g1 & Hprod & Hrun).
  apply read_only_GetNodeProducingOutput in Hprod as Heq. subst g1.
  apply bind_Some in Hrun as (transpose_perm & g1 & Hperm & Hrun).
  destruct producer as [m|].
  2:{ injection Hperm as <- <-. apply EstimateValueRank_nonneg in Hrun. lia. }
  apply bind_Some in Hperm as (is_transpose & g2 & Hop & Hperm).
  unfold IsOp in Hop. apply bind_Some in Hop as (dm & g3 & Hdm & Hop).
  apply read_only_get_node in Hdm as Heq. subst g3. injection Hop as <- <-.
  unfold get_node in Hdm.
  destruct (nodes_lookup (g_nodes g) m) as [dm'|] eqn:Em; [|done].
  injection Hdm as ->.
  destruct (node_is_op dm "Transpose") eqn:Eop.
  2:{ injection Hperm as <- <-. apply EstimateValueRank_nonneg in Hrun. lia. }
  rewrite (GetPermAttrIfValid_run g m dm Em) in Hperm. injection Hperm as <- <-.
  destruct (attr_ints dm "perm") as [perm2|] eqn:Eattr.
  2:{ apply EstimateValueRank_nonneg in Hrun. lia. }
  destruct (IsValidPerm perm2) eqn:Evalid.
  2:{ apply EstimateValueRank_nonneg in Hrun. lia. }
  destruct (decide (perm2 = perm_inv)) as [->|Hne].
  2:{ injection Hrun as <- _. lia. }
  by exists m, dm.
Qed.

Lemma sum_input_costs_negative (inputs : list string) (perm_inv : list Z) (acc : Z)
    (input_indices : list nat) (g : Graph) (cost : Z) (g' : Graph) :
  sum_input_costs inputs perm_inv acc input_indices g = Some (cost, g') → cost < acc →
  ∃ (j : nat) inp c, j ∈ input_indices ∧ inputs !! j = Some inp
                     ∧ EstimateTransposeValueCost inp perm_inv g = Some (c, g) ∧ c < 0.
Proof.
  revert acc. induction input_indices as [|j rest IH]; intros acc.
  { intros [= <- _]. lia. }
  cbn [sum_input_costs]. intros Hrun Hlt.
  apply bind_Some in Hrun as (inp & g1 & Hinp & Hrun).
  apply lift_Some in Hinp as [Hinp ->].
  apply bind_Some in Hrun as (c & g1 & Hc & Hrun).
  apply read_only_EstimateTransposeValueCost in Hc as Heq. subst g1.
  destruct (decide (c < 0)) as [Hneg|Hpos].
  - exists j, inp, c. split; [by left|done].
  - destruct (IH (acc + c) Hrun) as (j' & inp' & c' & Hj' & H); [lia|].
    exists j', inp', c'. split; [by right|done].
Qed.

(** X16.  The estimated cost of transposing a node's inputs is negative only
    if one of the listed inputs is no initializer and is produced by a
    Transpose whose valid perm is the perm given: the cost gate lets a push
    through only when it cancels a Transpose. *)
Theorem EstimateTransposeInputsCost_negative (n : NodeRef) (perm_inv : list Z)
    (input_indices : list nat) (g : Graph) (d : Node) (cost : Z) (g' : Graph) :
  nodes_lookup (g_nodes g) n = Some d →
  EstimateTransposeInputsCost n perm_inv input_indices g = Some (cost, g') →
  cost < 0 →
  ∃ (j : nat) inp m dm,
    j ∈ input_indices ∧ n_inputs d !! j = Some inp
    ∧ g_initializers g !! inp = None
    ∧ GetNodeProducingOutput inp g = Some (Some m, g)
    ∧ nodes_lookup (g_nodes g) m = Some dm
    ∧ node_is_op dm "Transpose" = true
    ∧ attr_ints dm "perm" = Some perm_inv
    ∧ IsValidPerm perm_inv = true.
Proof.
  intros Hn Hrun Hneg. unfold EstimateTransposeInputsCost in Hrun.
  rewrite bind_run, (Inputs_run g n d Hn) in Hrun.
  destruct (sum_input_costs_negative _ _ _ _ _ _ _ Hrun Hneg) as (j & inp & c & Hj & Hinp & Hc & Hc0).
  destruct (EstimateTransposeValueCost_negative _ _ _ _ _ Hc Hc0) as (Hinit & m & dm & H).
  by exists j, inp, m, dm.
Qed.

Lemma EstimateTransposeInputsCost_negative_witness :
  ∃ (j : nat) inp m dm,
    j ∈ [0%nat] ∧ ["t"] !! j = Some inp
    ∧ g_initializers (graph_softmax [0; 2; 1]) !! inp = None
    ∧ GetNodeProducingOutput inp (graph_softmax [0; 2; 1])
      = Some (Some m, graph_softmax [0; 2; 1])
    ∧ nodes_lookup (g_nodes (graph_softmax [0; 2; 1])) m = Some dm
    ∧ node_is_op dm "Transpose" = true
    ∧ attr_ints dm "perm" = Some [0; 2; 1]
    ∧ IsValidPerm [0; 2; 1] = true.
Proof.
  apply (EstimateTransposeInputsCost_negative 1%nat [0; 2; 1] [0%nat] (graph_softmax [0; 2; 1])
           (mkNode "Softmax" "" {["axis" := AttrInt 1]} ["t"] ["y"]) (-3)
           (graph_softmax [0; 2; 1]) eq_refl).
  - vm_compute. reflexivity.
  - lia.
Defined.

(** ** Inserting a Transpose after an output *)

Lemma nodes_lookup_app_ne (ns : list (NodeRef * Node)) (k m : NodeRef) (d : Node) :
  m ≠ k → nodes_lookup (ns ++ [(k, d)]) m = nodes_lookup ns m.
Proof.
  intros Hne. induction ns as [|[m' d'] rest IH]; simpl.
  - by rewrite decide_False.
  - destruct (decide (m' = m)); [done|exact IH].
Qed.

Lemma fresh_counter_lookup (g : Graph) (n : NodeRef) (d : Node) :
  fresh_counter g → nodes_lookup (g_nodes g) n = Some d → (n < g_next_node g)%nat.
Proof.
  intros Hfresh Hn. apply nodes_lookup_elem in Hn.
  unfold fresh_counter in Hfresh. rewrite Forall_forall in Hfresh. exact (Hfresh _ Hn).
Qed.

(** The node table is the only part of the graph that differs. *)
Lemma alter_node_spec (g : Graph) (k : NodeRef) (dk : Node) (f : Node → Node) :
  nodes_lookup (g_nodes g) k = Some dk →
  ∃ g', alter_node k f g = Some (tt, g')
        ∧ nodes_lookup (g_nodes g') k = Some (f dk)
        ∧ (∀ m, m ≠ k → nodes_lookup (g_nodes g') m = nodes_lookup (g_nodes g) m)
        ∧ g_next_node g' = g_next_node g ∧ g_next_value g' = g_next_value g
        ∧ g_initializers g' = g_initializers g ∧ g_value_info g' = g_value_info g
        ∧ g_outputs g' = g_outputs g ∧ g_opsets g' = g_opsets g.
Proof.
  intros Hk. eexists. split; [by apply (alter_node_run g k dk)|].
  cbn [g_nodes set_nodes]. split; [by apply (nodes_lookup_alter_eq f)|].
  split; [|done]. intros m Hm. by apply nodes_lookup_alter_ne.
Qed.

Lemma AddNode_spec (g : Graph) (op_type : string) (inputs : list string) (num_outputs : nat)
    (domain : string) :
  fresh_counter g →
  ∃ g', AddNode op_type inputs num_outputs domain g = Some (g_next_node g, g')
        ∧ nodes_lookup (g_nodes g') (g_next_node g)
          = Some (mkNode op_type domain ∅ inputs
                         (fresh_value_name <$> seq (g_next_value g) num_outputs))
        ∧ (∀ m, m ≠ g_next_node g →
                nodes_lookup (g_nodes g') m = nodes_lookup (g_nodes g) m)
        ∧ g_next_node g' = S (g_next_node g)
        ∧ g_next_value g' = (g_next_value g + num_outputs)%nat
        ∧ g_initializers g' = g_initializers g ∧ g_value_info g' = g_value_info g
        ∧ g_outputs g' = g_outputs g ∧ g_opsets g' = g_opsets g.
Proof.
  intros Hfresh. eexists. split; [reflexivity|].
  cbn [g_nodes set_nodes set_next_node set_next_value].
  split; [by apply nodes_lookup_app_fresh|]. split; [|done].
  intros m Hm. by apply nodes_lookup_app_ne.
Qed.

Lemma MoveOutput_spec (g : Graph) (src : NodeRef) (i : nat) (dst : NodeRef) (j : nat)
    (s dd : Node) (name : string) :
  src ≠ dst →
  nodes_lookup (g_nodes g) src = Some s → nodes_lookup (g_nodes g) dst = Some dd →
  n_outputs s !! i = Some name → (j < length (n_outputs dd))%nat →
  ∃ g', MoveOutput src i dst j g = Some (tt, g')
        ∧ nodes_lookup (g_nodes g') src
          = Some (set_outputs (<[i := fresh_value_name (g_next_value g)]> (n_outputs s)) s)
        ∧ nodes_lookup (g_nodes g') dst = Some (set_outputs (<[j := name]> (n_outputs dd)) dd)
        ∧ (∀ m, m ≠ src → m ≠ dst →
                nodes_lookup (g_nodes g') m = nodes_lookup (g_nodes g) m)
        ∧ g_next_node g' = g_next_node g
        ∧ g_initializers g' = g_initializers g ∧ g_value_info g' = g_value_info g
        ∧ g_outputs g' = g_outputs g ∧ g_opsets g' = g_opsets g.
Proof.
  intros Hne Hs Hd Hname Hj. unfold MoveOutput.
  rewrite bind_run, (get_node_run g src s Hs). cbv beta iota.
  rewrite bind_run, Hname, lift_run. cbv beta iota.
  rewrite bind_run, (get_node_run g dst dd Hd). cbv beta iota.
  destruct (lookup_lt_is_Some_2 (n_outputs dd) j Hj) as [old Hold].
  rewrite bind_run, Hold, lift_run. cbv beta iota.
  rewrite bind_run. change (query g_next_value g) with (Some (g_next_value g, g)).
  cbv beta iota. rewrite bind_run.
  change (update (set_next_value (S (g_next_value g))) g)
    with (Some (tt, set_next_value (S (g_next_value g)) g)).
  cbv beta iota.
  set (g1 := set_next_value (S (g_next_value g)) g).
  destruct (alter_node_spec g1 dst dd (λ d, set_outputs (<[j := name]> (n_outputs d)) d) Hd)
    as (g2 & Hrun2 & Hdst2 & Hother2 & Hnn2 & Hnv2 & Hi2 & Hv2 & Ho2 & Hop2).
  rewrite bind_run, Hrun2. cbv beta iota.
  assert (nodes_lookup (g_nodes g2) src = Some s) as Hs2 by (rewrite Hother2; done).
  destruct (alter_node_spec g2 src s
              (λ s, set_outputs (<[i := fresh_value_name (g_next_value g)]> (n_outputs s)) s)
              Hs2)
    as (g3 & Hrun3 & Hsrc3 & Hother3 & Hnn3 & Hnv3 & Hi3 & Hv3 & Ho3 & Hop3).
  exists g3. split; [exact Hrun3|]. split; [exact Hsrc3|].
  split; [rewrite Hother3 by done; exact Hdst2|].
  split; [intros m H1 H2; rewrite Hother3, Hother2 by done; done|].
  rewrite Hnn3, Hnn2, Hi3, Hi2, Hv3, Hv2, Ho3, Ho2, Hop3, Hop2. done.
Qed.

Lemma copy_permute_spec (g : Graph) (src dst : string) (perm : list Z) :
  ∃ g', (CopyValueInfo src dst;; PermuteDims dst perm) g = Some (tt, g')
        ∧ g_nodes g' = g_nodes g ∧ g_next_node g' = g_next_node g
        ∧ g_initializers g' = g_initializers g
        ∧ g_outputs g' = g_outputs g ∧ g_opsets g' = g_opsets g
        ∧ g_value_info g'
          = <[dst := mkValueInfo (vi_dtype (value_info_of g src))
                       ((λ sh, permute_shape sh perm) <$> vi_shape (value_info_of g src))]>
              (g_value_info g).
Proof.
  rewrite bind_run.
  change (CopyValueInfo src dst g)
    with (Some (tt, set_value_info (<[dst := value_info_of g src]> (g_value_info g)) g)).
  cbv beta iota. set (g1 := set_value_info _ g).
  assert (value_info_of g1 dst = value_info_of g src) as Hv.
  { unfold value_info_of at 1. unfold g1. cbn [g_value_info set_value_info].
    by rewrite lookup_insert_eq. }
  unfold PermuteDims. rewrite bind_run.
  change (ValueShape dst g1) with (Some (vi_shape (value_info_of g1 dst), g1)).
  cbv beta iota. rewrite Hv.
  destruct (value_info_of g src) as [dtype [sh|]] eqn:E; cbn [vi_shape vi_dtype fmap option_fmap option_map].
  - eexists. split; [reflexivity|]. cbn [g_nodes g_next_node g_initializers g_outputs
      g_opsets g_value_info set_value_info]. repeat (split; [done|]).
    rewrite Hv. unfold g1. cbn [g_value_info set_value_info vi_dtype].
    by rewrite insert_insert_eq.
  - exists g1. split; [reflexivity|]. unfold g1. cbn [g_nodes g_next_node g_initializers
      g_outputs g_opsets g_value_info set_value_info]. done.
Qed.

(** [TransposeOutput] step by step; the new name of the node's output is
    the second name the graph hands out, the first one being the output that
    [AddNode] gives the Transpose before [MoveOutput] replaces it. *)
Lemma TransposeOutput_spec_named (c : OptimizerCtx) (n : NodeRef) (i : nat)
    (perm perm_inv : list Z) (g : Graph) (d : Node) (y : string) :
  nodes_lookup (g_nodes g) n = Some d → fresh_counter g → n_outputs d !! i = Some y →
  ∃ g' y',
    TransposeOutput c n i perm perm_inv g = Some (y, g')
    ∧ nodes_lookup (g_nodes g') n = Some (set_outputs (<[i := y']> (n_outputs d)) d)
    ∧ nodes_lookup (g_nodes g') (g_next_node g)
      = Some (mkNode "Transpose" "" {["perm" := AttrInts perm]} [y'] [y])
    ∧ (∀ m, m ≠ n → m ≠ g_next_node g →
            nodes_lookup (g_nodes g') m = nodes_lookup (g_nodes g) m)
    ∧ g_next_node g' = S (g_next_node g)
    ∧ g_initializers g' = g_initializers g
    ∧ g_outputs g' = g_outputs g ∧ g_opsets g' = g_opsets g
    ∧ g_value_info g'
      = <[y' := mkValueInfo (vi_dtype (value_info_of g y))
                  ((λ sh, permute_shape sh perm_inv) <$> vi_shape (value_info_of g y))]>
          (g_value_info g)
    ∧ y' = fresh_value_name (S (g_next_value g)).
Proof.
  intros Hn Hfresh Hy.
  pose proof (fresh_counter_lookup g n d Hfresh Hn) as Hlt.
  apply lookup_lt_Some in Hy as Hi.
  unfold TransposeOutput, MakeTranspose, MakeNode1Attr.
  destruct (AddNode_spec g "Transpose" [""] 1 "" Hfresh)
    as (g1 & Hrun1 & Htr1 & Hother1 & Hnn1 & Hnv1 & Hi1 & Hv1 & Ho1 & Hop1).
  rewrite !bind_run, Hrun1. cbv beta iota.
  set (tr := g_next_node g) in *.
  destruct (alter_node_spec g1 tr _
              (λ d, set_attrs (<["perm" := AttrInts perm]> (n_attrs d)) d) Htr1)
    as (g2 & Hrun2 & Htr2 & Hother2 & Hnn2 & Hnv2 & Hi2 & Hv2 & Ho2 & Hop2).
  unfold SetAttributeInts. rewrite ?bind_run, Hrun2. cbv beta iota.
  rewrite ?bind_run, ret_run. cbv beta iota.
  assert (nodes_lookup (g_nodes g2) n = Some d) as Hn2.
  { rewrite Hother2, Hother1 by lia. done. }
  set (y0 := fresh_value_name (g_next_value g)) in *.
  assert (nodes_lookup (g_nodes g2) tr
          = Some (mkNode "Transpose" "" {["perm" := AttrInts perm]} [""] [y0])) as Htr2'
    by exact Htr2.
  clear Htr2 Htr1.
  destruct (MoveOutput_spec g2 n i tr 0 d _ y ltac:(lia) Hn2 Htr2' Hy ltac:(cbn; lia))
    as (g3 & Hrun3 & Hn3 & Htr3 & Hother3 & Hnn3 & Hi3 & Hv3 & Ho3 & Hop3).
  rewrite ?bind_run, Hrun3. cbv beta iota.
  set (y' := fresh_value_name (g_next_value g2)) in *.
  assert (nodes_lookup (g_nodes g3) tr
          = Some (mkNode "Transpose" "" {["perm" := AttrInts perm]} [""] [y])) as Htr3'
    by exact Htr3.
  clear Htr3.
  rewrite ?bind_run, (Outputs_run g3 n _ Hn3). cbv beta iota.
  cbn [set_outputs n_outputs]. rewrite ?bind_run, list_lookup_insert_eq by done.
  rewrite lift_run. cbv beta iota.
  destruct (alter_node_spec g3 tr _ (λ d, set_inputs (put_input (n_inputs d) 0 y') d) Htr3')
    as (g4 & Hrun4 & Htr4 & Hother4 & Hnn4 & Hnv4 & Hi4 & Hv4 & Ho4 & Hop4).
  unfold SetInput. rewrite ?bind_run, Hrun4. cbv beta iota.
  assert (nodes_lookup (g_nodes g4) tr
          = Some (mkNode "Transpose" "" {["perm" := AttrInts perm]} [y'] [y])) as Htr4'
    by exact Htr4.
  clear Htr4.
  rewrite ?bind_run, (Outputs_run g4 tr _ Htr4'). cbv beta iota.
  cbn [n_outputs]. rewrite ?bind_run.
  change (lift ([y] !! 0%nat) g4) with (Some (y, g4)).
  cbv beta iota.
  destruct (copy_permute_spec g4 y y' perm_inv)
    as (g5 & Hrun5 & Hnodes5 & Hnn5 & Hi5 & Ho5 & Hop5 & Hv5).
  rewrite bind_run in Hrun5.
  destruct (CopyValueInfo y y' g4) as [[[] g4']|] eqn:Ecopy; [|done].
  rewrite ?bind_run, Ecopy. cbv beta iota. rewrite ?bind_run, Hrun5. cbv beta iota.
  rewrite ?ret_run.
  exists g5, y'. split; [done|]. rewrite Hnodes5.
  split; [rewrite Hother4 by lia; exact Hn3|].
  split; [exact Htr4'|].
  split.
  { intros m H1 H2. rewrite Hother4, Hother3, Hother2, Hother1 by done. done. }
  split; [by rewrite Hnn5, Hnn4, Hnn3, Hnn2, Hnn1|].
  split; [by rewrite Hi5, Hi4, Hi3, Hi2, Hi1|].
  split; [by rewrite Ho5, Ho4, Ho3, Ho2, Ho1|].
  split; [by rewrite Hop5, Hop4, Hop3, Hop2, Hop1|].
  split; [rewrite Hv5; unfold value_info_of; by rewrite Hv4, Hv3, Hv2, Hv1|].
  subst y'. rewrite Hnv2, Hnv1. f_equal. lia.
Qed.

Lemma TransposeOutput_spec (c : OptimizerCtx) (n : NodeRef) (i : nat) (perm perm_inv : list Z)
    (g : Graph) (d : Node) (y : string) :
  nodes_lookup (g_nodes g) n = Some d → fresh_counter g → n_outputs d !! i = Some y →
  ∃ g' y',
    TransposeOutput c n i perm perm_inv g = Some (y, g')
    ∧ nodes_lookup (g_nodes g') n = Some (set_outputs (<[i := y']> (n_outputs d)) d)
    ∧ nodes_lookup (g_nodes g') (g_next_node g)
      = Some (mkNode "Transpose" "" {["perm" := AttrInts perm]} [y'] [y])
    ∧ (∀ m, m ≠ n → m ≠ g_next_node g →
            nodes_lookup (g_nodes g') m = nodes_lookup (g_nodes g) m)
    ∧ g_next_node g' = S (g_next_node g)
    ∧ g_initializers g' = g_initializers g
    ∧ g_outputs g' = g_outputs g ∧ g_opsets g' = g_opsets g
    ∧ g_value_info g'
      = <[y' := mkValueInfo (vi_dtype (value_info_of g y))
                  ((λ sh, permute_shape sh perm_inv) <$> vi_shape (value_info_of g y))]>
          (g_value_info g).
Proof.
  intros Hn Hfresh Hy.
  destruct (TransposeOutput_spec_named c n i perm perm_inv g d y Hn Hfresh Hy)
    as (g' & y' & H1 & H2 & H3 & H4 & H5 & H6 & H7 & H8 & H9 & _).
  by exists g', y'.
Qed.

Lemma TransposeOutput_fresh (c : OptimizerCtx) (n : NodeRef) (i : nat) (perm perm_inv : list Z)
    (g : Graph) (d : Node) (a : string) (g' : Graph) :
  nodes_lookup (g_nodes g) n = Some d → fresh_counter g → (i < length (n_outputs d))%nat →
  TransposeOutput c n i perm perm_inv g = Some (a, g') → fresh_counter g'.
Proof.
  intros Hn Hfresh Hi Hrun.
  set (P := λ g, fresh_counter g ∧ has_outputs n (length (n_outputs d)) g).
  destruct (succeeds_TransposeOutput P c n i (length (n_outputs d)) perm perm_inv
              ltac:(by intros ? [? _]) ltac:(by intros ? [_ ?]) Hi g) as (a' & g'' & Hrun' & HP).
  { split; [done|]. by exists d. }
  rewrite Hrun in Hrun'. injection Hrun' as _ <-. apply HP.
Qed.

Lemma fresh_value_name_head (k : nat) : ∃ s, fresh_value_name k = "_" +:+ s.
Proof. by exists ("transpose_opt_" +:+ pretty k). Qed.

Example fresh_value_counter_softmax (perm : list Z) :
  fresh_value_counter (graph_softmax perm).
Proof.
  intros k _. destruct (fresh_value_name_head k) as [s ->].
  change ("_" +:+ s) with (String (Ascii.Ascii true true true true true false true false) s).
  split; [|split; [|split]].
  - intros m d Hin. cbn in Hin.
    apply elem_of_cons in Hin as [[= -> ->]|Hin];
      [|apply list_elem_of_singleton in Hin as [= -> ->]];
      cbn; rewrite !list_elem_of_singleton; split; discriminate.
  - cbn. rewrite list_elem_of_singleton. discriminate.
  - apply lookup_empty.
  - cbn [g_value_info graph_softmax]. rewrite !lookup_insert_ne by discriminate.
    apply lookup_singleton_ne. discriminate.
Qed.

(** X17.  [TransposeOutput] on the output [i], named [y], of a node keeps the
    name [y] for the transposed value: it returns [y], gives the node's
    output [i] the name [y'] that the graph's counter of fresh names hands
    out, and adds the node [Transpose(perm)] from [y'] to [y].  In a graph
    whose counter is ahead of every name in use, [y'] is used nowhere in the
    graph before, so it is a new name and differs from [y].  No other node,
    no initializer and no graph output changes, and the [ValueInfo] of [y']
    is the one of [y] with its dimensions permuted by [perm_inv]. *)
Theorem TransposeOutput_inserts (c : OptimizerCtx) (n : NodeRef) (i : nat)
    (perm perm_inv : list Z) (g : Graph) (d : Node) (y : string) :
  nodes_lookup (g_nodes g) n = Some d → fresh_counter g → fresh_value_counter g →
  n_outputs d !! i = Some y →
  ∃ g' y',
    TransposeOutput c n i perm perm_inv g = Some (y, g')
    ∧ y' = fresh_value_name (S (g_next_value g))
    ∧ value_unused y' g
    ∧ y' ≠ y
    ∧ nodes_lookup (g_nodes g') n = Some (set_outputs (<[i := y']> (n_outputs d)) d)
    ∧ nodes_lookup (g_nodes g') (g_next_node g)
      = Some (mkNode "Transpose" "" {["perm" := AttrInts perm]} [y'] [y])
    ∧ (∀ m, m ≠ n → m ≠ g_next_node g →
            nodes_lookup (g_nodes g') m = nodes_lookup (g_nodes g) m)
    ∧ g_initializers g' = g_initializers g
    ∧ g_outputs g' = g_outputs g
    ∧ g_value_info g'
      = <[y' := mkValueInfo (vi_dtype (value_info_of g y))
                  ((λ sh, permute_shape sh perm_inv) <$> vi_shape (value_info_of g y))]>
          (g_value_info g).
Proof.
  intros Hn Hfresh Hvalues Hy.
  destruct (TransposeOutput_spec_named c n i perm perm_inv g d y Hn Hfresh Hy)
    as (g' & y' & Hrun & Hn' & Htr & Hother & _ & Hinit & Hout & _ & Hvi & Hname).
  assert (value_unused y' g) as Hunused.
  { rewrite Hname. apply Hvalues. lia. }
  exists g', y'. split; [exact Hrun|]. split; [exact Hname|]. split; [exact Hunused|].
  split; [|done].
  intros ->. destruct Hunused as [Hnodes _].
  destruct (Hnodes n d (nodes_lookup_elem _ _ _ Hn)) as [_ Hnot].
  apply Hnot. by apply list_elem_of_lookup_2 in Hy.
Qed.

Lemma TransposeOutput_inserts_witness :
  ∃ g' y',
    TransposeOutput ctx_11 1%nat 0 [0; 2; 1] [0; 2; 1] (graph_softmax [0; 2; 1]) = Some ("y", g')
    ∧ y' = "_transpose_opt_1"
    ∧ nodes_lookup (g_nodes g') 1%nat
      = Some (mkNode "Softmax" "" {["axis" := AttrInt 1]} ["t"] [y'])
    ∧ nodes_lookup (g_nodes g') 2%nat
      = Some (mkNode "Transpose" "" {["perm" := AttrInts [0; 2; 1]]} [y'] ["y"])
    ∧ g_value_info g' !! y' = Some (mkValueInfo DT_FLOAT (Some [2; 3; 4])).
Proof.
  destruct (TransposeOutput_inserts ctx_11 1%nat 0 [0; 2; 1] [0; 2; 1] (graph_softmax [0; 2; 1])
              (mkNode "Softmax" "" {["axis" := AttrInt 1]} ["t"] ["y"]) "y" eq_refl)
    as (g' & y' & Hrun & Hname & _ & _ & Hn & Htr & _ & _ & _ & Hvi).
  - repeat constructor; cbn; lia.
  - apply fresh_value_counter_softmax.
  - reflexivity.
  - exists g', y'. split; [exact Hrun|]. split; [exact Hname|].
    split; [exact Hn|]. split; [exact Htr|].
    rewrite Hvi. rewrite lookup_insert_eq. reflexivity.
Defined.

(** ** The push: the node after its inputs and outputs were transposed *)

Lemma TransposeOutputs_loop (c : OptimizerCtx) (n : NodeRef) (perm perm_inv : list Z)
    (d0 : Node) (js : list nat) :
  ∀ (g : Graph) (outs : list string),
    nodes_lookup (g_nodes g) n = Some (set_outputs outs d0) → fresh_counter g →
    NoDup js → (∀ j, j ∈ js → (j < length outs)%nat) →
    ∃ g' outs',
      for_each js (λ j, TransposeOutput c n j perm perm_inv;; mret tt) g = Some (tt, g')
      ∧ nodes_lookup (g_nodes g') n = Some (set_outputs outs' d0)
      ∧ length outs' = length outs
      ∧ (∀ j, j ∉ js → outs' !! j = outs !! j)
      ∧ (∀ j y, j ∈ js → outs !! j = Some y →
           ∃ t y', outs' !! j = Some y' ∧ (g_next_node g ≤ t)%nat
                   ∧ nodes_lookup (g_nodes g') t
                     = Some (mkNode "Transpose" "" {["perm" := AttrInts perm]} [y'] [y]))
      ∧ (∀ m, m ≠ n → (m < g_next_node g)%nat →
              nodes_lookup (g_nodes g') m = nodes_lookup (g_nodes g) m)
      ∧ fresh_counter g' ∧ (g_next_node g ≤ g_next_node g')%nat
      ∧ g_initializers g' = g_initializers g ∧ g_outputs g' = g_outputs g.
Proof.
  induction js as [|j rest IH]; intros g outs Hn Hfresh Hnodup Hrange.
  { exists g, outs. split; [done|]. split; [done|]. split; [done|]. split; [done|].
    split; [|done]. intros j y Hj. by apply elem_of_nil in Hj. }
  apply NoDup_cons in Hnodup as [Hj Hnodup].
  assert (j < length outs)%nat as Hjlen by (apply Hrange; by left).
  destruct (lookup_lt_is_Some_2 outs j Hjlen) as [y Hy].
  pose proof (fresh_counter_lookup g n _ Hfresh Hn) as Hlt.
  destruct (TransposeOutput_spec c n j perm perm_inv g _ y Hn Hfresh Hy)
    as (g1 & y' & Hrun1 & Hn1 & Htr1 & Hother1 & Hnn1 & Hinit1 & Hout1 & _ & _).
  assert (fresh_counter g1) as Hfresh1.
  { by apply (TransposeOutput_fresh c n j perm perm_inv g _ y g1 Hn Hfresh). }
  assert (nodes_lookup (g_nodes g1) n = Some (set_outputs (<[j := y']> outs) d0)) as Hn1'
    by exact Hn1.
  destruct (IH g1 (<[j := y']> outs) Hn1' Hfresh1 Hnodup)
    as (g' & outs' & Hrun & Hn' & Hlen & Hkeep & Hnew & Hother & Hfresh' & Hnn & Hinit & Hout).
  { intros j' Hj'. rewrite length_insert. apply Hrange. by right. }
  exists g', outs'. cbn [for_each]. rewrite !bind_run, Hrun1. cbv beta iota.
  rewrite ret_run. cbv beta iota. split; [exact Hrun|]. split; [exact Hn'|].
  rewrite length_insert in Hlen. split; [done|]. split.
  { intros j' Hj'. rewrite not_elem_of_cons in Hj'. destruct Hj' as [Hne Hj'].
    rewrite Hkeep by done. by apply list_lookup_insert_ne. }
  split.
  { intros j' y0 Hj' Hy0. apply elem_of_cons in Hj' as [->|Hj'].
    - assert (y0 = y) as -> by congruence. exists (g_next_node g), y'. split.
      + rewrite Hkeep by done. by apply list_lookup_insert_eq.
      + split; [lia|]. rewrite Hother by lia. exact Htr1.
    - destruct (Hnew j' y0 Hj') as (t & y1 & H1 & H2 & H3).
      { rewrite list_lookup_insert_ne; [done|]. by intros ->. }
      exists t, y1. split; [done|]. split; [lia|done]. }
  split.
  { intros m Hm Hmlt. rewrite Hother by lia. apply Hother1; lia. }
  split; [done|]. split; [lia|]. by rewrite Hinit, Hout.
Qed.

Lemma TransposeOutputs_spec (c : OptimizerCtx) (n : NodeRef) (perm : list Z) (g : Graph)
    (d : Node) :
  nodes_lookup (g_nodes g) n = Some d → fresh_counter g →
  IsIdentityPerm perm = true ∨ is_Some (InvertPerm perm) →
  ∃ g' outs',
    TransposeOutputs c n perm g = Some (tt, g')
    ∧ nodes_lookup (g_nodes g') n = Some (set_outputs outs' d)
    ∧ length outs' = length (n_outputs d)
    ∧ (if IsIdentityPerm perm then g' = g ∧ outs' = n_outputs d
       else ∀ j y, n_outputs d !! j = Some y →
              ∃ t y', outs' !! j = Some y' ∧ (g_next_node g ≤ t)%nat
                      ∧ nodes_lookup (g_nodes g') t
                        = Some (mkNode "Transpose" "" {["perm" := AttrInts perm]} [y'] [y]))
    ∧ (∀ m, m ≠ n → (m < g_next_node g)%nat →
            nodes_lookup (g_nodes g') m = nodes_lookup (g_nodes g) m)
    ∧ g_initializers g' = g_initializers g ∧ g_outputs g' = g_outputs g.
Proof.
  intros Hn Hfresh Hperm. unfold TransposeOutputs.
  destruct (IsIdentityPerm perm) eqn:Eid.
  { exists g, (n_outputs d). split; [done|]. split; [by destruct d|]. done. }
  destruct Hperm as [|[perm_inv Hinv]]; [done|].
  rewrite bind_run, Hinv, lift_run. cbv beta iota.
  rewrite bind_run, (Outputs_run g n d Hn). cbv beta iota.
  assert (nodes_lookup (g_nodes g) n = Some (set_outputs (n_outputs d) d)) as Hn'
    by (by destruct d).
  destruct (TransposeOutputs_loop c n perm perm_inv d (seq 0 (length (n_outputs d))) g
              (n_outputs d) Hn' Hfresh (NoDup_seq _ _))
    as (g' & outs' & Hrun & Hn1 & Hlen & _ & Hnew & Hother & _ & _ & Hinit & Hout).
  { intros j Hj. apply elem_of_seq in Hj. lia. }
  exists g', outs'. split; [exact Hrun|]. split; [exact Hn1|]. split; [done|].
  split; [|done]. intros j y Hy. apply Hnew; [|done].
  apply elem_of_seq. apply lookup_lt_Some in Hy. lia.
Qed.

(** The cancelling case of [TransposeInput], with what it leaves alone: the
    upstream Transpose goes away when nothing else reads its output, and is
    kept as it was when the output is still read or is a graph output. *)
Lemma TransposeInput_cancels_frame (args : HandlerArgs) (g : Graph) (dn dt : Node)
    (tin tout : string) :
  push_context args g dn dt tin tout →
  ∃ g', TransposeInput (ctx args) (node args) 0 (perm_inv args) (perm args) g = Some (tt, g')
        ∧ fresh_counter g'
        ∧ nodes_lookup (g_nodes g') (node args)
          = Some (set_inputs (<[0%nat := tin]> (n_inputs dn)) dn)
        ∧ (nodes_lookup (g_nodes g') (transpose args) = None
           ∨ nodes_lookup (g_nodes g') (transpose args) = Some dt)
        ∧ (tout ∈ g_outputs g → nodes_lookup (g_nodes g') (transpose args) = Some dt)
        ∧ (∀ m, m ≠ node args → m ≠ transpose args →
                nodes_lookup (g_nodes g') m = nodes_lookup (g_nodes g) m)
        ∧ g_next_node g' = g_next_node g
        ∧ g_initializers g' = g_initializers g ∧ g_value_info g' = g_value_info g
        ∧ g_outputs g' = g_outputs g.
Proof.
  intros (Hne & Hn & Ht & Htout & Hprod & Hinit & Hop & Hperm & Hvalid & Htin & _ & _ & Hfresh).
  unfold TransposeInput.
  rewrite bind_run, (Inputs_run g _ dn Hn). cbv beta iota.
  rewrite bind_run, Htout, lift_run. cbv beta iota.
  rewrite bind_run. unfold SetInput at 1.
  rewrite (alter_node_run g _ dn _ Hn). cbv beta iota.
  set (f1 := λ d : Node, set_inputs (put_input (n_inputs d) 0 "") d).
  set (g1 := set_nodes (nodes_alter f1 (node args) (g_nodes g)) g).
  assert (nodes_lookup (g_nodes g1) (node args) = Some (f1 dn)) as Hn1.
  { unfold g1. cbn [g_nodes set_nodes]. by apply (nodes_lookup_alter_eq f1). }
  assert (∀ m, m ≠ node args → nodes_lookup (g_nodes g1) m = nodes_lookup (g_nodes g) m)
    as Hother1.
  { intros m Hm. unfold g1. cbn [g_nodes set_nodes]. by rewrite nodes_lookup_alter_ne. }
  assert (nodes_lookup (g_nodes g1) (transpose args) = Some dt) as Ht1.
  { by rewrite Hother1. }
  assert (fresh_counter g1) as Hfresh1.
  { unfold g1. apply (stable_alter (P := fresh_counter)); [by intros d|done]. }
  rewrite bind_run.
  change (GetConstant tout g1) with (Some (g_initializers g !! tout, g1)).
  rewrite Hinit. cbv beta iota.
  rewrite bind_run.
  set (cons := {| vc_nodes := (filter (λ p, consumes tout p.2 = true) (g_nodes g1)).*1;
                  comprehensive := bool_decide (tout ∉ g_outputs g1) |}).
  change (GetValueConsumers tout g1) with (Some (cons, g1)). cbv beta iota.
  rewrite bool_decide_eq_false_2 by (by intros H; apply H).
  cbn [andb]. rewrite bind_run.
  assert (GetNodeProducingOutput tout g1 = Some (Some (transpose args), g1)) as Hprod1.
  { unfold GetNodeProducingOutput, query in *. unfold g1 at 1. cbn [g_nodes set_nodes].
    rewrite (producer_alter f1) by (by intros d). injection Hprod as ->. done. }
  rewrite Hprod1. cbv beta iota.
  rewrite !bind_run, (IsOp_run g1 _ dt _ Ht1), Hop. cbv beta iota.
  rewrite (GetPermAttrIfValid_run g1 _ dt Ht1), Hperm, Hvalid. cbv beta iota.
  rewrite decide_True by done.
  rewrite bind_run, (Inputs_run g1 _ dt Ht1). cbv beta iota.
  rewrite bind_run, Htin, lift_run. cbv beta iota.
  rewrite bind_run. unfold when.
  assert (put_input (n_inputs (f1 dn)) 0 tin = <[0%nat := tin]> (n_inputs dn)) as Hput.
  { destruct (n_inputs dn) as [|x rest] eqn:E; [done|]. unfold f1. cbn [n_inputs set_inputs].
    rewrite E. unfold put_input. cbn [length Nat.sub replicate].
    rewrite app_nil_r. cbn. by rewrite app_nil_r. }
  assert (set_inputs (put_input (n_inputs (f1 dn)) 0 tin) (f1 dn)
          = set_inputs (<[0%nat := tin]> (n_inputs dn)) dn) as Hnode.
  { rewrite Hput. done. }
  destruct (comprehensive cons) eqn:Ecomp; cbn [andb].
  2:{ rewrite ret_run. cbv beta iota.
      destruct (alter_node_spec g1 (node args) _
                  (λ d, set_inputs (put_input (n_inputs d) 0 tin) d) Hn1)
        as (g3 & Hrun3 & Hn3 & Hother3 & Hnn3 & _ & Hi3 & Hv3 & Ho3 & _).
      unfold SetInput. rewrite Hrun3. exists g3. split; [done|].
      split.
      { apply alter_node_run with (f := λ d, set_inputs (put_input (n_inputs d) 0 tin) d)
          in Hn1 as Hrun3'. rewrite Hrun3 in Hrun3'. injection Hrun3' as ->.
        by apply (stable_alter (P := fresh_counter)); [intros d|]. }
      split; [by rewrite Hn3, Hnode|].
      assert (nodes_lookup (g_nodes g3) (transpose args) = Some dt) as Ht3.
      { rewrite Hother3 by done. exact Ht1. }
      split; [by right|]. split; [done|].
      split; [intros m H1 H2; by rewrite Hother3, Hother1|].
      by rewrite Hnn3, Hi3, Hv3, Ho3. }
  destruct (bool_decide (length (vc_nodes cons) = 0%nat)) eqn:Elen.
  - rewrite (RemoveNode_run g1 _ dt Ht1). cbv beta iota.
    set (g2 := set_nodes (nodes_remove (transpose args) (g_nodes g1)) g1).
    assert (nodes_lookup (g_nodes g2) (node args) = Some (f1 dn)) as Hn2.
    { unfold g2. cbn [g_nodes set_nodes]. rewrite nodes_lookup_remove_ne; [done|congruence]. }
    assert (fresh_counter g2) as Hfresh2 by (by apply fresh_counter_remove).
    destruct (alter_node_spec g2 (node args) _
                (λ d, set_inputs (put_input (n_inputs d) 0 tin) d) Hn2)
      as (g3 & Hrun3 & Hn3 & Hother3 & Hnn3 & _ & Hi3 & Hv3 & Ho3 & _).
    unfold SetInput. rewrite Hrun3. exists g3. split; [done|].
    split.
    { apply alter_node_run with (f := λ d, set_inputs (put_input (n_inputs d) 0 tin) d)
        in Hn2 as Hrun3'. rewrite Hrun3 in Hrun3'. injection Hrun3' as ->.
      by apply (stable_alter (P := fresh_counter)); [intros d|]. }
    split; [by rewrite Hn3, Hnode|].
    split.
    { left. rewrite Hother3 by done. unfold g2. cbn [g_nodes set_nodes].
      apply nodes_lookup_remove_eq. }
    split.
    { intros Hout. apply bool_decide_eq_true in Ecomp. done. }
    split.
    { intros m H1 H2. rewrite Hother3 by done. unfold g2. cbn [g_nodes set_nodes].
      rewrite nodes_lookup_remove_ne by done. by apply Hother1. }
    by rewrite Hnn3, Hi3, Hv3, Ho3.
  - rewrite ret_run. cbv beta iota.
    destruct (alter_node_spec g1 (node args) _
                (λ d, set_inputs (put_input (n_inputs d) 0 tin) d) Hn1)
      as (g3 & Hrun3 & Hn3 & Hother3 & Hnn3 & _ & Hi3 & Hv3 & Ho3 & _).
    unfold SetInput. rewrite Hrun3. exists g3. split; [done|].
    split.
    { apply alter_node_run with (f := λ d, set_inputs (put_input (n_inputs d) 0 tin) d)
        in Hn1 as Hrun3'. rewrite Hrun3 in Hrun3'. injection Hrun3' as ->.
      by apply (stable_alter (P := fresh_counter)); [intros d|]. }
    split; [by rewrite Hn3, Hnode|].
    assert (nodes_lookup (g_nodes g3) (transpose args) = Some dt) as Ht3.
    { rewrite Hother3 by done. exact Ht1. }
    split; [by right|]. split; [done|].
    split; [intros m H1 H2; by rewrite Hother3, Hother1|].
    by rewrite Hnn3, Hi3, Hv3, Ho3.
Qed.

(** X18.  [TransposeInput] by the inverse of the perm of the Transpose that
    produces the input cancels that Transpose: the node reads the
    Transpose's own input instead.  The Transpose node is removed or kept as
    it was, and it is kept when its output is a graph output; no other node,
    no initializer, no [ValueInfo] and no graph output changes, and no node
    is added. *)
Theorem TransposeInput_cancels_upstream (args : HandlerArgs) (g : Graph) (dn dt : Node)
    (tin tout : string) :
  push_context args g dn dt tin tout →
  ∃ g', TransposeInput (ctx args) (node args) 0 (perm_inv args) (perm args) g = Some (tt, g')
        ∧ nodes_lookup (g_nodes g') (node args)
          = Some (set_inputs (<[0%nat := tin]> (n_inputs dn)) dn)
        ∧ (nodes_lookup (g_nodes g') (transpose args) = None
           ∨ nodes_lookup (g_nodes g') (transpose args) = Some dt)
        ∧ (tout ∈ g_outputs g → nodes_lookup (g_nodes g') (transpose args) = Some dt)
        ∧ (∀ m, m ≠ node args → m ≠ transpose args →
                nodes_lookup (g_nodes g') m = nodes_lookup (g_nodes g) m)
        ∧ g_next_node g' = g_next_node g
        ∧ g_initializers g' = g_initializers g ∧ g_value_info g' = g_value_info g
        ∧ g_outputs g' = g_outputs g.
Proof.
  intros Hctx.
  destruct (TransposeInput_cancels_frame args g dn dt tin tout Hctx)
    as (g' & Hrun & _ & H).
  by exists g'.
Qed.

Lemma TransposeInput_cancels_upstream_witness :
  ∃ g', TransposeInput ctx_11 1%nat 0 [0; 2; 1] [0; 2; 1] (graph_softmax [0; 2; 1])
        = Some (tt, g')
        ∧ nodes_lookup (g_nodes g') 1%nat
          = Some (mkNode "Softmax" "" {["axis" := AttrInt 1]} ["x"] ["y"])
        ∧ (nodes_lookup (g_nodes g') 0%nat = None
           ∨ nodes_lookup (g_nodes g') 0%nat
             = Some (mkNode "Transpose" "" {["perm" := AttrInts [0; 2; 1]]} ["x"] ["t"])).
Proof.
  destruct (TransposeInput_cancels_upstream _ _ _ _ _ _ push_context_softmax)
    as (g' & Hrun & Hn & Ht & _).
  exists g'. split; [exact Hrun|]. split; [exact Hn|exact Ht].
Defined.

(** The push of the first input and of the outputs in the call context of
    the driver, with the node it leaves. *)
Lemma push_first_input_spec (args : HandlerArgs) (g : Graph) (dn dt : Node)
    (tin tout : string) (out_perm : list Z) :
  push_context args g dn dt tin tout →
  IsIdentityPerm out_perm = true ∨ is_Some (InvertPerm out_perm) →
  ∃ g' outs',
    push_first_input args out_perm g = Some (true, g')
    ∧ nodes_lookup (g_nodes g') (node args)
      = Some (set_outputs outs' (set_inputs (<[0%nat := tin]> (n_inputs dn)) dn))
    ∧ length outs' = length (n_outputs dn)
    ∧ (if IsIdentityPerm out_perm then outs' = n_outputs dn
       else ∀ j y, n_outputs dn !! j = Some y →
              ∃ t y', outs' !! j = Some y' ∧ (g_next_node g ≤ t)%nat
                      ∧ nodes_lookup (g_nodes g') t
                        = Some (mkNode "Transpose" "" {["perm" := AttrInts out_perm]}
                                       [y'] [y]))
    ∧ (nodes_lookup (g_nodes g') (transpose args) = None
       ∨ nodes_lookup (g_nodes g') (transpose args) = Some dt)
    ∧ (∀ m, m ≠ node args → m ≠ transpose args → (m < g_next_node g)%nat →
            nodes_lookup (g_nodes g') m = nodes_lookup (g_nodes g) m)
    ∧ g_initializers g' = g_initializers g ∧ g_outputs g' = g_outputs g.
Proof.
  intros Hctx Hout.
  destruct (TransposeInput_cancels_frame args g dn dt tin tout Hctx)
    as (g1 & Hrun1 & Hfresh1 & Hn1 & Ht1 & _ & Hother1 & Hnn1 & Hinit1 & _ & Hout1).
  assert (node args ≠ transpose args) as Hne by apply Hctx.
  assert (transpose args < g_next_node g)%nat as Htlt.
  { destruct Hctx as (_ & _ & Ht & _ & _ & _ & _ & _ & _ & _ & _ & _ & Hfresh).
    by apply (fresh_counter_lookup g _ dt). }
  destruct Hctx as (_ & _ & _ & _ & _ & _ & _ & _ & _ & _ & _ & Hinv & _).
  destruct (TransposeOutputs_spec (ctx args) (node args) out_perm g1 _ Hn1 Hfresh1 Hout)
    as (g2 & outs' & Hrun2 & Hn2 & Hlen2 & Hnew2 & Hother2 & Hinit2 & Hout2).
  exists g2, outs'.
  unfold push_first_input, TransposeFirstInput, TransposeInputs.
  rewrite !bind_run, Hinv, lift_run. cbv beta iota.
  cbn [for_each]. rewrite bind_run, Hrun1. cbv beta iota. rewrite ret_run. cbv beta iota.
  rewrite ?bind_run, Hrun2. cbv beta iota. rewrite ?ret_run.
  split; [done|]. split; [exact Hn2|]. split; [exact Hlen2|].
  split.
  { destruct (IsIdentityPerm out_perm); [apply Hnew2|]. by rewrite <- Hnn1. }
  split.
  { rewrite Hother2 by (rewrite ?Hnn1; done). exact Ht1. }
  split.
  { intros m H1 H2 H3. rewrite Hother2 by (rewrite ?Hnn1; done). by apply Hother1. }
  by rewrite Hinit2, Hout2, Hinit1, Hout1.
Qed.

Lemma push_first_input_pushed (args : HandlerArgs) (g : Graph) (dn dt : Node)
    (tin tout : string) (out_perm : list Z) :
  push_context args g dn dt tin tout →
  IsIdentityPerm out_perm = true ∨ is_Some (InvertPerm out_perm) →
  ∃ g', push_first_input args out_perm g = Some (true, g')
        ∧ pushed_through args g g' dn dt tin (n_attrs dn) out_perm.
Proof.
  intros Hctx Hout.
  destruct (push_first_input_spec args g dn dt tin tout out_perm Hctx Hout)
    as (g' & outs' & Hrun & Hn & H).
  exists g'. split; [done|]. exists outs'. split; [exact Hn|exact H].
Qed.

(** Editing the attributes of the node leaves the call context in place. *)
Lemma push_context_set_attrs (args : HandlerArgs) (g : Graph) (dn dt : Node)
    (tin tout : string) (h : gmap string AttrValue → gmap string AttrValue) :
  push_context args g dn dt tin tout →
  ∃ g', alter_node (node args) (λ d, set_attrs (h (n_attrs d)) d) g = Some (tt, g')
        ∧ push_context args g' (set_attrs (h (n_attrs dn)) dn) dt tin tout
        ∧ (∀ m, m ≠ node args → nodes_lookup (g_nodes g') m = nodes_lookup (g_nodes g) m)
        ∧ g_next_node g' = g_next_node g
        ∧ g_initializers g' = g_initializers g ∧ g_outputs g' = g_outputs g.
Proof.
  intros (Hne & Hn & Ht & Htout & Hprod & Hinit & Hop & Hperm & Hvalid & Htin & Hi1 & Hi2
          & Hfresh).
  set (f := λ d : Node, set_attrs (h (n_attrs d)) d).
  eexists. split; [by apply (alter_node_run g _ dn)|].
  cbn [g_nodes set_nodes g_initializers g_next_node g_outputs].
  split; [|split; [|done]].
  - repeat split; try done; cbn [g_nodes set_nodes g_initializers].
    + by apply (nodes_lookup_alter_eq f).
    + by rewrite nodes_lookup_alter_ne.
    + unfold GetNodeProducingOutput, query in *. cbn [g_nodes set_nodes].
      rewrite (producer_alter f) by (by intros d). by injection Hprod as ->.
    + apply (stable_alter (P := fresh_counter)); [by intros d|done].
  - intros m Hm. by apply nodes_lookup_alter_ne.
Qed.

(** A push after an edit of the node's attributes is a push from the graph
    before the edit. *)
Lemma pushed_through_after_set_attrs (args : HandlerArgs) (g g1 g' : Graph) (dn dt : Node)
    (tin : string) (attrs' : gmap string AttrValue) (out_perm : list Z) :
  (∀ m, m ≠ node args → nodes_lookup (g_nodes g1) m = nodes_lookup (g_nodes g) m) →
  g_next_node g1 = g_next_node g →
  g_initializers g1 = g_initializers g → g_outputs g1 = g_outputs g →
  pushed_through args g1 g' (set_attrs attrs' dn) dt tin attrs' out_perm →
  pushed_through args g g' dn dt tin attrs' out_perm.
Proof.
  intros Hother Hnn Hinit Hout (outs' & Hn & Hlen & Hnew & Ht & Hrest & Hi & Ho).
  exists outs'. split; [exact Hn|]. split; [exact Hlen|].
  split; [by rewrite <- Hnn|].
  split; [exact Ht|]. split.
  - intros m H1 H2 H3. rewrite Hrest by (rewrite ?Hnn; done). by apply Hother.
  - by rewrite Hi, Ho, Hinit, Hout.
Qed.

Example push_context_single_op (v : Z) (op : string) (attrs : gmap string AttrValue) :
  push_context (args_single_op v) (graph_single_op v op attrs)
    (mkNode op "" attrs ["t"] ["y"])
    (mkNode "Transpose" "" {["perm" := AttrInts [0; 2; 1]]} ["x"] ["t"]) "x" "t".
Proof.
  repeat split; try reflexivity; try done.
  repeat constructor; cbn; lia.
Qed.

(** ** The split point of Softmax, Hardmax and LogSoftmax *)

(** A push rewires the first input: the graph is not the one it was, unless
    the upstream Transpose reads its own output. *)
Lemma pushed_through_modified (args : HandlerArgs) (g g' : Graph) (dn dt : Node)
    (tin tout : string) (attrs' : gmap string AttrValue) (out_perm : list Z) :
  nodes_lookup (g_nodes g) (node args) = Some dn → n_inputs dn !! 0%nat = Some tout →
  pushed_through args g g' dn dt tin attrs' out_perm → tin ≠ tout → g' ≠ g.
Proof.
  intros Hn Hin (outs' & Hn' & _) Hne ->. rewrite Hn in Hn'. injection Hn' as Hdn.
  apply (f_equal n_inputs) in Hdn. cbn [n_inputs] in Hdn.
  apply lookup_lt_Some in Hin as Hlen.
  rewrite Hdn, list_lookup_insert_eq in Hin by done. congruence.
Qed.

(** C6.  For a Softmax, Hardmax or LogSoftmax node below opset 13 whose axis
    normalizes to [a]: the handler answers "unchanged", on the graph as it
    was, exactly when the perm moves some dimension across the split point,
    that is when [i < a ↔ perm[i] < a] fails for some [i]; otherwise it is the
    push that transposes the transposible inputs (the first input only, as
    [FirstInput] gives them) by [perm_inv] and the outputs by [perm], every
    run of it answers "modified", and the node keeps all its attributes,
    [axis] included.  In the call context of the driver (the node's first
    input is the output of a Transpose with perm [perm]) the push is defined
    and its result is the pushed graph: the node reads the input of the
    upstream Transpose as its first input, its other inputs and its
    attributes are as they were, its outputs are transposed by [perm], no
    other node of the graph changes but the upstream Transpose, which is
    removed or left as it was, and the graph differs from the one before
    (unless the upstream Transpose reads its own output). *)
Theorem HandleSoftHardMax_split_point (args : HandlerArgs) (g : Graph) (dn : Node) (a : Z) :
  opset (ctx args) < 13 →
  nodes_lookup (g_nodes g) (node args) = Some dn →
  (node args < g_next_node g)%nat →
  node_is_op dn "Transpose" = false →
  NormalizeAndValidateAxis (default 1 (attr_int dn "axis")) (length (perm args)) = (true, a) →
  (HandleSoftHardMax args g = Some (false, g) ↔ ¬ keeps_split (perm args) a)
  ∧ (keeps_split (perm args) a →
     HandleSoftHardMax args g
     = (TransposeInputs (ctx args) (node args) (perm_inv args) (transposible_inputs args);;
        TransposeOutputs (ctx args) (node args) (perm args);;
        mret true) g)
  ∧ (keeps_split (perm args) a → transposible_inputs args = [0%nat] →
     HandleSoftHardMax args g = push_first_input args (perm args) g)
  ∧ (keeps_split (perm args) a → transposible_inputs args = [0%nat] →
     ∀ dt tin tout, push_context args g dn dt tin tout →
                    ∃ g', HandleSoftHardMax args g = Some (true, g')
                          ∧ pushed_through args g g' dn dt tin (n_attrs dn) (perm args)
                          ∧ (tin ≠ tout → g' ≠ g))
  ∧ ∀ b g', HandleSoftHardMax args g = Some (b, g') →
            (b = true ↔ keeps_split (perm args) a)
            ∧ ∃ dn', nodes_lookup (g_nodes g') (node args) = Some dn'
                     ∧ n_attrs dn' = n_attrs dn
                     ∧ attr_int dn' "axis" = attr_int dn "axis".
Proof.
  intros Hopset Hn Hlt Hop Hnorm.
  pose proof (HandleSoftHardMax_run args g dn a Hopset Hn Hnorm) as Heq.
  pose proof (keeps_split_point_spec (perm args) a) as Hspec.
  assert (never negb (TransposeInputs (ctx args) (node args) (perm_inv args)
                        (transposible_inputs args);;
                      TransposeOutputs (ctx args) (node args) (perm args);;
                      mret true)) as Hnever by never_solve.
  destruct (keeps_split_point (perm args) a) eqn:E.
  - assert (keeps_split (perm args) a) as Hks by (by apply Hspec).
    split; [|split; [|split; [|split]]].
    + split; [|done]. intros Hrun. rewrite Heq in Hrun.
      apply Hnever in Hrun. discriminate.
    + intros _. exact Heq.
    + intros _ Hidx. rewrite Heq. unfold push_first_input, TransposeFirstInput.
      by rewrite Hidx.
    + intros _ Hidx dt tin tout Hctx.
      destruct (push_first_input_pushed args g dn dt tin tout (perm args) Hctx)
        as (g' & Hrun & H).
      { right. exists (perm_inv args). apply Hctx. }
      exists g'. split; [rewrite Heq, Hidx; exact Hrun|]. split; [exact H|].
      apply (pushed_through_modified args g g' dn dt tin tout (n_attrs dn) (perm args));
        [exact Hn|apply Hctx|exact H].
    + intros b g' Hrun. rewrite Heq in Hrun.
      pose proof (Hnever g b g' Hrun) as Hb. apply negb_false_iff in Hb. subst b.
      split; [done|].
      apply (keeps_apply (node args) dn _ g true g') in Hrun;
        [| |by apply node_kept_refl].
      * destruct Hrun as [_ (dn' & Hn' & _ & _ & Hattrs)].
        exists dn'. split; [done|]. split; [done|]. unfold attr_int. by rewrite Hattrs.
      * apply keeps_bind; [by apply keeps_TransposeInputs|]. intros _. keeps_solve.
  - assert (¬ keeps_split (perm args) a) as Hks.
    { intros H. apply Hspec in H. discriminate. }
    split; [|split; [|split; [|split]]]; try done.
    intros b g' Hrun. rewrite Heq in Hrun. injection Hrun as <- <-.
    split; [split; [discriminate|done]|]. by exists dn.
Qed.

Lemma HandleSoftHardMax_split_point_witness :
  (keeps_split [0; 2; 1] 1
   ∧ ∃ g' y',
       HandleSoftHardMax (args_softmax [0; 2; 1] [0; 2; 1]) (graph_softmax [0; 2; 1])
       = Some (true, g')
       ∧ nodes_lookup (g_nodes g') 1%nat
         = Some (mkNode "Softmax" "" {["axis" := AttrInt 1]} ["x"] [y'])
       ∧ g' ≠ graph_softmax [0; 2; 1])
  ∧ (¬ keeps_split [1; 0; 2] 1
     ∧ HandleSoftHardMax (args_softmax [1; 0; 2] [1; 0; 2]) (graph_softmax [1; 0; 2])
       = Some (false, graph_softmax [1; 0; 2])).
Proof.
  split.
  - destruct (HandleSoftHardMax_split_point (args_softmax [0; 2; 1] [0; 2; 1])
                (graph_softmax [0; 2; 1])
                (mkNode "Softmax" "" {["axis" := AttrInt 1]} ["t"] ["y"]) 1
                ltac:(cbn; lia) eq_refl ltac:(cbn; lia) eq_refl eq_refl)
      as (_ & _ & _ & Hpush & _).
    assert (keeps_split [0; 2; 1] 1) as Hks.
    { apply keeps_split_point_spec. reflexivity. }
    destruct (Hpush Hks eq_refl _ _ _ push_context_softmax)
      as (g' & Hrun & (outs' & Hn' & Hlen & _) & Hmod).
    split; [exact Hks|].
    destruct outs' as [|y' [|? ?]]; [discriminate| |discriminate].
    exists g', y'. split; [exact Hrun|]. split; [exact Hn'|].
    apply Hmod. discriminate.
  - destruct (HandleSoftHardMax_split_point (args_softmax [1; 0; 2] [1; 0; 2])
                (graph_softmax [1; 0; 2])
                (mkNode "Softmax" "" {["axis" := AttrInt 1]} ["t"] ["y"]) 1
                ltac:(cbn; lia) eq_refl ltac:(cbn; lia) eq_refl eq_refl)
      as (Hfalse & _).
    assert (¬ keeps_split [1; 0; 2] 1) as Hks.
    { intros H. apply keeps_split_point_spec in H. discriminate. }
    split; [exact Hks|]. by apply Hfalse.
Defined.

(** ** Handlers that push in the call context of the driver *)

(** X19.  The handler of the elementwise operators ([HandleSimpleNode],
    [HandleSimpleNode1Inp]), called in the call context of the driver with
    input 0 as the only transposible input, pushes: it answers "modified",
    the node reads the input of the upstream Transpose and keeps its
    attributes.  Unless [perm] is the identity, every former output name of
    the node is then produced by a Transpose([perm]) node added to the graph,
    which reads the output the node has in its place; with the identity perm
    the outputs stay as they were. *)
Theorem HandleSimpleNode_pushes (args : HandlerArgs) (g : Graph) (dn dt : Node)
    (tin tout : string) :
  push_context args g dn dt tin tout → transposible_inputs args = [0%nat] →
  ∃ g', HandleSimpleNode args g = Some (true, g')
        ∧ HandleSimpleNode1Inp args g = Some (true, g')
        ∧ pushed_through args g g' dn dt tin (n_attrs dn) (perm args).
Proof.
  intros Hctx Hidx.
  destruct (push_first_input_pushed args g dn dt tin tout (perm args) Hctx) as (g' & Hrun & H).
  { right. destruct Hctx as (_ & _ & _ & _ & _ & _ & _ & _ & _ & _ & Hinv & _). by eexists. }
  exists g'. split; [|split; [|exact H]].
  - unfold HandleSimpleNode, HandleSimpleNodeBase. rewrite bind_run, ret_run. cbn [negb].
    rewrite Hidx. exact Hrun.
  - unfold HandleSimpleNode1Inp, HandleSimpleNodeBase. rewrite bind_run, ret_run. cbn [negb].
    rewrite Hidx. exact Hrun.
Qed.

Lemma HandleSimpleNode_pushes_witness :
  ∃ g', HandleSimpleNode (args_single_op 13) (graph_single_op 13 "Relu" ∅) = Some (true, g')
        ∧ HandleSimpleNode1Inp (args_single_op 13) (graph_single_op 13 "Relu" ∅)
          = Some (true, g')
        ∧ pushed_through (args_single_op 13) (graph_single_op 13 "Relu" ∅) g'
            (mkNode "Relu" "" ∅ ["t"] ["y"])
            (mkNode "Transpose" "" {["perm" := AttrInts [0; 2; 1]]} ["x"] ["t"]) "x" ∅
            [0; 2; 1].
Proof.
  exact (HandleSimpleNode_pushes _ _ _ _ _ _ (push_context_single_op 13 "Relu" ∅) eq_refl).
Defined.

(** An edit of the node's attributes after a push. *)
Lemma pushed_through_then_set_attrs (args : HandlerArgs) (g g1 : Graph) (dn dt : Node)
    (tin : string) (attrs' : gmap string AttrValue) (out_perm : list Z)
    (h : gmap string AttrValue → gmap string AttrValue) :
  node args ≠ transpose args → (node args < g_next_node g)%nat →
  pushed_through args g g1 dn dt tin attrs' out_perm →
  ∃ g', alter_node (node args) (λ d, set_attrs (h (n_attrs d)) d) g1 = Some (tt, g')
        ∧ pushed_through args g g' dn dt tin (h attrs') out_perm.
Proof.
  intros Hne Hlt (outs' & Hn & Hlen & Hnew & Ht & Hrest & Hi & Ho).
  destruct (alter_node_spec g1 (node args) _ (λ d, set_attrs (h (n_attrs d)) d) Hn)
    as (g' & Hrun & Hn' & Hother & _ & _ & Hi' & _ & Ho' & _).
  exists g'. split; [exact Hrun|]. exists outs'. split; [exact Hn'|]. split; [exact Hlen|].
  split.
  { destruct (IsIdentityPerm out_perm); [exact Hnew|].
    intros j y Hy. destruct (Hnew j y Hy) as (t & y' & H1 & H2 & H3).
    exists t, y'. split; [done|]. split; [done|]. rewrite Hother by lia. exact H3. }
  split; [by rewrite Hother|].
  split; [intros m H1 H2 H3; rewrite Hother by done; by apply Hrest|].
  by rewrite Hi', Ho'.
Qed.

Lemma NormalizeAndValidateAxis_spec (axis : Z) (rank : nat) :
  NormalizeAndValidateAxis axis rank
  = if decide (- Z.of_nat rank ≤ axis < Z.of_nat rank)
    then (true, axis `mod` Z.of_nat rank)
    else (false, if decide (axis < 0) then axis + Z.of_nat rank else axis).
Proof.
  unfold NormalizeAndValidateAxis. cbv zeta.
  destruct (decide (- Z.of_nat rank ≤ axis < Z.of_nat rank)) as [Hr|Hr].
  - destruct (decide (axis < 0)).
    + rewrite bool_decide_eq_true_2, bool_decide_eq_true_2 by lia. cbn [andb]. f_equal.
      rewrite <- (Z_mod_plus_full axis 1 (Z.of_nat rank)). rewrite Z.mod_small; lia.
    + rewrite bool_decide_eq_true_2, bool_decide_eq_true_2 by lia. cbn [andb]. f_equal.
      rewrite Z.mod_small; lia.
  - destruct (decide (axis < 0)).
    + rewrite (bool_decide_eq_false_2 (axis + Z.of_nat rank >= 0)) by lia. done.
    + rewrite (bool_decide_eq_true_2 (axis >= 0)) by lia.
      rewrite (bool_decide_eq_false_2 (axis < Z.of_nat rank)) by lia. done.
Qed.

Lemma HandleSimpleNodeBase_pushed (args : HandlerArgs) (g : Graph) (dn dt : Node)
    (tin tout : string) :
  push_context args g dn dt tin tout → transposible_inputs args = [0%nat] →
  ∃ g', HandleSimpleNodeBase args false g = Some (true, g')
        ∧ pushed_through args g g' dn dt tin (n_attrs dn) (perm args).
Proof.
  intros Hctx Hidx.
  destruct (push_first_input_pushed args g dn dt tin tout (perm args) Hctx) as (g' & Hrun & H).
  { right. destruct Hctx as (_ & _ & _ & _ & _ & _ & _ & _ & _ & _ & Hinv & _). by eexists. }
  exists g'. split; [|exact H].
  unfold HandleSimpleNodeBase. rewrite bind_run, ret_run. cbn [negb].
  rewrite Hidx. exact Hrun.
Qed.

Lemma push_context_node_lt (args : HandlerArgs) (g : Graph) (dn dt : Node)
    (tin tout : string) :
  push_context args g dn dt tin tout → (node args < g_next_node g)%nat.
Proof.
  intros (_ & Hn & _ & _ & _ & _ & _ & _ & _ & _ & _ & _ & Hfresh).
  by apply (fresh_counter_lookup g _ dn).
Qed.

(** X20.  The handler of the operators with an [axis] attribute,
    [HandleSimpleNodeWithAxis], called in the call context of the driver with
    input 0 as the only transposible input (as for Split and for Softmax from
    opset 13 on, whose inputs are given by [FirstInput]): with an axis, given
    or by default, in [-rank, rank) it pushes and then sets [axis] to
    [perm[axis mod rank]]; with an axis outside that range, or with no axis
    and no default, it answers "unchanged" on the graph as it was. *)
Theorem HandleSimpleNodeWithAxis_updates_axis (args : HandlerArgs) (g : Graph) (dn dt : Node)
    (tin tout : string) (default_axis : option Z) :
  push_context args g dn dt tin tout → transposible_inputs args = [0%nat] →
  let rank := Z.of_nat (length (perm args)) in
  match (match attr_int dn "axis" with Some a => Some a | None => default_axis end) with
  | None => HandleSimpleNodeWithAxis args default_axis g = Some (false, g)
  | Some axis =>
      if decide (- rank ≤ axis < rank) then
        ∃ g' new_axis,
          HandleSimpleNodeWithAxis args default_axis g = Some (true, g')
          ∧ vec_get (perm args) (axis `mod` rank) = Some new_axis
          ∧ pushed_through args g g' dn dt tin
              (<["axis" := AttrInt new_axis]> (n_attrs dn)) (perm args)
      else HandleSimpleNodeWithAxis args default_axis g = Some (false, g)
  end.
Proof.
  intros Hctx Hidx rank.
  assert (nodes_lookup (g_nodes g) (node args) = Some dn) as Hn by apply Hctx.
  unfold HandleSimpleNodeWithAxis.
  rewrite bind_run, (GetAttributeInt_run g _ dn _ Hn).
  destruct (match attr_int dn "axis" with Some a => Some a | None => default_axis end)
    as [axis|]; [|done].
  rewrite NormalizeAndValidateAxis_spec. fold rank.
  destruct (decide (- rank ≤ axis < rank)) as [Hr|Hr]; [|done]. cbn [negb].
  destruct (HandleSimpleNodeBase_pushed args g dn dt tin tout Hctx Hidx) as (g1 & Hrun1 & H1).
  rewrite bind_run, Hrun1. cbn [negb].
  assert (0 ≤ axis `mod` rank < rank) as Hmod by (apply Z.mod_pos_bound; lia).
  destruct (vec_get_defined (perm args) (axis `mod` rank) Hmod) as [new_axis Hnew].
  rewrite bind_run, Hnew, lift_run. cbv beta iota.
  destruct (pushed_through_then_set_attrs args g g1 dn dt tin (n_attrs dn) (perm args)
              (λ a, <["axis" := AttrInt new_axis]> a)) as (g' & Hrun' & H');
    [apply Hctx|by apply (push_context_node_lt args g dn dt tin tout)|exact H1|].
  exists g', new_axis. unfold SetAttributeInt. rewrite bind_run, Hrun'. done.
Qed.

Lemma HandleSimpleNodeWithAxis_updates_axis_witness :
  ∃ g' new_axis,
    HandleSplit (args_single_op 13) (graph_single_op 13 "Split" {["axis" := AttrInt (-1)]})
    = Some (true, g')
    ∧ vec_get [0; 2; 1] 2 = Some new_axis
    ∧ pushed_through (args_single_op 13)
        (graph_single_op 13 "Split" {["axis" := AttrInt (-1)]}) g'
        (mkNode "Split" "" {["axis" := AttrInt (-1)]} ["t"] ["y"])
        (mkNode "Transpose" "" {["perm" := AttrInts [0; 2; 1]]} ["x"] ["t"]) "x"
        (<["axis" := AttrInt new_axis]> {["axis" := AttrInt (-1)]}) [0; 2; 1].
Proof.
  exact (HandleSimpleNodeWithAxis_updates_axis _ _ _ _ _ _ (Some 0)
           (push_context_single_op 13 "Split" {["axis" := AttrInt (-1)]}) eq_refl).
Defined.

Lemma push_after_set_attrs (args : HandlerArgs) (g : Graph) (dn dt : Node)
    (tin tout : string) (h : gmap string AttrValue → gmap string AttrValue)
    (out_perm : list Z) :
  push_context args g dn dt tin tout →
  IsIdentityPerm out_perm = true ∨ is_Some (InvertPerm out_perm) →
  ∃ g1 g', alter_node (node args) (λ d, set_attrs (h (n_attrs d)) d) g = Some (tt, g1)
           ∧ push_first_input args out_perm g1 = Some (true, g')
           ∧ pushed_through args g g' dn dt tin (h (n_attrs dn)) out_perm.
Proof.
  intros Hctx Hout.
  destruct (push_context_set_attrs args g dn dt tin tout h Hctx)
    as (g1 & Hrun1 & Hctx1 & Hother1 & Hnn1 & Hinit1 & Hout1).
  destruct (push_first_input_pushed args g1 _ dt tin tout out_perm Hctx1 Hout)
    as (g' & Hrun & H).
  exists g1, g'. split; [done|]. split; [done|].
  by apply (pushed_through_after_set_attrs args g g1 g').
Qed.

Lemma IsValidPerm_invertible (perm : list Z) :
  IsValidPerm perm = true → is_Some (InvertPerm perm).
Proof. intros H. destruct (InvertPerm_valid perm H) as (inv & -> & _). by eexists. Qed.

Lemma SqueezePerm_invertible (axes perm : list Z) :
  IsValidPerm perm = true →
  Forall (λ a, 0 ≤ a < Z.of_nat (length perm)) axes →
  ∃ sq, SqueezePerm axes perm = Some sq ∧ is_Some (InvertPerm sq).
Proof.
  intros Hvalid Haxes.
  destruct (SqueezePerm_defined axes perm Hvalid Haxes) as [sq Hsq].
  exists sq. split; [done|].
  apply InvertPerm_defined. by apply (SqueezePerm_range axes perm).
Qed.

(** X21.  The ArgMin/ArgMax handler in the call context of the driver: with
    an axis (0 by default) in [-rank, rank) it sets [axis] to
    [perm[axis mod rank]], transposes the first input, and transposes the
    outputs by [perm] when [keepdims] is nonzero and by
    [SqueezePerm([new_axis], perm)] when it is 0; with an axis outside that
    range it answers "unchanged" on the graph as it was. *)
Theorem HandleArgMinMax_pushes (args : HandlerArgs) (g : Graph) (dn dt : Node)
    (tin tout : string) :
  push_context args g dn dt tin tout → transposible_inputs args = [0%nat] →
  let rank := Z.of_nat (length (perm args)) in
  let axis := default 0 (attr_int dn "axis") in
  let keepdims := default 1 (attr_int dn "keepdims") in
  if decide (- rank ≤ axis < rank) then
    ∃ g' new_axis out_perm,
      HandleArgMinMax args g = Some (true, g')
      ∧ vec_get (perm args) (axis `mod` rank) = Some new_axis
      ∧ (if decide (keepdims ≠ 0) then out_perm = perm args
         else SqueezePerm [new_axis] (perm args) = Some out_perm)
      ∧ pushed_through args g g' dn dt tin
          (<["axis" := AttrInt new_axis]> (n_attrs dn)) out_perm
  else HandleArgMinMax args g = Some (false, g).
Proof.
  intros Hctx Hidx rank axis keepdims.
  assert (nodes_lookup (g_nodes g) (node args) = Some dn) as Hn by apply Hctx.
  assert (IsValidPerm (perm args) = true) as Hvalid by apply Hctx.
  unfold HandleArgMinMax.
  rewrite bind_run, (GetAttributeIntDefault_run g _ dn _ _ Hn). cbv beta iota.
  rewrite bind_run, (GetAttributeIntDefault_run g _ dn _ _ Hn). cbv beta iota.
  rewrite NormalizeAndValidateAxis_spec. fold rank axis keepdims.
  destruct (decide (- rank ≤ axis < rank)) as [Hr|Hr]; [|done]. cbn [negb].
  assert (0 ≤ axis `mod` rank < rank) as Hmod by (apply Z.mod_pos_bound; lia).
  destruct (vec_get_defined (perm args) (axis `mod` rank) Hmod) as [new_axis Hnew].
  rewrite bind_run, Hnew, lift_run. cbv beta iota.
  assert (0 ≤ new_axis < rank) as Hnewr.
  { pose proof (IsValidPerm_range _ Hvalid) as Hrange. rewrite Forall_forall in Hrange.
    apply Hrange. rewrite vec_get_in_range in Hnew by lia.
    by apply list_elem_of_lookup_2 in Hnew. }
  assert (∃ out_perm,
            (if decide (keepdims ≠ 0) then out_perm = perm args
             else SqueezePerm [new_axis] (perm args) = Some out_perm)
            ∧ is_Some (InvertPerm out_perm)) as (out_perm & Hout & Hinv).
  { destruct (decide (keepdims ≠ 0)).
    - exists (perm args). split; [done|]. by apply IsValidPerm_invertible.
    - destruct (SqueezePerm_invertible [new_axis] (perm args) Hvalid) as (sq & Hsq & Hv).
      + apply Forall_cons. split; [exact Hnewr|apply Forall_nil_2].
      + by exists sq. }
  destruct (push_after_set_attrs args g dn dt tin tout
              (λ a, <["axis" := AttrInt new_axis]> a) out_perm Hctx (or_intror Hinv))
    as (g1 & g' & Hrun1 & Hrun & H).
  exists g', new_axis, out_perm.
  split; [|split; [done|split; [exact Hout|exact H]]].
  unfold SetAttributeInt. rewrite bind_run, Hrun1. cbv beta iota.
  unfold push_first_input, TransposeFirstInput in Hrun. rewrite Hidx.
  rewrite bind_run in Hrun. rewrite bind_run.
  destruct (TransposeInputs _ _ _ [0%nat] g1) as [[[] g2]|]; [|done]. cbv beta iota in *.
  rewrite bind_run in Hrun. rewrite bind_run.
  destruct (decide (keepdims ≠ 0)).
  - subst out_perm. exact Hrun.
  - rewrite bind_run, Hout, lift_run. cbv beta iota. exact Hrun.
Qed.

Lemma HandleArgMinMax_pushes_witness :
  ∃ g' new_axis out_perm,
    HandleArgMinMax (args_single_op 13)
      (graph_single_op 13 "ArgMax" {["axis" := AttrInt 1; "keepdims" := AttrInt 0]})
    = Some (true, g')
    ∧ vec_get [0; 2; 1] 1 = Some new_axis
    ∧ SqueezePerm [new_axis] [0; 2; 1] = Some out_perm
    ∧ pushed_through (args_single_op 13)
        (graph_single_op 13 "ArgMax" {["axis" := AttrInt 1; "keepdims" := AttrInt 0]}) g'
        (mkNode "ArgMax" "" {["axis" := AttrInt 1; "keepdims" := AttrInt 0]} ["t"] ["y"])
        (mkNode "Transpose" "" {["perm" := AttrInts [0; 2; 1]]} ["x"] ["t"]) "x"
        (<["axis" := AttrInt new_axis]> {["axis" := AttrInt 1; "keepdims" := AttrInt 0]})
        out_perm.
Proof.
  exact (HandleArgMinMax_pushes _ _ _ _ _ _
           (push_context_single_op 13 "ArgMax"
              {["axis" := AttrInt 1; "keepdims" := AttrInt 0]}) eq_refl).
Defined.

(** X22.  The Pad handler below opset 11 in the call context of the driver:
    without a [pads] attribute it answers "unchanged" on the graph as it was;
    with pads of twice the rank it replaces them by
    [PermutePads(pads, perm_inv)], from which [PermutePads] with [perm] gives
    the former pads back, and pushes. *)
Theorem HandlePad_permutes_pads (args : HandlerArgs) (g : Graph) (dn dt : Node)
    (tin tout : string) :
  push_context args g dn dt tin tout → opset (ctx args) < 11 →
  match attr_ints dn "pads" with
  | None => HandlePad args g = Some (false, g)
  | Some pads =>
      length pads = (2 * length (perm args))%nat →
      ∃ g' new_pads,
        HandlePad args g = Some (true, g')
        ∧ PermutePads pads (perm_inv args) = Some new_pads
        ∧ PermutePads new_pads (perm args) = Some pads
        ∧ pushed_through args g g' dn dt tin
            (<["pads" := AttrInts new_pads]> (n_attrs dn)) (perm args)
  end.
Proof.
  intros Hctx Hopset.
  assert (nodes_lookup (g_nodes g) (node args) = Some dn) as Hn by apply Hctx.
  assert (IsValidPerm (perm args) = true) as Hvalid by apply Hctx.
  assert (InvertPerm (perm args) = Some (perm_inv args)) as Hinv by apply Hctx.
  assert (InvertPerm (perm_inv args) = Some (perm args)) as Hinv' by apply Hctx.
  unfold HandlePad. cbv zeta.
  destruct (decide (opset (ctx args) < 11)) as [_|]; [|done].
  rewrite !bind_run, (GetAttributeInts_run g _ dn _ Hn).
  destruct (attr_ints dn "pads") as [pads|]; [|done].
  intros Hlen.
  destruct (InvertPerm_valid _ Hvalid) as (inv & Hinv0 & Hleninv & _ & Hvalidinv).
  assert (inv = perm_inv args) as -> by congruence.
  destruct (PermutePads_round_trip_aux pads (perm_inv args) (perm args) Hvalidinv Hinv')
    as (new_pads & Hpads & _ & _ & Hback); [lia|].
  rewrite bind_run, Hpads, lift_run. cbv beta iota.
  destruct (push_after_set_attrs args g dn dt tin tout
              (λ a, <["pads" := AttrInts new_pads]> a) (perm args) Hctx)
    as (g1 & g' & Hrun1 & Hrun & H).
  { right. by eexists. }
  exists g', new_pads. split; [|done].
  unfold SetAttributeInts. rewrite bind_run, Hrun1. cbv beta iota.
  rewrite ret_run. cbv beta iota.
  unfold push_first_input in Hrun. rewrite bind_run in Hrun. rewrite bind_run.
  destruct (TransposeFirstInput _ _ _ g1) as [[[] g2]|]; [|done]. cbv beta iota in *.
  rewrite bind_run in Hrun. rewrite bind_run.
  destruct (TransposeOutputs _ _ _ g2) as [[[] g3]|]; [|done]. cbv beta iota in *.
  exact Hrun.
Qed.

Lemma HandlePad_permutes_pads_witness :
  ∃ g' new_pads,
    HandlePad (args_single_op 10)
      (graph_single_op 10 "Pad" {["pads" := AttrInts [1; 2; 3; 4; 5; 6]]}) = Some (true, g')
    ∧ PermutePads [1; 2; 3; 4; 5; 6] [0; 2; 1] = Some new_pads
    ∧ PermutePads new_pads [0; 2; 1] = Some [1; 2; 3; 4; 5; 6]
    ∧ pushed_through (args_single_op 10)
        (graph_single_op 10 "Pad" {["pads" := AttrInts [1; 2; 3; 4; 5; 6]]}) g'
        (mkNode "Pad" "" {["pads" := AttrInts [1; 2; 3; 4; 5; 6]]} ["t"] ["y"])
        (mkNode "Transpose" "" {["perm" := AttrInts [0; 2; 1]]} ["x"] ["t"]) "x"
        (<["pads" := AttrInts new_pads]> {["pads" := AttrInts [1; 2; 3; 4; 5; 6]]})
        [0; 2; 1].
Proof.
  exact (HandlePad_permutes_pads _ _ _ _ _ _
           (push_context_single_op 10 "Pad" {["pads" := AttrInts [1; 2; 3; 4; 5; 6]]})
           ltac:(cbn; lia) eq_refl).
Defined.








(** ** Transposes that cancel *)

Lemma set_inputs_same (d : Node) : set_inputs (n_inputs d) d = d.
Proof. by destruct d. Qed.

Lemma set_nodes_same (g : Graph) : set_nodes (g_nodes g) g = g.
Proof. by destruct g. Qed.

Lemma redirect_inputs_idemp (old new : string) (d : Node) :
  redirect_inputs old new (redirect_inputs old new d) = redirect_inputs old new d.
Proof.
  destruct d as [op dom attrs ins outs]. unfold redirect_inputs, set_inputs.
  cbn [n_inputs n_op_type n_domain n_attrs n_outputs]. f_equal.
  rewrite <- list_fmap_compose. apply list_fmap_ext. intros _ x _. cbn.
  destruct (decide (x = old)) as [->|Hx]; [|by rewrite decide_False].
  by destruct (decide (new = old)).
Qed.

Lemma redirect_inputs_unused (old new : string) (d : Node) :
  old ∉ n_inputs d → redirect_inputs old new d = d.
Proof.
  intros H. unfold redirect_inputs.
  assert ((λ inp, if decide (inp = old) then new else inp) <$> n_inputs d = n_inputs d)
    as ->; [|apply set_inputs_same].
  rewrite <- (list_fmap_id (n_inputs d)) at 2. apply list_fmap_ext.
  intros i x Hx. apply list_elem_of_lookup_2 in Hx.
  destruct (decide (x = old)) as [->|]; done.
Qed.

(** The inner loop of [ReplaceValueReferences] from input [length pre] on. *)
Lemma replace_inputs_loop (n : NodeRef) (old new : string) (rest pre : list string)
    (g : Graph) (d : Node) :
  nodes_lookup (g_nodes g) n = Some d → n_inputs d = pre ++ rest →
  ∃ ns',
    for_each (imap (λ i inp, ((length pre + i)%nat, inp)) rest)
      (λ '(i, inp), when (bool_decide (inp = old)) (SetInput n i new)) g
    = Some (tt, set_nodes ns' g)
    ∧ nodes_lookup ns' n
      = Some (set_inputs (pre ++ ((λ inp, if decide (inp = old) then new else inp) <$> rest)) d)
    ∧ ∀ m, m ≠ n → nodes_lookup ns' m = nodes_lookup (g_nodes g) m.
Proof.
  revert pre g d. induction rest as [|x rest IH]; intros pre g d Hn Hins.
  - exists (g_nodes g). cbn [imap for_each fmap list_fmap]. rewrite set_nodes_same.
    split; [done|]. split; [|done]. by rewrite <- Hins, set_inputs_same.
  - cbn [imap for_each]. rewrite bind_run.
    rewrite (imap_ext _ (λ i inp, ((length (pre ++ [x]) + i)%nat, inp)) rest)
      by (intros i y _; cbn; rewrite length_app; cbn; f_equal; lia).
    cbv beta iota. destruct (decide (x = old)) as [->|Hx].
    + rewrite bool_decide_eq_true_2 by done. cbn [when]. unfold SetInput.
      rewrite (alter_node_run g _ d _ Hn). cbv beta iota.
      set (g1 := set_nodes _ g).
      assert (nodes_lookup (g_nodes g1) n = Some (set_inputs (pre ++ new :: rest) d)) as Hn1.
      { subst g1. cbn [g_nodes set_nodes].
        rewrite (nodes_lookup_alter_eq _ _ _ _ Hn). do 2 f_equal.
        unfold put_input. rewrite Hins, Nat.add_0_r.
        replace (S (length pre) - length (pre ++ old :: rest))%nat with 0%nat
          by (rewrite length_app; cbn; lia).
        cbn [replicate]. rewrite app_nil_r.
        rewrite insert_app_r_alt by lia. by rewrite Nat.sub_diag. }
      rewrite (imap_ext _ (λ i inp, ((length (pre ++ [new]) + i)%nat, inp)) rest)
        by (intros i y _; cbn; rewrite !length_app; done).
      destruct (IH (pre ++ [new]) g1 _ Hn1) as (ns' & Hrun & Hn' & Hother).
      { cbn [n_inputs set_inputs]. by rewrite <- app_assoc. }
      exists ns'. split; [exact Hrun|]. split.
      * rewrite Hn'. cbn [fmap list_fmap]. rewrite decide_True by done.
        rewrite <- app_assoc. done.
      * intros m Hm. rewrite (Hother m Hm). subst g1. cbn [g_nodes set_nodes].
        by rewrite nodes_lookup_alter_ne.
    + rewrite bool_decide_eq_false_2 by done. cbn [when]. rewrite ret_run. cbv beta iota.
      destruct (IH (pre ++ [x]) g d Hn) as (ns' & Hrun & Hn' & Hother).
      { by rewrite <- app_assoc. }
      exists ns'. split; [exact Hrun|]. split; [|exact Hother].
      rewrite Hn'. cbn [fmap list_fmap]. rewrite decide_False by done.
      by rewrite <- app_assoc.
Qed.

Lemma ReplaceValueReferences_spec (old new : string) (ns : list NodeRef) (g : Graph) :
  Forall (λ m, is_Some (nodes_lookup (g_nodes g) m)) ns →
  ∃ ns',
    ReplaceValueReferences ns old new g = Some (tt, set_nodes ns' g)
    ∧ ∀ m, nodes_lookup ns' m
           = if decide (m ∈ ns) then redirect_inputs old new <$> nodes_lookup (g_nodes g) m
             else nodes_lookup (g_nodes g) m.
Proof.
  revert g. induction ns as [|m0 ns IH]; intros g Hall.
  - exists (g_nodes g). unfold ReplaceValueReferences. cbn [for_each].
    rewrite set_nodes_same. split; [done|]. intros m.
    by rewrite decide_False by apply not_elem_of_nil.
  - apply Forall_cons in Hall as [[d0 Hd0] Hall].
    unfold ReplaceValueReferences. cbn [for_each].
    rewrite !bind_run, (Inputs_run g _ d0 Hd0). cbv beta iota.
    destruct (replace_inputs_loop m0 old new (n_inputs d0) [] g d0 Hd0 eq_refl)
      as (ns1 & Hrun1 & Hn1 & Hother1).
    change (imap (λ i inp, ((length (@nil string) + i)%nat, inp)) (n_inputs d0))
      with (imap (λ i inp, (i, inp)) (n_inputs d0)) in Hrun1.
    rewrite Hrun1. cbv beta iota.
    destruct (IH (set_nodes ns1 g)) as (ns2 & Hrun2 & H2).
    { apply Forall_forall. intros m Hm. cbn [g_nodes set_nodes].
      destruct (decide (m = m0)) as [->|Hne]; [by rewrite Hn1|].
      rewrite (Hother1 m Hne). rewrite Forall_forall in Hall. by apply Hall. }
    exists ns2. split; [exact Hrun2|]. intros m. rewrite H2. cbn [g_nodes set_nodes].
    destruct (decide (m = m0)) as [->|Hne].
    + rewrite Hn1, Hd0. rewrite (decide_True (P := m0 ∈ m0 :: ns)) by apply list_elem_of_here.
      cbn [app]. fold (redirect_inputs old new d0).
      destruct (decide (m0 ∈ ns)); [|done]. cbn. by rewrite redirect_inputs_idemp.
    + rewrite (Hother1 m Hne).
      destruct (decide (m ∈ ns)) as [Hin|Hin].
      * by rewrite decide_True by (by apply list_elem_of_further).
      * rewrite decide_False; [done|]. by rewrite not_elem_of_cons.
Qed.

(** The consumers of a named value are its readers. *)
Lemma redirect_consumers (g : Graph) (old new : string) (m : NodeRef) :
  old ≠ "" →
  (if decide (m ∈ (filter (λ p, consumes old p.2 = true) (g_nodes g)).*1)
   then redirect_inputs old new <$> nodes_lookup (g_nodes g) m
   else nodes_lookup (g_nodes g) m)
  = redirect_inputs old new <$> nodes_lookup (g_nodes g) m.
Proof.
  intros Hold. destruct (decide _) as [|Hnot]; [done|].
  destruct (nodes_lookup (g_nodes g) m) as [d|] eqn:Hd; [|done]. cbn.
  rewrite redirect_inputs_unused; [done|]. intros Hin. apply Hnot.
  apply list_elem_of_fmap. exists (m, d). split; [done|].
  apply list_elem_of_filter. split; [|by apply nodes_lookup_elem].
  unfold consumes. cbn [snd].
  by rewrite bool_decide_eq_false_2, bool_decide_eq_true_2.
Qed.

(** X25.  Adjacent Transposes whose perms cancel: when the downstream node's
    valid perm is [perm_inv] and its output [nout] is no graph output, the
    handler returns true, the downstream node is removed and every node that
    read [nout] reads the upstream node's input [tin] instead; the upstream
    node is removed or kept, and no node is added, and no initializer,
    [ValueInfo] or graph output changes. *)
Theorem HandleTranspose_cancels (args : HandlerArgs) (g : Graph) (dt dn : Node)
    (tin nout tout : string) :
  node args ≠ transpose args →
  nodes_lookup (g_nodes g) (transpose args) = Some dt →
  nodes_lookup (g_nodes g) (node args) = Some dn →
  attr_ints dn "perm" = Some (perm_inv args) → IsValidPerm (perm_inv args) = true →
  n_inputs dt !! 0%nat = Some tin →
  n_outputs dt !! 0%nat = Some tout →
  n_outputs dn !! 0%nat = Some nout →
  nout ≠ "" → nout ∉ g_outputs g →
  ∃ g', HandleTranspose args g = Some (true, g')
        ∧ nodes_lookup (g_nodes g') (node args) = None
        ∧ (nodes_lookup (g_nodes g') (transpose args) = None
           ∨ nodes_lookup (g_nodes g') (transpose args) = Some (redirect_inputs nout tin dt))
        ∧ (∀ m, m ≠ node args → m ≠ transpose args →
                nodes_lookup (g_nodes g') m
                = redirect_inputs nout tin <$> nodes_lookup (g_nodes g) m)
        ∧ g_next_node g' = g_next_node g
        ∧ g_initializers g' = g_initializers g
        ∧ g_value_info g' = g_value_info g
        ∧ g_outputs g' = g_outputs g.
Proof.
  intros Hne Ht Hn Hq Hvalid Htin Htout Hnout Hname Hcompr.
  unfold HandleTranspose.
  rewrite bind_run, (GetPermAttrIfValid_run g _ dn Hn), Hq, Hvalid.
  rewrite bind_run, (Inputs_run g _ dt Ht).
  rewrite bind_run, Htin, lift_run.
  rewrite bind_run, (Outputs_run g _ dn Hn).
  rewrite bind_run, Hnout, lift_run.
  rewrite decide_True by done.
  rewrite !bind_run.
  change (GetValueConsumers nout g) with
    (Some ({| vc_nodes := (filter (λ p, consumes nout p.2 = true) (g_nodes g)).*1;
              comprehensive := bool_decide (nout ∉ g_outputs g) |}, g)).
  cbv beta iota. cbn [comprehensive vc_nodes].
  rewrite bool_decide_eq_true_2 by done.
  destruct (ReplaceValueReferences_spec nout tin
              (filter (λ p, consumes nout p.2 = true) (g_nodes g)).*1 g)
    as (ns1 & Hrun1 & H1).
  { apply Forall_forall. intros m Hm. apply nodes_lookup_ids.
    apply list_elem_of_fmap in Hm as (p & -> & Hp). apply list_elem_of_filter in Hp as [_ Hp].
    apply list_elem_of_fmap. by exists p. }
  rewrite ?bind_run, Hrun1. cbv beta iota.
  assert (∀ m, nodes_lookup ns1 m = redirect_inputs nout tin <$> nodes_lookup (g_nodes g) m)
    as H1'.
  { intros m. rewrite H1. by apply redirect_consumers. }
  assert (nodes_lookup (g_nodes (set_nodes ns1 g)) (node args)
          = Some (redirect_inputs nout tin dn)) as Hn1.
  { cbn [g_nodes set_nodes]. by rewrite H1', Hn. }
  rewrite (RemoveNode_run _ _ _ Hn1). cbv beta iota.
  set (g2 := set_nodes (nodes_remove _ _) _).
  assert (∀ m, m ≠ node args →
               nodes_lookup (g_nodes g2) m
               = redirect_inputs nout tin <$> nodes_lookup (g_nodes g) m) as H2.
  { intros m Hm. subst g2. cbn [g_nodes set_nodes].
    rewrite nodes_lookup_remove_ne by done. apply H1'. }
  assert (nodes_lookup (g_nodes g2) (transpose args) = Some (redirect_inputs nout tin dt))
    as Ht2.
  { rewrite H2 by done. by rewrite Ht. }
  rewrite ?bind_run, (Outputs_run g2 _ _ Ht2).
  cbn [redirect_inputs n_outputs set_inputs].
  rewrite ?bind_run, Htout, lift_run.
  unfold HasValueConsumers. rewrite !bind_run.
  change (GetValueConsumers tout g2) with
    (Some ({| vc_nodes := (filter (λ p, consumes tout p.2 = true) (g_nodes g2)).*1;
              comprehensive := bool_decide (tout ∉ g_outputs g2) |}, g2)).
  cbv beta iota. rewrite ret_run.
  destruct (negb (negb _)).
  - cbn [when]. rewrite bind_run, (RemoveNode_run g2 _ _ Ht2).
    eexists. split; [reflexivity|].
    cbn [g_nodes set_nodes g_initializers g_value_info g_outputs g_next_node].
    split.
    { rewrite nodes_lookup_remove_ne by done. apply nodes_lookup_remove_eq. }
    split; [left; apply nodes_lookup_remove_eq|].
    split; [|done].
    intros m Hm1 Hm2. rewrite nodes_lookup_remove_ne by done. by apply H2.
  - cbn [when]. rewrite bind_run, ret_run. cbv beta iota.
    eexists. split; [reflexivity|].
    split; [subst g2; cbn [g_nodes set_nodes]; apply nodes_lookup_remove_eq|].
    split; [by right|]. split; [|done].
    intros m Hm1 Hm2. by apply H2.
Qed.

Lemma HandleTranspose_cancels_witness :
  ∃ g', HandleTranspose args_cancelling_transposes graph_cancelling_transposes = Some (true, g')
        ∧ nodes_lookup (g_nodes g') 1%nat = None
        ∧ nodes_lookup (g_nodes g') 2%nat = Some (mkNode "Relu" "" ∅ ["x"] ["y"]).
Proof.
  destruct (HandleTranspose_cancels args_cancelling_transposes graph_cancelling_transposes
              (mkNode "Transpose" "" {["perm" := AttrInts [1; 2; 0]]} ["x"] ["t"])
              (mkNode "Transpose" "" {["perm" := AttrInts [2; 0; 1]]} ["t"] ["u"])
              "x" "u" "t")
    as (g' & Hrun & Hn & _ & Hother & _);
    [discriminate|reflexivity|reflexivity|reflexivity|reflexivity|reflexivity|reflexivity
    |reflexivity|discriminate| |].
  - cbn. rewrite list_elem_of_singleton. discriminate.
  - exists g'. split; [exact Hrun|]. split; [exact Hn|].
    exact (Hother 2%nat ltac:(discriminate) ltac:(discriminate)).
Defined.

(** ** The non-scalar inputs of a node *)

Lemma NonScalarInputs_loop_spec (g : Graph) (inputs : list string) (i : nat) :
  (is_Some (NonScalarInputs_loop i inputs g)
   ↔ Forall (λ inp, is_Some (vi_shape (value_info_of g inp))) inputs)
  ∧ ∀ l g', NonScalarInputs_loop i inputs g = Some (l, g') →
      g' = g ∧ StronglySorted lt l
      ∧ ∀ j, j ∈ l ↔ ∃ (k : nat) inp sh,
                 j = (i + k)%nat ∧ inputs !! k = Some inp
                 ∧ vi_shape (value_info_of g inp) = Some sh ∧ sh ≠ [].
Proof.
  revert i. induction inputs as [|x rest IH]; intros i.
  - cbn [NonScalarInputs_loop]. rewrite ret_run. split; [split; [done|by eexists]|].
    intros l g' [= <- <-]. split; [done|]. split; [constructor|].
    intros j. split; [by intros ?%elem_of_nil|by intros (k & inp & sh & _ & ? & _)].
  - destruct (IH (S i)) as [IHdef IHres]. cbn [NonScalarInputs_loop]. rewrite !bind_run.
    change (ValueShape x g) with (Some (vi_shape (value_info_of g x), g)). cbv beta iota.
    rewrite Forall_cons.
    destruct (vi_shape (value_info_of g x)) as [sh|] eqn:Hsh.
    + rewrite bind_run, lift_run. cbv beta iota. rewrite bind_run.
      destruct (NonScalarInputs_loop (S i) rest g) as [[indices g1]|] eqn:Hloop.
      * cbv beta iota. rewrite ret_run.
        destruct (IHres indices g1 eq_refl) as (-> & Hsorted & Hmem).
        split; [split; [intros _; split; [by eexists|apply IHdef; by eexists]|by eexists]|].
        intros l g' [= <- <-]. split; [done|].
        assert (∀ j, j ∈ indices → (i < j)%nat) as Hlt.
        { intros j (k & _ & _ & -> & _)%Hmem. lia. }
        destruct (decide (length sh ≠ 0%nat)) as [Hlen|Hlen].
        -- split; [constructor; [done|by apply Forall_forall]|].
           intros j. rewrite elem_of_cons, Hmem. split.
           ++ intros [->|(k & inp & sh' & -> & Hk & Hsh' & Hne)].
              ** exists 0%nat, x, sh. split; [lia|]. split; [done|]. split; [done|].
                 by intros ->.
              ** exists (S k), inp, sh'. split; [lia|done].
           ++ intros (k & inp & sh' & -> & Hk & Hsh' & Hne). destruct k as [|k].
              ** left. lia.
              ** right. exists k, inp, sh'. split; [lia|done].
        -- split; [done|]. intros j. rewrite Hmem. split.
           ++ intros (k & inp & sh' & -> & Hk & Hsh' & Hne).
              exists (S k), inp, sh'. split; [lia|done].
           ++ intros (k & inp & sh' & -> & Hk & Hsh' & Hne). destruct k as [|k].
              ** injection Hk as <-. assert (sh' = sh) as -> by congruence.
                 destruct sh; [done|]. by destruct Hlen.
              ** exists k, inp, sh'. split; [lia|done].
      * split; [|done]. split; [by intros [? ?]|].
        intros [_ Hrest]. apply IHdef in Hrest. by destruct Hrest as [? ?].
    + split; [|done]. split; [by intros [? ?]|by intros [[? ?] _]].
Qed.

(** X26.  [NonScalarInputs] has a result exactly when every input of the node
    has a known shape (it dereferences the optional shape of each one).  The
    result lists, in ascending order, the indices of the inputs whose shape
    has at least one dimension, and the graph is not touched. *)
Theorem NonScalarInputs_known_shapes (c : OptimizerCtx) (g : Graph) (n : NodeRef) (d : Node) :
  nodes_lookup (g_nodes g) n = Some d →
  (is_Some (NonScalarInputs c n g)
   ↔ Forall (λ inp, is_Some (vi_shape (value_info_of g inp))) (n_inputs d))
  ∧ ∀ l g', NonScalarInputs c n g = Some (l, g') →
      g' = g ∧ StronglySorted lt l
      ∧ ∀ i, i ∈ l ↔ ∃ inp sh, n_inputs d !! i = Some inp
                                ∧ vi_shape (value_info_of g inp) = Some sh ∧ sh ≠ [].
Proof.
  intros Hn. unfold NonScalarInputs. rewrite bind_run, (Inputs_run g n d Hn). cbv beta iota.
  destruct (NonScalarInputs_loop_spec g (n_inputs d) 0) as [Hdef Hres].
  split; [exact Hdef|]. intros l g' Hrun.
  destruct (Hres l g' Hrun) as (-> & Hsorted & Hmem). split; [done|]. split; [done|].
  intros i. rewrite Hmem. split.
  - intros (k & inp & sh & -> & H). by exists inp, sh.
  - intros (inp & sh & H). by exists i, inp, sh.
Qed.

Lemma NonScalarInputs_known_shapes_witness :
  ∃ l, NonScalarInputs ctx_13 1%nat graph_relu_add = Some (l, graph_relu_add)
       ∧ StronglySorted lt l
       ∧ (1%nat ∈ l ↔ ∃ inp sh, ["r"; "b"] !! 1%nat = Some inp
                                 ∧ vi_shape (value_info_of graph_relu_add inp) = Some sh
                                 ∧ sh ≠ []).
Proof.
  destruct (NonScalarInputs_known_shapes ctx_13 graph_relu_add 1%nat
              (mkNode "Add" "" ∅ ["r"; "b"] ["y"]) eq_refl) as [Hdef Hres].
  destruct (proj2 Hdef) as [[l g'] Hrun].
  { repeat constructor; by eexists. }
  destruct (Hres l g' Hrun) as (-> & Hsorted & Hmem).
  exists l. split; [exact Hrun|]. split; [exact Hsorted|exact (Hmem 1%nat)].
Defined.

(** ** The reduce handler within the rank *)

(** The reduce handler in the call context of the driver, for axes that are
    unset or whose normalized entries lie within the rank: it answers
    "modified", the node reads the input of the upstream Transpose, and its
    outputs are transposed by [perm] when [keepdims] is nonzero; when it is
    0 they are left alone for unset axes and transposed by
    [SqueezePerm(new_axes, perm)] otherwise.  Set axes become
    [SortedAxesForTransposedInput(axes', perm)]. *)
Lemma HandleReduceOp_pushed (args : HandlerArgs) (g : Graph) (dn dt : Node)
    (tin tout : string) :
  push_context args g dn dt tin tout →
  let keepdims := default 1 (attr_int dn "keepdims") in
  match attr_ints dn "axes" with
  | None =>
      ∃ g', HandleReduceOp args g = Some (true, g')
            ∧ pushed_through args g g' dn dt tin (n_attrs dn)
                (if decide (keepdims = 0) then [] else perm args)
  | Some axes =>
      ∀ axes', NormalizeAndValidateAxes axes (length (perm args)) = (true, axes') →
        Forall (λ a, 0 ≤ a < Z.of_nat (length (perm args))) axes' →
        ∃ g' new_axes out_perm,
          HandleReduceOp args g = Some (true, g')
          ∧ SortedAxesForTransposedInput axes' (perm args) = Some new_axes
          ∧ (if decide (keepdims = 0) then SqueezePerm new_axes (perm args) = Some out_perm
             else out_perm = perm args)
          ∧ pushed_through args g g' dn dt tin
              (<["axes" := AttrInts new_axes]> (n_attrs dn)) out_perm
  end.
Proof.
  intros Hctx keepdims.
  assert (nodes_lookup (g_nodes g) (node args) = Some dn) as Hn by apply Hctx.
  assert (IsValidPerm (perm args) = true) as Hvalid by apply Hctx.
  destruct (attr_ints dn "axes") as [axes|] eqn:Haxes.
  - intros axes' Hnorm Hrange.
    rewrite (HandleReduceOp_axes_set args g dn axes axes' Hn Haxes Hnorm).
    fold keepdims. unfold reduce_axes_push.
    destruct (SortedAxesForTransposedInput_defined axes' (perm args) Hvalid Hrange)
      as [new_axes Hnew].
    pose proof (SortedAxesForTransposedInput_spec _ _ _ Hnew) as (_ & Hnewrange & _).
    assert (∃ out_perm,
              (if decide (keepdims = 0) then SqueezePerm new_axes (perm args) = Some out_perm
               else out_perm = perm args)
              ∧ is_Some (InvertPerm out_perm)) as (out_perm & Hout & Hinv).
    { destruct (decide (keepdims = 0)).
      - destruct (SqueezePerm_invertible new_axes (perm args) Hvalid Hnewrange)
          as (sq & Hsq & Hv). by exists sq.
      - exists (perm args). split; [done|]. by apply IsValidPerm_invertible. }
    destruct (push_after_set_attrs args g dn dt tin tout
                (λ a, <["axes" := AttrInts new_axes]> a) out_perm Hctx (or_intror Hinv))
      as (g1 & g' & Hrun1 & Hrun & H).
    exists g', new_axes, out_perm. split; [|done].
    rewrite bind_run, Hnew, lift_run. cbv beta iota.
    unfold SetAttributeInts. rewrite !bind_run, Hrun1. cbv beta iota.
    rewrite ?bind_run.
    destruct (decide (keepdims = 0)).
    + rewrite Hout, lift_run. cbv beta iota. exact Hrun.
    + subst out_perm. rewrite ret_run. cbv beta iota. exact Hrun.
  - rewrite (HandleReduceOp_axes_unset args g dn Hn Haxes). fold keepdims.
    apply (push_first_input_pushed args g dn dt tin tout _ Hctx).
    destruct (decide (keepdims = 0)); [by left|right; by apply IsValidPerm_invertible].
Qed.

(** ** Squeeze with an axes attribute *)



(** ** Quantization along an axis *)

Example push_context_quantize_per_axis :
  push_context (args_single_op 13) graph_quantize_per_axis
    (mkNode "QuantizeLinear" "" ∅ ["t"; "s"; "z"] ["y"])
    (mkNode "Transpose" "" {["perm" := AttrInts [0; 2; 1]]} ["x"] ["t"]) "x" "t".
Proof.
  repeat split; try reflexivity; try done.
  repeat constructor; cbn; lia.
Qed.

(** X28.  The QuantizeLinear/DequantizeLinear handler in the call context of
    the driver.  Below opset 13, or when the shape of the scale input is
    known and empty, it pushes and keeps the attributes.  From opset 13 on
    with a scale that is not known to be a scalar, an axis (1 by default) in
    [-rank, rank) is replaced by [perm[axis mod rank]] before the push, and an
    axis outside that range gives "unchanged" on the graph as it was. *)
Theorem HandleQuantizeDequantizeLinear_axis (args : HandlerArgs) (g : Graph) (dn dt : Node)
    (tin tout scale : string) :
  push_context args g dn dt tin tout → n_inputs dn !! 1%nat = Some scale →
  let rank := Z.of_nat (length (perm args)) in
  let axis := default 1 (attr_int dn "axis") in
  if bool_decide (opset (ctx args) >= 13)
     && negb (bool_decide (vi_shape (value_info_of g scale) = Some []))
  then
    if decide (- rank ≤ axis < rank) then
      ∃ g' new_axis,
        HandleQuantizeDequantizeLinear args g = Some (true, g')
        ∧ vec_get (perm args) (axis `mod` rank) = Some new_axis
        ∧ pushed_through args g g' dn dt tin
            (<["axis" := AttrInt new_axis]> (n_attrs dn)) (perm args)
    else HandleQuantizeDequantizeLinear args g = Some (false, g)
  else
    ∃ g', HandleQuantizeDequantizeLinear args g = Some (true, g')
          ∧ pushed_through args g g' dn dt tin (n_attrs dn) (perm args).
Proof.
  intros Hctx Hscale rank axis.
  assert (nodes_lookup (g_nodes g) (node args) = Some dn) as Hn by apply Hctx.
  assert (IsValidPerm (perm args) = true) as Hvalid by apply Hctx.
  assert (∃ g', (TransposeFirstInput (ctx args) (node args) (perm_inv args);;
                 TransposeOutputs (ctx args) (node args) (perm args);;
                 mret true) g = Some (true, g')
                ∧ pushed_through args g g' dn dt tin (n_attrs dn) (perm args)) as Hpush.
  { apply (push_first_input_pushed args g dn dt tin tout (perm args) Hctx).
    right. by apply IsValidPerm_invertible. }
  unfold HandleQuantizeDequantizeLinear. cbv zeta.
  destruct (decide (opset (ctx args) >= 13)) as [Hopset|Hopset].
  - rewrite (bool_decide_eq_true_2 _ Hopset). cbn [andb].
    rewrite !bind_run, (Inputs_run g _ dn Hn). cbv beta iota.
    rewrite bind_run, Hscale, lift_run. cbv beta iota. rewrite bind_run.
    change (ValueShape scale g) with (Some (vi_shape (value_info_of g scale), g)).
    cbv beta iota.
    assert ((match vi_shape (value_info_of g scale) with
             | Some sh => bool_decide (length sh = 0%nat)
             | None => false
             end)
            = bool_decide (vi_shape (value_info_of g scale) = Some [])) as ->.
    { destruct (vi_shape (value_info_of g scale)) as [[|x sh]|]; done. }
    destruct (bool_decide (vi_shape (value_info_of g scale) = Some [])).
    + cbn [negb]. rewrite ret_run. cbv beta iota. exact Hpush.
    + cbn [negb]. rewrite bind_run, (GetAttributeIntDefault_run g _ dn _ _ Hn).
      cbv beta iota. rewrite NormalizeAndValidateAxis_spec. fold rank axis.
      destruct (decide (- rank ≤ axis < rank)) as [Hr|Hr]; [|done].
      cbn [negb].
      assert (0 ≤ axis `mod` rank < rank) as Hmod by (apply Z.mod_pos_bound; lia).
      destruct (vec_get_defined (perm args) (axis `mod` rank) Hmod) as [new_axis Hnew].
      rewrite bind_run, Hnew, lift_run. cbv beta iota.
      destruct (push_after_set_attrs args g dn dt tin tout
                  (λ a, <["axis" := AttrInt new_axis]> a) (perm args) Hctx)
        as (g1 & g' & Hrun1 & Hrun & H).
      { right. by apply IsValidPerm_invertible. }
      exists g', new_axis. split; [|done].
      unfold SetAttributeInt. rewrite !bind_run, Hrun1. cbv beta iota.
      rewrite ret_run. cbv beta iota. exact Hrun.
  - rewrite (bool_decide_eq_false_2 _ Hopset). cbn [andb].
    rewrite bind_run, ret_run. cbv beta iota. exact Hpush.
Qed.

Lemma HandleQuantizeDequantizeLinear_axis_witness :
  ∃ g' new_axis,
    HandleQuantizeDequantizeLinear (args_single_op 13) graph_quantize_per_axis = Some (true, g')
    ∧ vec_get [0; 2; 1] 1 = Some new_axis
    ∧ pushed_through (args_single_op 13) graph_quantize_per_axis g'
        (mkNode "QuantizeLinear" "" ∅ ["t"; "s"; "z"] ["y"])
        (mkNode "Transpose" "" {["perm" := AttrInts [0; 2; 1]]} ["x"] ["t"]) "x"
        (<["axis" := AttrInt new_axis]> ∅) [0; 2; 1].
Proof.
  exact (HandleQuantizeDequantizeLinear_axis (args_single_op 13) graph_quantize_per_axis
           (mkNode "QuantizeLinear" "" ∅ ["t"; "s"; "z"] ["y"])
           (mkNode "Transpose" "" {["perm" := AttrInts [0; 2; 1]]} ["x"] ["t"])
           "x" "t" "s" push_context_quantize_per_axis eq_refl).
Defined.

(** ** The perm of an unsqueezed tensor *)

(** The second loop of [UnsqueezePerm] collects the axes that were not
    added. *)
Lemma UnsqueezePerm_axes_map (F : list bool) (l am : list Z) :
  Forall (λ i, 0 ≤ i < Z.of_nat (length F)) l →
  vec_fold (λ am i, added ← vec_get F i; Some (if added : bool then am else am ++ [i])) am l
  = Some (am ++ filter (λ i, ¬ default false (F !! Z.to_nat i) = true) l).
Proof.
  revert am. induction l as [|i l IH]; intros am Hl.
  - by rewrite app_nil_r.
  - apply Forall_cons in Hl as [Hi Hl]. cbn [vec_fold].
    rewrite vec_get_in_range by lia.
    destruct (F !! Z.to_nat i) as [b|] eqn:E; [|apply lookup_ge_None in E; lia].
    cbn [mbind option_bind]. rewrite (IH _ Hl), filter_cons, E. cbn [default].
    destruct b.
    + by rewrite decide_False by (by intros H; apply H).
    + rewrite decide_True by done. by rewrite <- app_assoc.
Qed.

(** The third loop of [UnsqueezePerm] from the counter [j] on: an added axis
    stays where it is, and the other positions take the images under
    [axes_map] of the next entries of [perm]. *)
Lemma UnsqueezePerm_loop (F : list bool) (A perm l np : list Z) (j : nat) :
  Forall (λ i, 0 ≤ i < Z.of_nat (length F)) l →
  Forall (λ p, 0 ≤ p < Z.of_nat (length A)) perm →
  (j + length (filter (λ i, ¬ default false (F !! Z.to_nat i) = true) l) ≤ length perm)%nat →
  ∃ res xs,
    vec_fold (λ '(new_perm, j) i,
         added ← vec_get F i;
         if added : bool then Some (new_perm ++ [i], j)
         else
           perm_axis ← vec_get perm j;
           x ← vec_get A perm_axis;
           Some (new_perm ++ [x], j + 1))
       (np, Z.of_nat j) l
    = Some (np ++ res,
            Z.of_nat (j + length (filter (λ i, ¬ default false (F !! Z.to_nat i) = true) l)))
    ∧ Forall2 (λ i x, default false (F !! Z.to_nat i) = true → x = i) l res
    ∧ Forall2 (λ p x, vec_get A p = Some x)
        (take (length (filter (λ i, ¬ default false (F !! Z.to_nat i) = true) l))
              (drop j perm)) xs
    ∧ res ≡ₚ filter (λ i, default false (F !! Z.to_nat i) = true) l ++ xs.
Proof.
  intros Hl Hperm. revert np j. induction l as [|i l IH]; intros np j Hcount.
  - exists [], []. cbn [vec_fold filter list_filter length take]. rewrite app_nil_r, Nat.add_0_r.
    split; [done|]. split; [constructor|]. split; [constructor|done].
  - apply Forall_cons in Hl as [Hi Hl]. specialize (IH Hl). cbn [vec_fold].
    rewrite (vec_get_in_range F i) by lia. rewrite !filter_cons in *.
    destruct (F !! Z.to_nat i) as [b|] eqn:E; [|apply lookup_ge_None in E; lia].
    cbn [mbind option_bind default] in *. destruct b.
    + rewrite decide_False in * by (by intros H; apply H). rewrite decide_True by done.
      cbn [mbind option_bind].
      destruct (IH (np ++ [i]) j Hcount) as (res & xs & Hrun & Hfix & Hxs & Hp).
      exists (i :: res), xs. rewrite Hrun. rewrite <- app_assoc.
      split; [done|]. split; [by constructor|]. split; [done|].
      cbn [app]. by constructor.
    + rewrite decide_True in * by done. rewrite decide_False by done.
      cbn [length] in *.
      destruct (lookup_lt_is_Some_2 perm j) as [p Hp]; [lia|].
      rewrite vec_get_nat, Hp. cbn [mbind option_bind].
      assert (0 ≤ p < Z.of_nat (length A)) as Hprange.
      { rewrite Forall_forall in Hperm. apply Hperm. by apply list_elem_of_lookup_2 in Hp. }
      destruct (vec_get_defined A p Hprange) as [x Hx]. rewrite Hx. cbn [mbind option_bind].
      replace (Z.of_nat j + 1) with (Z.of_nat (S j)) by lia.
      destruct (IH (np ++ [x]) (S j)) as (res & xs & Hrun & Hfix & Hxs & Hperm').
      { lia. }
      exists (x :: res), (x :: xs). rewrite Hrun, <- app_assoc.
      replace (S j + length (filter (λ i, ¬ default false (F !! Z.to_nat i) = true) l))%nat
        with (j + S (length (filter (λ i, ¬ default false (F !! Z.to_nat i) = true) l)))%nat
        by lia.
      split; [done|]. split; [constructor; [by rewrite E|done]|].
      split.
      * rewrite (drop_S _ _ _ Hp). cbn [take]. by constructor.
      * rewrite Hperm'. apply Permutation_middle.
Qed.

Lemma fmap_vec_get_index_range (A : list Z) :
  (λ p, default 0 (vec_get A p)) <$> index_range 0 (length A) = A.
Proof.
  apply list_eq. intros i. rewrite list_lookup_fmap.
  destruct (decide (i < length A)%nat) as [Hi|Hi].
  - rewrite index_range_lookup by done. cbn [fmap option_fmap option_map plus].
    rewrite vec_get_nat. by destruct (lookup_lt_is_Some_2 A i Hi) as [x ->].
  - rewrite (lookup_ge_None_2 A) by lia.
    rewrite (lookup_ge_None_2 (index_range 0 (length A))); [done|].
    rewrite index_range_length. lia.
Qed.

(** X29.  For a valid perm and duplicate-free axes within the rank of the
    unsqueezed tensor, [UnsqueezePerm] returns a valid perm of size
    [perm.size() + axes.size()] that leaves every added axis in its place. *)
Theorem UnsqueezePerm_valid (axes perm : list Z) :
  IsValidPerm perm = true → NoDup axes →
  Forall (λ a, 0 ≤ a < Z.of_nat (length perm + length axes)) axes →
  ∃ r, UnsqueezePerm axes perm = Some r
       ∧ length r = (length perm + length axes)%nat
       ∧ IsValidPerm r = true
       ∧ ∀ a, a ∈ axes → vec_get r a = Some a.
Proof.
  intros Hvalid Hnodup Haxes. unfold UnsqueezePerm. cbv zeta.
  set (n := (length perm + length axes)%nat) in *.
  destruct (mark_axes_defined (replicate n false) axes) as (F & HF & HlenF).
  { by rewrite length_replicate. }
  rewrite length_replicate in HlenF.
  apply mark_axes_spec in HF as Hmark. destruct Hmark as [_ Hmark].
  rewrite HF. cbn [mbind option_bind].
  assert (Forall (λ i, 0 ≤ i < Z.of_nat (length F)) (index_range 0 n)) as Hrange.
  { apply Forall_forall. intros i Hi%elem_of_index_range. lia. }
  rewrite (UnsqueezePerm_axes_map F _ [] Hrange). cbn [mbind option_bind app].
  set (A := filter (λ i, ¬ default false (F !! Z.to_nat i) = true) (index_range 0 n)).
  assert (∀ a, default false (F !! Z.to_nat a) = true ∧ 0 ≤ a < Z.of_nat n ↔ a ∈ axes)
    as Hadded.
  { intros a. split.
    - intros [Ha Hr]. destruct (F !! Z.to_nat a) as [[]|] eqn:E; [|done|done].
      apply Hmark in E as [E|[_ E]].
      + by apply lookup_replicate in E as [? _].
      + by rewrite Z2Nat.id in E by lia.
    - intros Ha. rewrite Forall_forall in Haxes. specialize (Haxes a Ha).
      split; [|done].
      assert (F !! Z.to_nat a = Some true) as ->; [|done].
      apply Hmark. right. rewrite length_replicate. split; [lia|].
      by rewrite Z2Nat.id by lia. }
  assert (filter (λ i, default false (F !! Z.to_nat i) = true) (index_range 0 n) ++ A
          ≡ₚ index_range 0 n) as Hsplit.
  { apply (filter_app_complement (λ i, default false (F !! Z.to_nat i) = true)). }
  assert (length A = length perm) as HlenA.
  { assert (filter (λ i, default false (F !! Z.to_nat i) = true) (index_range 0 n) ≡ₚ axes)
      as Hp.
    { apply NoDup_Permutation; [apply NoDup_filter, index_range_NoDup|done|].
      intros a. rewrite list_elem_of_filter, elem_of_index_range, <- Hadded.
      split; (intros [? ?]; split; [done|lia]). }
    apply Permutation_length in Hsplit.
    rewrite length_app, (Permutation_length Hp), index_range_length in Hsplit.
    subst n. lia. }
  destruct (UnsqueezePerm_loop F A perm (index_range 0 n) [] 0 Hrange)
    as (r & xs & Hrun & Hfix & Hxs & Hperm).
  { rewrite HlenA. by apply IsValidPerm_range. }
  { fold A. lia. }
  fold A in Hrun, Hxs. change (Z.of_nat 0) with 0 in Hrun. rewrite Hrun.
  cbn [mbind option_bind fst app]. exists r. split; [done|].
  assert (length r = n) as Hlenr.
  { rewrite <- (Forall2_length _ _ _ Hfix). apply index_range_length. }
  split; [exact Hlenr|].
  assert (r ≡ₚ index_range 0 n) as Hr.
  { etrans; [exact Hperm|]. etrans; [|exact Hsplit]. apply Permutation_app_head.
    rewrite drop_0, take_ge in Hxs by lia.
    assert (xs = (λ p, default 0 (vec_get A p)) <$> perm) as ->.
    { symmetry. apply list_eq_Forall2, Forall2_fmap_l.
      eapply Forall2_impl; [exact Hxs|]. intros p x Hpx. cbn. by rewrite Hpx. }
    rewrite (IsValidPerm_Permutation perm Hvalid), <- HlenA.
    by rewrite fmap_vec_get_index_range. }
  split.
  - apply IsValidPerm_intro.
    + rewrite Hr. apply index_range_NoDup.
    + rewrite Hlenr. apply Forall_forall. intros x Hx. rewrite Hr in Hx.
      apply elem_of_index_range in Hx. lia.
  - intros a Ha. apply Hadded in Ha as [Ha Hr'].
    rewrite vec_get_in_range by lia.
    assert (index_range 0 n !! Z.to_nat a = Some a) as Hidx.
    { rewrite index_range_lookup by lia. f_equal. lia. }
    destruct (Forall2_lookup_l _ _ _ _ _ Hfix Hidx) as (x & Hx & Hxa).
    by rewrite Hx, (Hxa Ha).
Qed.

Lemma UnsqueezePerm_valid_witness :
  ∃ r, UnsqueezePerm [0; 3] [2; 0; 1] = Some r
       ∧ length r = 5%nat
       ∧ IsValidPerm r = true
       ∧ ∀ a, a ∈ [0; 3] → vec_get r a = Some a.
Proof.
  apply (UnsqueezePerm_valid [0; 3] [2; 0; 1] eq_refl).
  - apply NoDup_cons. split; [rewrite list_elem_of_singleton; lia|apply NoDup_singleton].
  - repeat constructor; cbn; lia.
Defined.

(** ** A layout change nobody asked for *)



